(** * docmost2outline: the migration engine, embedded and verified

    A shallow embedding of the Python sources

      - [migrator/markdown_transformer.py]  (regular-expression rewrites),
      - [migrator/docmost_parser.py]        (export reader),
      - [migrator/outline_client.py]        (HTTP client with rate-limit retry),
      - [migrator/attachment_handler.py]    (attachment resolution and upload),
      - [utils/validators.py]               (pre-flight validation),
      - [migrator/orchestrator.py]          (sequencing and cleanup),

    followed by the properties the specification states about them.

    Conventions.  A Python [str] is a [list ascii]: one [ascii] per code
    point, which covers the code points below 256.  Python integers are
    [Z] or [N].  A [pathlib] path is the list of its components.  Code that
    performs input/output runs in a state-and-exception monad over an
    explicit [World] (file system, remote server, effect trace). *)

From Stdlib Require Import Ascii String List ZArith QArith Lia DecimalString Sorted.
From stdpp Require Import base list strings gmap.

(* [set_solver] clears hypotheses it may already have cleared. *)
#[local] Set Warnings "-clear-no-such-hyp".

Local Open Scope char_scope.
Local Open Scope list_scope.

(* ================================================================== *)
(** * Python text primitives                                            *)
(* ================================================================== *)

Module Py.

Abbreviation str := (list ascii).

(** A [str] literal. *)
Definition txt (x : string) : str := list_ascii_of_string x.

(** Line feed, the character Python writes as a backslash followed by n. *)
Definition LF : ascii := ascii_of_nat 10.

Definition ord (c : ascii) : N := N_of_ascii c.

(** [c == x] on characters. *)
Definition ceq (c x : ascii) : bool := Ascii.eqb c x.

(** [str.isspace] on one code point (below 256): the characters that
    [str.strip()] removes and that the pattern escape for white space
    matches in a [str] pattern. *)
Definition isspace (c : ascii) : bool :=
  let n := ord c in
  ((9 <=? n) && (n <=? 13) || (28 <=? n) && (n <=? 32)
   || (n =? 133) || (n =? 160))%N.

(** [str.lower] on one code point (below 256). *)
Definition lower (c : ascii) : ascii :=
  let n := ord c in
  if ((65 <=? n) && (n <=? 90)
      || (192 <=? n) && (n <=? 222) && negb (n =? 215))%N
  then ascii_of_N (n + 32) else c.

(** [s.lstrip(chars)] with the set of characters given as a predicate. *)
Fixpoint lstrip_by (p : ascii -> bool) (s : str) : str :=
  match s with
  | c :: s' => if p c then lstrip_by p s' else s
  | [] => []
  end.

Definition rstrip_by (p : ascii -> bool) (s : str) : str :=
  rev (lstrip_by p (rev s)).

(** [s.lstrip("/")]. *)
Definition lstrip_slash (s : str) : str := lstrip_by (fun c => ceq c "/") s.

(** [s.strip()]. *)
Definition strip (s : str) : str := rstrip_by isspace (lstrip_by isspace s).

(** [x in s] for a one-character [x]. *)
Definition contains_char (x : ascii) (s : str) : bool :=
  existsb (fun c => ceq c x) s.

(** [s.split(sep)] for a one-character separator. *)
Fixpoint split_on (sep : ascii) (s : str) : list str :=
  match s with
  | [] => [[]]
  | c :: s' =>
      if ceq c sep then [] :: split_on sep s'
      else match split_on sep s' with
           | w :: ws => (c :: w) :: ws
           | [] => [[c]]
           end
  end.

(** [sep.join(parts)]. *)
Fixpoint join (sep : str) (parts : list str) : str :=
  match parts with
  | [] => []
  | [w] => w
  | w :: ws => w ++ sep ++ join sep ws
  end.

(** [str(n)] for a non-negative integer. *)
Definition str_of_N (n : N) : str :=
  list_ascii_of_string (NilZero.string_of_uint (N.to_uint n)).

(** [a == b] on strings. *)
Definition str_eqb (a b : str) : bool := bool_decide (a = b).

(** [s.startswith(p)], returning the rest of [s] after [p]. *)
Fixpoint strip_prefix (p s : str) : option str :=
  match p, s with
  | [], _ => Some s
  | x :: p', c :: s' => if ceq c x then strip_prefix p' s' else None
  | _ :: _, [] => None
  end.

(** Lexicographic [a <= b] on strings, by code point. *)
Fixpoint str_leb (a b : str) : bool :=
  match a, b with
  | [], _ => true
  | _ :: _, [] => false
  | x :: a', y :: b' =>
      if (ord x <? ord y)%N then true
      else if (ord y <? ord x)%N then false
      else str_leb a' b'
  end.

End Py.

Import Py.

(* ================================================================== *)
(** * pathlib (POSIX flavour)                                           *)
(* ================================================================== *)

Module Pathlib.

(** A path is the list of its components; absolute paths are read from
    the root directory, relative ones from the place the code joins them
    to. *)
Abbreviation Path := (list str).

(** The components of [PurePosixPath(s)] apart from the root: empty and
    dot components are dropped. *)
Definition parts_of (s : str) : Path :=
  List.filter (fun w => negb (str_eqb w []) && negb (str_eqb w (txt ".")))
         (split_on "/" s).

(** [p.name]: the final component, or the empty string. *)
Definition name (p : Path) : str := List.last p [].

(** [p.parent]. *)
Definition parent (p : Path) : Path := removelast p.

(** [p.parents]: the ancestors, nearest first; a path of [n] components
    has [n] of them (the last one is the anchor, whose name is empty). *)
Definition parents (p : Path) : list Path :=
  map (fun k => take k p) (rev (seq 0 (length p))).

(** [p.suffix]: the part of the name from its last dot on, when that dot
    is neither the first nor the last character of the name. *)
Fixpoint split_last_dot (nm : str) : option (str * str) :=
  match nm with
  | [] => None
  | c :: nm' =>
      match split_last_dot nm' with
      | Some (stem, suf) => Some (c :: stem, suf)
      | None => if ceq c "." then Some ([], nm) else None
      end
  end.

Definition suffix_of_name (nm : str) : str :=
  match split_last_dot nm with
  | Some (_ :: _, (_ :: _ :: _) as suf) => suf
  | _ => []
  end.

Definition suffix (p : Path) : str := suffix_of_name (name p).

(** [p.stem]: the name without its suffix. *)
Definition stem (p : Path) : str :=
  let nm := name p in take (length nm - length (suffix p)) nm.

(** [p.with_suffix(suffix)] for a suffix that starts with a dot and holds
    no separator; [None] stands for the [ValueError] raised on a path with
    an empty name. *)
Definition with_suffix (p : Path) (suf : str) : option Path :=
  match name p with
  | [] => None
  | _ :: _ => Some (removelast p ++ [stem p ++ suf])
  end.

(** [p.relative_to(base)]; [None] stands for the [ValueError] raised when
    [base] is not an ancestor of [p] (or [p] itself). *)
Fixpoint relative_to (p base : Path) : option Path :=
  match base, p with
  | [], _ => Some p
  | b :: base', c :: p' => if str_eqb c b then relative_to p' base' else None
  | _ :: _, [] => None
  end.

(** [str(p)] for an absolute path. *)
Definition path_str (p : Path) : str :=
  match p with
  | [] => ["/"]
  | _ :: _ => "/" :: join ["/"] p
  end.

End Pathlib.

Import Pathlib.

(* ================================================================== *)
(** * The fragment of Python's [re] module the sources use              *)
(* ================================================================== *)

Module Re.

(** Compilation flags. *)
Record flags := { IGNORECASE : bool; DOTALL : bool }.

Definition no_flags : flags := {| IGNORECASE := false; DOTALL := false |}.

(** One-character pattern items. *)
Inductive atom :=
| Lit (x : ascii)       (** a literal character (escaped or not) *)
| NotLit (x : ascii)    (** a negated one-character class *)
| Space                 (** the white-space escape *)
| Dot.                  (** the dot *)

(** Patterns.  Every repetition in the sources is over a one-character
    item, so the repetition operators take an [atom]. *)
Inductive regex :=
| Empty
| Atom (a : atom)
| Opt (a : atom)               (** greedy optional item *)
| Star (a : atom)              (** greedy star *)
| Plus (a : atom)              (** greedy plus *)
| LazyStar (a : atom)          (** non-greedy star *)
| Group (n : nat) (r : regex)  (** capturing group number [n] *)
| Seq (r1 r2 : regex).

(** A literal string: what [re.escape] followed by compilation yields. *)
Fixpoint Str (s : str) : regex :=
  match s with
  | [] => Empty
  | c :: s' => Seq (Atom (Lit c)) (Str s')
  end.

(** The concatenation of a list of patterns. *)
Fixpoint Cat (rs : list regex) : regex :=
  match rs with
  | [] => Empty
  | r :: rs' => Seq r (Cat rs')
  end.

(** Captured groups, most recent binding first. *)
Definition caps := list (nat * str).

Definition group (g : caps) (n : nat) : option str :=
  snd <$> List.find (fun b => Nat.eqb (fst b) n) g.

Definition atom_matches (fl : flags) (a : atom) (c : ascii) : bool :=
  match a with
  | Lit x => if IGNORECASE fl then ceq (lower c) (lower x) else ceq c x
  | NotLit x =>
      negb (if IGNORECASE fl then ceq (lower c) (lower x) else ceq c x)
  | Space => isspace c
  | Dot => if DOTALL fl then true else negb (ceq c LF)
  end.

Section Backtracking.
Context {R : Type}.

(** Greedy repetition of a one-character test: take as many characters
    as possible, and give one back at a time while the rest of the
    pattern fails. *)
Fixpoint star_greedy (p : ascii -> bool) (s : str) (k : str -> option R)
  : option R :=
  match s with
  | c :: s' =>
      if p c then
        match star_greedy p s' k with
        | Some r => Some r
        | None => k s
        end
      else k s
  | [] => k []
  end.

(** Non-greedy repetition: try the rest of the pattern first, and take
    one more character each time it fails. *)
Fixpoint star_lazy (p : ascii -> bool) (s : str) (k : str -> option R)
  : option R :=
  match k s with
  | Some r => Some r
  | None =>
      match s with
      | c :: s' => if p c then star_lazy p s' k else None
      | [] => None
      end
  end.

(** The backtracking matcher, anchored at the start of [s]: [k] is the
    rest of the pattern, called with the text left and the groups
    captured so far. *)
Fixpoint run (fl : flags) (r : regex) (s : str) (g : caps)
    (k : str -> caps -> option R) : option R :=
  match r with
  | Empty => k s g
  | Atom a =>
      match s with
      | c :: s' => if atom_matches fl a c then k s' g else None
      | [] => None
      end
  | Opt a =>
      match s with
      | c :: s' =>
          if atom_matches fl a c then
            match k s' g with
            | Some r => Some r
            | None => k s g
            end
          else k s g
      | [] => k s g
      end
  | Star a => star_greedy (atom_matches fl a) s (fun s' => k s' g)
  | Plus a =>
      match s with
      | c :: s' =>
          if atom_matches fl a c
          then star_greedy (atom_matches fl a) s' (fun s' => k s' g)
          else None
      | [] => None
      end
  | LazyStar a => star_lazy (atom_matches fl a) s (fun s' => k s' g)
  | Group n r1 =>
      run fl r1 s g
        (fun s' g' => k s' ((n, take (length s - length s') s) :: g'))
  | Seq r1 r2 => run fl r1 s g (fun s' g' => run fl r2 s' g' k)
  end.

End Backtracking.

(** A compiled pattern. *)
Record Pattern := { pat_flags : flags; pat_re : regex; pat_groups : nat }.

(** One match: the matched text (group 0), the groups, the text left. *)
Record Match := { m_text : str; m_groups : caps; m_rest : str }.

(** [pattern.match] at the start of [s]; with [must_advance] an empty
    match is refused, as the scanner does right after an empty match. *)
Definition match_at (P : Pattern) (must_advance : bool) (s : str)
  : option Match :=
  run (pat_flags P) (pat_re P) s []
    (fun s' g =>
       if must_advance && (length s' =? length s)%nat then None
       else Some {| m_text := take (length s - length s') s;
                    m_groups := g; m_rest := s' |}).

(** What the scanner behind [findall] and [sub] produces, left to right:
    characters no match covers, and matches. *)
Inductive piece :=
| Skip (c : ascii)
| Hit (m : Match).

Fixpoint scan (P : Pattern) (fuel : nat) (must_advance : bool) (s : str)
  : list piece :=
  match fuel with
  | O => []
  | S fuel' =>
      match match_at P must_advance s with
      | Some m =>
          Hit m ::
            (if (length (m_rest m) =? length s)%nat
             then scan P fuel' true s
             else scan P fuel' false (m_rest m))
      | None =>
          match s with
          | [] => []
          | c :: s' => Skip c :: scan P fuel' false s'
          end
      end
  end.

Definition pieces (P : Pattern) (s : str) : list piece :=
  scan P (2 * length s + 2) false s.

(** [m.group(n)] with [None] turned into the empty string, as template
    expansion does. *)
Definition group_text (m : Match) (n : nat) : str :=
  match n with
  | O => m_text m
  | S _ => default [] (group (m_groups m) n)
  end.

(** [re.findall] for a pattern with exactly one group: the text of
    group 1 of every match. *)
Definition findall (P : Pattern) (s : str) : list str :=
  omap (fun p => match p with
                 | Hit m => Some (group_text m 1)
                 | Skip _ => None
                 end) (pieces P s).

(** [re.sub] with a function as replacement. *)
Definition sub_fn (P : Pattern) (repl : Match -> str) (s : str) : str :=
  concat (map (fun p => match p with
                        | Hit m => repl m
                        | Skip c => [c]
                        end) (pieces P s)).

(** ** Replacement templates ([re._parser.parse_template]) *)

Inductive titem :=
| TLit (c : ascii)
| TGroup (n : nat).

Definition is_digit (c : ascii) : bool :=
  ((48 <=? ord c) && (ord c <=? 57))%N.

Definition is_octdigit (c : ascii) : bool :=
  ((48 <=? ord c) && (ord c <=? 55))%N.

Definition is_ascii_letter (c : ascii) : bool :=
  ((65 <=? ord c) && (ord c <=? 90) || (97 <=? ord c) && (ord c <=? 122))%N.

Definition digit_val (c : ascii) : N := (ord c - 48)%N.

(** [int(ds)] for a string of decimal digits. *)
Definition int_of_digits (ds : str) : N :=
  fold_left (fun acc c => (10 * acc + digit_val c)%N) ds 0%N.

(** The table [ESCAPES] of the template parser. *)
Definition escape_char (c : ascii) : option ascii :=
  if ceq c "a" then Some (ascii_of_nat 7)
  else if ceq c "b" then Some (ascii_of_nat 8)
  else if ceq c "f" then Some (ascii_of_nat 12)
  else if ceq c "n" then Some (ascii_of_nat 10)
  else if ceq c "r" then Some (ascii_of_nat 13)
  else if ceq c "t" then Some (ascii_of_nat 9)
  else if ceq c "v" then Some (ascii_of_nat 11)
  else if ceq c "\" then Some "\"
  else None.

(** The text up to the first [x], and what follows that [x]. *)
Fixpoint until_char (x : ascii) (s : str) : option (str * str) :=
  match s with
  | [] => None
  | c :: s' =>
      if ceq c x then Some ([], s')
      else match until_char x s' with
           | Some (w, rest) => Some (c :: w, rest)
           | None => None
           end
  end.

(** [parse_template] for a pattern with [groups] groups, none of them
    named; [None] stands for the error the parser raises. *)
Fixpoint parse_template (fuel : nat) (groups : nat) (t : str)
  : option (list titem) :=
  match fuel with
  | O => None
  | S fuel' =>
      let continue item rest := (item ++.) <$> parse_template fuel' groups rest in
      let addgroup (index : N) rest :=
        if (index <=? N.of_nat groups)%N
        then continue [TGroup (N.to_nat index)] rest else None in
      match t with
      | [] => Some []
      | this :: rest0 =>
          if negb (ceq this "\") then continue [TLit this] rest0
          else
            match rest0 with
            | [] => None
            | c :: rest =>
                if ceq c "g" then
                  match rest with
                  | [] => None
                  | lt :: rest1 =>
                      if negb (ceq lt "<") then None
                      else
                        match until_char ">" rest1 with
                        | Some (nm, rest2) =>
                            match nm with
                            | [] => None
                            | _ :: _ =>
                                if forallb is_digit nm
                                then addgroup (int_of_digits nm) rest2
                                else None
                            end
                        | None => None
                        end
                  end
                else if ceq c "0" then
                  match rest with
                  | d1 :: d2 :: rest2 =>
                      if is_octdigit d1 && is_octdigit d2
                      then continue
                             [TLit (ascii_of_N
                                      (N.land (8 * digit_val d1 + digit_val d2)
                                              255))]
                             rest2
                      else if is_octdigit d1
                      then continue [TLit (ascii_of_N (digit_val d1))]
                                    (d2 :: rest2)
                      else continue [TLit (ascii_of_N 0)] rest
                  | [d1] =>
                      if is_octdigit d1
                      then continue [TLit (ascii_of_N (digit_val d1))] []
                      else continue [TLit (ascii_of_N 0)] rest
                  | [] => continue [TLit (ascii_of_N 0)] rest
                  end
                else if is_digit c then
                  match rest with
                  | d2 :: rest2 =>
                      if is_digit d2 then
                        match rest2 with
                        | d3 :: rest3 =>
                            if is_octdigit c && is_octdigit d2 && is_octdigit d3
                            then
                              let v := (64 * digit_val c + 8 * digit_val d2
                                        + digit_val d3)%N in
                              if (255 <? v)%N then None
                              else continue [TLit (ascii_of_N v)] rest3
                            else addgroup (10 * digit_val c + digit_val d2)%N
                                          rest2
                        | [] => addgroup (10 * digit_val c + digit_val d2)%N
                                         rest2
                        end
                      else addgroup (digit_val c) rest
                  | [] => addgroup (digit_val c) rest
                  end
                else
                  match escape_char c with
                  | Some e => continue [TLit e] rest
                  | None =>
                      if is_ascii_letter c then None
                      else continue [TLit "\"; TLit c] rest
                  end
            end
      end
  end.

Definition compile_template (P : Pattern) (t : str) : option (list titem) :=
  parse_template (S (length t)) (pat_groups P) t.

Definition expand (tpl : list titem) (m : Match) : str :=
  concat (map (fun i => match i with
                        | TLit c => [c]
                        | TGroup n => group_text m n
                        end) tpl).

(** [re.sub] with a template string as replacement; [None] stands for
    the [re.error] a malformed template raises (before any matching). *)
Definition sub_template (P : Pattern) (t : str) (s : str) : option str :=
  match compile_template P t with
  | Some tpl => Some (sub_fn P (expand tpl) s)
  | None => None
  end.

End Re.

(* ================================================================== *)
(** * [migrator/markdown_transformer.py]                                *)
(* ================================================================== *)

Module MarkdownTransformer.
Import Re.

(** The pattern of [extract_attachment_references]: an optional
    exclamation mark, a bracketed text free of closing brackets, and in
    parentheses group 1: up to two slashes, [files/], and one or more
    characters other than a closing parenthesis. *)
Definition reference_pattern : Pattern :=
  {| pat_flags := no_flags;
     pat_re :=
       Cat [Opt (Lit "!"); Atom (Lit "["); Star (NotLit "]"); Atom (Lit "]");
            Atom (Lit "(");
            Group 1 (Cat [Opt (Lit "/"); Opt (Lit "/"); Str (txt "files/");
                          Plus (NotLit ")")]);
            Atom (Lit ")")];
     pat_groups := 1 |}.

Definition extract_attachment_references (content : str) : list str :=
  let matches := findall reference_pattern content in
  map lstrip_slash matches.

(** The image pattern of [replace_attachment_urls] for one spelling. *)
Definition image_pattern (pattern : str) : Pattern :=
  {| pat_flags := no_flags;
     pat_re :=
       Cat [Atom (Lit "!"); Atom (Lit "["); Group 1 (Star (NotLit "]"));
            Atom (Lit "]"); Atom (Lit "("); Str pattern; Atom (Lit ")")];
     pat_groups := 1 |}.

(** The link pattern of [replace_attachment_urls] for one spelling. *)
Definition link_pattern (pattern : str) : Pattern :=
  {| pat_flags := no_flags;
     pat_re :=
       Cat [Atom (Lit "["); Group 1 (Star (NotLit "]"));
            Atom (Lit "]"); Atom (Lit "("); Str pattern; Atom (Lit ")")];
     pat_groups := 1 |}.

(** The replacement template of the image substitution. *)
Definition image_template (outline_url : str) : str :=
  txt "![\1](" ++ outline_url ++ txt ")".

(** The local function [replace_link]. *)
Definition replace_link (outline_url : str) (file_size : N) (m : Match)
  : str :=
  let link_text := strip (group_text m 1) in
  let filename :=
    if contains_char "/" link_text then name (parts_of link_text)
    else link_text in
  txt "[" ++ filename ++ txt " " ++ str_of_N file_size ++ txt "]("
    ++ outline_url ++ txt ")".

(** The body of the inner loop, for one spelling of one reference. *)
Definition replace_spelling (outline_url : str) (file_size : N)
    (pattern : str) (result : str) : option str :=
  result1 ← sub_template (image_pattern pattern)
                         (image_template outline_url) result;
  Some (sub_fn (link_pattern pattern) (replace_link outline_url file_size)
               result1).

(** The three spellings tried for a reference. *)
Definition spellings (docmost_path : str) : list str :=
  [docmost_path; txt "/" ++ docmost_path; txt "//" ++ docmost_path].

Definition replace_entry (entry : str * (str * N)) (result : str)
  : option str :=
  let '(docmost_path, (outline_url, file_size)) := entry in
  foldl (fun acc pattern =>
           r ← acc; replace_spelling outline_url file_size pattern r)
        (Some result) (spellings docmost_path).

(** [replace_attachment_urls]; the mapping is a [dict], iterated in
    insertion order; [None] stands for the [re.error] raised when the
    image template built from a URL is malformed. *)
Definition replace_attachment_urls (content : str)
    (url_mapping : list (str * (str * N))) : option str :=
  foldl (fun acc entry => r ← acc; replace_entry entry r)
        (Some content) url_mapping.

(** The pattern of [convert_details_to_headings], compiled with
    [re.DOTALL | re.IGNORECASE]. *)
Definition details_pattern : Pattern :=
  {| pat_flags := {| IGNORECASE := true; DOTALL := true |};
     pat_re :=
       Cat [Str (txt "<details>"); Star Space; Str (txt "<summary>");
            Group 1 (Plus (NotLit "<")); Str (txt "</summary>");
            Star Space; Group 2 (LazyStar Dot); Str (txt "</details>")];
     pat_groups := 2 |}.

(** The local function [replace_details]. *)
Definition replace_details (m : Match) : str :=
  let title := strip (group_text m 1) in
  let inner_content := strip (group_text m 2) in
  txt "### " ++ title ++ [LF; LF] ++ inner_content.

Definition convert_details_to_headings (content : str) : str :=
  sub_fn details_pattern replace_details content.

Definition transform_content (content : str)
    (url_mapping : list (str * (str * N))) : option str :=
  let result := convert_details_to_headings content in
  replace_attachment_urls result url_mapping.

End MarkdownTransformer.


(* ================================================================== *)
(** * The environment: file system, remote server, exceptions           *)
(* ================================================================== *)

Module Sys.

(** ** File system *)

(** A file carries its byte size and its content decoded as UTF-8 text
    ([None] when the bytes are no valid UTF-8). *)
Inductive Node :=
| Dir
| File (size : N) (text : option str).

(** Directory entries by absolute path, in the order the operating
    system lists them. *)
Abbreviation FS := (list (Path * Node)).

Definition path_eqb (p q : Path) : bool := bool_decide (p = q).

Definition fs_node (fs : FS) (p : Path) : option Node :=
  match p with
  | [] => Some Dir
  | _ :: _ => snd <$> List.find (fun e => path_eqb (fst e) p) fs
  end.

(** [base] is a proper ancestor of [p]. *)
Definition is_under (base p : Path) : bool :=
  match relative_to p base with
  | Some (_ :: _) => true
  | _ => false
  end.

(** [base] is the directory that holds [p]. *)
Definition is_child (base p : Path) : bool :=
  match relative_to p base with
  | Some [_] => true
  | _ => false
  end.

(** Following a path component by component; a double-dot component
    steps out of a directory that has to exist. *)
Fixpoint resolve (fs : FS) (cur rest : Path) : option Path :=
  match rest with
  | [] => Some cur
  | seg :: rest' =>
      if str_eqb seg (txt "..") then
        match fs_node fs cur with
        | Some Dir => resolve fs (removelast cur) rest'
        | _ => None
        end
      else resolve fs (cur ++ [seg]) rest'
  end.

Definition stat (fs : FS) (p : Path) : option Node :=
  q ← resolve fs [] p; fs_node fs q.

(** [p.exists()], [p.is_dir()], [p.is_file()]. *)
Definition exists_ (fs : FS) (p : Path) : bool :=
  match stat fs p with Some _ => true | None => false end.

Definition is_dir (fs : FS) (p : Path) : bool :=
  match stat fs p with Some Dir => true | _ => false end.

Definition is_file (fs : FS) (p : Path) : bool :=
  match stat fs p with Some (File _ _) => true | _ => false end.

(** [p.iterdir()] and [p.glob("*")]: the entries directly inside the
    directory [p] leads to, named through [p]. *)
Definition iterdir (fs : FS) (p : Path) : list Path :=
  match resolve fs [] p with
  | Some q =>
      omap (fun e => if is_child q (fst e)
                     then (p ++.) <$> relative_to (fst e) q else None) fs
  | None => []
  end.

(** [p.rglob(pattern)] for a pattern of one component, given as the test
    it makes on a name: every entry below [p] whose name passes. *)
Definition rglob (fs : FS) (p : Path) (pattern : str -> bool) : list Path :=
  match resolve fs [] p with
  | Some q =>
      omap (fun e => if is_under q (fst e) && pattern (name (fst e))
                     then (p ++.) <$> relative_to (fst e) q else None) fs
  | None => []
  end.

(** The component patterns the sources glob for. *)
Definition glob_md (nm : str) : bool :=
  match strip_prefix (rev (txt ".md")) (rev nm) with
  | Some _ => true
  | None => false
  end.

Definition glob_files (nm : str) : bool := str_eqb nm (txt "files").

Definition glob_any (nm : str) : bool := true.

(** [shutil.rmtree(p, ignore_errors=True)]. *)
Definition remove_tree (fs : FS) (p : Path) : FS :=
  List.filter (fun e => negb (path_eqb (fst e) p || is_under p (fst e))) fs.

(** ** Exceptions *)

(** The two messages of [ValidationError]. *)
Inductive validation_msg :=
| AttachmentFileNotFound (path : Path)
| ExceedsMaximumUploadSize (file_name : str) (size max_size : N).

Inductive exn :=
| FileNotFoundError (what : str)
| BadZipFile
| IsADirectoryError
| UnicodeDecodeError
| OSError
| ValueError
| OverflowError
| ReError
| ValidationError (msg : validation_msg)
| HTTPStatusError (status : Z)
| TransportError
| DecodeError
| Exception_ (msg : str).

Inductive result (A : Type) :=
| Ok (a : A)
| Raise (e : exn).
Arguments Ok {A} a.
Arguments Raise {A} e.

(** ** The remote service *)

Definition Form := list (str * str).

(** The calls the client makes: the RPC endpoints with their JSON
    payload, and the multipart upload to a pre-signed destination. *)
Inductive Request :=
| collections_create (name : str) (description color : option str)
| collections_info (id : str)
| documents_create (title text collectionId : str)
    (parentDocumentId : option str) (publish : bool)
| attachments_create (name contentType : str) (size : N)
    (documentId : option str)
| storage_upload (upload_url : str) (form_data : Form) (file_path : Path)
    (content_type : str).

(** The JSON bodies the client decodes; [JOther] is any body that the
    decoding of the call at hand rejects. *)
Inductive Json :=
| JCollection (id name : str)
| JDocument (id title collectionId : str) (parentDocumentId : option str)
    (url : str)
| JAttachment (uploadUrl : str) (form : option Form)
    (id url name : str) (size : Z)
| JOther.

Record Response := {
  status_code : Z;
  retry_after : option str;   (** the [Retry-After] header, when present *)
  json : Json }.

Inductive Reply :=
| NoReply                     (** the transport failed *)
| Replied (r : Response).

(** A Python [float]. *)
Inductive pyfloat :=
| Finite (q : Q)
| PlusInf
| MinusInf
| NaN.

(** ** Effects *)

Inductive Event :=
| EvMkdtemp (p : Path)
| EvRmtree (p : Path)
| EvRequest (r : Request)
| EvSleep (seconds : Q).

Record World := {
  fs : FS;
  (** What the file at a path holds when read as a ZIP archive: the tree
      [extractall] writes, entry paths relative to the destination;
      [None] when the file is no ZIP archive. *)
  archive : Path -> option FS;
  (** The names [tempfile.mkdtemp] will hand out. *)
  tmp_names : list Path;
  (** MIME sniffing, an external collaborator. *)
  mime_type : Path -> str;
  (** What [stat] reports as the size of a directory. *)
  dir_size : Path -> N;
  (** The remote side: the reply to the [n]-th call made. *)
  server : nat -> Request -> Reply;
  sent : nat;
  (** Everything done so far, oldest first. *)
  trace : list Event }.

Definition M (A : Type) : Type := World -> result A * World.

Definition ret {A} (a : A) : M A := fun w => (Ok a, w).

Definition raise {A} (e : exn) : M A := fun w => (Raise e, w).

Definition bind {A B} (m : M A) (f : A -> M B) : M B :=
  fun w =>
    match m w with
    | (Ok a, w') => f a w'
    | (Raise e, w') => (Raise e, w')
    end.

(** [try: body finally: cleanup]. *)
Definition try_finally {A} (body : M A) (cleanup : M unit) : M A :=
  fun w =>
    match body w with
    | (r, w') =>
        match cleanup w' with
        | (Ok _, w'') => (r, w'')
        | (Raise e, w'') => (Raise e, w'')
        end
    end.

(** [try: body except Exception: handler; raise]. *)
Definition try_except_reraise {A} (body : M A) (handler : M unit) : M A :=
  fun w =>
    match body w with
    | (Ok a, w') => (Ok a, w')
    | (Raise e, w') =>
        match handler w' with
        | (Ok _, w'') => (Raise e, w'')
        | (Raise e', w'') => (Raise e', w'')
        end
    end.

Definition get_fs : M FS := fun w => (Ok (fs w), w).

Definition log (ev : Event) : M unit :=
  fun w =>
    (Ok tt, {| fs := fs w; archive := archive w; tmp_names := tmp_names w;
               mime_type := mime_type w; dir_size := dir_size w;
               server := server w; sent := sent w;
               trace := trace w ++ [ev] |}).

Definition set_fs (fs' : FS) : M unit :=
  fun w =>
    (Ok tt, {| fs := fs'; archive := archive w; tmp_names := tmp_names w;
               mime_type := mime_type w; dir_size := dir_size w;
               server := server w; sent := sent w;
               trace := trace w |}).

(** Lifting a partial result: [None] raises [e]. *)
Definition or_raise {A} (o : option A) (e : exn) : M A :=
  match o with
  | Some a => ret a
  | None => raise e
  end.

(** A [for] loop over a list, threading the variables it updates. *)
Fixpoint for_each {X S} (xs : list X) (body : X -> S -> M S) (st : S)
  : M S :=
  match xs with
  | [] => ret st
  | x :: xs' => bind (body x st) (for_each xs' body)
  end.

(** How one iteration of a [for] loop over a range ends: with
    [continue] (or by falling off its end), or with [return]. *)
Inductive ctl (A : Type) :=
| Continue
| Return (a : A).
Arguments Continue {A}.
Arguments Return {A} a.

(** [for i in range(start, start + n): body] followed by [orelse]. *)
Fixpoint for_range {A} (n start : nat) (body : nat -> M (ctl A))
    (orelse : M A) : M A :=
  match n with
  | O => orelse
  | S n' =>
      bind (body start)
        (fun c =>
           match c with
           | Return a => ret a
           | Continue => for_range n' (S start) body orelse
           end)
  end.

(** [tempfile.mkdtemp]. *)
Definition mkdtemp : M Path :=
  fun w =>
    match tmp_names w with
    | [] => (Raise OSError, w)
    | p :: rest =>
        (Ok p, {| fs := fs w ++ [(p, Dir)]; archive := archive w;
                  tmp_names := rest; mime_type := mime_type w;
                  dir_size := dir_size w; server := server w;
                  sent := sent w;
                  trace := trace w ++ [EvMkdtemp p] |})
    end.

(** [shutil.rmtree(p, ignore_errors=True)]. *)
Definition rmtree (p : Path) : M unit :=
  bind get_fs (fun fs0 =>
  bind (set_fs (remove_tree fs0 p)) (fun _ =>
  log (EvRmtree p))).

(** [zipfile.ZipFile(zip_path).extractall(dest)]. *)
Definition extractall (zip_path dest : Path) : M unit :=
  fun w =>
    match stat (fs w) zip_path with
    | None => (Raise (FileNotFoundError (path_str zip_path)), w)
    | Some Dir => (Raise IsADirectoryError, w)
    | Some (File _ _) =>
        match archive w zip_path with
        | None => (Raise BadZipFile, w)
        | Some entries =>
            set_fs (fs w ++ map (fun e => (dest ++ fst e, snd e)) entries) w
        end
    end.

(** [p.read_text(encoding="utf-8")]. *)
Definition read_text (p : Path) : M str :=
  bind get_fs (fun fs0 =>
  match stat fs0 p with
  | None => raise (FileNotFoundError (path_str p))
  | Some Dir => raise IsADirectoryError
  | Some (File _ None) => raise UnicodeDecodeError
  | Some (File _ (Some content)) => ret content
  end).

(** [Path(p).stat().st_size]. *)
Definition st_size (p : Path) : M N :=
  fun w =>
    match stat (fs w) p with
    | None => (Raise (FileNotFoundError (path_str p)), w)
    | Some Dir => (Ok (dir_size w p), w)
    | Some (File size _) => (Ok size, w)
    end.

(** One HTTP call: the reply of the server, or the transport's error. *)
Definition http (r : Request) : M Response :=
  fun w =>
    let w' := {| fs := fs w; archive := archive w; tmp_names := tmp_names w;
                 mime_type := mime_type w; dir_size := dir_size w;
                 server := server w;
                 sent := S (sent w); trace := trace w ++ [EvRequest r] |} in
    match server w (sent w) r with
    | Replied resp => (Ok resp, w')
    | NoReply => (Raise TransportError, w')
    end.

(** [time.sleep(seconds)]. *)
Definition sleep (seconds : pyfloat) : M unit :=
  match seconds with
  | Finite q => if Qle_bool 0 q then log (EvSleep q) else raise ValueError
  | PlusInf => raise OverflowError
  | MinusInf | NaN => raise ValueError
  end.

(** [response.raise_for_status()]: every status outside 200..299 raises. *)
Definition raise_for_status (resp : Response) : M unit :=
  if ((200 <=? status_code resp) && (status_code resp <=? 299))%Z
  then ret tt else raise (HTTPStatusError (status_code resp)).

(** Python truthiness of an optional string. *)
Definition truthy (o : option str) : bool :=
  match o with
  | Some (_ :: _) => true
  | _ => false
  end.

#[global] Instance M_ret : MRet M := @ret.
#[global] Instance M_bind : MBind M := fun A B f m => bind m f.

End Sys.

Import Sys.

(* ================================================================== *)
(** * [migrator/outline_client.py]                                      *)
(* ================================================================== *)

Module OutlineClient.

Record OutlineCollection := {
  col_id : str;
  col_name : str;
  col_description : option str;
  col_color : option str }.

Record OutlineDocument := {
  doc_id : str;
  doc_title : str;
  doc_collectionId : str;
  doc_parentDocumentId : option str;
  doc_url : str }.

Record OutlineAttachment := {
  att_id : str;
  att_url : str;
  att_name : str;
  att_size : Z }.

(** Decoding of [response.json()] into the models; a body of another
    shape raises. *)
Definition decode_collection (j : Json) : M OutlineCollection :=
  match j with
  | JCollection id name =>
      mret {| col_id := id; col_name := name; col_description := None;
              col_color := None |}
  | _ => raise DecodeError
  end.

Definition decode_document (j : Json) : M OutlineDocument :=
  match j with
  | JDocument id title collectionId parentDocumentId url =>
      mret {| doc_id := id; doc_title := title;
              doc_collectionId := collectionId;
              doc_parentDocumentId := parentDocumentId; doc_url := url |}
  | _ => raise DecodeError
  end.

Definition decode_attachment (j : Json)
  : M (str * Form * OutlineAttachment) :=
  match j with
  | JAttachment uploadUrl form id url name size =>
      mret (uploadUrl, default [] form,
            {| att_id := id; att_url := url; att_name := name;
               att_size := size |})
  | _ => raise DecodeError
  end.

(** An optional payload field, added only when the argument is truthy. *)
Definition if_truthy (o : option str) : option str :=
  if truthy o then o else None.

Definition create_collection (name : str) (description color : option str)
  : M OutlineCollection :=
  let payload :=
    collections_create name (if_truthy description) (if_truthy color) in
  response ← http payload;
  raise_for_status response;;
  decode_collection (json response).

Definition get_collection (collection_id : str) : M OutlineCollection :=
  response ← http (collections_info collection_id);
  raise_for_status response;;
  decode_collection (json response).

Section RateLimited.
(** The built-in [float] applied to a string; [None] stands for its
    [ValueError]. *)
Variable float : str -> option pyfloat.

Definition max_retries : nat := 3.

(** The branch taken on a 429 response: sleep and [continue] while
    attempts remain, raise on the last one. *)
Definition on_rate_limited {A} (attempt : nat) (response : Response)
  : M (option (ctl A)) :=
  if (attempt <? max_retries - 1)%nat then
    let retry_after := default (txt "60") (retry_after response) in
    wait_seconds ← or_raise (float retry_after) ValueError;
    sleep wait_seconds;;
    mret (Some Continue)
  else
    raise_for_status response;;
    mret None.

Definition create_document (title text collection_id : str)
    (parent_document_id : option str) (publish : bool) : M OutlineDocument :=
  let payload :=
    documents_create title text collection_id (if_truthy parent_document_id)
                     publish in
  for_range max_retries 0
    (fun attempt =>
       response ← http payload;
       jump ← (if (status_code response =? 429)%Z
               then on_rate_limited attempt response
               else mret None);
       match jump with
       | Some c => mret c
       | None =>
           raise_for_status response;;
           document ← decode_document (json response);
           mret (Return document)
       end)
    (raise (Exception_ (txt "Max retries exceeded"))).

Definition create_attachment (name content_type : str) (size : N)
    (document_id : option str) : M (str * Form * OutlineAttachment) :=
  let payload :=
    attachments_create name content_type size (if_truthy document_id) in
  for_range max_retries 0
    (fun attempt =>
       response ← http payload;
       jump ← (if (status_code response =? 429)%Z
               then on_rate_limited attempt response
               else mret None);
       match jump with
       | Some c => mret c
       | None =>
           raise_for_status response;;
           data ← decode_attachment (json response);
           mret (Return data)
       end)
    (raise (Exception_ (txt "Max retries exceeded"))).

End RateLimited.

(** [open(file_path, "rb").read()]: only its failures matter here. *)
Definition read_bytes (file_path : Path) : M unit :=
  fs0 ← get_fs;
  match stat fs0 file_path with
  | None => raise (FileNotFoundError (path_str file_path))
  | Some Dir => raise IsADirectoryError
  | Some (File _ _) => mret tt
  end.

Definition upload_file_to_storage (upload_url : str) (form_data : Form)
    (file_path : Path) (content_type : str) : M unit :=
  read_bytes file_path;;
  response ← http (storage_upload upload_url form_data file_path
                                  content_type);
  raise_for_status response.

End OutlineClient.

(* ================================================================== *)
(** * [migrator/attachment_handler.py]                                  *)
(* ================================================================== *)

Module AttachmentHandler.
Import OutlineClient.

(** A Python [dict] with string keys: the entries in insertion order. *)
Abbreviation dict V := (list (str * V)).

(** [d[k] = v]: replaces the value of a key already present, where it
    stands; appends a new key. *)
Fixpoint dict_set {V} (k : str) (v : V) (d : dict V) : dict V :=
  match d with
  | [] => [(k, v)]
  | (k', v') :: d' =>
      if str_eqb k' k then (k, v) :: d' else (k', v') :: dict_set k v d'
  end.

(** [d.get(k)]. *)
Definition dict_get {V} (k : str) (d : dict V) : option V :=
  snd <$> List.find (fun e => str_eqb (fst e) k) d.

Section Uploads.
Variable float : str -> option pyfloat.

Definition upload_attachment (file_path : Path) (intended_name : option str)
  : M (str * N) :=
  let file_name :=
    match intended_name with
    | Some ((_ :: _) as n) => n
    | _ => name file_path
    end in
  content_type ← (fun w => (Ok (mime_type w file_path), w));
  file_size ← st_size file_path;
  created ← create_attachment float file_name content_type file_size None;
  let '(upload_url, form_data, attachment_info) := created in
  upload_file_to_storage upload_url form_data file_path content_type;;
  mret (att_url attachment_info, file_size).

(** Strategy 1: the reference joined to the attachments directory. *)
Definition direct_candidate (fs0 : FS) (attachments_dir : Path)
    (clean_path : str) : option Path :=
  let candidate := attachments_dir ++ parts_of clean_path in
  if exists_ fs0 candidate then Some candidate else None.

(** Strategy 2: the first entry of the first directory named after the
    second component of the reference, under any [files] directory. *)
Definition search_candidate (fs0 : FS) (attachments_dir : Path)
    (clean_path : str) : option Path :=
  let path_parts := parts_of clean_path in
  match path_parts with
  | _ :: uuid :: _ =>
      match uuid with
      | [] => None
      | _ :: _ =>
          List.head
            (omap (fun files_dir =>
                     let uuid_dir := files_dir ++ [uuid] in
                     if exists_ fs0 uuid_dir && is_dir fs0 uuid_dir
                     then List.head (iterdir fs0 uuid_dir) else None)
                  (rglob fs0 attachments_dir glob_files))
      end
  | _ => None
  end.

Definition resolve_reference (fs0 : FS) (attachments_dir : Path)
    (clean_path : str) : option Path :=
  match direct_candidate fs0 attachments_dir clean_path with
  | Some full_path => Some full_path
  | None => search_candidate fs0 attachments_dir clean_path
  end.

Definition upload_attachments_for_references (ref_paths : list str)
    (attachments_dir : Path) : M (dict (str * N)) :=
  for_each ref_paths
    (fun ref_path url_mapping =>
       let clean_path := lstrip_slash ref_path in
       let intended_name := name (parts_of clean_path) in
       fs0 ← get_fs;
       full_path ← or_raise (resolve_reference fs0 attachments_dir clean_path)
                            (FileNotFoundError ref_path);
       uploaded ← upload_attachment full_path (Some intended_name);
       mret (dict_set ref_path uploaded url_mapping))
    [].

End Uploads.
End AttachmentHandler.

(* ================================================================== *)
(** * [migrator/docmost_parser.py]                                      *)
(* ================================================================== *)

Module DocmostParser.

(** Page objects live in a store and are named by their index in it:
    the lists of an export and the [children] of a page hold such
    indices, so that a page reached in two ways is one object. *)
Record DocmostPage := {
  title : str;
  file_path : Path;
  content : str;
  parent_path : option Path;
  children : list nat;
  level : Z;
  outline_id : option str }.

Record DocmostExport := {
  space_name : str;
  root_pages : list nat;
  all_pages : list nat;
  attachments_dir : option Path;
  temp_dir : Path;
  page_store : list DocmostPage }.

(** [DocmostParser(zip_path)]. *)
Definition init (zip_path : Path) : M Path :=
  fs0 ← get_fs;
  if exists_ fs0 zip_path then mret zip_path
  else raise (FileNotFoundError (path_str zip_path)).

(** [page.children.append(child)]. *)
Definition append_child (child : nat) (page : DocmostPage) : DocmostPage :=
  {| title := title page; file_path := file_path page;
     content := content page; parent_path := parent_path page;
     children := children page ++ [child]; level := level page;
     outline_id := outline_id page |}.

(** The first loop of [parse]: one page per markdown file outside any
    [files] directory. *)
Definition build_pages (root_dir : Path) (md_files : list Path)
  : M (list DocmostPage * gmap Path nat) :=
  for_each md_files
    (fun md_file '(all_pages, page_by_path) =>
       if existsb (fun parent => str_eqb (name parent) (txt "files"))
                  (parents md_file)
       then mret (all_pages, page_by_path)
       else
         content ← read_text md_file;
         let title := stem md_file in
         let parent_path :=
           if negb (path_eqb (parent md_file) root_dir)
           then Some (parent md_file) else None in
         relative_path ← or_raise (relative_to md_file root_dir) ValueError;
         let level := (Z.of_nat (length (parents relative_path)) - 1)%Z in
         let page :=
           {| title := title; file_path := md_file; content := content;
              parent_path := parent_path; children := []; level := level;
              outline_id := None |} in
         mret (all_pages ++ [page],
               <[md_file := length all_pages]> page_by_path))
    ([], ∅).

(** The second loop of [parse]: root pages, and children appended to the
    page found under the parent directory's markdown name. *)
Definition link_pages (page_by_path : gmap Path nat)
    (store : list DocmostPage) : M (list nat * list DocmostPage) :=
  for_each (seq 0 (length store))
    (fun i '(root_pages, store) =>
       match store !! i with
       | None => mret (root_pages, store)
       | Some page =>
           if (level page =? 0)%Z then mret (root_pages ++ [i], store)
           else
             let parent_dir := parent (file_path page) in
             parent_md ← or_raise (with_suffix parent_dir (txt ".md"))
                                  ValueError;
             match page_by_path !! parent_md with
             | Some j => mret (root_pages, alter (append_child i) j store)
             | None => mret (root_pages, store)
             end
       end)
    ([], store).

(** The sort key [(p.level, p.title)] and its order. *)
Definition key_leb (a b : Z * str) : bool :=
  ((fst a <? fst b) || (fst a =? fst b) && str_leb (snd a) (snd b))%Z.

Definition sort_key (store : list DocmostPage) (i : nat) : Z * str :=
  match store !! i with
  | Some page => (level page, title page)
  | None => (0%Z, [])
  end.

(** A stable sort: an element goes before the first one that is not
    smaller than it. *)
Fixpoint insert_sorted {A} (leb : A -> A -> bool) (x : A) (l : list A)
  : list A :=
  match l with
  | [] => [x]
  | y :: l' => if leb x y then x :: y :: l' else y :: insert_sorted leb x l'
  end.

Definition stable_sort {A} (leb : A -> A -> bool) (l : list A) : list A :=
  foldr (insert_sorted leb) [] l.

(** The layout detection of [parse]: the root directory and the space
    name, from what the extraction left in [temp_dir]. *)
Definition detect_root (fs0 : FS) (temp_dir zip_path : Path) : Path * str :=
  let items := iterdir fs0 temp_dir in
  let dirs := List.filter (is_dir fs0) items in
  let files := List.filter (is_file fs0) items in
  match dirs, files with
  | [d], [] => (d, name d)
  | _, _ => (temp_dir, stem zip_path)
  end.

Definition parse (zip_path : Path) : M DocmostExport :=
  temp_dir ← mkdtemp;
  try_except_reraise
    (extractall zip_path temp_dir;;
     fs0 ← get_fs;
     let '(root_dir, space_name) := detect_root fs0 temp_dir zip_path in
     let attachments_dir := root_dir in
     let md_files := rglob fs0 root_dir glob_md in
     built ← build_pages root_dir md_files;
     let '(all_pages, page_by_path) := built in
     linked ← link_pages page_by_path all_pages;
     let '(root_pages, store) := linked in
     let all_pages :=
       stable_sort (fun i j => key_leb (sort_key store i) (sort_key store j))
                   (seq 0 (length store)) in
     mret {| space_name := space_name; root_pages := root_pages;
             all_pages := all_pages; attachments_dir := Some attachments_dir;
             temp_dir := temp_dir; page_store := store |})
    (rmtree temp_dir).

Definition cleanup (export : DocmostExport) : M unit :=
  fs0 ← get_fs;
  if exists_ fs0 (temp_dir export) then rmtree (temp_dir export)
  else mret tt.

Definition find_attachments (export : DocmostExport) : M (list Path) :=
  fs0 ← get_fs;
  match attachments_dir export with
  | None => mret []
  | Some dir =>
      if negb (exists_ fs0 dir) then mret []
      else
        mret (concat
                (map (fun files_dir =>
                        if is_dir fs0 files_dir
                        then List.filter (is_file fs0)
                                         (rglob fs0 files_dir glob_any)
                        else [])
                     (rglob fs0 dir glob_files)))
  end.

End DocmostParser.

(* ================================================================== *)
(** * [utils/validators.py]                                             *)
(* ================================================================== *)

Module Validators.

Definition validate_file_size (file_path : Path) (max_size : N) : M unit :=
  size ← st_size file_path;
  if (max_size <? size)%N
  then raise (ValidationError
                (ExceedsMaximumUploadSize (name file_path) size max_size))
  else mret tt.

Definition validate_all_attachments (attachment_paths : list Path)
    (max_size : N) : M (N * N) :=
  totals ←
    for_each attachment_paths
      (fun path '(total_size, total_files) =>
         fs0 ← get_fs;
         if negb (exists_ fs0 path)
         then raise (ValidationError (AttachmentFileNotFound path))
         else
           validate_file_size path max_size;;
           size ← st_size path;
           mret ((total_size + size)%N, (total_files + 1)%N))
      (0%N, 0%N);
  let '(total_size, total_files) := totals in
  mret (total_files, total_size).

End Validators.

(* ================================================================== *)
(** * [migrator/orchestrator.py]                                        *)
(* ================================================================== *)

Module Orchestrator.
Import MarkdownTransformer OutlineClient AttachmentHandler DocmostParser
  Validators.

Record MigrationStats := {
  documents_created : N;
  attachments_uploaded : N;
  total_attachment_size : N }.

(** What the document loop updates: the map from file path to remote
    document id, the statistics, and the page objects. *)
Record LoopState := {
  parent_id_map : gmap str str;
  stats : MigrationStats;
  store : list DocmostPage }.

(** [page.outline_id = id]. *)
Definition set_outline_id (id : str) (page : DocmostPage) : DocmostPage :=
  {| title := title page; file_path := file_path page;
     content := content page; parent_path := parent_path page;
     children := children page; level := level page;
     outline_id := Some id |}.

Section Migration.
Variable float : str -> option pyfloat.
Variable max_file_size : N.

(** The attachment step of one page: the guard on the attachments
    directory, the extraction of the references, and their upload. *)
Definition process_attachments (attachments_dir : option Path)
    (page : DocmostPage) (stats0 : MigrationStats)
  : M (dict (str * N) * MigrationStats) :=
  match attachments_dir with
  | Some dir =>
      let attachment_refs := extract_attachment_references (content page) in
      match attachment_refs with
      | [] => mret ([], stats0)
      | _ :: _ =>
          url_mapping ←
            upload_attachments_for_references float attachment_refs dir;
          mret (url_mapping,
                {| documents_created := documents_created stats0;
                   attachments_uploaded :=
                     (attachments_uploaded stats0
                      + N.of_nat (length attachment_refs))%N;
                   total_attachment_size := total_attachment_size stats0 |})
      end
  | None => mret ([], stats0)
  end.

(** The body of the document loop; [i] names the page object the loop
    variable is bound to. *)
Definition process_page (export : DocmostExport) (collection_id : str)
    (i : nat) (st : LoopState) : M LoopState :=
  page ← or_raise (store st !! i) (Exception_ (txt "no such page"));
  parent_doc_id ←
    match parent_path page with
    | Some dir =>
        parent_md ← or_raise (with_suffix dir (txt ".md")) ValueError;
        mret (parent_id_map st !! path_str parent_md)
    | None => mret None
    end;
  uploaded ← process_attachments (attachments_dir export) page (stats st);
  let '(url_mapping, stats1) := uploaded in
  transformed_content ←
    or_raise (transform_content (content page) url_mapping) ReError;
  document ← create_document float (title page) transformed_content
                             collection_id parent_doc_id true;
  mret {| parent_id_map :=
            <[path_str (file_path page) := doc_id document]>
              (parent_id_map st);
          stats :=
            {| documents_created := (documents_created stats1 + 1)%N;
               attachments_uploaded := attachments_uploaded stats1;
               total_attachment_size := total_attachment_size stats1 |};
          store := alter (set_outline_id (doc_id document)) i (store st) |}.

(** Step 2 of [migrate]: pre-flight validation. *)
Definition validate (export : DocmostExport) : M unit :=
  attachment_files ← find_attachments export;
  match attachment_files with
  | [] => mret tt
  | _ :: _ =>
      validate_all_attachments attachment_files max_file_size;;
      mret tt
  end.

(** Step 3 of [migrate]: the collection, fetched or created. *)
Definition setup_collection (export : DocmostExport)
    (collection_id : option str) : M (str * OutlineCollection) :=
  match collection_id with
  | Some ((_ :: _) as id) =>
      collection ← get_collection id;
      mret (id, collection)
  | _ =>
      collection ← create_collection (space_name export)
                     (Some (txt "Migrated from Docmost export"))
                     (Some (txt "#4E5C6E"));
      mret (col_id collection, collection)
  end.

(** Step 4 of [migrate]: the documents, in the order of [all_pages]. *)
Definition migrate_documents (export : DocmostExport) (collection_id : str)
  : M LoopState :=
  for_each (all_pages export) (process_page export collection_id)
    {| parent_id_map := ∅;
       stats := {| documents_created := 0; attachments_uploaded := 0;
                   total_attachment_size := 0 |};
       store := page_store export |}.

Definition migrate (zip_path : Path) (collection_id : option str)
  : M (str * MigrationStats) :=
  parser ← DocmostParser.init zip_path;
  export ← parse parser;
  try_finally
    (validate export;;
     chosen ← setup_collection export collection_id;
     let '(collection_id, collection) := chosen in
     final ← migrate_documents export collection_id;
     mret (collection_id, stats final))
    (cleanup export).

End Migration.
End Orchestrator.

(* ================================================================== *)
(** * Vocabulary for effects                                            *)
(* ================================================================== *)

Module Effects.

(** The calls made to the remote side among some events. *)
Definition requests (evs : list Event) : list Request :=
  omap (fun e => match e with EvRequest r => Some r | _ => None end) evs.

(** The files delivered to a storage destination among some events. *)
Definition uploaded_files (evs : list Event) : list Path :=
  omap (fun e => match e with
                 | EvRequest (storage_upload _ _ p _) => Some p
                 | _ => None
                 end) evs.

(** The temporary directories made and removed among some events. *)
Definition temp_events (evs : list Event) : list Event :=
  List.filter (fun e => match e with
                        | EvMkdtemp _ | EvRmtree _ => true
                        | _ => false
                        end) evs.

(** The world after the events [evs] of an operation that leaves the
    file system alone. *)
Definition extend (w : World) (evs : list Event) : World :=
  {| fs := fs w; archive := archive w; tmp_names := tmp_names w;
     mime_type := mime_type w; dir_size := dir_size w; server := server w;
     sent := sent w + length (requests evs);
     trace := trace w ++ evs |}.

(** The server answers [resp] to [r] made as the [k]-th call from [w] on. *)
Definition replies (w : World) (k : nat) (r : Request) (resp : Response)
  : Prop :=
  server w (sent w + k) r = Replied resp.

(** [m] leaves the file system alone, and the events it adds satisfy [P]. *)
Definition io_only {A} (P : list Event -> Prop) (m : M A) : Prop :=
  forall w, exists evs, snd (m w) = extend w evs /\ P evs.

(** Properties of event lists that sequencing preserves. *)
Class Closed (P : list Event -> Prop) : Prop := {
  closed_nil : P [];
  closed_app : forall a b, P a -> P b -> P (a ++ b) }.

(** The events [w'] has beyond those of [w]. *)
Definition new_events (w w' : World) : list Event :=
  drop (length (trace w)) (trace w').

End Effects.
Import Effects.

(* ================================================================== *)
(** * Vocabulary for the retry policy                                   *)
(* ================================================================== *)

Module RetryPolicy.
Import OutlineClient.
Section Policy.
Variable float : str -> option pyfloat.

(** A 429 response that asks to wait [q] seconds. *)
Definition rate_limited (resp : Response) (q : Q) : Prop :=
  status_code resp = 429%Z /\
  float (default (txt "60") (retry_after resp)) = Some (Finite q) /\
  Qle_bool 0 q = true.

(** How a response that ends the call is turned into its result. *)
Definition settle {A} (decode : Json -> M A) (resp : Response) : M A :=
  raise_for_status resp;; decode (json resp).

Definition is_success (resp : Response) : bool :=
  ((200 <=? status_code resp) && (status_code resp <=? 299))%Z.

(** The retry policy of a call that sends [payload] and decodes the
    answer with [decode]: between one and three requests are sent; a
    first answer other than 429 settles the call; after a 429 the call
    sleeps for the seconds the answer asks for and sends the request
    again; the third answer settles the call whatever it is; and an
    answer outside 200..299 settles a call by raising the status error. *)
Definition policy {A} (call : M A) (payload : Request) (decode : Json -> M A) : Prop :=
  (forall w, sent w < sent (snd (call w)) <= sent w + 3) /\
  (forall w r1, replies w 0 payload r1 -> status_code r1 <> 429%Z ->
     call w = settle decode r1 (extend w [EvRequest payload])) /\
  (forall w r1 q1 r2, replies w 0 payload r1 -> rate_limited r1 q1 ->
     replies w 1 payload r2 -> status_code r2 <> 429%Z ->
     call w = settle decode r2 (extend w [EvRequest payload; EvSleep q1; EvRequest payload])) /\
  (forall w r1 q1 r2 q2 r3, replies w 0 payload r1 -> rate_limited r1 q1 ->
     replies w 1 payload r2 -> rate_limited r2 q2 -> replies w 2 payload r3 ->
     call w = settle decode r3
       (extend w [EvRequest payload; EvSleep q1; EvRequest payload; EvSleep q2; EvRequest payload])) /\
  (forall resp w, is_success resp = false ->
     settle decode resp w = (Raise (HTTPStatusError (status_code resp)), w)).

(** One iteration of the retry loops of the client. *)
Definition attempt {A} (payload : Request) (decode : Json -> M A)
    (attempt : nat) : M (ctl A) :=
  response ← http payload;
  jump ← (if (status_code response =? 429)%Z
          then on_rate_limited float attempt response
          else mret None);
  match jump with
  | Some c => mret c
  | None =>
      raise_for_status response;;
      data ← decode (json response);
      mret (Return data)
  end.

Definition retrying {A} (payload : Request) (decode : Json -> M A) : M A :=
  for_range max_retries 0 (attempt payload decode)
    (raise (Exception_ (txt "Max retries exceeded"))).

End Policy.
End RetryPolicy.
Import RetryPolicy.

(* ================================================================== *)
(** * Vocabulary for the export reader                                  *)
(* ================================================================== *)

Module Reader.
Import DocmostParser.

(** Two page objects that differ at most in their children. *)
Definition same_but_children (p q : DocmostPage) : Prop :=
  title p = title q /\ file_path p = file_path q /\ content p = content q /\
  parent_path p = parent_path q /\ level p = level q /\
  outline_id p = outline_id q.

(** The test [parse] makes to skip a markdown file of an attachment
    directory. *)
Definition in_files_dir (md_file : Path) : bool :=
  existsb (fun parent => str_eqb (name parent) (txt "files")) (parents md_file).

(** What the first loop of [parse] establishes. *)
Definition built (root : Path) (mds : list Path)
    (st : list DocmostPage * gmap Path nat) : Prop :=
  let '(pages, pbp) := st in
  (forall i page, pages !! i = Some page ->
     exists rel, file_path page = root ++ rel /\
       level page = (Z.of_nat (length rel) - 1)%Z /\
       children page = [] /\ file_path page ∈ mds) /\
  (forall p i, pbp !! p = Some i ->
     exists page, pages !! i = Some page /\ file_path page = p) /\
  (forall i page, pages !! i = Some page -> is_Some (pbp !! file_path page)) /\
  (forall md, md ∈ mds -> in_files_dir md = false ->
     exists i page, pages !! i = Some page /\ file_path page = md).

(** The markdown path under which [parse] looks for the parent of a
    page: the containing directory, its suffix replaced. *)
Definition parent_md_of (page : DocmostPage) : option Path :=
  with_suffix (parent (file_path page)) (txt ".md").

(** What the second loop of [parse] has established once it has gone
    through the pages [done]. *)
Definition linked (pbp : gmap Path nat) (pages : list DocmostPage)
    (done : list nat) (st : list nat * list DocmostPage) : Prop :=
  let '(roots, store) := st in
  length store = length pages /\
  (forall j pj, pages !! j = Some pj ->
     exists pj', store !! j = Some pj' /\ same_but_children pj pj') /\
  (forall j pj pj' i, pages !! j = Some pj -> store !! j = Some pj' ->
     i ∈ children pj' <->
     i ∈ children pj \/
     (i ∈ done /\ exists page pm, pages !! i = Some page /\ level page <> 0%Z /\
        parent_md_of page = Some pm /\ pbp !! pm = Some j)) /\
  (forall i, i ∈ roots <->
     i ∈ done /\ exists page, pages !! i = Some page /\ level page = 0%Z) /\
  (forall i page, i ∈ done -> pages !! i = Some page -> level page <> 0%Z ->
     is_Some (parent_md_of page)).

(** The world [parse] leaves when it succeeds: the temporary directory
    [tmp] made, and the archive [entries] extracted into it. *)
Definition extracted (w : World) (tmp : Path) (rest : list Path)
    (entries : FS) : World :=
  {| fs := (fs w ++ [(tmp, Dir)]) ++ map (fun e => (tmp ++ fst e, snd e)) entries;
     archive := archive w; tmp_names := rest; mime_type := mime_type w;
     dir_size := dir_size w; server := server w; sent := sent w;
     trace := trace w ++ [EvMkdtemp tmp] |}.

(** The order by which [parse] sorts the pages. *)
Definition page_order (store : list DocmostPage) (i j : nat) : bool :=
  key_leb (sort_key store i) (sort_key store j).

End Reader.
Import Reader.

(* ================================================================== *)
(** * Vocabulary for the temporary directory                            *)
(* ================================================================== *)

Module Release.

(** Nothing is left at or below [p]. *)
Definition gone (fs0 : FS) (p : Path) : Prop :=
  forall q nd, (q, nd) ∈ fs0 -> q <> p /\ is_under p q = false.

(** A path with no double-dot component, as [tempfile.mkdtemp] returns. *)
Definition plain (p : Path) : Prop := txt ".." ∉ p.

(** The world after [shutil.rmtree(p)]. *)
Definition removed (w : World) (p : Path) : World :=
  {| fs := remove_tree (fs w) p; archive := archive w;
     tmp_names := tmp_names w; mime_type := mime_type w;
     dir_size := dir_size w; server := server w; sent := sent w;
     trace := trace w ++ [EvRmtree p] |}.

End Release.
Import Release.

(* ================================================================== *)
(** * Vocabulary for patterns                                           *)
(* ================================================================== *)

Module Matching.
Import Re.

(** The least number of characters a match of [r] takes. *)
Fixpoint minlen (r : regex) : nat :=
  match r with
  | Empty | Opt _ | Star _ | LazyStar _ => 0
  | Atom _ | Plus _ => 1
  | Group _ r1 => minlen r1
  | Seq r1 r2 => minlen r1 + minlen r2
  end.

(** What is left of [s] after the literal [lit] at its start, compared
    as the flags say. *)
Fixpoint after_literal (fl : flags) (lit s : str) : option str :=
  match lit, s with
  | [], _ => Some s
  | x :: lit', c :: s' =>
      if atom_matches fl (Lit x) c then after_literal fl lit' s' else None
  | _ :: _, [] => None
  end.

(** The longest prefix of [s] whose characters all pass [p]. *)
Fixpoint span_by (p : ascii -> bool) (s : str) : str :=
  match s with
  | c :: s' => if p c then c :: span_by p s' else []
  | [] => []
  end.

(** What it means for [r] to match the whole of [w], as a property of
    [w] alone: no order among the alternatives, no backtracking.  The
    groups [g] known before the match become [g'] after it. *)
Fixpoint matches (fl : flags) (r : regex) (w : str) (g g' : caps) : Prop :=
  match r with
  | Empty => w = [] /\ g' = g
  | Atom a => (exists c, w = [c] /\ atom_matches fl a c = true) /\ g' = g
  | Opt a =>
      (w = [] \/ exists c, w = [c] /\ atom_matches fl a c = true) /\ g' = g
  | Star a | LazyStar a =>
      Forall (fun c => atom_matches fl a c = true) w /\ g' = g
  | Plus a =>
      w <> [] /\ Forall (fun c => atom_matches fl a c = true) w /\ g' = g
  | Group n r1 => exists g1, matches fl r1 w g g1 /\ g' = (n, w) :: g1
  | Seq r1 r2 =>
      exists w1 w2 g1,
        w = w1 ++ w2 /\ matches fl r1 w1 g g1 /\ matches fl r2 w2 g1 g'
  end.

End Matching.
Import Matching.

(* ================================================================== *)
(** * Vocabulary for markdown bodies                                    *)
(* ================================================================== *)

Module Markdown.
Import Re MarkdownTransformer.

(** An image or a link as it stands in a body, with the text before it:
    [gap], an exclamation mark when [image], and then the bracketed
    [text] and the parenthesised [target]. *)
Record occurrence := {
  gap : str;
  image : bool;
  text : str;
  target : str }.

Definition bang (b : bool) : str := if b then ["!"] else [].

Definition written (o : occurrence) : str :=
  gap o ++ bang (image o) ++ txt "[" ++ text o ++ txt "](" ++ target o
        ++ txt ")".

(** The body made of some occurrences and the text after the last. *)
Definition body_of (os : list occurrence) (trailer : str) : str :=
  concat (map written os) ++ trailer.

Definition has (x : ascii) (s : str) : Prop := x ∈ s.

Definition ends_with_bang (s : str) : bool :=
  match rev s with
  | "!" :: _ => true
  | _ => false
  end.

(** [s] without its first character when that is [x]. *)
Definition skip1 (x : ascii) (s : str) : str :=
  match s with
  | c :: s' => if ceq c x then s' else s
  | [] => []
  end.

(** Up to two leading slashes removed. *)
Definition strip_slashes2 (s : str) : str := skip1 "/" (skip1 "/" s).

(** The reference a target stands for when it is a path into the
    attachment pool: at most two slashes, [files/], and at least one
    more character; the reference is the target without its leading
    slashes. *)
Definition pool_reference (target : str) : option str :=
  match after_literal no_flags (txt "files/") (strip_slashes2 target) with
  | Some (_ :: _) => Some (lstrip_slash target)
  | _ => None
  end.

(** An occurrence with no bracket in its gap, text and target, no
    closing parenthesis in its target, and (for a link) a gap that does
    not end with an exclamation mark. *)
Definition plain_occurrence (o : occurrence) : Prop :=
  ~ has "[" (gap o) /\ (image o = false -> ends_with_bang (gap o) = false) /\
  ~ has "[" (text o) /\ ~ has "]" (text o) /\
  ~ has "[" (target o) /\ ~ has ")" (target o).

(** An image or a link itself, without the text before it. *)
Definition shown (o : occurrence) : str :=
  bang (image o) ++ txt "[" ++ text o ++ txt "](" ++ target o ++ txt ")".

(** The text [s] starts with the image or link [o], whose target is a
    path into the attachment pool, and goes on with [post]. *)
Definition reference_at (s : str) (o : occurrence) (post : str) : Prop :=
  s = shown o ++ post /\
  ~ has "]" (text o) /\ ~ has ")" (target o) /\
  is_Some (pool_reference (target o)).

(** The references of a text, read from left to right: where an image
    or link to the pool starts, its reference is taken and reading goes
    on after it; elsewhere one character is passed over. *)
Inductive extraction : str -> list str -> Prop :=
| extraction_end : extraction [] []
| extraction_skip c s refs :
    (forall o post, ~ reference_at (c :: s) o post) ->
    extraction s refs -> extraction (c :: s) refs
| extraction_hit s o post r refs :
    reference_at s o post -> pool_reference (target o) = Some r ->
    extraction post refs -> extraction s (r :: refs).

End Markdown.
Import Markdown.

(* ================================================================== *)
(** * Vocabulary for the URL rewrite                                    *)
(* ================================================================== *)

Module Rewrite.
Import Re MarkdownTransformer.

(** The text [replace_link] puts in the brackets: the link text without
    surrounding white space, reduced to its final path component when it
    holds a slash, then a space and the size. *)
Definition label (link_text : str) (file_size : N) : str :=
  let stripped := strip link_text in
  (if contains_char "/" stripped then name (parts_of stripped) else stripped)
    ++ txt " " ++ str_of_N file_size.

Definition with_target (o : occurrence) (url : str) : occurrence :=
  {| gap := gap o; image := image o; text := text o; target := url |}.

Definition with_label (o : occurrence) (url : str) (size : N) : occurrence :=
  {| gap := gap o; image := image o; text := label (text o) size;
     target := url |}.

(** What the image substitution for the spelling [sp] does to an
    occurrence. *)
Definition image_step (sp url : str) (o : occurrence) : occurrence :=
  if image o && str_eqb (target o) sp then with_target o url else o.

(** What the link substitution for the spelling [sp] does to an
    occurrence. *)
Definition link_step (sp url : str) (size : N) (o : occurrence) : occurrence :=
  if str_eqb (target o) sp then with_label o url size else o.

Definition spelling_step (url : str) (size : N) (o : occurrence) (sp : str)
  : occurrence :=
  link_step sp url size (image_step sp url o).

Definition entry_step (o : occurrence) (entry : str * (str * N)) : occurrence :=
  let '(docmost_path, (outline_url, file_size)) := entry in
  foldl (spelling_step outline_url file_size) o (spellings docmost_path).

(** What [replace_attachment_urls] does to an occurrence. *)
Definition rewritten (url_mapping : list (str * (str * N))) (o : occurrence)
  : occurrence :=
  foldl entry_step o url_mapping.

(** The entry that rewrites an occurrence: the first one a spelling of
    whose key is the target. *)
Definition entry_for (url_mapping : list (str * (str * N))) (o : occurrence)
  : option (str * (str * N)) :=
  List.find (fun e => bool_decide (target o ∈ spellings (fst e))) url_mapping.

(** An entry whose key holds no closing parenthesis and whose URL holds
    no opening bracket, closing parenthesis or backslash. *)
Definition clean_entry (entry : str * (str * N)) : Prop :=
  let '(docmost_path, (outline_url, _)) := entry in
  ~ has ")" docmost_path /\ ~ has "[" outline_url /\ ~ has ")" outline_url /\
  ~ has "\" outline_url.

(** No URL of the mapping is a spelling of one of its keys. *)
Definition fresh_urls (url_mapping : list (str * (str * N))) : Prop :=
  forall e e', e ∈ url_mapping -> e' ∈ url_mapping ->
    fst (snd e) ∉ spellings (fst e').

(** One image substitution, on any text, read from left to right: an
    image whose target is the spelling [sp] gets the target [url] and
    keeps its text, and reading goes on after it; elsewhere one
    character is copied. *)
Inductive images_rewritten (sp url : str) : str -> str -> Prop :=
| images_end : images_rewritten sp url [] []
| images_skip c s out :
    (forall alt post, ~ has "]" alt ->
       c :: s <> "!" :: "[" :: alt ++ "]" :: "(" :: sp ++ ")" :: post) ->
    images_rewritten sp url s out ->
    images_rewritten sp url (c :: s) (c :: out)
| images_hit alt post out :
    ~ has "]" alt ->
    images_rewritten sp url post out ->
    images_rewritten sp url
      ("!" :: "[" :: alt ++ "]" :: "(" :: sp ++ ")" :: post)
      ("!" :: "[" :: alt ++ "]" :: "(" :: url ++ ")" :: out).

(** One link substitution, on any text: a bracketed text followed by the
    spelling [sp] in parentheses gets the [label] as text and the target
    [url]. *)
Inductive links_rewritten (sp url : str) (size : N) : str -> str -> Prop :=
| links_end : links_rewritten sp url size [] []
| links_skip c s out :
    (forall link_text post, ~ has "]" link_text ->
       c :: s <> "[" :: link_text ++ "]" :: "(" :: sp ++ ")" :: post) ->
    links_rewritten sp url size s out ->
    links_rewritten sp url size (c :: s) (c :: out)
| links_hit link_text post out :
    ~ has "]" link_text ->
    links_rewritten sp url size post out ->
    links_rewritten sp url size
      ("[" :: link_text ++ "]" :: "(" :: sp ++ ")" :: post)
      ("[" :: label link_text size ++ "]" :: "(" :: url ++ ")" :: out).

(** The substitutions for the spellings [sps] in turn, for each the
    images and then the links. *)
Fixpoint spellings_rewritten (url : str) (size : N) (sps : list str)
    (s out : str) : Prop :=
  match sps with
  | [] => out = s
  | sp :: sps' =>
      exists s1 s2,
        images_rewritten sp url s s1 /\ links_rewritten sp url size s1 s2 /\
        spellings_rewritten url size sps' s2 out
  end.

(** The substitutions for the entries of a mapping in turn, for each
    its three spellings. *)
Fixpoint mapping_rewritten (url_mapping : list (str * (str * N)))
    (s out : str) : Prop :=
  match url_mapping with
  | [] => out = s
  | (docmost_path, (outline_url, file_size)) :: rest =>
      exists s1,
        spellings_rewritten outline_url file_size (spellings docmost_path)
                            s s1 /\
        mapping_rewritten rest s1 out
  end.

(** The mapping of the specification's example. *)
Definition example_mapping : list (str * (str * N)) :=
  [(txt "files/a/b.png", (txt "https://x/u1", 2048%N))].

(** The file name the specification describes: the last segment of the
    text when it holds a separator, the text itself otherwise. *)
Definition described_filename (link_text : str) : str :=
  if contains_char "/" link_text then List.last (split_on "/" link_text) []
  else link_text.

(** A link as the specification describes its rewriting. *)
Definition described_link (o : occurrence) (url : str) (size : N) : occurrence :=
  {| gap := gap o; image := image o;
     text := described_filename (text o) ++ txt " " ++ str_of_N size;
     target := url |}.

End Rewrite.
Import Rewrite.

(* ================================================================== *)
(** * Vocabulary for callout blocks                                     *)
(* ================================================================== *)

Module Callout.
Import Re MarkdownTransformer.

(** The flags [convert_details_to_headings] compiles its pattern with. *)
Definition ci : flags := {| IGNORECASE := true; DOTALL := true |}.

(** Equality of two texts up to the case of their letters. *)
Definition same_ignoring_case (a b : str) : Prop :=
  map lower a = map lower b.

(** No occurrence of [lit], compared without regard to case, starts at a
    position of [t] when [next] follows [t]. *)
Definition starts_nowhere (lit t next : str) : bool :=
  forallb (fun i => match after_literal ci lit (drop i t ++ next) with
                    | None => true
                    | Some _ => false
                    end)
          (seq 0 (length t)).

(** A callout block as it stands in a body, with the text before it. *)
Record block := {
  before : str;
  open_tag : str;
  space : str;
  summary_tag : str;
  title : str;
  summary_end : str;
  inner : str;
  close_tag : str }.

(** The block itself, from its opening to its closing tag. *)
Definition block_text (b : block) : str :=
  open_tag b ++ space b ++ summary_tag b ++ title b ++ summary_end b
    ++ inner b ++ close_tag b.

Definition written_block (b : block) : str :=
  before b ++ open_tag b ++ space b ++ summary_tag b ++ title b
    ++ summary_end b ++ inner b ++ close_tag b.

(** A block of the shape the pattern asks for: the four tags up to case,
    white space between the first two, a title that is not empty and
    holds no opening angle bracket, and an inner text in which no
    closing tag starts. *)
Definition well_shaped (b : block) : Prop :=
  same_ignoring_case (open_tag b) (txt "<details>") /\
  Forall (fun c => isspace c = true) (space b) /\
  same_ignoring_case (summary_tag b) (txt "<summary>") /\
  title b <> [] /\ ~ has "<" (title b) /\
  same_ignoring_case (summary_end b) (txt "</summary>") /\
  same_ignoring_case (close_tag b) (txt "</details>") /\
  starts_nowhere (txt "</details>") (inner b) (close_tag b) = true.

(** Such a block after text in which no block opens. *)
Definition shaped (b : block) : Prop :=
  well_shaped b /\
  starts_nowhere (txt "<details>") (before b) (open_tag b) = true.

(** What a block becomes, without the text before it. *)
Definition heading_text (b : block) : str :=
  txt "### " ++ strip (title b) ++ [LF; LF] ++ strip (inner b).

(** The callout rewrite of a text, read from left to right: where a
    block of the shape starts, its heading is written and reading goes
    on after it; elsewhere one character is copied. *)
Inductive callouts_rewritten : str -> str -> Prop :=
| callouts_end : callouts_rewritten [] []
| callouts_skip c s out :
    (forall b post, well_shaped b -> c :: s <> block_text b ++ post) ->
    callouts_rewritten s out ->
    callouts_rewritten (c :: s) (c :: out)
| callouts_hit b post out :
    well_shaped b ->
    callouts_rewritten post out ->
    callouts_rewritten (block_text b ++ post) (heading_text b ++ out).

(** The heading a block becomes. *)
Definition heading (b : block) : str :=
  before b ++ txt "### " ++ strip (title b) ++ [LF; LF] ++ strip (inner b).

(** The heading the specification describes: title and inner text
    verbatim. *)
Definition described_heading (b : block) : str :=
  before b ++ txt "### " ++ title b ++ [LF; LF] ++ inner b.

(** The body made of some blocks and the text after the last. *)
Definition blocks_body (bs : list block) (trailer : str) : str :=
  concat (map written_block bs) ++ trailer.

End Callout.
Import Callout.

(* ================================================================== *)
(** * A concrete export and a concrete server                           *)
(* ================================================================== *)

Module Scenario.
Import OutlineClient DocmostParser.

(** A reading of numerals for the scenarios below: plain decimal
    digit strings only.  It stands in for [float] at concrete inputs and
    is narrower than Python's [float], which also reads signs, fractions
    and exponents; the facts of this file hold for every reading. *)
Definition decimal_float (s : str) : option pyfloat :=
  match s with
  | [] => None
  | _ :: _ =>
      if forallb Re.is_digit s
      then Some (Finite (inject_Z (Z.of_N (Re.int_of_digits s))))
      else None
  end.

Definition zip_path : Path := [txt "home"; txt "export.zip"].
Definition tmp : Path := [txt "tmp"; txt "docmost_export_1"].

Definition image_ref : str := txt "files/u1/img.png".

(** The tree the archive unpacks to: a space with a root page, a child
    page that shows one image twice, a page whose directory has no
    markdown file beside it, and the attachment pool. *)
Definition entries : FS :=
  [ ([txt "Space"], Dir);
    ([txt "Space"; txt "root.md"], File 6 (Some (txt "# Root")));
    ([txt "Space"; txt "root"], Dir);
    ([txt "Space"; txt "root"; txt "child.md"],
     File 60 (Some (txt "![a](files/u1/img.png) and ![b](/files/u1/img.png)")));
    ([txt "Space"; txt "lost"], Dir);
    ([txt "Space"; txt "lost"; txt "page.md"], File 4 (Some (txt "text")));
    ([txt "Space"; txt "files"], Dir);
    ([txt "Space"; txt "files"; txt "u1"], Dir);
    ([txt "Space"; txt "files"; txt "u1"; txt "img.png"], File 2048 None) ].

Definition ok (j : Json) : Reply :=
  Replied {| status_code := 200; retry_after := None; json := j |}.

(** A server that accepts everything. *)
Definition accepting (n : nat) (r : Request) : Reply :=
  match r with
  | collections_create name _ _ => ok (JCollection (txt "col-1") name)
  | collections_info id => ok (JCollection id (txt "Existing"))
  | documents_create title _ collectionId parent _ =>
      ok (JDocument (txt "doc-" ++ title) title collectionId parent
                    (txt "/doc/" ++ title))
  | attachments_create name _ size _ =>
      ok (JAttachment (txt "https://storage/upload") None
                      (txt "att-" ++ str_of_N (N.of_nat n))
                      (txt "/api/attachments.redirect?id=" ++ str_of_N (N.of_nat n))
                      name (Z.of_N size))
  | storage_upload _ _ _ _ => ok JOther
  end.

Definition world : World :=
  {| Sys.fs := [([txt "home"], Dir); (zip_path, File 4096 None)];
     archive := fun p => if path_eqb p zip_path then Some entries else None;
     tmp_names := [tmp];
     mime_type := fun _ => txt "image/png";
     dir_size := fun _ => 4096%N;
     Sys.server := accepting;
     sent := 0;
     trace := [] |}.


(** The world once the archive is unpacked and read. *)
Definition unpacked : World := snd (parse zip_path world).

(** The logical root of the unpacked export. *)
Definition space_root : Path := tmp ++ [txt "Space"].

(** A page that shows one attachment twice, under the same reference. *)
Definition twice_page : DocmostPage :=
  {| title := txt "twice";
     file_path := space_root ++ [txt "twice.md"];
     content := txt "![a](files/u1/img.png) and ![b](files/u1/img.png)";
     parent_path := None; children := []; level := 0; outline_id := None |}.

Definition no_stats : Orchestrator.MigrationStats :=
  {| Orchestrator.documents_created := 0;
     Orchestrator.attachments_uploaded := 0;
     Orchestrator.total_attachment_size := 0 |}.

(** A server that answers the first call with 429 and no [Retry-After]
    header, and accepts the calls after it. *)
Definition limiting (n : nat) (r : Request) : Reply :=
  match n with
  | O => Replied {| status_code := 429; retry_after := None; json := JOther |}
  | S _ => accepting n r
  end.

Definition limited_world : World :=
  {| Sys.fs := []; archive := fun _ => None; tmp_names := [];
     mime_type := fun _ => txt "image/png"; dir_size := fun _ => 4096%N;
     Sys.server := limiting; sent := 0; trace := [] |}.

End Scenario.
Import Scenario.

(* ================================================================== *)
(** * An export with a dot in a directory name                          *)
(* ================================================================== *)

Module Dotted.
Import OutlineClient DocmostParser.

(** The tree of an export whose page [v1.2] has a child page, beside an
    unrelated page [v1]. *)
Definition dotted_entries : FS :=
  [ ([txt "Space"], Dir);
    ([txt "Space"; txt "v1.md"], File 3 (Some (txt "one")));
    ([txt "Space"; txt "v1.2.md"], File 3 (Some (txt "two")));
    ([txt "Space"; txt "v1.2"], Dir);
    ([txt "Space"; txt "v1.2"; txt "page.md"], File 4 (Some (txt "text"))) ].

Definition dotted_world : World :=
  {| Sys.fs := [([txt "home"], Dir); (zip_path, File 4096 None)];
     archive := fun p => if path_eqb p zip_path then Some dotted_entries else None;
     tmp_names := [tmp];
     mime_type := fun _ => txt "text/markdown";
     dir_size := fun _ => 4096%N;
     Sys.server := accepting;
     sent := 0;
     trace := [] |}.

End Dotted.
Import Dotted.

(* ================================================================== *)
(** * Vocabulary for the validation of attachments                      *)
(* ================================================================== *)

Module Sizes.

(** What [Path(p).stat().st_size] reports in the world [w], when [p]
    exists. *)
Definition size_at (w : World) (p : Path) : option N :=
  match stat (fs w) p with
  | None => None
  | Some Dir => Some (dir_size w p)
  | Some (File size _) => Some size
  end.

(** [p] exists and is no larger than [max_size]. *)
Definition within (w : World) (max_size : N) (p : Path) : Prop :=
  exists size, size_at w p = Some size /\ (size <= max_size)%N.

(** The sum of the sizes of the paths that exist. *)
Definition total_size (w : World) (paths : list Path) : N :=
  foldr (fun p acc => (default 0 (size_at w p) + acc)%N) 0%N paths.

End Sizes.
Import Sizes.

(* ================================================================== *)
(** * Vocabulary for the collection step                                *)
(* ================================================================== *)

Module Container.
Import OutlineClient DocmostParser.

(** The one call the collection step of [migrate] makes: the lookup of
    the collection asked for, or the creation of one named after the
    space when none (or an empty id) is asked for. *)
Definition collection_request (export : DocmostExport)
    (collection_id : option str) : Request :=
  if truthy collection_id
  then collections_info (default [] collection_id)
  else collections_create (space_name export)
         (Some (txt "Migrated from Docmost export")) (Some (txt "#4E5C6E")).

(** The id under which the documents are then created. *)
Definition chosen_id (collection_id : option str)
    (collection : OutlineCollection) : str :=
  if truthy collection_id then default [] collection_id
  else col_id collection.

(** The world of the scenario with a server that answers every call
    with the status [status] and nothing else. *)
Definition refusing_world (status : Z) : World :=
  {| Sys.fs := Sys.fs world; archive := archive world;
     tmp_names := tmp_names world; mime_type := mime_type world;
     dir_size := dir_size world;
     Sys.server := fun _ _ =>
       Replied {| status_code := status; retry_after := None; json := JOther |};
     sent := 0; trace := [] |}.

End Container.
Import Container.

(* ================================================================== *)
(** * Vocabulary for the upload of one attachment                       *)
(* ================================================================== *)

Module Delivery.

(** The name an attachment is recorded under: the intended name when
    one is given and is not empty, the name of the file otherwise. *)
Definition upload_name (file_path : Path) (intended_name : option str) : str :=
  if truthy intended_name then default [] intended_name else name file_path.

(** The call that records the attachment. *)
Definition record_request (w : World) (file_path : Path)
    (intended_name : option str) (size : N) : Request :=
  attachments_create (upload_name file_path intended_name)
                     (mime_type w file_path) size None.

(** All the calls among [evs] are [r]. *)
Definition only_request (r : Request) (evs : list Event) : Prop :=
  Forall (fun r' => r' = r) (requests evs).

End Delivery.
Import Delivery.

(* ================================================================== *)
(** * Vocabulary for the search for attachment files                    *)
(* ================================================================== *)

Module Attachments.

(** [p] is a regular file somewhere below a directory named [files]
    that itself lies below [root]. *)
Definition below_files (fs0 : FS) (root p : Path) : Prop :=
  exists pre post,
    p = root ++ pre ++ [txt "files"] ++ post /\ post <> [] /\
    is_dir fs0 (root ++ pre ++ [txt "files"]) = true /\
    is_file fs0 p = true.

End Attachments.
Import Attachments.

(* ================================================================== *)
(** * Vocabulary for the order of the pages                             *)
(* ================================================================== *)

Module Ordering.
Import DocmostParser.

(** [i] goes before [j]: its key is not above the key of [j], and when
    the keys are the same [i] is the one found first. *)
Definition before_ (leb : nat -> nat -> bool) (i j : nat) : Prop :=
  leb i j = true /\ (leb j i = true -> i < j).

(** The position of the page [i] in the list of all pages. *)
Definition position (e : DocmostExport) (i m : nat) : Prop :=
  all_pages e !! m = Some i.

End Ordering.
Import Ordering.

(* ================================================================== *)
(** * Vocabulary for the fields of a page                               *)
(* ================================================================== *)

Module Fields.
Import DocmostParser.

(** What [parse] puts into a page made from a markdown file found below
    [root], as the file system [fs0] has it. *)
Definition read_from (fs0 : FS) (root : Path) (page : DocmostPage) : Prop :=
  title page = stem (file_path page) /\
  (exists size,
     stat fs0 (file_path page) = Some (File size (Some (content page)))) /\
  parent_path page =
    (if path_eqb (parent (file_path page)) root then None
     else Some (parent (file_path page))) /\
  outline_id page = None /\
  in_files_dir (file_path page) = false.

End Fields.
Import Fields.

(* ================================================================== *)
(** * Vocabulary for the document loop                                  *)
(* ================================================================== *)

Module Documents.
Import OutlineClient DocmostParser Orchestrator MarkdownTransformer.

Definition is_document (r : Request) : bool :=
  match r with
  | documents_create _ _ _ _ _ => true
  | _ => false
  end.

(** The calls that create a document among some events. *)
Definition document_requests (evs : list Event) : list Request :=
  List.filter is_document (requests evs).

(** Two page objects that differ at most in their remote id. *)
Definition same_but_id (p q : DocmostPage) : Prop :=
  title p = title q /\ file_path p = file_path q /\ content p = content q /\
  parent_path p = parent_path q /\ children p = children q /\
  level p = level q.

(** The state the document loop starts from. *)
Definition start (e : DocmostExport) : LoopState :=
  {| parent_id_map := ∅;
     stats := {| documents_created := 0; attachments_uploaded := 0;
                 total_attachment_size := 0 |};
     store := page_store e |}.

(** [parent] is the id found for the parent of [page] among [ids]: the
    id recorded under the parent path of the page read as a markdown
    path, none for a page without parent path. *)
Definition parent_found (ids : gmap str str) (page : DocmostPage)
    (parent : option str) : Prop :=
  match parent_path page with
  | None => parent = None
  | Some dir =>
      exists parent_md,
        with_suffix dir (txt ".md") = Some parent_md /\
        parent = ids !! path_str parent_md
  end.

(** [text] is the content of [page] transformed under a mapping for
    exactly the attachment references of the page. *)
Definition transformed (e : DocmostExport) (page : DocmostPage)
    (text : str) : Prop :=
  exists url_mapping,
    transform_content (content page) url_mapping = Some text /\
    forall k, k ∈ map fst url_mapping <->
              is_Some (attachments_dir e) /\
              k ∈ extract_attachment_references (content page).

(** The number of uploads counted for a page. *)
Definition uploads (e : DocmostExport) (page : DocmostPage) : N :=
  match attachments_dir e with
  | Some _ => N.of_nat (length (extract_attachment_references (content page)))
  | None => 0
  end.

(** The state after the document of the page [i] got the id [id]. *)
Definition after_page (e : DocmostExport) (i : nat) (page : DocmostPage)
    (id : str) (st : LoopState) : LoopState :=
  {| parent_id_map :=
       <[path_str (file_path page) := id]> (parent_id_map st);
     stats :=
       {| documents_created := (documents_created (stats st) + 1)%N;
          attachments_uploaded :=
            (attachments_uploaded (stats st) + uploads e page)%N;
          total_attachment_size := total_attachment_size (stats st) |};
     store := alter (set_outline_id id) i (store st) |}.

(** The calls a log stands for: each request, as often as it was sent. *)
Definition sent_out (log : list (Request * nat)) : list Request :=
  concat (map (fun rk => repeat (fst rk) (snd rk)) log).

(** The document loop over [pages] from the state [st]: for each page in
    turn one request, sent one to three times, with the title of the
    page, its transformed content, the collection, the id found for its
    parent, and the publish flag set. *)
Inductive documents_made (e : DocmostExport) (cid : str)
  : LoopState -> list nat -> list (Request * nat) -> LoopState -> Prop :=
| made_nil st : documents_made e cid st [] [] st
| made_cons st i pages page parent text id k log final :
    store st !! i = Some page ->
    parent_found (parent_id_map st) page parent ->
    transformed e page text ->
    1 <= k <= 3 ->
    documents_made e cid (after_page e i page id st) pages log final ->
    documents_made e cid st (i :: pages)
      ((documents_create (title page) text cid (if_truthy parent) true, k)
         :: log)
      final.

End Documents.
Import Documents.

(* ================================================================== *)
(** * Vocabulary for the hierarchy of the documents                     *)
(* ================================================================== *)

Module Hierarchy.
Import OutlineClient DocmostParser Orchestrator.

(** No component of the path holds a separator. *)
Definition separator_free (p : Path) : Prop := Forall (fun c => "/" ∉ c) p.

(** [parent] is the remote id of the parent of the page [i] once the
    loop has ended in [final]: the id of the page that has [i] among
    its children, none when no page has. *)
Definition parent_id (e : DocmostExport) (final : LoopState) (i : nat)
    (parent : option str) : Prop :=
  (forall j pj, page_store e !! j = Some pj -> i ∈ children pj ->
     is_Some parent /\
     exists pj', store final !! j = Some pj' /\ outline_id pj' = parent) /\
  ((forall j pj, page_store e !! j = Some pj -> i ∉ children pj) ->
   parent = None).

(** The request [rk] stands for puts the document of the page [i] in
    its place: under the document of its parent page. *)
Definition placed (e : DocmostExport) (cid : str) (final : LoopState)
    (i : nat) (rk : Request * nat) : Prop :=
  exists page text parent,
    page_store e !! i = Some page /\ transformed e page text /\
    parent_id e final i parent /\
    fst rk = documents_create (title page) text cid (if_truthy parent) true /\
    1 <= snd rk <= 3.

(** What the loop has recorded once it has gone through the pages
    [done]: every one of them has its id, which is also the id found
    under its path, and nothing else is found. *)
Definition recorded (e : DocmostExport) (done : list nat) (st : LoopState)
  : Prop :=
  Forall2 same_but_id (page_store e) (store st) /\
  (forall j, j ∈ done ->
     exists pj id, store st !! j = Some pj /\ outline_id pj = Some id /\
       parent_id_map st !! path_str (file_path pj) = Some id) /\
  (forall s, is_Some (parent_id_map st !! s) ->
     exists j pj, j ∈ done /\ page_store e !! j = Some pj /\
       path_str (file_path pj) = s).

End Hierarchy.
Import Hierarchy.

(* ================================================================== *)
(** * Vocabulary for the transformation of a body                       *)
(* ================================================================== *)

Module Transformation.
Import MarkdownTransformer.

(** A mapping as the attachment step of a page builds it for the body
    [body]: its keys are the references of the body, and no URL of it
    is a path into the attachment pool. *)
Definition mapping_for (body : str) (url_mapping : list (str * (str * N)))
  : Prop :=
  (forall r, r ∈ map fst url_mapping <->
             r ∈ extract_attachment_references body) /\
  (forall e, e ∈ url_mapping -> pool_reference (fst (snd e)) = None).

End Transformation.
Import Transformation.

(* ================================================================== *)
(** * Vocabulary for a document loop that fails                         *)
(* ================================================================== *)

Module Failure.
Import OutlineClient DocmostParser Orchestrator.

(** The request [r] asks for the document of the page [i] as the state
    [st] has it. *)
Definition request_for (cid : str) (st : LoopState) (i : nat) (r : Request)
  : Prop :=
  exists page text parent,
    store st !! i = Some page /\
    r = documents_create (title page) text cid parent true.

(** The unpacked scenario with a server that accepts one call and
    refuses every call after it. *)
Definition tiring (n : nat) (r : Request) : Reply :=
  match n with
  | 0 => accepting n r
  | S _ => Replied {| status_code := 500; retry_after := None; json := JOther |}
  end.

Definition tiring_world : World :=
  {| Sys.fs := Sys.fs unpacked; archive := archive unpacked;
     tmp_names := tmp_names unpacked; mime_type := mime_type unpacked;
     dir_size := dir_size unpacked; Sys.server := tiring; sent := 0;
     trace := [] |}.

End Failure.
Import Failure.

(* ================================================================== *)
(** * Vocabulary for a missing attachment                               *)
(* ================================================================== *)

Module Missing.
Import DocmostParser.

(** A page whose body shows first, spelled with a leading slash, an
    image that is not in the export. *)
Definition orphan_page : DocmostPage :=
  {| title := txt "orphan";
     file_path := space_root ++ [txt "orphan.md"];
     content := txt "![b](/files/u9/gone.png) and ![a](files/u1/img.png)";
     parent_path := None; children := []; level := 0; outline_id := None |}.

End Missing.
Import Missing.

(* ================================================================== *)
(** * Facts                                                             *)
(* ================================================================== *)

(** ** Lists and characters *)

Section TextFacts.

Lemma take_all_but {A} (l1 l2 : list A) :
  take (length (l1 ++ l2) - length l2) (l1 ++ l2) = l1.
Proof.
  rewrite length_app.
  replace (length l1 + length l2 - length l2) with (length l1) by lia.
  apply take_app_length.
Qed.

Lemma ceq_eq c x : ceq c x = true <-> c = x.
Proof. unfold ceq. apply Ascii.eqb_eq. Qed.

Lemma ceq_neq c x : ceq c x = false <-> c <> x.
Proof. unfold ceq. apply Ascii.eqb_neq. Qed.

Lemma ceq_refl c : ceq c c = true.
Proof. by apply ceq_eq. Qed.

Lemma str_eqb_eq a b : str_eqb a b = true <-> a = b.
Proof. unfold str_eqb. apply bool_decide_eq_true. Qed.

Lemma str_eqb_false a b : str_eqb a b = false <-> a <> b.
Proof. unfold str_eqb. apply bool_decide_eq_false. Qed.

End TextFacts.

(** ** Operations that only talk to the network *)

Section EffectFacts.

Lemma extend_extend w e1 e2 : extend (extend w e1) e2 = extend w (e1 ++ e2).
Proof.
  unfold extend, requests; cbn. rewrite omap_app, length_app, <- app_assoc.
  f_equal. lia.
Qed.

Lemma extend_nil w : extend w [] = w.
Proof. destruct w; unfold extend; cbn. rewrite Nat.add_0_r, app_nil_r. done. Qed.

Lemma http_replied w r resp :
  server w (sent w) r = Replied resp -> http r w = (Ok resp, extend w [EvRequest r]).
Proof. intros H. unfold http. rewrite H. unfold extend; cbn. by rewrite Nat.add_1_r. Qed.

Lemma http_extend w r : snd (http r w) = extend w [EvRequest r].
Proof. unfold http. destruct (server _ _ _); cbn; unfold extend; cbn; by rewrite Nat.add_1_r. Qed.

Lemma sleep_ok w q : Qle_bool 0 q = true -> sleep (Finite q) w = (Ok tt, extend w [EvSleep q]).
Proof. intros H. unfold sleep. rewrite H. unfold log, extend; cbn. by rewrite Nat.add_0_r. Qed.

Lemma io_ret {A} P `{!Closed P} (a : A) : io_only P (mret a).
Proof. intros w. exists []. split; [by rewrite extend_nil | apply closed_nil]. Qed.

Lemma io_raise {A} P `{!Closed P} e : io_only P (@raise A e).
Proof. intros w. exists []. split; [by rewrite extend_nil | apply closed_nil]. Qed.

Lemma io_bind {A B} P `{!Closed P} (m : M A) (f : A -> M B) :
  io_only P m -> (forall a, io_only P (f a)) -> io_only P (m ≫= f).
Proof.
  intros Hm Hf w. unfold mbind, M_bind, bind.
  destruct (Hm w) as (e1 & H1 & P1). destruct (m w) as [[a|e] w1]; cbn in H1; subst w1.
  - destruct (Hf a (extend w e1)) as (e2 & H2 & P2). exists (e1 ++ e2).
    rewrite H2, extend_extend. split; [done | by apply closed_app].
  - exists e1. done.
Qed.

Lemma io_weaken {A} (P Q : list Event -> Prop) (m : M A) :
  (forall evs, P evs -> Q evs) -> io_only P m -> io_only Q m.
Proof. intros H Hm w. destruct (Hm w) as (e & ? & ?). exists e. eauto. Qed.

Lemma io_or_raise {A} P `{!Closed P} (o : option A) e : io_only P (or_raise o e).
Proof. destruct o; [apply io_ret | apply io_raise]; done. Qed.

Lemma io_get_fs P `{!Closed P} : io_only P get_fs.
Proof. intros w. exists []. split; [by rewrite extend_nil | apply closed_nil]. Qed.

Lemma io_st_size P `{!Closed P} p : io_only P (st_size p).
Proof.
  intros w. exists []. split; [|apply closed_nil]. rewrite extend_nil.
  unfold st_size. by destruct (stat _ _) as [[|]|].
Qed.

Lemma io_raise_for_status P `{!Closed P} resp : io_only P (raise_for_status resp).
Proof. unfold raise_for_status. destruct (_ && _); [apply io_ret | apply io_raise]; done. Qed.

Lemma io_http (P : list Event -> Prop) r : P [EvRequest r] -> io_only P (http r).
Proof. intros H w. exists [EvRequest r]. split; [apply http_extend | done]. Qed.

Lemma io_sleep (P : list Event -> Prop) `{!Closed P} x :
  (forall q, P [EvSleep q]) -> io_only P (sleep x).
Proof.
  intros H. destruct x; cbn; try (apply io_raise; done).
  destruct (Qle_bool 0 q); [|apply io_raise; done].
  intros w. exists [EvSleep q]. split; [|done].
  unfold log, extend; cbn. by rewrite Nat.add_0_r.
Qed.

Lemma io_for_each {X S} P `{!Closed P} (xs : list X) (body : X -> S -> M S) st :
  (forall x st, io_only P (body x st)) -> io_only P (for_each xs body st).
Proof.
  intros Hb. revert st. induction xs as [|x xs IH]; intros st; cbn.
  - by apply (io_ret P).
  - apply (io_bind P); [apply Hb | apply IH].
Qed.

Lemma io_for_range {A} P `{!Closed P} n k (body : nat -> M (ctl A)) orelse :
  (forall i, io_only P (body i)) -> io_only P orelse ->
  io_only P (for_range n k body orelse).
Proof.
  intros Hb Ho. revert k. induction n as [|n IH]; intros k; cbn; [done|].
  change (io_only P (body k ≫= fun c => match c with Return a => ret a | Continue => for_range n (S k) body orelse end)).
  apply (io_bind P); [apply Hb|]. intros [|a]; [apply IH | by apply (io_ret P)].
Qed.


#[export] Instance quiet_closed : Closed (fun evs => requests evs = []).
Proof.
  split; [done|]. intros a b Ha Hb. unfold requests in *.
  by rewrite omap_app, Ha, Hb.
Qed.

#[export] Instance silent_closed : Closed (fun evs => evs = []).
Proof. split; [done|]. by intros a b -> ->. Qed.

Lemma silent_unchanged {A} (m : M A) w :
  io_only (fun evs => evs = []) m -> snd (m w) = w.
Proof. intros H. destruct (H w) as (evs & -> & ->). apply extend_nil. Qed.

Lemma io_read_text P `{!Closed P} p : io_only P (read_text p).
Proof.
  unfold read_text. apply (io_bind P); [by apply io_get_fs|]. intros fs0.
  destruct (stat fs0 p) as [[|? [|]]|]; try apply (io_raise P); by apply (io_ret P).
Qed.

(** Induction over the iterations of a [for] loop that ended normally. *)
Lemma for_each_ok_ind {X S} (Inv : list X -> S -> Prop) (body : X -> S -> M S)
    xs st w st' w' :
  for_each xs body st w = (Ok st', w') ->
  Inv [] st ->
  (forall done x s w0 s1 w1,
     Inv done s -> body x s w0 = (Ok s1, w1) -> Inv (done ++ [x]) s1) ->
  Inv xs st'.
Proof.
  intros Hrun H0 Hstep.
  assert (G : forall done st w, Inv done st ->
            for_each xs body st w = (Ok st', w') -> Inv (done ++ xs) st').
  { clear Hrun H0 st w. induction xs as [|x xs IH]; intros done st w Hd Hrun; cbn in Hrun.
    - unfold ret in Hrun. rewrite app_nil_r. congruence.
    - unfold bind in Hrun. destruct (body x st w) as [[s1|e] w1] eqn:Hb; [|done].
      replace (done ++ x :: xs) with ((done ++ [x]) ++ xs) by by rewrite <- app_assoc.
      eapply IH; [|exact Hrun]. eapply Hstep; eauto. }
  exact (G [] st w H0 Hrun).
Qed.

End EffectFacts.

(** ** The retry loops of the client *)

Section RetryFacts.
Import OutlineClient.
Variable float : str -> option pyfloat.

Lemma settle_return {A} (decode : Json -> M A) resp w :
  (raise_for_status resp;; data ← decode (json resp); mret (Return data)) w
  = match settle decode resp w with
    | (Ok a, w') => (Ok (Return a), w')
    | (Raise e, w') => (Raise e, w')
    end.
Proof.
  unfold settle, mbind, M_bind, bind.
  destruct (raise_for_status resp w) as [[|] ?]; [|done].
  destruct (decode _ _) as [[|] ?]; done.
Qed.

Lemma attempt_settles {A} payload (decode : Json -> M A) k w resp :
  server w (sent w) payload = Replied resp ->
  status_code resp <> 429%Z \/ k = 2 ->
  attempt float payload decode k w =
    match settle decode resp (extend w [EvRequest payload]) with
    | (Ok a, w') => (Ok (Return a), w')
    | (Raise e, w') => (Raise e, w')
    end.
Proof.
  intros Hs Hk. unfold attempt. unfold mbind at 1, M_bind at 1, bind at 1.
  rewrite (http_replied _ _ _ Hs).
  destruct (Z.eqb_spec (status_code resp) 429) as [E|E].
  - destruct Hk as [? | ->]; [done|].
    unfold on_rate_limited; cbn [Nat.ltb Nat.leb max_retries Nat.sub].
    rewrite <- settle_return.
    unfold mbind, M_bind, bind, raise_for_status. rewrite E. reflexivity.
  - rewrite <- settle_return. reflexivity.
Qed.

Lemma attempt_waits {A} payload (decode : Json -> M A) k w resp q :
  server w (sent w) payload = Replied resp ->
  rate_limited float resp q -> k < 2 ->
  attempt float payload decode k w = (Ok Continue, extend w [EvRequest payload; EvSleep q]).
Proof.
  intros Hs (E & Hf & Hq) Hk. unfold attempt. unfold mbind at 1, M_bind at 1, bind at 1.
  rewrite (http_replied _ _ _ Hs), E. cbn [Z.eqb Pos.eqb].
  unfold on_rate_limited. replace (k <? max_retries - 1)%nat with true
    by (symmetry; apply Nat.ltb_lt; unfold max_retries; lia).
  unfold mbind, M_bind, bind. rewrite Hf. cbn [or_raise ret].
  rewrite (sleep_ok _ _ Hq), extend_extend. reflexivity.
Qed.


Lemma io_on_rate_limited {A} k resp :
  io_only (fun evs => requests evs = []) (@on_rate_limited float A k resp).
Proof.
  unfold on_rate_limited. destruct (_ <? _)%nat.
  - apply (io_bind _); [by apply (io_or_raise _)|]. intros x.
    apply (io_bind _); [by apply (io_sleep _)|]. intros _. by apply (io_ret _).
  - apply (io_bind _); [by apply (io_raise_for_status _)|]. intros _. by apply (io_ret _).
Qed.

Lemma attempt_sent {A} payload (decode : Json -> M A) k w :
  (forall j, io_only (fun evs => requests evs = []) (decode j)) ->
  sent (snd (attempt float payload decode k w)) = S (sent w).
Proof.
  intros Hd.
  assert (H : io_only (fun evs => length (requests evs) = 1) (attempt float payload decode k)).
  { unfold attempt. intros w0. unfold mbind at 1, M_bind at 1, bind at 1.
    pose proof (http_extend w0 payload) as Hh.
    destruct (http payload w0) as [[resp|e] w1]; cbn in Hh; subst w1;
      [|by exists [EvRequest payload]].
    match goal with |- context [ (?m ≫= ?f) ?x ] =>
      assert (Hq : io_only (fun evs => requests evs = []) (m ≫= f)) end.
    { apply (io_bind _).
      - destruct (_ =? _)%Z; [apply io_on_rate_limited | by apply (io_ret _)].
      - intros [c|]; [by apply (io_ret _)|].
        apply (io_bind _); [by apply (io_raise_for_status _)|]. intros _.
        apply (io_bind _); [apply Hd|]. intros ?. by apply (io_ret _). }
    destruct (Hq (extend w0 [EvRequest payload])) as (evs & -> & Hevs).
    exists ([EvRequest payload] ++ evs). rewrite extend_extend. split; [done|].
    unfold requests in *. rewrite omap_app, Hevs. done. }
  destruct (H w) as (evs & -> & Hn). unfold extend; cbn. lia.
Qed.

Lemma retrying_sent {A} payload (decode : Json -> M A) n k w orelse :
  (forall j, io_only (fun evs => requests evs = []) (decode j)) ->
  (forall w0, snd (orelse w0) = w0) ->
  sent w + (if n is O then 0 else 1) <=
    sent (snd (for_range n k (attempt float payload decode) orelse w)) <= sent w + n.
Proof.
  intros Hd Ho. revert k w. induction n as [|n IH]; intros k w; cbn [for_range].
  - rewrite Ho. lia.
  - unfold bind. pose proof (attempt_sent payload decode k w Hd) as Hs.
    destruct (attempt float payload decode k w) as [[[|a]|e] w1]; cbn in Hs |- *; try lia.
    specialize (IH (S k) w1). destruct n; lia.
Qed.

Lemma retrying_policy {A} payload (decode : Json -> M A) :
  (forall j, io_only (fun evs => requests evs = []) (decode j)) ->
  policy float (retrying float payload decode) payload decode.
Proof.
  intros Hd. unfold policy, replies. repeat split.
  - pose proof (retrying_sent payload decode max_retries 0 w
      (raise (Exception_ (txt "Max retries exceeded"))) Hd (fun _ => eq_refl)).
    unfold retrying, max_retries in *. cbv beta iota in H. lia.
  - pose proof (retrying_sent payload decode max_retries 0 w
      (raise (Exception_ (txt "Max retries exceeded"))) Hd (fun _ => eq_refl)).
    unfold retrying, max_retries in *. cbv beta iota in H. lia.
  - intros w r1 H1 Hn. rewrite Nat.add_0_r in H1.
    unfold retrying, max_retries. cbn [for_range]. unfold bind at 1.
    rewrite (attempt_settles _ _ _ _ _ H1 (or_introl Hn)).
    by destruct (settle _ _ _) as [[|] ?].
  - intros w r1 q1 r2 H1 L1 H2 Hn. rewrite Nat.add_0_r in H1.
    unfold retrying, max_retries. cbn [for_range]. unfold bind at 1.
    rewrite (attempt_waits _ _ 0 _ _ _ H1 L1) by lia.
    unfold bind at 1. rewrite (attempt_settles _ _ 1 _ r2).
    + rewrite extend_extend. by destruct (settle _ _ _) as [[|] ?].
    + cbn. rewrite <- H2. f_equal.
    + by left.
  - intros w r1 q1 r2 q2 r3 H1 L1 H2 L2 H3. rewrite Nat.add_0_r in H1.
    unfold retrying, max_retries. cbn [for_range]. unfold bind at 1.
    rewrite (attempt_waits _ _ 0 _ _ _ H1 L1) by lia.
    unfold bind at 1. rewrite (attempt_waits _ _ 1 _ r2 q2); [| |done|lia].
    2:{ cbn. rewrite <- H2. f_equal. }
    unfold bind at 1. rewrite (attempt_settles _ _ 2 _ r3).
    + rewrite !extend_extend. by destruct (settle _ _ _) as [[|] ?].
    + cbn. rewrite <- H3. f_equal. lia.
    + by right.
  - intros resp w H. unfold settle, mbind, M_bind, bind, raise_for_status.
    unfold is_success in H. rewrite H. done.
Qed.

Lemma decode_document_quiet j : io_only (fun evs => requests evs = []) (decode_document j).
Proof. destruct j; try apply (io_raise _); by apply (io_ret _). Qed.

Lemma decode_attachment_quiet j : io_only (fun evs => requests evs = []) (decode_attachment j).
Proof. destruct j; try apply (io_raise _); by apply (io_ret _). Qed.

(** C2.  [create_document] and [create_attachment] follow the retry
    policy: at most three requests; on a 429 answer to the first or the
    second request they sleep for the [Retry-After] header read by
    [float] (the text 60 when the header is absent) and send the request
    again; the third answer ends the call, a 429 there raising the
    status error with no fourth request; an answer that is neither 429
    nor in 200..299 raises the status error at once, with no retry. *)
Theorem C2_retry_policy :
  (forall title text collection_id parent_document_id publish,
     policy float
       (create_document float title text collection_id parent_document_id publish)
       (documents_create title text collection_id (if_truthy parent_document_id) publish)
       decode_document) /\
  (forall name content_type size document_id,
     policy float
       (create_attachment float name content_type size document_id)
       (attachments_create name content_type size (if_truthy document_id))
       decode_attachment).
Proof.
  split; intros.
  - apply (retrying_policy _ decode_document), decode_document_quiet.
  - apply (retrying_policy _ decode_attachment), decode_attachment_quiet.
Qed.

End RetryFacts.

(** ** The export reader *)

Section ReaderFacts.
Import DocmostParser.

Lemma relative_to_Some p base rel :
  relative_to p base = Some rel <-> p = base ++ rel.
Proof.
  revert base. induction p as [|c p IH]; intros [|b base]; cbn.
  - split; [intros [= ->]|intros <-]; done.
  - split; done.
  - split; [intros [= ->]|intros ->]; done.
  - destruct (str_eqb c b) eqn:E.
    + apply str_eqb_eq in E as ->. rewrite IH. split; congruence.
    + split; [done|]. intros [= -> _].
      assert (str_eqb b b = true) by by apply str_eqb_eq. congruence.
Qed.

Lemma length_parents (p : Path) : length (parents p) = length p.
Proof. unfold parents. by rewrite length_map, length_rev, length_seq. Qed.

Lemma same_but_children_refl p : same_but_children p p.
Proof. by repeat split. Qed.

Lemma same_but_children_trans p q r :
  same_but_children p q -> same_but_children q r -> same_but_children p r.
Proof. unfold same_but_children. intuition congruence. Qed.

Lemma build_pages_unchanged root mds w : snd (build_pages root mds w) = w.
Proof.
  apply silent_unchanged. unfold build_pages.
  apply (io_for_each _). intros md [pages pbp].
  destruct (existsb _ _); [by apply (io_ret _)|].
  apply (io_bind _); [by apply (io_read_text _)|]. intros ?.
  apply (io_bind _); [by apply (io_or_raise _)|]. intros ?.
  by apply (io_ret _).
Qed.

Lemma link_pages_unchanged pbp pages w : snd (link_pages pbp pages w) = w.
Proof.
  apply silent_unchanged. unfold link_pages.
  apply (io_for_each _). intros i [roots store].
  destruct (store !! i); [|by apply (io_ret _)].
  destruct (_ =? _)%Z; [by apply (io_ret _)|].
  apply (io_bind _); [by apply (io_or_raise _)|]. intros ?.
  destruct (_ !! _); by apply (io_ret _).
Qed.

Lemma build_pages_built root mds w pages pbp w' :
  build_pages root mds w = (Ok (pages, pbp), w') ->
  built root mds (pages, pbp).
Proof.
  intros Hrun. unfold build_pages in Hrun.
  apply (for_each_ok_ind (built root)) in Hrun; [done| |].
  - repeat split; intros *; rewrite ?lookup_nil, ?lookup_empty; try done.
    by intros ?%elem_of_nil.
  - clear. intros done md [pages pbp] w0 [pages1 pbp1] w1 (I1 & I2 & I3 & I4) Hb.
    fold (in_files_dir md) in Hb.
    destruct (in_files_dir md) eqn:Hskip.
    { injection Hb as <- <- _. repeat split.
      - intros i page Hi. destruct (I1 i page Hi) as (rel & ? & ? & ? & ?).
        exists rel. repeat split; try done. apply elem_of_app; by left.
      - done.
      - done.
      - intros md' [Hin|Hin%list_elem_of_singleton]%elem_of_app Hs; [by apply I4|].
        congruence. }
    unfold mbind, M_bind, bind in Hb.
    destruct (read_text md w0) as [[text|?] w2]; [|done].
    destruct (relative_to md root) as [rel|] eqn:Hrel; cbn in Hb; [|done].
    injection Hb as <- <- _. apply relative_to_Some in Hrel.
    repeat split.
    + intros i page Hi. apply lookup_app_Some in Hi as [Hi|[Hlen Hi]].
      * destruct (I1 i page Hi) as (rel' & ? & ? & ? & ?).
        exists rel'. repeat split; try done. apply elem_of_app; by left.
      * apply list_lookup_singleton_Some in Hi as [_ <-]. cbn.
        exists rel. rewrite length_parents. repeat split; try done.
        apply elem_of_app; right. by apply list_elem_of_singleton.
    + intros p i Hp. destruct (decide (md = p)) as [<-|Hne].
      * rewrite lookup_insert_eq in Hp. injection Hp as <-.
        eexists. split; [apply list_lookup_middle; done|done].
      * rewrite lookup_insert_ne in Hp by done.
        destruct (I2 p i Hp) as (page & Hi & ?). exists page. split; [|done].
        by apply lookup_app_l_Some.
    + intros i page Hi. apply lookup_app_Some in Hi as [Hi|[Hlen Hi]].
      * destruct (decide (md = file_path page)) as [<-|Hne].
        -- rewrite lookup_insert_eq. eauto.
        -- rewrite lookup_insert_ne by done. eauto.
      * apply list_lookup_singleton_Some in Hi as [_ <-]. cbn.
        rewrite lookup_insert_eq. eauto.
    + intros md' [Hin|Hin%list_elem_of_singleton]%elem_of_app Hs.
      * destruct (I4 md' Hin Hs) as (i & page & Hi & ?).
        exists i, page. split; [by apply lookup_app_l_Some|done].
      * subst md'. eexists (length pages), _. split; [apply list_lookup_middle; done|done].
Qed.

Lemma linked_grow pbp pages done i roots store :
  linked pbp pages done (roots, store) ->
  (forall page, pages !! i = Some page -> False) ->
  linked pbp pages (done ++ [i]) (roots, store).
Proof.
  intros (I1 & I2 & I3 & I4 & I5) Hnone.
  split; [done|]. split; [done|]. split; [|split].
  - intros j pj pj' i0 Hj Hj'. rewrite (I3 j pj pj' i0 Hj Hj').
    split; (intros [?|(Hin & page & pm & Hp & Hrest)]; [by left|right]).
    + split; [set_solver|eauto].
    + apply elem_of_app in Hin as [Hin|Hin%list_elem_of_singleton]; [eauto|].
      subst i0. destruct (Hnone page Hp).
  - intros i0. rewrite I4. split; intros [Hin (page & Hp & Hl)].
    + split; [set_solver|eauto].
    + apply elem_of_app in Hin as [Hin|Hin%list_elem_of_singleton]; [eauto|].
      subst i0. destruct (Hnone page Hp).
  - intros i0 page Hin Hp Hl.
    apply elem_of_app in Hin as [Hin|Hin%list_elem_of_singleton]; [by eapply I5|].
    subst i0. destruct (Hnone page Hp).
Qed.

Lemma link_pages_linked pbp pages w roots store w' :
  link_pages pbp pages w = (Ok (roots, store), w') ->
  linked pbp pages (seq 0 (length pages)) (roots, store).
Proof.
  intros Hrun. unfold link_pages in Hrun.
  apply (for_each_ok_ind (linked pbp pages)) in Hrun; [done| |].
  - split; [done|]. split; [|split; [|split]].
    + intros j pj Hj. exists pj. split; [done | apply same_but_children_refl].
    + intros j pj pj' i Hj Hj'. assert (pj' = pj) as -> by congruence. set_solver.
    + set_solver.
    + set_solver.
  - clear. intros done i [roots store] w0 [roots1 store1] w1 Inv Hb.
    pose proof Inv as (I1 & I2 & I3 & I4 & I5).
    destruct (store !! i) as [page'|] eqn:Hi.
    2:{ injection Hb as <- <- _. apply linked_grow; [done|].
        intros page Hp. apply lookup_lt_Some in Hp. apply lookup_ge_None in Hi. lia. }
    assert (exists page, pages !! i = Some page /\ same_but_children page page')
      as (page & Hp & Hsame).
    { destruct (pages !! i) as [page|] eqn:Hp.
      - destruct (I2 i page Hp) as (q & Hq & ?). exists page. split; [done|]. congruence.
      - apply lookup_ge_None in Hp. apply lookup_lt_Some in Hi. lia. }
    assert (Hlev : level page' = level page) by (symmetry; apply Hsame).
    assert (Hfp : file_path page' = file_path page) by (symmetry; apply Hsame).
    rewrite Hlev, Hfp in Hb.
    destruct (Z.eqb_spec (level page) 0) as [Hz|Hnz].
    { injection Hb as <- <- _.
      split; [done|]. split; [done|]. split; [|split].
      - intros j pj pj' i0 Hj Hj'. rewrite (I3 j pj pj' i0 Hj Hj').
        split; (intros [?|(Hin & q & pm & Hq & Hl & Hrest)]; [by left|right]).
        + split; [set_solver|eauto 10].
        + apply elem_of_app in Hin as [Hin|Hin%list_elem_of_singleton]; [eauto 10|].
          subst i0. congruence.
      - intros i0. split.
        + intros [Hin%I4|Hin%list_elem_of_singleton]%elem_of_app.
          * split; [set_solver|tauto].
          * subst i0. split; [set_solver|eauto].
        + intros [Hin Hx]. apply elem_of_app.
          apply elem_of_app in Hin as [Hin|Hin]; [left; by apply I4 | by right].
      - intros i0 q Hin Hq Hl.
        apply elem_of_app in Hin as [Hin|Hin%list_elem_of_singleton]; [by eapply I5|].
        subst i0. congruence. }
    unfold mbind, M_bind, bind in Hb.
    fold (parent_md_of page) in Hb.
    destruct (parent_md_of page) as [pm|] eqn:Hpm; cbn in Hb; [|done].
    assert (roots1 = roots /\
              store1 = match pbp !! pm with
                       | Some j => alter (append_child i) j store
                       | None => store
                       end) as (-> & Hst).
    { destruct (pbp !! pm); injection Hb as <- <- _; eauto. }
    clear Hb.
    assert (Hlen : length store1 = length store).
    { subst store1. destruct (pbp !! pm); [apply length_alter|done]. }
    assert (Hkids : forall j q pj', store !! j = Some q -> store1 !! j = Some pj' ->
              same_but_children q pj' /\
              forall i0, i0 ∈ children pj' <->
                         i0 ∈ children q \/ (i0 = i /\ pbp !! pm = Some j)).
    { intros j q pj' Hq Hj'. subst store1. destruct (pbp !! pm) as [j0|].
      - destruct (decide (j0 = j)) as [->|Hne].
        + rewrite list_lookup_alter_eq, Hq in Hj'. injection Hj' as <-.
          split; [by repeat split|]. intros i0. cbn. rewrite elem_of_app, list_elem_of_singleton.
          naive_solver.
        + rewrite list_lookup_alter_ne in Hj' by done.
          assert (pj' = q) as -> by congruence.
          split; [apply same_but_children_refl|]. naive_solver.
      - assert (pj' = q) as -> by congruence.
        split; [apply same_but_children_refl|]. naive_solver. }
    split; [lia|]. split; [|split; [|split]].
    + intros j pj Hj. destruct (I2 j pj Hj) as (q & Hq & Hs).
      destruct (store1 !! j) as [pj'|] eqn:Hj'.
      * exists pj'. split; [done|].
        eapply same_but_children_trans; [exact Hs|]. by apply (Hkids j q pj').
      * apply lookup_ge_None in Hj'. apply lookup_lt_Some in Hq. lia.
    + intros j pj pj' i0 Hj Hj'.
      destruct (I2 j pj Hj) as (q & Hq & Hs).
      destruct (Hkids j q pj' Hq Hj') as [_ ->].
      rewrite (I3 j pj q i0 Hj Hq). split.
      * intros [[?|(Hin & Hx)]|[-> Hj0]]; [by left| |].
        -- right. split; [set_solver|done].
        -- right. split; [set_solver|]. exists page, pm. done.
      * intros [?|(Hin & q' & pm' & Hq' & Hl & Hpm' & Hj0)]; [by left; left|].
        apply elem_of_app in Hin as [Hin|Hin%list_elem_of_singleton].
        -- left; right. eauto 10.
        -- subst i0. right. split; [done|]. congruence.
    + intros i0. rewrite I4. split; intros [Hin (q & Hq & Hl)].
      * split; [set_solver|eauto].
      * apply elem_of_app in Hin as [Hin|Hin%list_elem_of_singleton]; [eauto|].
        subst i0. congruence.
    + intros i0 q Hin Hq Hl.
      apply elem_of_app in Hin as [Hin|Hin%list_elem_of_singleton]; [by eapply I5|].
      subst i0. assert (q = page) as -> by congruence. rewrite Hpm. eauto.
Qed.


Lemma insert_sorted_perm {A} (leb : A -> A -> bool) x l :
  insert_sorted leb x l ≡ₚ x :: l.
Proof.
  induction l as [|y l IH]; cbn; [done|].
  destruct (leb x y); [done|]. rewrite IH. apply Permutation_swap.
Qed.

Lemma stable_sort_perm {A} (leb : A -> A -> bool) l : stable_sort leb l ≡ₚ l.
Proof.
  induction l as [|x l IH]; cbn; [done|].
  rewrite insert_sorted_perm. by rewrite IH.
Qed.

(** What a successful [parse] has done. *)
Lemma parse_ok zip w e w' :
  parse zip w = (Ok e, w') ->
  exists rest entries root sname pages pbp,
    tmp_names w = temp_dir e :: rest /\
    archive w zip = Some entries /\
    w' = extracted w (temp_dir e) rest entries /\
    detect_root (fs w') (temp_dir e) zip = (root, sname) /\
    build_pages root (rglob (fs w') root glob_md) w' = (Ok (pages, pbp), w') /\
    link_pages pbp pages w' = (Ok (root_pages e, page_store e), w') /\
    space_name e = sname /\
    all_pages e = stable_sort (page_order (page_store e))
                              (seq 0 (length (page_store e))) /\
    attachments_dir e = Some root.
Proof.
  unfold parse, mbind, M_bind. unfold bind at 1. unfold mkdtemp at 1.
  destruct (tmp_names w) as [|tmp rest] eqn:Htmp; [done|].
  unfold try_except_reraise.
  match goal with |- context [ bind ?m ?f ?x ] => set (w0 := x) end.
  unfold bind at 1. unfold extractall.
  destruct (stat (fs w0) zip) as [[|sz tx]|]; cbn [fst snd];
    try (destruct (rmtree _ _) as [[|] ?]; discriminate).
  change (archive w0 zip) with (archive w zip).
  destruct (archive w zip) as [entries|] eqn:Harch;
    [|destruct (rmtree _ _) as [[|] ?]; discriminate].
  unfold set_fs at 1. cbn [fst snd].
  match goal with |- context [ bind get_fs ?f ?x ] => set (w1 := x) end.
  assert (Hw1 : w1 = extracted w tmp rest entries) by reflexivity.
  unfold bind at 1, get_fs at 1.
  destruct (detect_root (fs w1) tmp zip) as [root sname] eqn:Hroot.
  unfold bind at 1.
  pose proof (build_pages_unchanged root (rglob (fs w1) root glob_md) w1) as Hb.
  destruct (build_pages root (rglob (fs w1) root glob_md) w1) as [[[pages pbp]|?] w2] eqn:Hbuild;
    cbn in Hb; subst w2; [|destruct (rmtree _ _) as [[|] ?]; discriminate].
  unfold bind at 1.
  pose proof (link_pages_unchanged pbp pages w1) as Hl.
  destruct (link_pages pbp pages w1) as [[[roots store]|?] w2] eqn:Hlink;
    cbn in Hl; subst w2; [|destruct (rmtree _ _) as [[|] ?]; discriminate].
  cbn. intros [= <- <-]. cbn.
  exists rest, entries, root, sname, pages, pbp. done.
Qed.


Lemma rglob_under fs0 p pat md :
  md ∈ rglob fs0 p pat -> exists rel, md = p ++ rel /\ rel <> [].
Proof.
  unfold rglob. destruct (resolve fs0 [] p) as [q|]; [|by intros ?%elem_of_nil].
  intros ([x nd] & Hin & Hx)%list_elem_of_omap. cbn [fst] in Hx.
  destruct (is_under q x && pat (name x)) eqn:E; [|done].
  apply andb_true_iff in E as [E _]. unfold is_under in E.
  destruct (relative_to x q) as [[|r rel]|]; try done.
  cbn in Hx. injection Hx as <-. by exists (r :: rel).
Qed.

(** A successful [parse], with what its two loops established. *)
Lemma parse_pages zip w e w' :
  parse zip w = (Ok e, w') ->
  exists root pages pbp,
    attachments_dir e = Some root /\
    root = fst (detect_root (fs w') (temp_dir e) zip) /\
    built root (rglob (fs w') root glob_md) (pages, pbp) /\
    linked pbp pages (seq 0 (length pages)) (root_pages e, page_store e) /\
    all_pages e ≡ₚ seq 0 (length (page_store e)).
Proof.
  intros (rest & entries & root & sname & pages & pbp & _ & _ & _ & Hroot & Hb & Hl
          & _ & Hall & Hdir)%parse_ok.
  exists root, pages, pbp. split; [done|]. split; [by rewrite Hroot|].
  split; [by eapply build_pages_built|]. split; [by eapply link_pages_linked|].
  rewrite Hall. apply stable_sort_perm.
Qed.

Lemma parsed_page_original e pages pbp i page :
  linked pbp pages (seq 0 (length pages)) (root_pages e, page_store e) ->
  page_store e !! i = Some page ->
  exists page0, pages !! i = Some page0 /\ same_but_children page0 page /\
    i ∈ seq 0 (length pages).
Proof.
  intros (L1 & L2 & _) Hi.
  destruct (pages !! i) as [page0|] eqn:Hp.
  - destruct (L2 i page0 Hp) as (q & Hq & Hs). exists page0.
    split; [done|]. split; [congruence|].
    apply elem_of_seq. apply lookup_lt_Some in Hp. lia.
  - apply lookup_ge_None in Hp. apply lookup_lt_Some in Hi. lia.
Qed.


Lemma split_last_dot_app nm st suf :
  split_last_dot nm = Some (st, suf) -> nm = st ++ suf.
Proof.
  revert st. induction nm as [|c nm IH]; intros st; cbn; [done|].
  destruct (split_last_dot nm) as [[st' suf']|].
  - intros [= <- <-]. cbn. f_equal. by apply IH.
  - destruct (ceq c "."); [|done]. by intros [= <- <-].
Qed.

Lemma split_last_dot_md (S : str) :
  split_last_dot (S ++ txt ".md") = Some (S, txt ".md").
Proof. induction S as [|c S IH]; [done|]. cbn. cbn in IH. by rewrite IH. Qed.

Lemma stem_nonempty (p : Path) : name p <> [] -> stem p <> [].
Proof.
  unfold stem, suffix, suffix_of_name. generalize (name p). intros nm Hne.
  destruct (split_last_dot nm) as [[st suf]|] eqn:E.
  - apply split_last_dot_app in E. subst nm.
    destruct st as [|a st]; [|destruct suf as [|b [|b' suf]]];
      try (rewrite Nat.sub_0_r, firstn_all; done).
    cbv beta iota. rewrite (take_all_but (a :: st) (b :: b' :: suf)). done.
  - rewrite Nat.sub_0_r, firstn_all. done.
Qed.

Lemma name_snoc (p : Path) (x : str) : name (p ++ [x]) = x.
Proof. unfold name. apply last_last. Qed.

Lemma stem_md (p : Path) (S : str) : S <> [] -> stem (p ++ [S ++ txt ".md"]) = S.
Proof.
  intros Hne. unfold stem, suffix, suffix_of_name. rewrite name_snoc, split_last_dot_md.
  destruct S as [|a S]; [done|]. cbn [txt list_ascii_of_string].
  apply (take_all_but (a :: S)).
Qed.

(** The markdown name [parse] looks a parent up by: the containing
    directory with its suffix replaced, which is a path of the same stem
    in the same directory. *)
Lemma with_suffix_md (dir pm : Path) :
  with_suffix dir (txt ".md") = Some pm ->
  pm = parent dir ++ [stem dir ++ txt ".md"] /\
  stem pm = stem dir /\ parent pm = parent dir.
Proof.
  unfold with_suffix. destruct (name dir) as [|c nm] eqn:Hn; [done|].
  intros [= <-]. split; [done|]. split.
  - apply stem_md, stem_nonempty. by rewrite Hn.
  - unfold parent at 1. apply removelast_last.
Qed.

(** C8.  In the export a successful [parse] returns, every markdown file
    found under the logical root outside the attachment directories is a
    page, every page sits under the logical root, and a page that sits
    [N] directories below the logical root has nesting level [N]
    (level 0 directly under the root). *)
Theorem C8_nesting_level zip w e w' :
  parse zip w = (Ok e, w') ->
  let root := fst (detect_root (fs w') (temp_dir e) zip) in
  (forall md, md ∈ rglob (fs w') root glob_md -> in_files_dir md = false ->
     exists i page, page_store e !! i = Some page /\ file_path page = md) /\
  (forall i page, page_store e !! i = Some page ->
     exists dirs file, file_path page = root ++ dirs ++ [file] /\
       level page = Z.of_nat (length dirs)) /\
  (forall i page dirs file, page_store e !! i = Some page ->
     file_path page = root ++ dirs ++ [file] ->
     level page = Z.of_nat (length dirs)).
Proof.
  intros (root & pages & pbp & _ & <- & HB & HL & _)%parse_pages. cbn zeta.
  pose proof HB as (B1 & _ & _ & B4). pose proof HL as (_ & L2 & _).
  assert (Hlevel : forall i page, page_store e !! i = Some page ->
            exists rel, file_path page = root ++ rel /\ rel <> [] /\
                        level page = (Z.of_nat (length rel) - 1)%Z).
  { intros i page Hi.
    destruct (parsed_page_original e pages pbp i page HL Hi) as (page0 & Hp & Hs & _).
    destruct (B1 i page0 Hp) as (rel & Hfp & Hlev & _ & Hin).
    apply rglob_under in Hin as (rel' & Hrel' & Hne).
    assert (rel' = rel) as -> by (apply (app_inv_head root); congruence).
    destruct Hs as (_ & <- & _ & _ & <- & _). eauto. }
  split; [|split].
  - intros md Hmd Hskip. destruct (B4 md Hmd Hskip) as (i & page0 & Hp & Hfp).
    destruct (L2 i page0 Hp) as (page & Hi & Hs). exists i, page.
    split; [done|]. destruct Hs as (_ & <- & _). done.
  - intros i page Hi. destruct (Hlevel i page Hi) as (rel & Hfp & Hne & Hlev).
    destruct (exists_last Hne) as (dirs & file & ->).
    exists dirs, file. split; [done|]. rewrite Hlev, length_app. cbn. lia.
  - intros i page dirs file Hi Hfp.
    destruct (Hlevel i page Hi) as (rel & Hfp' & _ & Hlev).
    assert (rel = dirs ++ [file]) as -> by (apply (app_inv_head root); congruence).
    rewrite Hlev, length_app. cbn. lia.
Qed.


(** The linking as [parse] does it.  In the export a successful
    [parse] returns, a page of level above 0 is a child of some page
    exactly when some parsed page has as its file path what
    [with_suffix] makes of the page's containing directory: at the
    location of the directory, its stem (the name of the directory cut
    at its last dot) followed by [.md].  Its parent is then a page with
    that path; and in any case the page is no root page and is in the
    flat list of all pages. *)
Lemma child_linking zip w e w' :
  parse zip w = (Ok e, w') ->
  forall i page, page_store e !! i = Some page -> (0 < level page)%Z ->
  exists parent_md,
    with_suffix (parent (file_path page)) (txt ".md") = Some parent_md /\
    parent_md = parent (parent (file_path page))
                  ++ [stem (parent (file_path page)) ++ txt ".md"] /\
    stem parent_md = stem (parent (file_path page)) /\
    ((exists j pj, page_store e !! j = Some pj /\ i ∈ children pj) <->
     (exists j pj, page_store e !! j = Some pj /\ file_path pj = parent_md)) /\
    (forall j pj, page_store e !! j = Some pj -> i ∈ children pj ->
       file_path pj = parent_md) /\
    (i ∉ root_pages e) /\
    (i ∈ all_pages e).
Proof.
  intros (root & pages & pbp & _ & _ & HB & HL & Hall)%parse_pages i page Hi Hlev.
  pose proof HB as (B1 & B2 & B3 & _).
  pose proof HL as (L1 & L2 & L3 & L4 & L5).
  destruct (parsed_page_original e pages pbp i page HL Hi) as (page0 & Hp & Hs & Hseq).
  assert (Hfp : file_path page0 = file_path page) by apply Hs.
  assert (Hl0 : level page0 <> 0%Z).
  { destruct Hs as (_ & _ & _ & _ & -> & _). lia. }
  destruct (L5 i page0 Hseq Hp Hl0) as [pm Hpm]. unfold parent_md_of in Hpm.
  rewrite Hfp in Hpm. exists pm. split; [done|].
  destruct (with_suffix_md _ _ Hpm) as (Hform & Hstem & _).
  split; [done|]. split; [done|].
  (* the children of a stored page, in terms of the lookup [parse] makes *)
  assert (Hchild : forall j pj, page_store e !! j = Some pj ->
            (i ∈ children pj <-> pbp !! pm = Some j)).
  { intros j pj Hj.
    destruct (parsed_page_original e pages pbp j pj HL Hj) as (pj0 & Hpj0 & _ & _).
    rewrite (L3 j pj0 pj i Hpj0 Hj).
    destruct (B1 j pj0 Hpj0) as (_ & _ & _ & -> & _). split.
    - intros [?%elem_of_nil|(_ & q & pm' & Hq & _ & Hpm' & Hlook)]; [done|].
      assert (q = page0) as -> by congruence. unfold parent_md_of in Hpm'.
      rewrite Hfp in Hpm'. congruence.
    - intros Hlook. right. split; [done|]. exists page0, pm.
      unfold parent_md_of. rewrite Hfp. done. }
  assert (Hpath : forall j pj, page_store e !! j = Some pj ->
            pbp !! pm = Some j -> file_path pj = pm).
  { intros j pj Hj Hlook. destruct (B2 pm j Hlook) as (q & Hq & <-).
    destruct (L2 j q Hq) as (pj' & Hpj' & Hs').
    assert (pj' = pj) as -> by congruence. symmetry. apply Hs'. }
  split; [|split; [|split]].
  - split.
    + intros (j & pj & Hj & Hin). exists j, pj. split; [done|].
      apply (Hpath j pj Hj). by apply (Hchild j pj Hj).
    + intros (j & pj & Hj & Hpj).
      destruct (parsed_page_original e pages pbp j pj HL Hj) as (pj0 & Hpj0 & Hs0 & _).
      destruct (B3 j pj0 Hpj0) as [k Hk].
      assert (Hfk : file_path pj0 = pm) by (destruct Hs0 as (_ & -> & _); done).
      rewrite Hfk in Hk. destruct (B2 pm k Hk) as (q & Hq & _).
      destruct (L2 k q Hq) as (pk & Hpk & _).
      exists k, pk. split; [done|]. by apply (Hchild k pk Hpk).
  - intros j pj Hj Hin. apply (Hpath j pj Hj). by apply (Hchild j pj Hj).
  - intros (_ & q & Hq & Hz)%L4. assert (q = page0) as -> by congruence. done.
  - rewrite Hall. apply elem_of_seq. apply lookup_lt_Some in Hi. lia.
Qed.

End ReaderFacts.

Section GuardFacts.
Import DocmostParser MarkdownTransformer AttachmentHandler Orchestrator.
Variable float : str -> option pyfloat.

(** C10.  The export a successful [parse] returns always has its
    attachments directory set, to the logical root; so the guard of the
    document loop passes, and for every page the references are
    extracted and, when there are any, their upload is attempted
    (whether or not the export holds a [files] directory). *)
Theorem C10_attachments_dir_always_set zip w e w' :
  parse zip w = (Ok e, w') ->
  exists root,
    attachments_dir e = Some root /\
    root = fst (detect_root (fs w') (temp_dir e) zip) /\
    forall page stats0,
      process_attachments float (attachments_dir e) page stats0 =
        match extract_attachment_references (content page) with
        | [] => mret ([], stats0)
        | (_ :: _) as attachment_refs =>
            url_mapping ←
              upload_attachments_for_references float attachment_refs root;
            mret (url_mapping,
                  {| documents_created := documents_created stats0;
                     attachments_uploaded :=
                       (attachments_uploaded stats0
                        + N.of_nat (length attachment_refs))%N;
                     total_attachment_size := total_attachment_size stats0 |})
        end.
Proof.
  intros (root & pages & pbp & Hdir & Hroot & _)%parse_pages.
  exists root. split; [done|]. split; [done|].
  intros page stats0. rewrite Hdir. unfold process_attachments.
  by destruct (extract_attachment_references (content page)).
Qed.

End GuardFacts.

(** ** The migration: network, temporary directory, uploads *)

Section NetworkFacts.
Import OutlineClient AttachmentHandler DocmostParser Validators Orchestrator MarkdownTransformer.
Variable float : str -> option pyfloat.
Variable max_file_size : N.

Lemma new_events_extend w evs : new_events w (extend w evs) = evs.
Proof. unfold new_events, extend; cbn. by rewrite drop_app_length. Qed.

Lemma new_events_trace w w' evs :
  trace w' = trace w ++ evs -> new_events w w' = evs.
Proof. intros H. unfold new_events. by rewrite H, drop_app_length. Qed.

Lemma io_retrying {A} (P : list Event -> Prop) `{!Closed P} payload
    (decode : Json -> M A) :
  P [EvRequest payload] -> (forall q, P [EvSleep q]) ->
  (forall j, io_only P (decode j)) ->
  io_only P (retrying float payload decode).
Proof.
  intros Hreq Hsleep Hdec. unfold retrying.
  apply (io_for_range P); [|by apply (io_raise P)].
  intros i. unfold attempt.
  apply (io_bind P); [by apply io_http|]. intros resp.
  apply (io_bind P).
  - destruct (_ =? _)%Z; [|by apply (io_ret P)].
    unfold on_rate_limited. destruct (_ <? _)%nat.
    + apply (io_bind P); [by apply (io_or_raise P)|]. intros x.
      apply (io_bind P); [by apply (io_sleep P)|]. intros _. by apply (io_ret P).
    + apply (io_bind P); [by apply (io_raise_for_status P)|]. intros _.
      by apply (io_ret P).
  - intros [c|]; [by apply (io_ret P)|].
    apply (io_bind P); [by apply (io_raise_for_status P)|]. intros _.
    apply (io_bind P); [apply Hdec|]. intros ?. by apply (io_ret P).
Qed.

Lemma io_decode_document P `{!Closed P} j : io_only P (decode_document j).
Proof. destruct j; try apply (io_raise P); by apply (io_ret P). Qed.

Lemma io_decode_attachment P `{!Closed P} j : io_only P (decode_attachment j).
Proof. destruct j; try apply (io_raise P); by apply (io_ret P). Qed.

Lemma io_decode_collection P `{!Closed P} j : io_only P (decode_collection j).
Proof. destruct j; try apply (io_raise P); by apply (io_ret P). Qed.

Lemma io_create_document (P : list Event -> Prop) `{!Closed P} title text cid parent publish :
  (forall r, P [EvRequest r]) -> (forall q, P [EvSleep q]) ->
  io_only P (create_document float title text cid parent publish).
Proof.
  intros Hr Hs. apply (io_retrying P _ decode_document); [done..|].
  intros j. by apply io_decode_document.
Qed.

Lemma io_create_attachment (P : list Event -> Prop) `{!Closed P} nm ct size doc :
  P [EvRequest (attachments_create nm ct size (if_truthy doc))] ->
  (forall q, P [EvSleep q]) ->
  io_only P (create_attachment float nm ct size doc).
Proof.
  intros Hr Hs. apply (io_retrying P _ decode_attachment); [done..|].
  intros j. by apply io_decode_attachment.
Qed.

Lemma io_read_bytes P `{!Closed P} p : io_only P (read_bytes p).
Proof.
  unfold read_bytes. apply (io_bind P); [by apply io_get_fs|]. intros fs0.
  destruct (stat fs0 p) as [[|]|]; try apply (io_raise P); by apply (io_ret P).
Qed.

Lemma io_mime P `{!Closed P} (p : Path) :
  io_only P (fun w => (Ok (mime_type w p), w)).
Proof. intros w. exists []. split; [by rewrite extend_nil | apply closed_nil]. Qed.

Lemma io_upload_attachment (P : list Event -> Prop) `{!Closed P} p nm :
  (forall r, P [EvRequest r]) -> (forall q, P [EvSleep q]) ->
  io_only P (upload_attachment float p nm).
Proof.
  intros Hr Hs. unfold upload_attachment.
  apply (io_bind P); [by apply io_mime|]. intros ct.
  apply (io_bind P); [by apply io_st_size|]. intros size.
  apply (io_bind P); [by apply io_create_attachment|]. intros [[url form] att].
  apply (io_bind P).
  - unfold upload_file_to_storage.
    apply (io_bind P); [by apply io_read_bytes|]. intros _.
    apply (io_bind P); [by apply io_http|]. intros resp.
    by apply io_raise_for_status.
  - intros _. by apply (io_ret P).
Qed.

Lemma io_upload_attachments_for_references (P : list Event -> Prop) `{!Closed P} refs dir :
  (forall r, P [EvRequest r]) -> (forall q, P [EvSleep q]) ->
  io_only P (upload_attachments_for_references float refs dir).
Proof.
  intros Hr Hs. unfold upload_attachments_for_references.
  apply (io_for_each P). intros ref m.
  apply (io_bind P); [by apply io_get_fs|]. intros fs0.
  apply (io_bind P); [by apply io_or_raise|]. intros full.
  apply (io_bind P); [by apply io_upload_attachment|]. intros up.
  by apply (io_ret P).
Qed.

Lemma io_process_page (P : list Event -> Prop) `{!Closed P} e cid i st :
  (forall r, P [EvRequest r]) -> (forall q, P [EvSleep q]) ->
  io_only P (process_page float e cid i st).
Proof.
  intros Hr Hs. unfold process_page.
  apply (io_bind P); [by apply io_or_raise|]. intros page.
  apply (io_bind P).
  { destruct (parent_path page); [|by apply (io_ret P)].
    apply (io_bind P); [by apply io_or_raise|]. intros ?. by apply (io_ret P). }
  intros parent_doc_id.
  apply (io_bind P).
  { unfold process_attachments. destruct (attachments_dir e); [|by apply (io_ret P)].
    destruct (extract_attachment_references _); [by apply (io_ret P)|].
    apply (io_bind P); [by apply io_upload_attachments_for_references|].
    intros ?. by apply (io_ret P). }
  intros [mapping stats1].
  apply (io_bind P); [by apply io_or_raise|]. intros text.
  apply (io_bind P); [by apply io_create_document|]. intros doc.
  by apply (io_ret P).
Qed.

Lemma io_find_attachments P `{!Closed P} e : io_only P (find_attachments e).
Proof.
  unfold find_attachments. apply (io_bind P); [by apply io_get_fs|]. intros fs0.
  destruct (attachments_dir e); [|by apply (io_ret P)].
  destruct (negb _); by apply (io_ret P).
Qed.

Lemma io_validate_all_attachments P `{!Closed P} files :
  io_only P (validate_all_attachments files max_file_size).
Proof.
  unfold validate_all_attachments. apply (io_bind P).
  - apply (io_for_each P). intros p [ts tf].
    apply (io_bind P); [by apply io_get_fs|]. intros fs0.
    destruct (negb _); [by apply (io_raise P)|].
    apply (io_bind P).
    { unfold validate_file_size. apply (io_bind P); [by apply io_st_size|].
      intros size. destruct (_ <? _)%N; [by apply (io_raise P)|by apply (io_ret P)]. }
    intros _. apply (io_bind P); [by apply io_st_size|]. intros size.
    by apply (io_ret P).
  - intros [ts tf]. by apply (io_ret P).
Qed.

Lemma io_validate P `{!Closed P} e : io_only P (validate max_file_size e).
Proof.
  unfold validate. apply (io_bind P); [by apply io_find_attachments|].
  intros [|p files]; [by apply (io_ret P)|].
  apply (io_bind P); [by apply io_validate_all_attachments|]. intros ?.
  by apply (io_ret P).
Qed.

Lemma io_setup_collection (P : list Event -> Prop) `{!Closed P} e cid :
  (forall r, P [EvRequest r]) -> io_only P (setup_collection e cid).
Proof.
  intros Hr. unfold setup_collection.
  assert (Hc : forall n d c, io_only P (create_collection n d c)).
  { intros. unfold create_collection.
    apply (io_bind P); [by apply io_http|]. intros resp.
    apply (io_bind P); [by apply io_raise_for_status|]. intros _.
    by apply io_decode_collection. }
  destruct cid as [[|c id]|].
  - apply (io_bind P); [apply Hc|]. intros ?. by apply (io_ret P).
  - apply (io_bind P).
    + unfold get_collection.
      apply (io_bind P); [by apply io_http|]. intros resp.
      apply (io_bind P); [by apply io_raise_for_status|]. intros _.
      by apply io_decode_collection.
    + intros ?. by apply (io_ret P).
  - apply (io_bind P); [apply Hc|]. intros ?. by apply (io_ret P).
Qed.

(** The part of [migrate] the [try] statement guards. *)
Lemma io_migrate_body (P : list Event -> Prop) `{!Closed P} e cid :
  (forall r, P [EvRequest r]) -> (forall q, P [EvSleep q]) ->
  io_only P
    (validate max_file_size e;;
     chosen ← setup_collection e cid;
     let '(collection_id, collection) := chosen in
     final ← migrate_documents float e collection_id;
     mret (collection_id, stats final)).
Proof.
  intros Hr Hs. apply (io_bind P); [by apply io_validate|]. intros _.
  apply (io_bind P); [by apply io_setup_collection|]. intros [id col].
  apply (io_bind P).
  - unfold migrate_documents. apply (io_for_each P). intros i st.
    by apply io_process_page.
  - intros ?. by apply (io_ret P).
Qed.

End NetworkFacts.

Section ReleaseFacts.
Import OutlineClient AttachmentHandler DocmostParser Validators Orchestrator MarkdownTransformer.
Variable float : str -> option pyfloat.
Variable max_file_size : N.

Lemma rmtree_removed p w : rmtree p w = (Ok tt, removed w p).
Proof. reflexivity. Qed.

Lemma resolve_plain fs0 cur p : plain p -> resolve fs0 cur p = Some (cur ++ p).
Proof.
  unfold plain. revert cur. induction p as [|seg p IH]; intros cur Hp; cbn [resolve].
  - by rewrite app_nil_r.
  - destruct (str_eqb seg (txt "..")) eqn:E.
    + apply str_eqb_eq in E. subst seg. exfalso. apply Hp. by left.
    + rewrite IH; [by rewrite <- app_assoc|]. intros Hin. apply Hp. by right.
Qed.

Lemma fs_node_elem fs0 p nd : (p, nd) ∈ fs0 -> is_Some (fs_node fs0 p).
Proof.
  intros Hin. destruct p as [|c p]; [by eexists|]. cbn.
  destruct (List.find _ fs0) as [x|] eqn:E; [by eexists|].
  apply list_elem_of_In in Hin. eapply find_none in E; [|exact Hin]. cbn in E.
  unfold path_eqb in E. by rewrite bool_decide_eq_true_2 in E.
Qed.

Lemma exists_elem fs0 p nd : (p, nd) ∈ fs0 -> plain p -> exists_ fs0 p = true.
Proof.
  intros Hin Hp. unfold exists_, stat. rewrite (resolve_plain _ _ _ Hp). cbn.
  by destruct (fs_node_elem _ _ _ Hin) as [x ->].
Qed.

Lemma remove_tree_gone fs0 p : gone (remove_tree fs0 p) p.
Proof.
  intros q nd Hin. unfold remove_tree in Hin. apply list_elem_of_In, filter_In in Hin as [_ H].
  apply negb_true_iff, orb_false_iff in H as [H1 H2]. cbn in *. split; [|done].
  unfold path_eqb in H1. by apply bool_decide_eq_false in H1.
Qed.

Lemma gone_not_exists fs0 p : gone fs0 p -> plain p -> p <> [] -> exists_ fs0 p = false.
Proof.
  intros Hg Hp Hne. unfold exists_, stat. rewrite (resolve_plain _ _ _ Hp). cbn.
  destruct p as [|c p]; [done|]. cbn.
  destruct (List.find _ fs0) as [[q nd]|] eqn:E; [|done].
  apply find_some in E as [Hin E]. cbn in E. unfold path_eqb in E.
  apply bool_decide_eq_true in E. subst q. apply list_elem_of_In in Hin.
  by destruct (Hg _ _ Hin).
Qed.

Lemma cleanup_spec e w :
  cleanup e w =
    (Ok tt, if exists_ (fs w) (temp_dir e) then removed w (temp_dir e) else w).
Proof.
  unfold cleanup, mbind, M_bind, bind, get_fs.
  destruct (exists_ (fs w) (temp_dir e)); [apply rmtree_removed | reflexivity].
Qed.

(** The body of [parse] under its [try] leaves the trace alone. *)
Lemma parse_raise zip w e w' :
  parse zip w = (Raise e, w') ->
  (tmp_names w = [] /\ w' = w) \/
  (exists tmp rest, tmp_names w = tmp :: rest /\
     trace w' = trace w ++ [EvMkdtemp tmp; EvRmtree tmp] /\
     sent w' = sent w /\ gone (fs w') tmp).
Proof.
  unfold parse, mbind, M_bind. unfold bind at 1. unfold mkdtemp at 1.
  destruct (tmp_names w) as [|tmp rest] eqn:Htmp; [intros [= _ <-]; by left|].
  intros Hrun. right. exists tmp, rest. split; [done|].
  unfold try_except_reraise in Hrun.
  match type of Hrun with context [ bind ?m ?f ?x ] => set (w0 := x) in * end.
  assert (Hbody : forall (body : M DocmostExport) w1 r,
            body w0 = (r, w1) -> trace w1 = trace w0 -> sent w1 = sent w0 ->
            match body w0 with
            | (Ok a, w'0) => (Ok a, w'0)
            | (Raise e0, w'0) =>
                match rmtree tmp w'0 with
                | (Ok _, w'') => (Raise e0, w'')
                | (Raise e', w'') => (Raise e', w'')
                end
            end = (Raise e, w') ->
            trace w' = trace w ++ [EvMkdtemp tmp; EvRmtree tmp] /\
            sent w' = sent w /\ gone (fs w') tmp).
  { intros body w1 r Hb Ht Hs. rewrite Hb. destruct r as [a|e0]; [done|].
    rewrite rmtree_removed. intros [= _ <-]. cbn. rewrite Ht, Hs. cbn.
    rewrite <- app_assoc. split; [done|]. split; [done|]. apply remove_tree_gone. }
  match type of Hrun with context [ match ?b w0 with _ => _ end ] =>
    destruct (b w0) as [r w1] eqn:Hb; apply (Hbody b w1 r Hb); [| |by rewrite Hb] end.
  - clear Hrun Hbody. unfold bind at 1 in Hb. unfold extractall in Hb.
    destruct (stat (fs w0) zip) as [[|sz tx]|]; try (injection Hb as _ <-; done).
    destruct (archive w0 zip) as [entries|]; [|injection Hb as _ <-; done].
    unfold set_fs at 1 in Hb. 
    match type of Hb with context [ bind get_fs ?f ?x ] => set (w2 := x) in * end.
    unfold bind at 1, get_fs at 1 in Hb.
    destruct (detect_root (fs w2) tmp zip) as [root sname].
    unfold bind at 1 in Hb.
    pose proof (build_pages_unchanged root (rglob (fs w2) root glob_md) w2) as Hbu.
    destruct (build_pages root _ w2) as [[[pages pbp]|?] w3]; cbn in Hbu; subst w3;
      [|injection Hb as _ <-; done].
    unfold bind at 1 in Hb.
    pose proof (link_pages_unchanged pbp pages w2) as Hl.
    destruct (link_pages pbp pages w2) as [[[roots store]|?] w3]; cbn in Hl; subst w3;
      injection Hb as _ <-; done.
  - clear Hrun Hbody. unfold bind at 1 in Hb. unfold extractall in Hb.
    destruct (stat (fs w0) zip) as [[|sz tx]|]; try (injection Hb as _ <-; done).
    destruct (archive w0 zip) as [entries|]; [|injection Hb as _ <-; done].
    unfold set_fs at 1 in Hb. 
    match type of Hb with context [ bind get_fs ?f ?x ] => set (w2 := x) in * end.
    unfold bind at 1, get_fs at 1 in Hb.
    destruct (detect_root (fs w2) tmp zip) as [root sname].
    unfold bind at 1 in Hb.
    pose proof (build_pages_unchanged root (rglob (fs w2) root glob_md) w2) as Hbu.
    destruct (build_pages root _ w2) as [[[pages pbp]|?] w3]; cbn in Hbu; subst w3;
      [|injection Hb as _ <-; done].
    unfold bind at 1 in Hb.
    pose proof (link_pages_unchanged pbp pages w2) as Hl.
    destruct (link_pages pbp pages w2) as [[[roots store]|?] w3]; cbn in Hl; subst w3;
      injection Hb as _ <-; done.
Qed.


#[local] Instance net_closed : Closed (fun evs => temp_events evs = []).
Proof.
  split; [done|]. intros a b Ha Hb. unfold temp_events in *.
  by rewrite List.filter_app, Ha, Hb.
Qed.

Lemma temp_events_app a b : temp_events (a ++ b) = temp_events a ++ temp_events b.
Proof. apply List.filter_app. Qed.

(** After a successful [parse], the guarded part of [migrate] followed by
    the cleanup of its [finally] clause. *)
Lemma guarded_then_cleanup {A} (body : M A) zip w e w1 :
  parse zip w = (Ok e, w1) -> plain (temp_dir e) ->
  io_only (fun evs => temp_events evs = []) body ->
  exists evs,
    try_finally body (cleanup e) w1
      = (fst (body w1), removed (extend w1 evs) (temp_dir e)) /\
    temp_events evs = [].
Proof.
  intros (rest & entries & _ & _ & _ & _ & _ & _ & -> & _)%parse_ok Hplain Hbody.
  destruct (Hbody (extracted w (temp_dir e) rest entries)) as (evs & Hw & Hevs).
  exists evs. split; [|done]. unfold try_finally.
  destruct (body _) as [r w2]; cbn in Hw; subst w2.
  rewrite cleanup_spec. cbn [fst].
  rewrite (exists_elem _ (temp_dir e) Dir); [done| |done].
  cbn. set_solver.
Qed.

(** [migrate], step by step. *)
Lemma migrate_unfold zip coll w0 :
  migrate float max_file_size zip coll w0 =
    if exists_ (fs w0) zip then
      match parse zip w0 with
      | (Ok e, w1) =>
          try_finally
            (validate max_file_size e;;
             chosen ← setup_collection e coll;
             let '(collection_id, collection) := chosen in
             final ← migrate_documents float e collection_id;
             mret (collection_id, stats final))
            (cleanup e) w1
      | (Raise x, w1) => (Raise x, w1)
      end
    else (Raise (FileNotFoundError (path_str zip)), w0).
Proof.
  unfold migrate, DocmostParser.init, mbind, M_bind.
  unfold bind at 1 2, get_fs at 1. destruct (exists_ (fs w0) zip); [|done].
  cbn [ret mret M_ret]. unfold bind at 1.
  destruct (parse zip w0) as [[e|x] w1]; done.
Qed.

(** C7.  Whatever way [migrate] ends, the temporary directory is
    released exactly once: no directory is made when the archive is
    missing or no temporary directory can be had; otherwise exactly one
    is made and removed, and nothing is left of it.  When [parse] raises
    the removal is its own; when [parse] succeeds the removal is the
    cleanup that follows the guarded part, whatever that part's outcome.
    The cleanup never raises, does nothing when the directory does not
    exist, and can be repeated. *)
Theorem C7_extraction_root_released zip coll w :
  Forall plain (tmp_names w) ->
  let w' := snd (migrate float max_file_size zip coll w) in
  (exists_ (fs w) zip = false \/ tmp_names w = [] -> trace w' = trace w) /\
  (forall tmp rest, exists_ (fs w) zip = true -> tmp_names w = tmp :: rest ->
     exists evs, trace w' = trace w ++ evs /\
       temp_events evs = [EvMkdtemp tmp; EvRmtree tmp] /\ gone (fs w') tmp) /\
  (forall x w1 tmp rest, parse zip w = (Raise x, w1) -> tmp_names w = tmp :: rest ->
     trace w1 = trace w ++ [EvMkdtemp tmp; EvRmtree tmp] /\ gone (fs w1) tmp) /\
  (forall e w1, parse zip w = (Ok e, w1) ->
     trace w1 = trace w ++ [EvMkdtemp (temp_dir e)] /\
     forall A (body : M A), io_only (fun evs => temp_events evs = []) body ->
       exists evs,
         try_finally body (cleanup e) w1
           = (fst (body w1), removed (extend w1 evs) (temp_dir e)) /\
         temp_events evs = []) /\
  (forall e w0, fst (cleanup e w0) = Ok tt) /\
  (forall e w0, exists_ (fs w0) (temp_dir e) = false -> cleanup e w0 = (Ok tt, w0)) /\
  (forall e w0, plain (temp_dir e) -> temp_dir e <> [] ->
     cleanup e (snd (cleanup e w0)) = (Ok tt, snd (cleanup e w0))).
Proof.
  intros Hplain. cbn zeta.
  pose proof (migrate_unfold zip coll) as Hmig.
  assert (Hok : forall e w1, parse zip w = (Ok e, w1) ->
            plain (temp_dir e) /\ trace w1 = trace w ++ [EvMkdtemp (temp_dir e)]).
  { intros e w1 (rest & entries & _ & _ & _ & _ & Htmp & _ & -> & _)%parse_ok.
    split; [|done]. rewrite Htmp in Hplain. by apply Forall_cons in Hplain as [? _]. }
  split; [|split; [|split; [|split; [|split; [|split]]]]].
  - rewrite Hmig. intros [Hz|Ht].
    + by rewrite Hz.
    + destruct (exists_ (fs w) zip); [|done].
      unfold parse, mbind, M_bind. unfold bind at 1, mkdtemp at 1. by rewrite Ht.
  - intros tmp rest Hz Ht. rewrite Hmig, Hz.
    destruct (parse zip w) as [[e|x] w1] eqn:Hparse.
    + destruct (Hok e w1 eq_refl) as [Hpl Htr].
      destruct (guarded_then_cleanup
                  (validate max_file_size e;;
                   chosen ← setup_collection e coll;
                   let '(collection_id, collection) := chosen in
                   final ← migrate_documents float e collection_id;
                   mret (collection_id, stats final))
                  zip w e w1 Hparse Hpl) as (evs & -> & Hevs).
      { apply (io_migrate_body float max_file_size
                 (fun evs => temp_events evs = []) e coll); done. }
      assert (temp_dir e = tmp) as Htd.
      { apply parse_ok in Hparse as (? & ? & _ & _ & _ & _ & H & _). congruence. }
      cbn [snd]. exists ([EvMkdtemp tmp] ++ evs ++ [EvRmtree tmp]).
      split; [|split].
      * cbn. rewrite Htr, Htd. by rewrite <- !app_assoc.
      * rewrite !temp_events_app, Hevs. done.
      * cbn. rewrite Htd. apply remove_tree_gone.
    + apply parse_raise in Hparse as [[Hnil _]|(tmp' & rest' & Hn & Htr & _ & Hg)];
        [congruence|].
      assert (tmp' = tmp) as -> by congruence.
      exists [EvMkdtemp tmp; EvRmtree tmp]. done.
  - intros x w1 tmp rest Hparse Ht.
    apply parse_raise in Hparse as [[Hnil _]|(tmp' & rest' & Hn & Htr & _ & Hg)];
      [congruence|].
    assert (tmp' = tmp) as -> by congruence. done.
  - intros e w1 Hparse. destruct (Hok e w1 Hparse) as [Hpl Htr]. split; [done|].
    intros A body Hbody. by eapply guarded_then_cleanup.
  - intros e w0. by rewrite cleanup_spec.
  - intros e w0 Hex. by rewrite cleanup_spec, Hex.
  - intros e w0 Hpl Hne. rewrite !cleanup_spec. cbn [snd].
    destruct (exists_ (fs w0) (temp_dir e)) eqn:Hex; [|by rewrite Hex].
    rewrite gone_not_exists; [done| |done|done]. apply remove_tree_gone.
Qed.


Lemma find_attachments_files e w files w' :
  find_attachments e w = (Ok files, w') ->
  w' = w /\ Forall (fun p => is_file (fs w) p = true) files.
Proof.
  unfold find_attachments, mbind, M_bind, bind, get_fs.
  destruct (attachments_dir e) as [dir|]; [|intros [= <- <-]; by split].
  destruct (negb _); intros [= <- <-]; (split; [done|]); [done|].
  apply Forall_concat, Forall_map, Forall_forall. intros files_dir _. cbn.
  destruct (is_file (fs w) files_dir) eqn:E; destruct (is_dir (fs w) files_dir); try done;
    apply Forall_forall; intros p Hp; apply list_elem_of_In, filter_In in Hp; tauto.
Qed.

(** The loop of [validate_all_attachments] stops at the first file that
    is too large. *)
Lemma validation_loop_raises files acc w :
  Forall (fun p => is_file (fs w) p = true) files ->
  (exists p size text, p ∈ files /\ stat (fs w) p = Some (File size text) /\
                       (max_file_size < size)%N) ->
  exists p size text,
    p ∈ files /\ stat (fs w) p = Some (File size text) /\
    (max_file_size < size)%N /\
    for_each files
      (fun path '(total_size, total_files) =>
         fs0 ← get_fs;
         if negb (exists_ fs0 path)
         then raise (ValidationError (AttachmentFileNotFound path))
         else
           validate_file_size path max_file_size;;
           size ← st_size path;
           mret ((total_size + size)%N, (total_files + 1)%N))
      acc w
    = (Raise (ValidationError
                (ExceedsMaximumUploadSize (name p) size max_file_size)), w).
Proof.
  intros Hfiles. revert acc. induction Hfiles as [|p files Hp Hfiles IH];
    intros [ts tf] (q & size & text & Hin & Hstat & Hbig).
  { by apply elem_of_nil in Hin. }
  unfold is_file in Hp. destruct (stat (fs w) p) as [[|sz tx]|] eqn:Hst; try done.
  cbn [for_each]. unfold bind at 1, mbind at 1, M_bind at 1, bind at 1, get_fs at 1.
  unfold exists_. rewrite Hst. cbn [negb].
  unfold mbind at 1, M_bind at 1, bind at 1, validate_file_size.
  unfold mbind at 1, M_bind at 1, bind at 1, st_size at 1. rewrite Hst.
  destruct (N.ltb_spec max_file_size sz) as [Hlt|Hge].
  - exists p, sz, tx. split; [by left|]. done.
  - cbn [ret mret M_ret]. unfold mbind at 1, M_bind at 1, bind at 1, st_size at 1.
    rewrite Hst. cbn [ret mret M_ret].
    destruct (IH ((ts + sz)%N, (tf + 1)%N)) as (p' & size' & text' & Hin' & Hst' & Hbig' & Hrun).
    { apply elem_of_cons in Hin as [->|Hin]; [|eauto 10].
      rewrite Hst in Hstat. injection Hstat as <- <-. lia. }
    exists p', size', text'. split; [by right|]. done.
Qed.

(** C4.  After a successful [parse], a failure of the validation phase
    is the outcome of [migrate], and no call has been made to the remote
    side by then: no container is created or fetched.  In particular,
    when a file of the attachment pool is larger than the configured
    maximum, [migrate] fails with the validation error that names such a
    file, its size and the limit. *)
Theorem C4_validation_precedes_container zip coll w e w1 :
  exists_ (fs w) zip = true ->
  parse zip w = (Ok e, w1) ->
  (forall x, fst (validate max_file_size e w1) = Raise x ->
     exists w2, migrate float max_file_size zip coll w = (Raise x, w2) /\
                requests (new_events w w2) = [] /\ sent w2 = sent w) /\
  (forall files,
     find_attachments e w1 = (Ok files, w1) ->
     (exists p size text, p ∈ files /\ stat (fs w1) p = Some (File size text) /\
                          (max_file_size < size)%N) ->
     exists p size text w2,
       p ∈ files /\ stat (fs w1) p = Some (File size text) /\
       (max_file_size < size)%N /\
       migrate float max_file_size zip coll w
         = (Raise (ValidationError
                     (ExceedsMaximumUploadSize (name p) size max_file_size)), w2) /\
       requests (new_events w w2) = [] /\ sent w2 = sent w).
Proof.
  intros Hz Hparse.
  assert (Hgen : forall x, fst (validate max_file_size e w1) = Raise x ->
     exists w2, migrate float max_file_size zip coll w = (Raise x, w2) /\
                requests (new_events w w2) = [] /\ sent w2 = sent w).
  { intros x Hx. rewrite migrate_unfold, Hz, Hparse. unfold try_finally.
    unfold mbind at 1, M_bind at 1, bind at 1.
    pose proof (silent_unchanged (validate max_file_size e) w1
                  (io_validate max_file_size _ e)) as Hsil.
    destruct (validate max_file_size e w1) as [r w1'] eqn:Hv. cbn in Hx, Hsil. subst r w1'.
    rewrite cleanup_spec.
    apply parse_ok in Hparse as (rest & entries & _ & _ & _ & _ & _ & _ & -> & _).
    eexists. split; [reflexivity|].
    generalize (exists_ (fs (extracted w (temp_dir e) rest entries)) (temp_dir e)).
    intros [|]; (split; [|done]).
    - rewrite (new_events_trace _ _ [EvMkdtemp (temp_dir e); EvRmtree (temp_dir e)]); [done|].
      cbn. by rewrite <- app_assoc.
    - rewrite (new_events_trace _ _ [EvMkdtemp (temp_dir e)]); done. }
  split; [exact Hgen|].
  intros files Hfind Hbig.
  destruct (find_attachments_files _ _ _ _ Hfind) as [_ Hfiles].
  destruct (validation_loop_raises files (0%N, 0%N) w1 Hfiles Hbig)
    as (p & size & text & Hin & Hst & Hlt & Hrun).
  exists p, size, text.
  destruct (Hgen (ValidationError (ExceedsMaximumUploadSize (name p) size max_file_size)))
    as (w2 & Hm & Hreq & Hsent).
  { unfold validate. unfold mbind at 1, M_bind at 1, bind at 1. rewrite Hfind.
    destruct files as [|f files]; [by apply elem_of_nil in Hin|].
    unfold mbind at 1, M_bind at 1, bind at 1, validate_all_attachments.
    unfold mbind at 1, M_bind at 1, bind at 1. rewrite Hrun. done. }
  exists w2. done.
Qed.

End ReleaseFacts.

Section UploadFacts.
Import OutlineClient AttachmentHandler DocmostParser Orchestrator MarkdownTransformer.
Variable float : str -> option pyfloat.

#[local] Instance no_upload_closed : Closed (fun evs => uploaded_files evs = []).
Proof.
  split; [done|]. intros a b Ha Hb. unfold uploaded_files in *.
  by rewrite omap_app, Ha, Hb.
Qed.

Lemma uploaded_files_app a b :
  uploaded_files (a ++ b) = uploaded_files a ++ uploaded_files b.
Proof. apply omap_app. Qed.

(** A successful [upload_attachment] delivers its file once. *)
Lemma upload_attachment_ok p nm w r w' :
  upload_attachment float p nm w = (Ok r, w') ->
  exists evs, w' = extend w evs /\ uploaded_files evs = [p].
Proof.
  unfold upload_attachment. unfold mbind at 1, M_bind at 1, bind at 1.
  unfold mbind at 1, M_bind at 1, bind at 1.
  pose proof (silent_unchanged (st_size p) w (io_st_size _ p)) as Hs.
  destruct (st_size p w) as [[size|?] w0]; cbn in Hs; subst w0; [|done].
  unfold mbind at 1, M_bind at 1, bind at 1.
  match goal with |- context [ create_attachment float ?n ?c ?s ?d w ] =>
    destruct (io_create_attachment float (fun evs => uploaded_files evs = [])
                n c s d eq_refl (fun _ => eq_refl) w) as (evs1 & Hw1 & He1);
    destruct (create_attachment float n c s d w) as [[[[url form] att]|?] w1];
    cbn in Hw1; subst w1; [|done] end.
  unfold mbind at 1, M_bind at 1, bind at 1, upload_file_to_storage.
  unfold mbind at 1, M_bind at 1, bind at 1.
  match goal with |- context [ read_bytes p ?x ] =>
    pose proof (silent_unchanged (read_bytes p) x (io_read_bytes _ p)) as Hr;
    destruct (read_bytes p x) as [[[]|?] w2]; cbn in Hr; subst w2; [|done] end.
  unfold mbind at 1, M_bind at 1, bind at 1.
  match goal with |- context [ http ?rq ?x ] =>
    pose proof (http_extend x rq) as Hh;
    destruct (http rq x) as [[resp|?] w3]; cbn in Hh; subst w3; [|done] end.
  rewrite extend_extend.
  match goal with |- context [ raise_for_status ?rs ?x ] =>
    pose proof (silent_unchanged (raise_for_status rs) x (io_raise_for_status _ rs)) as Hr;
    destruct (raise_for_status rs x) as [[[]|?] w4]; cbn in Hr; subst w4; [|done] end.
  intros [= _ <-]. eexists. split; [reflexivity|].
  rewrite uploaded_files_app, He1. done.
Qed.

Lemma dict_set_keys {V} (k : str) (v : V) d k' :
  k' ∈ map fst (dict_set k v d) <-> k' = k \/ k' ∈ map fst d.
Proof.
  induction d as [|[k0 v0] d IH]; cbn.
  - rewrite list_elem_of_singleton. set_solver.
  - destruct (str_eqb k0 k) eqn:E; cbn.
    + apply str_eqb_eq in E as ->. set_solver.
    + rewrite !elem_of_cons, IH. tauto.
Qed.

Lemma dict_set_NoDup {V} (k : str) (v : V) d :
  NoDup (map fst d) -> NoDup (map fst (dict_set k v d)).
Proof.
  induction d as [|[k0 v0] d IH]; cbn; intros Hd.
  - apply NoDup_singleton.
  - apply NoDup_cons in Hd as [Hnin Hd]. destruct (str_eqb k0 k) eqn:E; cbn.
    + apply str_eqb_eq in E as ->. by apply NoDup_cons.
    + apply NoDup_cons. split; [|by apply IH].
      rewrite dict_set_keys. intros [->|?]; [|done].
      assert (str_eqb k k = true) by by apply str_eqb_eq. congruence.
Qed.

(** The loop of [upload_attachments_for_references], from any mapping. *)
Lemma uploads_loop dir refs m0 w m w' :
  for_each refs
    (fun ref_path url_mapping =>
       let clean_path := lstrip_slash ref_path in
       let intended_name := name (parts_of clean_path) in
       fs0 ← get_fs;
       full_path ← or_raise (resolve_reference fs0 dir clean_path)
                            (FileNotFoundError ref_path);
       uploaded ← upload_attachment float full_path (Some intended_name);
       mret (dict_set ref_path uploaded url_mapping))
    m0 w = (Ok m, w') ->
  exists evs, w' = extend w evs /\
    Forall2 (fun ref file => resolve_reference (fs w) dir (lstrip_slash ref) = Some file)
            refs (uploaded_files evs) /\
    (forall k, k ∈ map fst m <-> k ∈ map fst m0 \/ k ∈ refs) /\
    (NoDup (map fst m0) -> NoDup (map fst m)).
Proof.
  revert m0 w. induction refs as [|ref refs IH]; intros m0 w; cbn [for_each].
  - intros [= <- <-]. exists []. rewrite extend_nil. split; [done|]. split; [constructor|].
    split; [|done]. set_solver.
  - unfold bind at 1. cbn zeta. unfold mbind at 1, M_bind at 1, bind at 1, get_fs at 1.
    unfold mbind at 1, M_bind at 1, bind at 1.
    destruct (resolve_reference (fs w) dir (lstrip_slash ref)) as [full|] eqn:Hres;
      cbn [or_raise ret raise]; [|done].
    unfold mbind at 1, M_bind at 1, bind at 1.
    destruct (upload_attachment float full _ w) as [[up|?] w1] eqn:Hup; [|done].
    apply upload_attachment_ok in Hup as (evs1 & -> & He1).
    cbn [mret M_ret ret]. intros Hrun.
    apply IH in Hrun as (evs2 & -> & Hall & Hkeys & Hnd).
    exists (evs1 ++ evs2). rewrite extend_extend. split; [done|].
    rewrite uploaded_files_app, He1. split; [by constructor|]. split.
    + intros k. rewrite Hkeys, dict_set_keys, elem_of_cons. tauto.
    + intros H. by apply Hnd, dict_set_NoDup.
Qed.

Lemma lstrip_by_idem p s : lstrip_by p (lstrip_by p s) = lstrip_by p s.
Proof.
  induction s as [|c s IH]; [done|]. cbn. destruct (p c) eqn:E; [done|].
  cbn. by rewrite E.
Qed.

(** C1 (as the code has it).  In the attachment step of a page that
    ends normally, the files are delivered once per reference the
    extraction returns, duplicates included and in that order, each
    being the file the reference resolves to; the keys of the URL
    mapping are exactly the extracted references, each once, and they
    carry no leading slash; the counter of uploads grows by the number
    of extracted references. *)
Theorem C1_one_upload_per_extracted_reference dir page stats0 w mapping stats1 w' :
  process_attachments float (Some dir) page stats0 w = (Ok (mapping, stats1), w') ->
  let refs := extract_attachment_references (content page) in
  Forall2 (fun ref file => resolve_reference (fs w) dir (lstrip_slash ref) = Some file)
          refs (uploaded_files (new_events w w')) /\
  (forall k, k ∈ map fst mapping <-> k ∈ refs) /\
  NoDup (map fst mapping) /\
  Forall (fun k => lstrip_slash k = k) (map fst mapping) /\
  attachments_uploaded stats1
    = (attachments_uploaded stats0 + N.of_nat (length refs))%N.
Proof.
  unfold process_attachments. cbn zeta.
  assert (Hstripped : Forall (fun k => lstrip_slash k = k)
                        (extract_attachment_references (content page))).
  { unfold extract_attachment_references. apply Forall_map, Forall_forall.
    intros x _. apply lstrip_by_idem. }
  destruct (extract_attachment_references (content page)) as [|ref refs] eqn:Hrefs.
  - intros [= <- <- <-]. unfold new_events. rewrite drop_all. cbn.
    split; [constructor|]. split; [done|]. split; [constructor|]. split; [done|]. lia.
  - unfold mbind, M_bind, bind.
    destruct (upload_attachments_for_references float (ref :: refs) dir w)
      as [[m|?] w1] eqn:Hup; [|done].
    intros [= <- <- <-]. unfold upload_attachments_for_references in Hup.
    apply uploads_loop in Hup as (evs & -> & Hall & Hkeys & Hnd).
    rewrite new_events_extend. split; [done|]. split; [|split; [|split]].
    + intros k. rewrite Hkeys. cbn. set_solver.
    + apply Hnd. constructor.
    + apply Forall_forall. intros k Hk%Hkeys. cbn in Hk.
      destruct Hk as [?%elem_of_nil|Hk]; [done|].
      by eapply Forall_forall in Hstripped.
    + done.
Qed.

End UploadFacts.

(** ** The pattern engine *)

Section EngineFacts.
Import Re.

Lemma star_greedy_reach {R} p s (k : str -> option R) x :
  star_greedy p s k = Some x ->
  exists s', length s' <= length s /\ k s' = Some x.
Proof.
  induction s as [|c s IH]; cbn.
  - intros H. exists []. done.
  - destruct (p c).
    + destruct (star_greedy p s k) as [r|] eqn:E.
      * intros [= ->]. destruct (IH eq_refl) as (s' & ? & ?). exists s'. split; [lia|done].
      * intros H. exists (c :: s). done.
    + intros H. exists (c :: s). done.
Qed.

Lemma star_lazy_reach {R} p s (k : str -> option R) x :
  star_lazy p s k = Some x ->
  exists s', length s' <= length s /\ k s' = Some x.
Proof.
  induction s as [|c s IH]; cbn.
  - destruct (k []) eqn:E; [|done]. intros [= ->]. exists []. done.
  - destruct (k (c :: s)) eqn:E.
    + intros [= ->]. exists (c :: s). done.
    + destruct (p c); [|done]. intros H. destruct (IH H) as (s' & ? & ?).
      exists s'. split; [lia|done].
Qed.

(** A successful match hands its continuation a text shorter by at
    least [minlen]. *)
Lemma run_reach {R} fl r s g (k : str -> caps -> option R) x :
  run fl r s g k = Some x ->
  exists s' g', length s' + minlen r <= length s /\ k s' g' = Some x.
Proof.
  revert s g k. induction r as [| a | a | a | a | a | n r1 IH1 | r1 IH1 r2 IH2];
    intros s g k; cbn [run minlen].
  - intros H. exists s, g. split; [lia|done].
  - destruct s as [|c s]; [done|]. destruct (atom_matches fl a c); [|done].
    intros H. exists s, g. cbn. split; [lia|done].
  - destruct s as [|c s]; [intros H; exists [], g; done|].
    destruct (atom_matches fl a c).
    + destruct (k s g) eqn:E.
      * intros [= ->]. exists s, g. cbn. split; [lia|done].
      * intros H. exists (c :: s), g. split; [lia|done].
    + intros H. exists (c :: s), g. split; [lia|done].
  - intros (s' & ? & ?)%star_greedy_reach. exists s', g. split; [lia|done].
  - destruct s as [|c s]; [done|]. destruct (atom_matches fl a c); [|done].
    intros (s' & ? & ?)%star_greedy_reach. exists s', g. cbn. split; [lia|done].
  - intros (s' & ? & ?)%star_lazy_reach. exists s', g. split; [lia|done].
  - intros (s' & g' & ? & ?)%IH1. eauto.
  - intros (s1 & g1 & H1 & (s2 & g2 & H2 & Hk)%IH2)%IH1.
    exists s2, g2. split; [lia|done].
Qed.

(** What a successful run took from the text is matched by the
    pattern. *)
Lemma star_greedy_sound {R} p s (k : str -> option R) x :
  star_greedy p s k = Some x ->
  exists w s', s = w ++ s' /\ Forall (fun c => p c = true) w /\ k s' = Some x.
Proof.
  induction s as [|c s IH]; cbn.
  - intros H. exists [], []. done.
  - destruct (p c) eqn:Hc.
    + destruct (star_greedy p s k) as [r|] eqn:E.
      * intros [= ->]. destruct (IH eq_refl) as (w & s' & -> & Hw & Hk).
        exists (c :: w), s'. split; [done|]. split; [by constructor|done].
      * intros H. exists [], (c :: s). done.
    + intros H. exists [], (c :: s). done.
Qed.

Lemma star_lazy_sound {R} p s (k : str -> option R) x :
  star_lazy p s k = Some x ->
  exists w s', s = w ++ s' /\ Forall (fun c => p c = true) w /\ k s' = Some x.
Proof.
  induction s as [|c s IH]; cbn.
  - destruct (k []) eqn:E; [|done]. intros [= ->]. exists [], []. done.
  - destruct (k (c :: s)) eqn:E.
    + intros [= ->]. exists [], (c :: s). done.
    + destruct (p c) eqn:Hc; [|done]. intros H.
      destruct (IH H) as (w & s' & -> & Hw & Hk).
      exists (c :: w), s'. split; [done|]. split; [by constructor|done].
Qed.

Lemma run_sound {R} fl r s g (k : str -> caps -> option R) x :
  run fl r s g k = Some x ->
  exists w s' g', s = w ++ s' /\ matches fl r w g g' /\ k s' g' = Some x.
Proof.
  revert s g k. induction r as [| a | a | a | a | a | n r1 IH1 | r1 IH1 r2 IH2];
    intros s g k; cbn [run matches].
  - intros H. by exists [], s, g.
  - destruct s as [|c s]; [done|]. destruct (atom_matches fl a c) eqn:Hc; [|done].
    intros H. exists [c], s, g. split; [done|]. split; [|done]. split; [|done].
    by exists c.
  - assert (Hskip : k s g = Some x ->
              exists w s' g', s = w ++ s' /\
                ((w = [] \/ exists c, w = [c] /\ atom_matches fl a c = true)
                 /\ g' = g) /\ k s' g' = Some x).
    { intros H. exists [], s, g. split; [done|]. split; [|done]. split; [by left|done]. }
    destruct s as [|c s]; [done|].
    destruct (atom_matches fl a c) eqn:Hc; [|done].
    destruct (k s g) eqn:E; [|done].
    intros [= ->]. exists [c], s, g. split; [done|]. split; [|done].
    split; [|done]. right. by exists c.
  - intros (w & s' & -> & Hw & Hk)%star_greedy_sound. by exists w, s', g.
  - destruct s as [|c s]; [done|]. destruct (atom_matches fl a c) eqn:Hc; [|done].
    intros (w & s' & -> & Hw & Hk)%star_greedy_sound.
    exists (c :: w), s', g. split; [done|]. split; [|done].
    split; [done|]. split; [by constructor|done].
  - intros (w & s' & -> & Hw & Hk)%star_lazy_sound. by exists w, s', g.
  - intros (w & s' & g1 & -> & Hm & Hk)%IH1.
    rewrite take_all_but in Hk. exists w, s', ((n, w) :: g1).
    split; [done|]. split; [by exists g1|done].
  - intros (w1 & s1 & g1 & -> & Hm1 & (w2 & s2 & g2 & -> & Hm2 & Hk)%IH2)%IH1.
    exists (w1 ++ w2), s2, g2. split; [by rewrite app_assoc|].
    split; [by exists w1, w2, g1|done].
Qed.

Lemma star_greedy_ext {R} p s (k1 k2 : str -> option R) :
  (forall s', length s' <= length s -> k1 s' = k2 s') ->
  star_greedy p s k1 = star_greedy p s k2.
Proof.
  induction s as [|c s IH]; cbn; intros H.
  - apply H. done.
  - rewrite IH by (intros; apply H; lia). rewrite (H (c :: s)) by done. done.
Qed.

Lemma star_lazy_ext {R} p s (k1 k2 : str -> option R) :
  (forall s', length s' <= length s -> k1 s' = k2 s') ->
  star_lazy p s k1 = star_lazy p s k2.
Proof.
  induction s as [|c s IH]; cbn; intros H.
  - rewrite (H []) by done. done.
  - rewrite IH by (intros; apply H; lia). rewrite (H (c :: s)) by done. done.
Qed.

(** Only what the continuation does on texts shorter by [minlen]
    matters. *)
Lemma run_ext {R} fl r s g (k1 k2 : str -> caps -> option R) :
  (forall s' g', length s' + minlen r <= length s -> k1 s' g' = k2 s' g') ->
  run fl r s g k1 = run fl r s g k2.
Proof.
  revert s g k1 k2. induction r as [| a | a | a | a | a | n r1 IH1 | r1 IH1 r2 IH2];
    intros s g k1 k2 H; cbn [run minlen] in *.
  - apply H. lia.
  - destruct s as [|c s]; [done|]. destruct (atom_matches fl a c); [|done].
    apply H. cbn. lia.
  - destruct s as [|c s]; [apply H; cbn; lia|].
    rewrite (H s g) by (cbn; lia). rewrite (H (c :: s) g) by lia. done.
  - apply star_greedy_ext. intros. apply H. lia.
  - destruct s as [|c s]; [done|]. destruct (atom_matches fl a c); [|done].
    apply star_greedy_ext. intros. apply H. cbn. lia.
  - apply star_lazy_ext. intros. apply H. lia.
  - apply IH1. intros. apply H. lia.
  - apply IH1. intros s1 g1 H1. apply IH2. intros s2 g2 H2. apply H. lia.
Qed.

Section NeverEmpty.
Variable P : Pattern.
Hypothesis Hmin : 0 < minlen (pat_re P).

Lemma match_at_shorter b s m :
  match_at P b s = Some m -> length (m_rest m) < length s.
Proof.
  unfold match_at. intros (s' & g' & Hlen & Hk)%run_reach.
  destruct (_ && _); [done|]. injection Hk as <-. cbn. lia.
Qed.

Lemma match_at_advance s : match_at P true s = match_at P false s.
Proof.
  unfold match_at. apply run_ext. intros s' g' Hlen.
  replace (length s' =? length s)%nat with false; [done|].
  symmetry. apply Nat.eqb_neq. lia.
Qed.

Lemma scan_fuel f1 f2 s :
  length s < f1 -> length s < f2 -> scan P f1 false s = scan P f2 false s.
Proof.
  revert f2 s. induction f1 as [|f1 IH]; intros [|f2] s H1 H2; try lia. cbn.
  destruct (match_at P false s) as [m|] eqn:E.
  - pose proof (match_at_shorter _ _ _ E) as Hlt.
    replace (length (m_rest m) =? length s)%nat with false
      by (symmetry; apply Nat.eqb_neq; lia).
    f_equal. apply IH; lia.
  - destruct s as [|c s]; [done|]. f_equal. apply IH; cbn in *; lia.
Qed.

(** The scanner, one step at a time. *)
Lemma pieces_nil : pieces P [] = [].
Proof.
  unfold pieces. cbn. destruct (match_at P false []) as [m|] eqn:E; [|done].
  apply match_at_shorter in E. cbn in E. lia.
Qed.

Lemma scan_step fuel s :
  scan P (S fuel) false s =
    match match_at P false s with
    | Some m =>
        Hit m :: (if (length (m_rest m) =? length s)%nat
                  then scan P fuel true s else scan P fuel false (m_rest m))
    | None =>
        match s with
        | [] => []
        | c :: s' => Skip c :: scan P fuel false s'
        end
    end.
Proof. reflexivity. Qed.

Lemma pieces_cons c s :
  pieces P (c :: s) =
    match match_at P false (c :: s) with
    | Some m => Hit m :: pieces P (m_rest m)
    | None => Skip c :: pieces P s
    end.
Proof.
  unfold pieces.
  rewrite (scan_fuel _ (S (S (length s))) (c :: s)) by (cbn; lia).
  rewrite scan_step.
  destruct (match_at P false (c :: s)) as [m|] eqn:E.
  - pose proof (match_at_shorter _ _ _ E) as Hlt. cbn in Hlt.
    replace (length (m_rest m) =? length (c :: s))%nat with false
      by (symmetry; apply Nat.eqb_neq; cbn; lia).
    f_equal. apply scan_fuel; lia.
  - f_equal. apply scan_fuel; lia.
Qed.

Lemma findall_nil : findall P [] = [].
Proof. unfold findall. by rewrite pieces_nil. Qed.

Lemma findall_cons c s :
  findall P (c :: s) =
    match match_at P false (c :: s) with
    | Some m => group_text m 1 :: findall P (m_rest m)
    | None => findall P s
    end.
Proof. unfold findall. rewrite pieces_cons. by destruct (match_at _ _ _). Qed.

Lemma sub_fn_nil f : sub_fn P f [] = [].
Proof. unfold sub_fn. by rewrite pieces_nil. Qed.

Lemma sub_fn_cons f c s :
  sub_fn P f (c :: s) =
    match match_at P false (c :: s) with
    | Some m => f m ++ sub_fn P f (m_rest m)
    | None => c :: sub_fn P f s
    end.
Proof. unfold sub_fn. rewrite pieces_cons. by destruct (match_at _ _ _). Qed.

(** Text in which no match starts is passed over. *)
Lemma sub_fn_skip f t rest :
  (forall i, i < length t -> match_at P false (drop i t ++ rest) = None) ->
  sub_fn P f (t ++ rest) = t ++ sub_fn P f rest.
Proof.
  induction t as [|c t IH]; intros H; [done|]. cbn [app].
  pose proof (H 0 ltac:(cbn; lia)) as H0. cbn in H0.
  rewrite sub_fn_cons, H0. f_equal.
  apply IH. intros i Hi. apply (H (S i)). cbn. lia.
Qed.

Lemma findall_skip t rest :
  (forall i, i < length t -> match_at P false (drop i t ++ rest) = None) ->
  findall P (t ++ rest) = findall P rest.
Proof.
  induction t as [|c t IH]; intros H; [done|]. cbn [app].
  pose proof (H 0 ltac:(cbn; lia)) as H0. cbn in H0.
  rewrite findall_cons, H0.
  apply IH. intros i Hi. apply (H (S i)). cbn. lia.
Qed.

Lemma sub_fn_hit f s m :
  match_at P false s = Some m -> sub_fn P f s = f m ++ sub_fn P f (m_rest m).
Proof.
  intros H. destruct s as [|c s]; [|by rewrite sub_fn_cons, H].
  apply match_at_shorter in H. cbn in H. lia.
Qed.

Lemma findall_hit s m :
  match_at P false s = Some m ->
  findall P s = group_text m 1 :: findall P (m_rest m).
Proof.
  intros H. destruct s as [|c s]; [|by rewrite findall_cons, H].
  apply match_at_shorter in H. cbn in H. lia.
Qed.

(** A property of a text and what the scanner makes of it follows from
    its three cases: the end of the text, a character no match starts
    at, and a match. *)
Lemma sub_fn_scan f (Rel : str -> str -> Prop) :
  Rel [] [] ->
  (forall c s out, match_at P false (c :: s) = None -> Rel s out ->
     Rel (c :: s) (c :: out)) ->
  (forall s m out, match_at P false s = Some m -> Rel (m_rest m) out ->
     Rel s (f m ++ out)) ->
  forall s, Rel s (sub_fn P f s).
Proof.
  intros Hnil Hskip Hhit s.
  remember (length s) as n eqn:Hn. revert s Hn.
  induction (lt_wf n) as [n _ IH]. intros s ->.
  destruct s as [|c s]; [by rewrite sub_fn_nil|].
  rewrite sub_fn_cons. destruct (match_at P false (c :: s)) as [m|] eqn:E.
  - apply Hhit; [done|]. apply (IH (length (m_rest m))); [|done].
    by apply match_at_shorter in E.
  - apply Hskip; [done|]. apply (IH (length s)); [cbn; lia|done].
Qed.

Lemma findall_scan (Rel : str -> list str -> Prop) :
  Rel [] [] ->
  (forall c s out, match_at P false (c :: s) = None -> Rel s out ->
     Rel (c :: s) out) ->
  (forall s m out, match_at P false s = Some m -> Rel (m_rest m) out ->
     Rel s (group_text m 1 :: out)) ->
  forall s, Rel s (findall P s).
Proof.
  intros Hnil Hskip Hhit s.
  remember (length s) as n eqn:Hn. revert s Hn.
  induction (lt_wf n) as [n _ IH]. intros s ->.
  destruct s as [|c s]; [by rewrite findall_nil|].
  rewrite findall_cons. destruct (match_at P false (c :: s)) as [m|] eqn:E.
  - apply Hhit; [done|]. apply (IH (length (m_rest m))); [|done].
    by apply match_at_shorter in E.
  - apply Hskip; [done|]. apply (IH (length s)); [cbn; lia|done].
Qed.

End NeverEmpty.
End EngineFacts.

(** ** Reference extraction *)

(** Both sides of an equation between concatenations, associated to the
    right. *)
Ltac flatten :=
  repeat first [ progress rewrite <- ?app_assoc | progress cbn [app] ].

Section PatternFacts.
Import Re MarkdownTransformer.

Lemma lstrip_by_app p a b :
  Forall (fun c => p c = true) a ->
  lstrip_by p (a ++ b) = lstrip_by p b.
Proof. induction 1 as [|c a Hc _ IH]; [done|]. cbn. by rewrite Hc. Qed.

Lemma lstrip_by_stop p c s : p c = false -> lstrip_by p (c :: s) = c :: s.
Proof. intros H. cbn. by rewrite H. Qed.

(** A greedy star commits to the longest run when a failure of the rest
    of the pattern is not repaired by giving a character back. *)
Lemma star_greedy_commit {R} p s (k : str -> option R) :
  (forall c t, p c = true -> k t = None -> k (c :: t) = None) ->
  star_greedy p s k = k (lstrip_by p s).
Proof.
  intros Hk.
  assert (Hnone : forall s, k (lstrip_by p s) = None -> k s = None).
  { clear s. induction s as [|c s IH]; [done|]. cbn.
    destruct (p c) eqn:E; [|done]. intros H. apply Hk; [done|]. by apply IH. }
  induction s as [|c s IH]; [done|]. cbn. destruct (p c) eqn:E; [|done].
  rewrite IH. destruct (k (lstrip_by p s)) eqn:E2; [done|].
  apply Hk; [done|]. by apply Hnone.
Qed.

(** The same, when the rest of the pattern cannot start with a character
    of the run. *)
Lemma star_greedy_det {R} p s (k : str -> option R) :
  (forall c t, p c = true -> k (c :: t) = None) ->
  star_greedy p s k = k (lstrip_by p s).
Proof. intros Hk. apply star_greedy_commit. intros c t Hc _. by apply Hk. Qed.

(** A lazy star stops at the first place where the rest of the pattern
    matches. *)
Lemma star_lazy_first {R} p a b (k : str -> option R) :
  Forall (fun c => p c = true) a ->
  (forall i, i < length a -> k (drop i a ++ b) = None) ->
  star_lazy p (a ++ b) k = star_lazy p b k.
Proof.
  induction 1 as [|c a Hc _ IH]; intros Hk; [done|].
  pose proof (Hk 0 ltac:(cbn; lia)) as H0. cbn in H0.
  cbn [app star_lazy]. rewrite H0, Hc. apply IH.
  intros i Hi. apply (Hk (S i)). cbn. lia.
Qed.

Lemma run_Str {R} fl lit s g (k : str -> caps -> option R) :
  run fl (Str lit) s g k =
    match after_literal fl lit s with
    | Some rest => k rest g
    | None => None
    end.
Proof.
  revert s. induction lit as [|x lit IH]; intros s; cbn [Str run after_literal]; [done|].
  destruct s as [|c s]; [done|]. destruct (atom_matches fl (Lit x) c); [apply IH|done].
Qed.

Lemma after_literal_exact fl lit rest :
  Forall (fun x => atom_matches fl (Lit x) x = true) lit ->
  after_literal fl lit (lit ++ rest) = Some rest.
Proof. induction 1 as [|x lit Hx _ IH]; [done|]. cbn [app after_literal]. by rewrite Hx. Qed.

Lemma after_literal_plain lit rest :
  after_literal no_flags lit (lit ++ rest) = Some rest.
Proof.
  apply after_literal_exact, Forall_forall. intros x _. cbn. apply ceq_refl.
Qed.

Lemma after_literal_plain_Some lit s rest :
  after_literal no_flags lit s = Some rest <-> s = lit ++ rest.
Proof.
  revert s. induction lit as [|x lit IH]; intros s; cbn.
  - split; congruence.
  - destruct s as [|c s]; [split; done|].
    destruct (ceq c x) eqn:E.
    + apply ceq_eq in E as ->. rewrite IH. split; congruence.
    + apply ceq_neq in E. split; [done|]. by intros [= ? _].
Qed.


(** The equations of the matcher, one per construct. *)
Lemma run_Seq {R} fl r1 r2 s g (k : str -> caps -> option R) :
  run fl (Seq r1 r2) s g k = run fl r1 s g (fun s' g' => run fl r2 s' g' k).
Proof. reflexivity. Qed.

Lemma run_Empty {R} fl s g (k : str -> caps -> option R) :
  run fl Empty s g k = k s g.
Proof. reflexivity. Qed.

Lemma run_Atom {R} fl a s g (k : str -> caps -> option R) :
  run fl (Atom a) s g k =
    match s with
    | c :: s' => if atom_matches fl a c then k s' g else None
    | [] => None
    end.
Proof. reflexivity. Qed.

Lemma run_Group {R} fl n r s g (k : str -> caps -> option R) :
  run fl (Group n r) s g k =
    run fl r s g (fun s' g' => k s' ((n, take (length s - length s') s) :: g')).
Proof. reflexivity. Qed.

(** A greedy optional character that the rest of the pattern cannot do
    without once it is there. *)
Lemma run_Opt_commit {R} x s g (k : str -> caps -> option R) :
  (forall t, k t g = None -> k (x :: t) g = None) ->
  run no_flags (Opt (Lit x)) s g k = k (skip1 x s) g.
Proof.
  intros Hk. cbn [run]. destruct s as [|c s]; [done|].
  cbn [atom_matches no_flags IGNORECASE skip1].
  destruct (ceq c x) eqn:E; [|done]. apply ceq_eq in E as ->.
  destruct (k s g) eqn:E2; [done|]. by apply Hk.
Qed.

Lemma run_Star_commit {R} fl a s g (k : str -> caps -> option R) :
  (forall c t, atom_matches fl a c = true -> k t g = None -> k (c :: t) g = None) ->
  run fl (Star a) s g k = k (lstrip_by (atom_matches fl a) s) g.
Proof. intros Hk. cbn [run]. by apply star_greedy_commit. Qed.

Lemma run_Plus_commit {R} fl a s g (k : str -> caps -> option R) :
  (forall c t, atom_matches fl a c = true -> k t g = None -> k (c :: t) g = None) ->
  run fl (Plus a) s g k =
    match s with
    | c :: s' =>
        if atom_matches fl a c then k (lstrip_by (atom_matches fl a) s') g
        else None
    | [] => None
    end.
Proof.
  intros Hk. cbn [run]. destruct s as [|c s]; [done|].
  destruct (atom_matches fl a c); [|done]. by apply star_greedy_commit.
Qed.

Lemma not_has_Forall x s :
  ~ has x s -> Forall (fun c => negb (ceq c x) = true) s.
Proof.
  unfold has. intros H. apply Forall_forall. intros c Hc.
  apply negb_true_iff, ceq_neq. intros ->. done.
Qed.

Lemma skip1_stop x c s : c <> x -> skip1 x (c :: s) = c :: s.
Proof. intros H. cbn. by apply ceq_neq in H as ->. Qed.

(** A literal that does not match a text does not match it either when
    the text goes on with a character foreign to the literal. *)
Lemma after_literal_cut lit u x post :
  after_literal no_flags lit u = None -> ~ has x lit ->
  after_literal no_flags lit (u ++ x :: post) = None.
Proof.
  unfold has. revert u. induction lit as [|y lit IH]; intros u; [done|].
  intros Hu Hx. destruct u as [|c u]; cbn [app after_literal] in *.
  - cbn. replace (ceq x y) with false; [done|]. symmetry. apply ceq_neq.
    intros ->. apply Hx. by left.
  - destruct (atom_matches no_flags (Lit y) c); [|done].
    apply IH; [done|]. intros ?. apply Hx. by right.
Qed.

Lemma skip1_has x y s : has x (skip1 y s) -> has x s.
Proof.
  unfold has. destruct s as [|c s]; [done|]. cbn.
  destruct (ceq c y); [|done]. intros H. by apply elem_of_cons; right.
Qed.

(** The part of the reference pattern inside group 1, on a target that
    is followed by a closing parenthesis. *)
Lemma pool_target_run {R} target post g (k : str -> caps -> option R) :
  ~ has ")" target ->
  (forall c t g', c <> ")" -> k (c :: t) g' = None) ->
  run no_flags
    (Cat [Opt (Lit "/"); Opt (Lit "/"); Str (txt "files/"); Plus (NotLit ")")])
    (target ++ ")" :: post) g k =
    match pool_reference target with
    | Some _ => k (")" :: post) g
    | None => None
    end.
Proof.
  intros Htarget Hk. cbn [Cat].
  set (k3 := fun s' g' => run no_flags (Seq (Plus (NotLit ")")) Empty) s' g' k).
  set (k2 := fun s' g' => run no_flags (Seq (Str (txt "files/")) (Seq (Plus (NotLit ")")) Empty)) s' g' k).
  assert (Hk2 : forall s g', k2 s g' =
            match after_literal no_flags (txt "files/") s with
            | Some rest => k3 rest g'
            | None => None
            end).
  { intros s g'. unfold k2. rewrite run_Seq. apply run_Str. }
  assert (Hk2_slash : forall t g', k2 ("/" :: t) g' = None).
  { intros t g'. by rewrite Hk2. }
  assert (Hk3 : forall s g', k3 s g' =
            match s with
            | c :: s' =>
                if negb (ceq c ")") then k (lstrip_by (fun c => negb (ceq c ")")) s') g'
                else None
            | [] => None
            end).
  { intros s g'. unfold k3. rewrite run_Seq.
    rewrite run_Plus_commit; [done|].
    intros c t Hc _. rewrite run_Empty. apply Hk.
    cbn in Hc. apply negb_true_iff, ceq_neq in Hc. done. }
  rewrite run_Seq.
  rewrite run_Opt_commit.
  2:{ intros t Ht. rewrite run_Seq in Ht |- *.
      rewrite run_Opt_commit in Ht |- * by (intros; apply Hk2_slash).
      cbn [skip1]. rewrite ceq_refl.
      fold (k2 (skip1 "/" t) g) in Ht. fold (k2 t g).
      destruct t as [|c t]; [done|]. cbn [skip1] in Ht.
      destruct (ceq c "/") eqn:E; [|done]. apply ceq_eq in E as ->. apply Hk2_slash. }
  rewrite run_Seq. rewrite run_Opt_commit by (intros; apply Hk2_slash).
  fold (k2 (skip1 "/" (skip1 "/" (target ++ ")" :: post))) g).
  rewrite Hk2. unfold pool_reference, strip_slashes2.
  (* the slashes are those of the target *)
  assert (Hskip : skip1 "/" (skip1 "/" (target ++ ")" :: post))
                  = skip1 "/" (skip1 "/" target) ++ ")" :: post).
  { assert (Hone : forall s, skip1 "/" (s ++ ")" :: post) = skip1 "/" s ++ ")" :: post).
    { intros [|c s]; [done|]. cbn [app skip1]. by destruct (ceq c "/"). }
    by rewrite !Hone. }
  rewrite Hskip.
  assert (Hrest : ~ has ")" (skip1 "/" (skip1 "/" target))).
  { intros Hin. by apply Htarget, (skip1_has _ "/"), (skip1_has _ "/"). }
  generalize dependent (skip1 "/" (skip1 "/" target)). intros u _ Hu.
  (* the literal, then at least one more character *)
  destruct (after_literal no_flags (txt "files/") u) as [tail|] eqn:Elit.
  - apply after_literal_plain_Some in Elit. subst u.
    rewrite <- app_assoc, after_literal_plain, Hk3.
    destruct tail as [|c tail]; cbn [app].
    + by rewrite ceq_refl.
    + assert (c <> ")" /\ ~ has ")" tail) as [Hc Htail].
      { unfold has in *. split; intros ?; apply Hu; set_solver. }
      apply ceq_neq in Hc. rewrite Hc. cbn [negb].
      rewrite lstrip_by_app by by apply not_has_Forall.
      rewrite lstrip_by_stop by by rewrite ceq_refl. done.
  - assert (after_literal no_flags (txt "files/") (u ++ ")" :: post) = None) as ->; [|done].
    apply after_literal_cut; [done|]. unfold has. cbn. set_solver.
Qed.


(** The reference pattern at the start of an image or a link. *)
Lemma reference_match b text target post :
  ~ has "]" text -> ~ has ")" target ->
  match_at reference_pattern false
    (bang b ++ "[" :: text ++ "]" :: "(" :: target ++ ")" :: post) =
    match pool_reference target with
    | Some _ =>
        Some {| m_text := bang b ++ "[" :: text ++ "]" :: "(" :: target ++ [")"];
                m_groups := [(1, target)]; m_rest := post |}
    | None => None
    end.
Proof.
  intros Htext Htarget. unfold match_at, reference_pattern.
  cbn [pat_re pat_flags Cat].
  set (s := bang b ++ "[" :: text ++ "]" :: "(" :: target ++ ")" :: post).
  set (kfin := fun (s' : str) (g : caps) => _).
  rewrite run_Seq, run_Opt_commit by (intros; by rewrite run_Seq, run_Atom).
  replace (skip1 "!" s) with ("[" :: text ++ "]" :: "(" :: target ++ ")" :: post)
    by (by destruct b).
  rewrite run_Seq, run_Atom. cbn [atom_matches no_flags IGNORECASE]. rewrite ceq_refl.
  rewrite run_Seq, run_Star_commit.
  2:{ intros c t Hc _. rewrite run_Seq, run_Atom. cbn in Hc |- *.
      apply negb_true_iff in Hc. by rewrite Hc. }
  rewrite lstrip_by_app by by apply not_has_Forall.
  rewrite lstrip_by_stop by reflexivity.
  rewrite run_Seq, run_Atom. cbn [atom_matches no_flags IGNORECASE]. rewrite ceq_refl.
  rewrite run_Seq, run_Atom. cbn [atom_matches no_flags IGNORECASE]. rewrite ceq_refl.
  rewrite run_Seq, run_Group, pool_target_run; [|done|].
  2:{ intros c t g' Hc. rewrite run_Seq, run_Atom. cbn.
      apply ceq_neq in Hc. by rewrite Hc. }
  destruct (pool_reference target); [|done].
  rewrite run_Seq, run_Atom. cbn [atom_matches no_flags IGNORECASE]. rewrite ceq_refl.
  rewrite run_Empty. unfold kfin. cbn [andb]. f_equal.
  (* the matched text and the captured group *)
  rewrite (take_all_but target (")" :: post)).
  assert (Hs : s = (bang b ++ "[" :: text ++ "]" :: "(" :: target ++ [")"]) ++ post).
  { unfold s. by flatten. }
  rewrite Hs, take_all_but. done.
Qed.

(** The reference pattern where no image or link starts. *)
Lemma reference_no_match c t :
  c <> "[" -> (c = "!" -> forall t', t <> "[" :: t') ->
  match_at reference_pattern false (c :: t) = None.
Proof.
  intros Hc Hbang. unfold match_at, reference_pattern. cbn [pat_re pat_flags Cat].
  rewrite run_Seq, run_Opt_commit by (intros; by rewrite run_Seq, run_Atom).
  cbn [skip1]. destruct (ceq c "!") eqn:E.
  - apply ceq_eq in E. rewrite run_Seq, run_Atom. destruct t as [|c' t]; [done|].
    cbn. destruct (ceq c' "[") eqn:E'; [|done]. apply ceq_eq in E' as ->.
    by destruct (Hbang E t).
  - rewrite run_Seq, run_Atom. cbn. apply ceq_neq in Hc. by rewrite Hc.
Qed.


Lemma ends_with_bang_snoc a c : ends_with_bang (a ++ [c]) = ceq c "!".
Proof.
  unfold ends_with_bang. rewrite rev_app_distr. cbn [rev app].
  destruct (Ascii.eqb_spec c "!") as [->|Hne]; [done|].
  unfold ceq. apply Ascii.eqb_neq in Hne as Hb. rewrite Hb.
  destruct c as [[] [] [] [] [] [] [] []]; try done.
Qed.

(** Where a scan over bracket-free text can begin a match of a pattern
    that starts with an optional exclamation mark and a bracket: nowhere,
    unless the text ends with the mark and a bracket follows. *)
Lemma bracket_free_position t rest i :
  ~ has "[" t ->
  ends_with_bang t = false \/ (forall r', rest <> "[" :: r') ->
  i < length t ->
  exists c u, drop i t ++ rest = c :: u /\ c <> "[" /\
              (c = "!" -> forall u', u <> "[" :: u').
Proof.
  unfold has. intros Ht Hend Hi.
  destruct (drop i t) as [|c t'] eqn:Hd.
  { apply (f_equal length) in Hd. rewrite length_drop in Hd. cbn in Hd. lia. }
  assert (Hsplit : t = take i t ++ c :: t') by (by rewrite <- Hd, take_drop).
  exists c, (t' ++ rest). split; [done|]. split.
  - intros ->. apply Ht. rewrite Hsplit. set_solver.
  - intros -> u' Hu. destruct t' as [|c' t'].
    + cbn in Hu. destruct Hend as [Hend|Hend]; [|by eapply Hend].
      rewrite Hsplit, ends_with_bang_snoc in Hend. done.
    + injection Hu as -> _. apply Ht. rewrite Hsplit. set_solver.
Qed.

Lemma reference_skip t rest i :
  ~ has "[" t ->
  ends_with_bang t = false \/ (forall r', rest <> "[" :: r') ->
  i < length t ->
  match_at reference_pattern false (drop i t ++ rest) = None.
Proof.
  intros Ht Hend Hi.
  destruct (bracket_free_position t rest i Ht Hend Hi) as (c & u & -> & Hc & Hb).
  by apply reference_no_match.
Qed.

Lemma reference_minlen : 0 < minlen (pat_re reference_pattern).
Proof. cbn. lia. Qed.

Lemma has_app x a b : has x (a ++ b) <-> has x a \/ has x b.
Proof. unfold has. apply elem_of_app. Qed.

Lemma has_cons x c a : has x (c :: a) <-> x = c \/ has x a.
Proof. unfold has. apply elem_of_cons. Qed.

Lemma has_nil x : ~ has x [].
Proof. unfold has. apply not_elem_of_nil. Qed.

Lemma has_cons_not x c a : ~ has x (c :: a) -> c <> x /\ ~ has x a.
Proof. rewrite has_cons. intros H. split; [intros ->|]; tauto. Qed.

Lemma has_app_not x a b : ~ has x (a ++ b) -> ~ has x a /\ ~ has x b.
Proof. rewrite has_app. tauto. Qed.

(** The references found in one occurrence followed by more text. *)
Lemma findall_occurrence o rest :
  plain_occurrence o ->
  findall reference_pattern (written o ++ rest) =
    match pool_reference (target o) with
    | Some _ => target o :: findall reference_pattern rest
    | None => findall reference_pattern rest
    end.
Proof.
  intros (Hgap & Hbang & Ht1 & Ht2 & Hg1 & Hg2). unfold written.
  rewrite <- app_assoc.
  rewrite (findall_skip _ reference_minlen).
  2:{ intros i Hi. apply reference_skip; [done| |done].
      destruct (image o); [right; by intros r'|left; by apply Hbang]. }
  replace ((bang (image o) ++ txt "[" ++ text o ++ txt "](" ++ target o ++ txt ")") ++ rest)
    with (bang (image o) ++ "[" :: text o ++ "]" :: "(" :: target o ++ ")" :: rest)
    by (cbn [txt list_ascii_of_string]; by flatten).
  pose proof (reference_match (image o) (text o) (target o) rest Ht2 Hg2) as Hm.
  destruct (pool_reference (target o)) as [r|] eqn:Hpool.
  - by rewrite (findall_hit _ reference_minlen _ _ Hm).
  - assert (Hrest : findall reference_pattern
                      ("[" :: text o ++ "]" :: "(" :: target o ++ ")" :: rest)
                    = findall reference_pattern rest).
    { pose proof (reference_match false (text o) (target o) rest Ht2 Hg2) as Hm'.
      rewrite Hpool in Hm'. cbn [bang app] in Hm'.
      rewrite (findall_cons _ reference_minlen), Hm'.
      replace (text o ++ "]" :: "(" :: target o ++ ")" :: rest)
        with ((text o ++ "]" :: "(" :: target o ++ [")"]) ++ rest) by by flatten.
      apply (findall_skip _ reference_minlen). intros i Hi.
      apply reference_skip; [| |done].
      - rewrite has_app, !has_cons, has_app, has_cons. intros [?|[?|[?|[?|[?|?]]]]]; try done.
        by eapply has_nil.
      - left. replace (text o ++ "]" :: "(" :: target o ++ [")"])
          with ((text o ++ "]" :: "(" :: target o) ++ [")"]) by by flatten.
        by rewrite ends_with_bang_snoc. }
    destruct (image o); cbn [bang app] in *; [|done].
    by rewrite (findall_cons _ reference_minlen), Hm.
Qed.

Lemma extract_body os trailer :
  Forall plain_occurrence os -> ~ has "[" trailer ->
  extract_attachment_references (body_of os trailer)
    = omap (fun o => pool_reference (target o)) os.
Proof.
  intros Hos Htrailer. unfold extract_attachment_references, body_of.
  induction Hos as [|o os Ho _ IH]; cbn [map concat omap list_omap].
  - cbn [app]. rewrite <- (app_nil_r trailer).
    rewrite (findall_skip _ reference_minlen);
      [by rewrite (findall_nil _ reference_minlen)|].
    intros i Hi. apply reference_skip; [done| |done]. right. by intros r'.
  - rewrite <- app_assoc, findall_occurrence by done.
    destruct (pool_reference (target o)) as [r|] eqn:Hp; cbn [map]; [|apply IH].
    f_equal; [|apply IH]. unfold pool_reference in Hp.
    destruct (after_literal _ _ _) as [[|c tail]|]; congruence.
Qed.


Lemma pool_reference_slashes n tail :
  n <= 2 -> tail <> [] ->
  pool_reference (repeat "/" n ++ txt "files/" ++ tail) = Some (txt "files/" ++ tail).
Proof.
  intros Hn Htail. destruct tail as [|c tail]; [done|].
  destruct n as [|[|[|n]]]; [done..|lia].
Qed.

Lemma skip1_inv x s : s = skip1 x s \/ s = x :: skip1 x s.
Proof.
  destruct s as [|c s]; [by left|]. cbn.
  destruct (ceq c x) eqn:E; [|by left]. apply ceq_eq in E as ->. by right.
Qed.

Lemma pool_reference_inv target r :
  pool_reference target = Some r ->
  exists n tail, n <= 2 /\ tail <> [] /\
    target = repeat "/" n ++ txt "files/" ++ tail /\ r = txt "files/" ++ tail.
Proof.
  unfold pool_reference, strip_slashes2.
  destruct (after_literal _ _ _) as [[|c tail]|] eqn:E; try done.
  intros [= <-]. apply after_literal_plain_Some in E.
  assert (exists n, n <= 2 /\ target = repeat "/" n ++ txt "files/" ++ c :: tail)
    as (n & Hn & Htarget).
  { destruct (skip1_inv "/" target) as [H1|H1];
      destruct (skip1_inv "/" (skip1 "/" target)) as [H2|H2].
    - exists 0. split; [lia|]. cbn [repeat app]. congruence.
    - exists 1. split; [lia|]. cbn [repeat app]. rewrite <- E. congruence.
    - exists 1. split; [lia|]. cbn [repeat app]. rewrite <- E. congruence.
    - exists 2. split; [lia|]. cbn [repeat app]. rewrite <- E. congruence. }
  exists n, (c :: tail). split; [done|]. split; [done|]. split; [done|].
  rewrite Htarget. destruct n as [|[|[|n]]]; [done..|lia].
Qed.

(** *** Every body *)

Lemma matches_Str_plain lit w g g' :
  matches no_flags (Str lit) w g g' -> w = lit /\ g' = g.
Proof.
  revert w g. induction lit as [|x lit IH]; intros w g; cbn [Str matches].
  - done.
  - intros (w1 & w2 & g1 & -> & ((c & -> & Hc) & ->) & H2).
    apply IH in H2 as [-> ->]. cbn in Hc. apply ceq_eq in Hc as ->. done.
Qed.

Lemma matches_Opt_slash w g g' :
  matches no_flags (Opt (Lit "/")) w g g' ->
  exists n, n <= 1 /\ w = repeat "/" n /\ g' = g.
Proof.
  cbn [matches]. intros ([->|(c & -> & Hc)] & ->).
  - exists 0. split; [lia|done].
  - cbn in Hc. apply ceq_eq in Hc as ->. exists 1. split; [lia|done].
Qed.

Lemma Forall_not_has x w :
  Forall (fun c => atom_matches no_flags (NotLit x) c = true) w -> ~ has x w.
Proof.
  unfold has. intros H Hin. rewrite Forall_forall in H.
  specialize (H x Hin). cbn in H. by rewrite ceq_refl in H.
Qed.

Lemma has_repeat x y n : has x (repeat y n) -> x = y.
Proof. unfold has. intros H%list_elem_of_In. by apply repeat_spec in H. Qed.

(** An image or link to the pool, where the pattern matches. *)
Lemma reference_match_inv s m :
  match_at reference_pattern false s = Some m ->
  exists o post, reference_at s o post.
Proof.
  unfold match_at. intros (w & post & g' & -> & Hm & _)%run_sound.
  cbn [reference_pattern pat_re pat_flags Cat matches] in Hm.
  destruct Hm as (wbang & ? & ? & -> & ([->|(c & -> & Hc)] & ->) & Hm);
    destruct Hm as (? & ? & ? & -> & ((? & -> & Hopen) & ->) & Hm);
    destruct Hm as (wtext & ? & ? & -> & (Htext & ->) & Hm);
    destruct Hm as (? & ? & ? & -> & ((? & -> & Hclose) & ->) & Hm);
    destruct Hm as (? & ? & ? & -> & ((? & -> & Hparen) & ->) & Hm);
    destruct Hm as (wtarget & ? & ? & -> & (? & Hgroup & ->) & Hm);
    destruct Hm as (? & ? & ? & -> & ((? & -> & Hend) & ->) & [-> ->]);
    destruct Hgroup as (? & ? & ? & -> & (n1 & Hn1 & -> & ->)%matches_Opt_slash & Hgroup);
    destruct Hgroup as (? & ? & ? & -> & (n2 & Hn2 & -> & ->)%matches_Opt_slash & Hgroup);
    destruct Hgroup as (? & ? & ? & -> & [-> ->]%matches_Str_plain & Hgroup);
    destruct Hgroup as (wtail & ? & ? & -> & (Hne & Htail & ->) & [-> ->]);
    cbn in Hopen, Hclose, Hparen, Hend;
    apply ceq_eq in Hopen as ->, Hclose as ->, Hparen as ->, Hend as ->.
  all: assert (Hpool : pool_reference
                (repeat "/" n1 ++ repeat "/" n2 ++ txt "files/" ++ wtail ++ [])
              = Some (txt "files/" ++ wtail));
    [ rewrite app_nil_r, app_assoc, <- repeat_app;
      apply pool_reference_slashes; [lia|done] | ].
  all: assert (Hparen : ~ has ")" (repeat "/" n1 ++ repeat "/" n2 ++ txt "files/"
                                     ++ wtail ++ []));
    [ rewrite !has_app; intros [H|[H|[H|[H|H]]]];
      [ by apply has_repeat in H | by apply has_repeat in H
      | revert H; apply (bool_decide_eq_false_1 (")" ∈ txt "files/")); reflexivity
      | by apply Forall_not_has in Htail
      | by apply has_nil in H ] | ].
  - exists {| gap := []; image := false; text := wtext;
              target := repeat "/" n1 ++ repeat "/" n2 ++ txt "files/" ++ wtail ++ [] |},
           post.
    split; [unfold shown; cbn [bang image text target txt list_ascii_of_string];
            by flatten|].
    split; [by apply Forall_not_has in Htext|]. split; [done|].
    cbn [target]. by rewrite Hpool.
  - cbn in Hc. apply ceq_eq in Hc as ->.
    exists {| gap := []; image := true; text := wtext;
              target := repeat "/" n1 ++ repeat "/" n2 ++ txt "files/" ++ wtail ++ [] |},
           post.
    split; [unfold shown; cbn [bang image text target txt list_ascii_of_string];
            by flatten|].
    split; [by apply Forall_not_has in Htext|]. split; [done|].
    cbn [target]. by rewrite Hpool.
Qed.

Lemma reference_at_match s o post :
  reference_at s o post ->
  match_at reference_pattern false s =
    Some {| m_text := bang (image o) ++ "[" :: text o ++ "]" :: "("
                        :: target o ++ [")"];
            m_groups := [(1, target o)]; m_rest := post |}.
Proof.
  intros (-> & Htext & Htarget & [r Hr]).
  pose proof (reference_match (image o) (text o) (target o) post Htext Htarget)
    as Hm.
  rewrite Hr in Hm. rewrite <- Hm. f_equal. unfold shown.
  cbn [txt list_ascii_of_string]. by flatten.
Qed.

(** [extract_attachment_references] reads every body as [extraction]
    says. *)
Lemma extract_extraction body :
  extraction body (extract_attachment_references body).
Proof.
  unfold extract_attachment_references.
  apply (findall_scan _ reference_minlen
           (fun s out => extraction s (map lstrip_slash out))).
  - constructor.
  - intros c s out Hnone Hrest. apply extraction_skip; [|done].
    intros o post Hat%reference_at_match. congruence.
  - intros s m out Hsome Hrest.
    destruct (reference_match_inv s m Hsome) as (o & post & Hat).
    pose proof (reference_at_match s o post Hat) as Hm.
    rewrite Hsome in Hm. injection Hm as ->. cbn [map].
    apply (extraction_hit s o post); [done| |done].
    destruct Hat as (_ & _ & _ & [r Hr]). rewrite Hr. f_equal.
    unfold pool_reference in Hr. destruct (after_literal _ _ _) as [[|? ?]|]; try done.
    by injection Hr as <-.
Qed.

(** [extraction] determines the references. *)
Lemma extraction_functional s refs1 refs2 :
  extraction s refs1 -> extraction s refs2 -> refs1 = refs2.
Proof.
  intros H1. revert refs2.
  induction H1 as [|c s refs Hno _ IH|s o post r refs Hat Hr _ IH];
    intros refs2 H2.
  - inversion H2 as [| |s' o' post' r' refs' Hat' Hr' Hrest']; subst; [done|].
    apply reference_at_match, (match_at_shorter _ reference_minlen) in Hat'.
    cbn in Hat'. lia.
  - inversion H2 as [|c' s' refs' Hno' Hrest'|s' o' post' r' refs' Hat' Hr' Hrest'];
      subst.
    + by apply IH.
    + by destruct (Hno o' post').
  - inversion H2 as [|c' s' refs' Hno' Hrest'|s' o' post' r' refs' Hat' Hr' Hrest'];
      subst.
    + apply reference_at_match, (match_at_shorter _ reference_minlen) in Hat.
      cbn in Hat. lia.
    + by destruct (Hno' o post).
    + pose proof (reference_at_match _ _ _ Hat) as Hm.
      pose proof (reference_at_match _ _ _ Hat') as Hm'.
      rewrite Hm in Hm'. injection Hm' as _ Htarget Hpost.
      rewrite Htarget in Hr. rewrite Hr in Hr'. injection Hr' as ->.
      f_equal. apply IH. by rewrite Hpost.
Qed.

(** C6.  For every body, [extract_attachment_references] returns what
    [extraction] describes, and nothing else fits that description:
    reading from left to right, the target of every image and of every
    link whose target is a path into the attachment pool, in the order
    of the body and with duplicates, each with its leading slashes
    stripped.  A target is a path into the pool exactly when it is
    [files/] and at least one more character after at most two slashes.
    On a body made of images and links, each after bracket-free text,
    the result is the list of the pool targets of its occurrences. *)
Theorem C6_extract_references :
  (forall body, extraction body (extract_attachment_references body)) /\
  (forall body refs1 refs2,
     extraction body refs1 -> extraction body refs2 -> refs1 = refs2) /\
  (forall os trailer,
     Forall plain_occurrence os -> ~ has "[" trailer ->
     extract_attachment_references (body_of os trailer)
       = omap (fun o => pool_reference (target o)) os) /\
  (forall n tail, n <= 2 -> tail <> [] ->
     pool_reference (repeat "/" n ++ txt "files/" ++ tail)
       = Some (txt "files/" ++ tail)) /\
  (forall target r, pool_reference target = Some r ->
     exists n tail, n <= 2 /\ tail <> [] /\
       target = repeat "/" n ++ txt "files/" ++ tail /\
       r = txt "files/" ++ tail) /\
  extract_attachment_references (txt "![x](files/abc/img.png)")
    = [txt "files/abc/img.png"] /\
  extract_attachment_references (txt "![x](/files/abc/img.png)")
    = [txt "files/abc/img.png"] /\
  extract_attachment_references
    (txt "[a](files/u/one.pdf) ![b](//files/u/two.png) [c](files/u/one.pdf)")
    = [txt "files/u/one.pdf"; txt "files/u/two.png"; txt "files/u/one.pdf"].
Proof.
  split; [exact extract_extraction|].
  split; [exact extraction_functional|].
  split; [exact extract_body|]. split; [exact pool_reference_slashes|].
  split; [exact pool_reference_inv|]. repeat split; vm_compute; reflexivity.
Qed.

End PatternFacts.

(** ** The URL rewrite *)

Section RewriteFacts.
Import Re MarkdownTransformer.

Lemma parse_template_plain fuel groups s :
  length s < fuel -> ~ has "\" s ->
  parse_template fuel groups s = Some (map TLit s).
Proof.
  revert s. induction fuel as [|fuel IH]; intros s Hlen Hs; [lia|].
  destruct s as [|c s]; [done|]. cbn [parse_template].
  apply has_cons_not in Hs as [Hc Hs].
  replace (ceq c "\") with false by (symmetry; by apply ceq_neq).
  cbn [negb]. rewrite IH by (cbn in Hlen; done || lia). done.
Qed.


Lemma parse_template_lit fuel groups c rest :
  c <> "\" ->
  parse_template (S fuel) groups (c :: rest) =
    (TLit c ::.) <$> parse_template fuel groups rest.
Proof.
  intros Hc. cbn [parse_template].
  replace (ceq c "\") with false by (symmetry; by apply ceq_neq). done.
Qed.

Lemma parse_template_group1 fuel rest :
  parse_template (S fuel) 1 ("\" :: "1" :: "]" :: rest) =
    (TGroup 1 ::.) <$> parse_template fuel 1 ("]" :: rest).
Proof. reflexivity. Qed.

(** The template of the image substitution, for a URL without
    backslash. *)
Lemma image_template_compiled sp url :
  ~ has "\" url ->
  compile_template (image_pattern sp) (image_template url) =
    Some ([TLit "!"; TLit "["; TGroup 1; TLit "]"; TLit "("]
            ++ map TLit url ++ [TLit ")"]).
Proof.
  intros Hurl. unfold compile_template, image_template.
  change (pat_groups (image_pattern sp)) with 1.
  change (txt "![\1](" ++ url ++ txt ")")
    with ("!" :: "[" :: "\" :: "1" :: "]" :: "(" :: url ++ [")"]).
  cbn [length].
  rewrite !parse_template_lit by done.
  rewrite parse_template_group1.
  rewrite !parse_template_lit by done.
  rewrite parse_template_plain.
  - cbn [fmap option_fmap option_map app]. by rewrite map_app.
  - lia.
  - intros [H|H]%has_app; [done|].
    apply has_cons in H as [H|H]; [done|]. by apply has_nil in H.
Qed.

Lemma expand_image url m :
  expand ([TLit "!"; TLit "["; TGroup 1; TLit "]"; TLit "("]
            ++ map TLit url ++ [TLit ")"]) m =
    "!" :: "[" :: group_text m 1 ++ "]" :: "(" :: url ++ [")"].
Proof.
  unfold expand. cbn [app map concat]. do 2 f_equal. f_equal. cbn [app].
  do 2 f_equal. rewrite map_app, concat_app. cbn. f_equal.
  induction url as [|c url IH]; [done|]. cbn. by rewrite IH.
Qed.


Lemma str_eqb_cons c a x b :
  str_eqb (c :: a) (x :: b) = ceq c x && str_eqb a b.
Proof.
  unfold str_eqb. destruct (ceq c x) eqn:E.
  - apply ceq_eq in E as ->. cbn [andb]. apply bool_decide_ext. split; congruence.
  - apply ceq_neq in E. apply bool_decide_eq_false. congruence.
Qed.

(** A spelling and the closing parenthesis, on a target followed by a
    closing parenthesis. *)
Lemma target_run {R} sp target post g (k : str -> caps -> option R) :
  ~ has ")" target -> ~ has ")" sp ->
  run no_flags (Cat [Str sp; Atom (Lit ")")]) (target ++ ")" :: post) g k =
    if str_eqb target sp then k post g else None.
Proof.
  cbn [Cat]. revert target.
  induction sp as [|x sp IH]; intros target Ht Hsp.
  - rewrite run_Seq. cbn [Str]. rewrite run_Empty, run_Seq, run_Atom.
    destruct target as [|c target]; cbn [app].
    + cbn [atom_matches no_flags IGNORECASE]. by rewrite ceq_refl.
    + apply has_cons_not in Ht as [Hc _].
      cbn [atom_matches no_flags IGNORECASE].
      by replace (ceq c ")") with false by (symmetry; by apply ceq_neq).
  - apply has_cons_not in Hsp as [Hx Hsp].
    cbn [Str]. rewrite run_Seq, run_Seq, run_Atom.
    destruct target as [|c target]; cbn [app].
    + cbn [atom_matches no_flags IGNORECASE].
      by replace (ceq ")" x) with false
        by (symmetry; apply ceq_neq; congruence).
    + apply has_cons_not in Ht as [Hc Ht].
      rewrite str_eqb_cons. cbn [atom_matches no_flags IGNORECASE].
      destruct (ceq c x); [|done]. cbn [andb].
      rewrite <- (IH target Ht Hsp). by rewrite run_Seq.
Qed.

(** The part the image and the link patterns share, after the opening
    bracket. *)
Lemma bracketed_run {R} sp text target post g (k : str -> caps -> option R) :
  ~ has "]" text -> ~ has ")" target -> ~ has ")" sp ->
  run no_flags
      (Cat [Group 1 (Star (NotLit "]")); Atom (Lit "]"); Atom (Lit "(");
            Str sp; Atom (Lit ")")])
      (text ++ "]" :: "(" :: target ++ ")" :: post) g k =
    if str_eqb target sp then k post ((1, text) :: g) else None.
Proof.
  intros Htext Htarget Hsp.
  change (Cat [Group 1 (Star (NotLit "]")); Atom (Lit "]"); Atom (Lit "(");
               Str sp; Atom (Lit ")")])
    with (Seq (Group 1 (Star (NotLit "]")))
              (Seq (Atom (Lit "]"))
                   (Seq (Atom (Lit "(")) (Cat [Str sp; Atom (Lit ")")])))).
  rewrite run_Seq, run_Group, run_Star_commit.
  2:{ intros c t Hc _. rewrite run_Seq, run_Atom. cbn in Hc |- *.
      apply negb_true_iff in Hc. by rewrite Hc. }
  rewrite lstrip_by_app by by apply not_has_Forall.
  rewrite lstrip_by_stop by reflexivity.
  rewrite run_Seq, run_Atom. cbn [atom_matches no_flags IGNORECASE]. rewrite ceq_refl.
  rewrite run_Seq, run_Atom. cbn [atom_matches no_flags IGNORECASE]. rewrite ceq_refl.
  rewrite target_run by done.
  by rewrite (take_all_but text).
Qed.

(** The image pattern at the start of an image. *)
Lemma image_match sp text target post :
  ~ has "]" text -> ~ has ")" target -> ~ has ")" sp ->
  match_at (image_pattern sp) false
    ("!" :: "[" :: text ++ "]" :: "(" :: target ++ ")" :: post) =
    if str_eqb target sp
    then Some {| m_text := "!" :: "[" :: text ++ "]" :: "(" :: target ++ [")"];
                 m_groups := [(1, text)]; m_rest := post |}
    else None.
Proof.
  intros Htext Htarget Hsp. unfold match_at, image_pattern.
  cbn [pat_re pat_flags].
  set (s := "!" :: "[" :: text ++ "]" :: "(" :: target ++ ")" :: post).
  change (Cat (Atom (Lit "!") :: Atom (Lit "[") :: ?l))
    with (Seq (Atom (Lit "!")) (Seq (Atom (Lit "[")) (Cat l))).
  unfold s at 1.
  rewrite run_Seq, run_Atom. cbn [atom_matches no_flags IGNORECASE]. rewrite ceq_refl.
  rewrite run_Seq, run_Atom. cbn [atom_matches no_flags IGNORECASE]. rewrite ceq_refl.
  rewrite bracketed_run by done.
  destruct (str_eqb target sp); [|done]. cbn [andb]. do 2 f_equal.
  assert (Hs : s = ("!" :: "[" :: text ++ "]" :: "(" :: target ++ [")"]) ++ post).
  { unfold s. by flatten. }
  by rewrite Hs, take_all_but.
Qed.

(** The link pattern at the opening bracket of an image or a link. *)
Lemma link_match sp text target post :
  ~ has "]" text -> ~ has ")" target -> ~ has ")" sp ->
  match_at (link_pattern sp) false
    ("[" :: text ++ "]" :: "(" :: target ++ ")" :: post) =
    if str_eqb target sp
    then Some {| m_text := "[" :: text ++ "]" :: "(" :: target ++ [")"];
                 m_groups := [(1, text)]; m_rest := post |}
    else None.
Proof.
  intros Htext Htarget Hsp. unfold match_at, link_pattern.
  cbn [pat_re pat_flags].
  set (s := "[" :: text ++ "]" :: "(" :: target ++ ")" :: post).
  change (Cat (Atom (Lit "[") :: ?l)) with (Seq (Atom (Lit "[")) (Cat l)).
  unfold s at 1.
  rewrite run_Seq, run_Atom. cbn [atom_matches no_flags IGNORECASE]. rewrite ceq_refl.
  rewrite bracketed_run by done.
  destruct (str_eqb target sp); [|done]. cbn [andb]. do 2 f_equal.
  assert (Hs : s = ("[" :: text ++ "]" :: "(" :: target ++ [")"]) ++ post).
  { unfold s. by flatten. }
  by rewrite Hs, take_all_but.
Qed.

(** The image pattern where no image starts. *)
Lemma image_no_match sp c t :
  (c = "!" -> forall t', t <> "[" :: t') ->
  match_at (image_pattern sp) false (c :: t) = None.
Proof.
  intros Hbang. unfold match_at, image_pattern. cbn [pat_re pat_flags].
  change (Cat (Atom (Lit "!") :: Atom (Lit "[") :: ?l))
    with (Seq (Atom (Lit "!")) (Seq (Atom (Lit "[")) (Cat l))).
  rewrite run_Seq, run_Atom. cbn [atom_matches no_flags IGNORECASE].
  destruct (ceq c "!") eqn:E; [|done]. apply ceq_eq in E.
  rewrite run_Seq, run_Atom. destruct t as [|c' t]; [done|].
  cbn [atom_matches no_flags IGNORECASE].
  destruct (ceq c' "[") eqn:E'; [|done]. apply ceq_eq in E' as ->.
  by destruct (Hbang E t).
Qed.

(** The link pattern where no bracket opens. *)
Lemma link_no_match sp c t :
  c <> "[" -> match_at (link_pattern sp) false (c :: t) = None.
Proof.
  intros Hc. unfold match_at, link_pattern. cbn [pat_re pat_flags].
  change (Cat (Atom (Lit "[") :: ?l)) with (Seq (Atom (Lit "[")) (Cat l)).
  rewrite run_Seq, run_Atom. cbn [atom_matches no_flags IGNORECASE].
  apply ceq_neq in Hc. by rewrite Hc.
Qed.

Lemma image_skip sp t rest i :
  ~ has "[" t ->
  ends_with_bang t = false \/ (forall r', rest <> "[" :: r') ->
  i < length t ->
  match_at (image_pattern sp) false (drop i t ++ rest) = None.
Proof.
  intros Ht Hend Hi.
  destruct (bracket_free_position t rest i Ht Hend Hi) as (c & u & -> & Hc & Hb).
  by apply image_no_match.
Qed.

Lemma link_skip sp t rest i :
  ~ has "[" t -> i < length t ->
  match_at (link_pattern sp) false (drop i t ++ rest) = None.
Proof.
  intros Ht Hi.
  destruct (drop i t) as [|c t'] eqn:Hd.
  { apply (f_equal length) in Hd. rewrite length_drop in Hd. cbn in Hd. lia. }
  cbn [app]. apply link_no_match. intros ->. apply Ht.
  unfold has. rewrite <- (take_drop i t), Hd. set_solver.
Qed.

Lemma image_minlen sp : 0 < minlen (pat_re (image_pattern sp)).
Proof. cbn [image_pattern pat_re Cat minlen]. lia. Qed.

Lemma link_minlen sp : 0 < minlen (pat_re (link_pattern sp)).
Proof. cbn [link_pattern pat_re Cat minlen]. lia. Qed.


(** Text without an opening bracket holds no image and no link. *)
Lemma image_pass_free sp f t :
  ~ has "[" t -> sub_fn (image_pattern sp) f t = t.
Proof.
  intros Ht. rewrite <- (app_nil_r t) at 1.
  rewrite (sub_fn_skip _ (image_minlen sp)).
  - by rewrite (sub_fn_nil _ (image_minlen sp)), app_nil_r.
  - intros i Hi. apply image_skip; [done| |done]. right. by intros r'.
Qed.

Lemma link_pass_free sp f t :
  ~ has "[" t -> sub_fn (link_pattern sp) f t = t.
Proof.
  intros Ht. rewrite <- (app_nil_r t) at 1.
  rewrite (sub_fn_skip _ (link_minlen sp)).
  - by rewrite (sub_fn_nil _ (link_minlen sp)), app_nil_r.
  - intros i Hi. by apply link_skip.
Qed.

Lemma written_eq o :
  written o =
    gap o ++ bang (image o) ++ "[" :: text o ++ "]" :: "(" :: target o ++ [")"].
Proof. unfold written. cbn [txt list_ascii_of_string]. by flatten. Qed.

(** The stretch of an occurrence after its opening bracket. *)
Lemma inside_free o :
  plain_occurrence o ->
  ~ has "[" (text o ++ "]" :: "(" :: target o ++ [")"]).
Proof.
  intros (_ & _ & Ht & _ & Hg & _).
  rewrite has_app, !has_cons, has_app, has_cons. intros H.
  destruct H as [H|[H|[H|[H|[H|H]]]]]; try done. by apply has_nil in H.
Qed.

Lemma ends_with_bang_inside a b :
  ends_with_bang (a ++ "]" :: "(" :: b ++ [")"]) = false.
Proof.
  replace (a ++ "]" :: "(" :: b ++ [")"]) with ((a ++ "]" :: "(" :: b) ++ [")"])
    by (by flatten).
  by rewrite ends_with_bang_snoc.
Qed.

(** The image substitution on one occurrence followed by more text. *)
Lemma image_pass_occurrence sp url f o rest :
  (forall m, f m = "!" :: "[" :: group_text m 1 ++ "]" :: "(" :: url ++ [")"]) ->
  plain_occurrence o -> ~ has ")" sp ->
  sub_fn (image_pattern sp) f (written o ++ rest) =
    written (image_step sp url o) ++ sub_fn (image_pattern sp) f rest.
Proof.
  intros Hf Ho Hsp. pose proof (inside_free o Ho) as Hin.
  destruct Ho as (Hgap & Hbang & Ht1 & Ht2 & Hg1 & Hg2).
  set (inside := text o ++ "]" :: "(" :: target o ++ [")"]) in *.
  assert (Hins :
    sub_fn (image_pattern sp) f ("[" :: inside ++ rest)
    = "[" :: inside ++ sub_fn (image_pattern sp) f rest).
  { rewrite (sub_fn_cons _ (image_minlen sp)).
    rewrite image_no_match by done. f_equal.
    apply (sub_fn_skip _ (image_minlen sp)). intros i Hi.
    apply image_skip; [done| |done]. left. apply ends_with_bang_inside. }
  rewrite !written_eq. unfold image_step.
  destruct (image o) eqn:Himg; cbn [andb bang app].
  - (* an image *)
    rewrite <- app_assoc. rewrite (sub_fn_skip _ (image_minlen sp)).
    2:{ intros i Hi. apply image_skip; [done| |done]. right. by intros r'. }
    replace (("!" :: "[" :: text o ++ "]" :: "(" :: target o ++ [")"]) ++ rest)
      with ("!" :: "[" :: text o ++ "]" :: "(" :: target o ++ ")" :: rest)
      by (by flatten).
    pose proof (image_match sp (text o) (target o) rest Ht2 Hg2 Hsp) as Hm.
    destruct (str_eqb (target o) sp) eqn:E.
    + rewrite (sub_fn_hit _ (image_minlen sp) _ _ _ Hm), Hf.
      cbn [m_rest group_text m_groups group List.find fst snd Nat.eqb fmap
           option_fmap option_map default with_target gap image text target
           bang app].
      rewrite Himg. cbn [bang]. by flatten.
    + rewrite (sub_fn_cons _ (image_minlen sp)), Hm.
      replace (text o ++ "]" :: "(" :: target o ++ ")" :: rest)
        with (inside ++ rest) by (unfold inside; by flatten).
      rewrite Hins. rewrite Himg. cbn [bang]. unfold inside. by flatten.
  - (* a link *)
    rewrite <- app_assoc. rewrite (sub_fn_skip _ (image_minlen sp)).
    2:{ intros i Hi. apply image_skip; [done| |done]. left. by apply Hbang. }
    replace (("[" :: text o ++ "]" :: "(" :: target o ++ [")"]) ++ rest)
      with ("[" :: inside ++ rest) by (unfold inside; by flatten).
    rewrite Hins, Himg. unfold inside. by flatten.
Qed.

Lemma replace_link_label url size text whole post :
  replace_link url size
    {| m_text := whole; m_groups := [(1, text)]; m_rest := post |} =
    "[" :: label text size ++ "]" :: "(" :: url ++ [")"].
Proof.
  unfold replace_link, label. cbn [txt list_ascii_of_string].
  change (group_text _ 1) with text. by flatten.
Qed.

(** The link substitution on one occurrence followed by more text. *)
Lemma link_pass_occurrence sp url size o rest :
  plain_occurrence o -> ~ has ")" sp ->
  sub_fn (link_pattern sp) (replace_link url size) (written o ++ rest) =
    written (link_step sp url size o)
      ++ sub_fn (link_pattern sp) (replace_link url size) rest.
Proof.
  intros Ho Hsp. pose proof (inside_free o Ho) as Hin.
  destruct Ho as (Hgap & Hbang & Ht1 & Ht2 & Hg1 & Hg2).
  rewrite !written_eq. unfold link_step.
  replace ((gap o ++ bang (image o) ++ "[" :: text o ++ "]" :: "(" :: target o ++ [")"])
             ++ rest)
    with ((gap o ++ bang (image o))
            ++ "[" :: text o ++ "]" :: "(" :: target o ++ ")" :: rest)
    by (by flatten).
  rewrite (sub_fn_skip _ (link_minlen sp)).
  2:{ intros i Hi. apply link_skip; [|done].
      rewrite has_app. intros [H|H]; [done|].
      destruct (image o); cbn in H; [|by apply has_nil in H].
      apply has_cons in H as [H|H]; [done|]. by apply has_nil in H. }
  pose proof (link_match sp (text o) (target o) rest Ht2 Hg2 Hsp) as Hm.
  destruct (str_eqb (target o) sp) eqn:E.
  - rewrite (sub_fn_hit _ (link_minlen sp) _ _ _ Hm).
    rewrite replace_link_label.
    cbn [m_rest with_label gap image text target]. by flatten.
  - rewrite (sub_fn_cons _ (link_minlen sp)), Hm.
    replace (text o ++ "]" :: "(" :: target o ++ ")" :: rest)
      with ((text o ++ "]" :: "(" :: target o ++ [")"]) ++ rest) by (by flatten).
    rewrite (sub_fn_skip _ (link_minlen sp)).
    2:{ intros i Hi. by apply link_skip. }
    by flatten.
Qed.


(** Characters of what trimming and [Path.name] return come from the
    argument. *)
Lemma has_lstrip_by x p s : has x (lstrip_by p s) -> has x s.
Proof.
  unfold has. induction s as [|c s IH]; [done|]. cbn.
  destruct (p c); [|done]. intros H. apply elem_of_cons. right. by apply IH.
Qed.

Lemma has_strip x s : has x (strip s) -> has x s.
Proof.
  unfold strip, rstrip_by, has. rewrite list_elem_of_In, <- in_rev, <- list_elem_of_In.
  intros H%has_lstrip_by. unfold has in H.
  rewrite list_elem_of_In, <- in_rev, <- list_elem_of_In in H.
  by apply has_lstrip_by in H.
Qed.

Lemma has_split_on x sep s w :
  w ∈ split_on sep s -> has x w -> has x s.
Proof.
  unfold has. revert w. induction s as [|c s IH]; intros w; cbn.
  - intros ->%list_elem_of_singleton. done.
  - destruct (ceq c sep).
    + intros [->|H]%elem_of_cons Hx; [by apply not_elem_of_nil in Hx|].
      apply elem_of_cons. right. by apply (IH w).
    + destruct (split_on sep s) as [|w0 ws] eqn:E.
      * intros ->%list_elem_of_singleton Hx.
        apply elem_of_cons in Hx as [->|Hx]; [by left|].
        by apply not_elem_of_nil in Hx.
      * intros [->|H]%elem_of_cons Hx.
        -- apply elem_of_cons in Hx as [->|Hx]; [by left|].
           apply elem_of_cons. right. apply (IH w0); [by left|done].
        -- apply elem_of_cons. right. apply (IH w); [by right|done].
Qed.

Lemma last_elem (l : list str) : l <> [] -> List.last l [] ∈ l.
Proof.
  induction l as [|a l IH]; [done|]. intros _.
  destruct l as [|b l]; [by left|].
  apply elem_of_cons. right. by apply IH.
Qed.

Lemma has_name_parts x s : has x (name (parts_of s)) -> has x s.
Proof.
  unfold name, parts_of. intros H.
  destruct (List.filter _ _) as [|a l] eqn:E.
  { by apply has_nil in H. }
  assert (Hin : List.last (a :: l) [] ∈ a :: l).
  { by apply last_elem. }
  rewrite <- E in Hin, H. apply list_elem_of_In, filter_In in Hin as [Hin _].
  apply list_elem_of_In in Hin. by apply (has_split_on x "/" s _ Hin).
Qed.

Lemma string_of_uint_digits d :
  Forall (fun c => is_digit c = true)
         (list_ascii_of_string (NilZero.string_of_uint d)).
Proof.
  assert (H : forall d, Forall (fun c => is_digit c = true)
                (list_ascii_of_string (NilEmpty.string_of_uint d))).
  { clear d. induction d; cbn [NilEmpty.string_of_uint list_ascii_of_string];
      constructor; (reflexivity || assumption). }
  destruct d; try apply H. by constructor.
Qed.

Lemma has_str_of_N x n : has x (str_of_N n) -> is_digit x = true.
Proof.
  unfold has, str_of_N. intros H.
  pose proof (string_of_uint_digits (N.to_uint n)) as Hd.
  rewrite Forall_forall in Hd. by apply Hd.
Qed.

Lemma has_label x text size :
  is_digit x = false -> x <> " " -> has x (label text size) -> has x text.
Proof.
  intros Hd Hsp. unfold label. rewrite has_app, has_app.
  intros [H|[H|H]].
  - destruct (contains_char _ _); [apply has_name_parts in H|]; by apply has_strip.
  - cbn in H. apply has_cons in H as [H|H]; [done|]. by apply has_nil in H.
  - apply has_str_of_N in H. congruence.
Qed.

(** The substitutions keep occurrences plain. *)
Lemma plain_image_step sp url o :
  ~ has "[" url -> ~ has ")" url ->
  plain_occurrence o -> plain_occurrence (image_step sp url o).
Proof.
  intros Hu1 Hu2 Ho. unfold image_step.
  destruct (_ && _); [|done].
  destruct Ho as (? & ? & ? & ? & ? & ?). by repeat split.
Qed.

Lemma plain_link_step sp url size o :
  ~ has "[" url -> ~ has ")" url ->
  plain_occurrence o -> plain_occurrence (link_step sp url size o).
Proof.
  intros Hu1 Hu2 Ho. unfold link_step.
  destruct (str_eqb _ _); [|done].
  destruct Ho as (? & ? & ? & ? & ? & ?). repeat split; cbn; try done.
  - intros H'. by apply has_label in H'.
  - intros H'. by apply has_label in H'.
Qed.

Lemma plain_spelling_step url size o sp :
  ~ has "[" url -> ~ has ")" url ->
  plain_occurrence o -> plain_occurrence (spelling_step url size o sp).
Proof. intros. by apply plain_link_step, plain_image_step. Qed.

(** A substitution that acts occurrence by occurrence, on a body. *)
Lemma pass_body (pass : str -> str) (step : occurrence -> occurrence) os trailer :
  (forall o rest, plain_occurrence o ->
     pass (written o ++ rest) = written (step o) ++ pass rest) ->
  (forall t, ~ has "[" t -> pass t = t) ->
  Forall plain_occurrence os -> ~ has "[" trailer ->
  pass (body_of os trailer) = body_of (map step os) trailer.
Proof.
  intros Hocc Hfree Hos Htr. unfold body_of.
  induction Hos as [|o os Ho _ IH]; cbn [map concat app].
  - by apply Hfree.
  - rewrite <- !app_assoc, Hocc by done. by rewrite IH.
Qed.

(** One spelling of one reference, on a body. *)
Lemma replace_spelling_body url size sp os trailer :
  ~ has "[" url -> ~ has ")" url -> ~ has "\" url -> ~ has ")" sp ->
  Forall plain_occurrence os -> ~ has "[" trailer ->
  replace_spelling url size sp (body_of os trailer) =
    Some (body_of (map (fun o => spelling_step url size o sp) os) trailer).
Proof.
  intros Hu1 Hu2 Hu3 Hsp Hos Htr. unfold replace_spelling, sub_template.
  rewrite image_template_compiled by done. cbn [mbind option_bind]. f_equal.
  rewrite (pass_body (sub_fn (image_pattern sp) _) (image_step sp url)); try done.
  - rewrite (pass_body (sub_fn (link_pattern sp) _) (link_step sp url size)).
    + by rewrite map_map.
    + intros o rest Ho. by apply link_pass_occurrence.
    + intros t Ht. by apply link_pass_free.
    + apply Forall_map. eapply Forall_impl; [exact Hos|].
      intros o Ho. by apply plain_image_step.
    + done.
  - intros o rest Ho. apply image_pass_occurrence; [|done..].
    intros m. apply expand_image.
  - intros t Ht. by apply image_pass_free.
Qed.


(** One entry of the mapping, on a body. *)
Lemma replace_entry_body entry os trailer :
  clean_entry entry -> Forall plain_occurrence os -> ~ has "[" trailer ->
  replace_entry entry (body_of os trailer) =
    Some (body_of (map (fun o => entry_step o entry) os) trailer).
Proof.
  destruct entry as [k [url size]]. intros (Hk & Hu1 & Hu2 & Hu3) Hos Htr.
  assert (Hplain : forall sp l, Forall plain_occurrence l ->
            Forall plain_occurrence (map (fun o => spelling_step url size o sp) l)).
  { intros sp l Hl. apply Forall_map. eapply Forall_impl; [exact Hl|].
    intros o Ho. by apply plain_spelling_step. }
  assert (Hs1 : ~ has ")" ("/" :: k)).
  { intros [H|H]%has_cons; done. }
  assert (Hs2 : ~ has ")" ("/" :: "/" :: k)).
  { intros [H|H]%has_cons; done. }
  unfold replace_entry, entry_step, spellings.
  cbn [foldl txt list_ascii_of_string app mbind option_bind].
  rewrite replace_spelling_body by done. cbn [mbind option_bind].
  rewrite replace_spelling_body by auto. cbn [mbind option_bind].
  rewrite replace_spelling_body by auto.
  by rewrite !map_map.
Qed.

Lemma plain_entry_step entry o :
  clean_entry entry -> plain_occurrence o -> plain_occurrence (entry_step o entry).
Proof.
  destruct entry as [k [url size]]. intros (Hk & Hu1 & Hu2 & Hu3) Ho.
  unfold entry_step, spellings. cbn [foldl].
  by do 3 (apply plain_spelling_step; [done|done|]).
Qed.

(** The whole mapping, on a body. *)
Lemma replace_body url_mapping os trailer :
  Forall clean_entry url_mapping -> Forall plain_occurrence os ->
  ~ has "[" trailer ->
  replace_attachment_urls (body_of os trailer) url_mapping =
    Some (body_of (map (rewritten url_mapping) os) trailer).
Proof.
  intros Hm Hos Htr. unfold replace_attachment_urls, rewritten.
  revert os Hos. induction Hm as [|e m He _ IH]; intros os Hos; cbn [foldl].
  - by rewrite map_id.
  - cbn [mbind option_bind]. rewrite replace_entry_body by done.
    fold (replace_attachment_urls (body_of (map (fun o => entry_step o e) os) trailer) m).
    unfold replace_attachment_urls. rewrite IH.
    + by rewrite map_map.
    + apply Forall_map. eapply Forall_impl; [exact Hos|].
      intros o Ho. by apply plain_entry_step.
Qed.

Lemma spelling_step_other url size o sp :
  target o <> sp -> spelling_step url size o sp = o.
Proof.
  intros H%str_eqb_false. unfold spelling_step, image_step, link_step.
  rewrite H, andb_false_r. by rewrite H.
Qed.

Lemma spelling_step_hit url size o sp :
  target o = sp -> url <> sp ->
  spelling_step url size o sp =
    if image o then with_target o url else with_label o url size.
Proof.
  intros H%str_eqb_eq Hu%str_eqb_false.
  unfold spelling_step, image_step, link_step. rewrite H.
  destruct (image o); cbn [andb].
  - cbn [with_target target]. by rewrite Hu.
  - by rewrite H.
Qed.

Lemma entry_step_other o entry :
  target o ∉ spellings (fst entry) -> entry_step o entry = o.
Proof.
  destruct entry as [k [url size]]. cbn [fst]. unfold spellings, entry_step.
  intros H. cbn [foldl spellings].
  rewrite (spelling_step_other url size o k)
    by (intros E; apply H; rewrite E; set_solver).
  rewrite (spelling_step_other url size o _)
    by (intros E; apply H; rewrite E; set_solver).
  rewrite (spelling_step_other url size o _)
    by (intros E; apply H; rewrite E; set_solver).
  done.
Qed.

Lemma entry_step_hit o k url size :
  target o ∈ spellings k -> url ∉ spellings k ->
  entry_step o (k, (url, size)) =
    if image o then with_target o url else with_label o url size.
Proof.
  unfold spellings, entry_step. cbn [txt list_ascii_of_string app].
  intros Ht Hu. cbn [foldl spellings txt list_ascii_of_string app].
  assert (Hu0 : url <> k) by (intros ->; apply Hu; set_solver).
  assert (Hu1 : url <> "/" :: k) by (intros ->; apply Hu; set_solver).
  assert (Hu2 : url <> "/" :: "/" :: k) by (intros ->; apply Hu; set_solver).
  assert (Hafter : forall sp, url <> sp ->
            spelling_step url size
              (if image o then with_target o url else with_label o url size) sp
            = (if image o then with_target o url else with_label o url size)).
  { intros sp Hsp. apply spelling_step_other. by destruct (image o). }
  assert (Hlen1 : "/" :: k <> k).
  { intros E%(f_equal length). cbn in E. lia. }
  assert (Hlen2 : "/" :: "/" :: k <> k).
  { intros E%(f_equal length). cbn in E. lia. }
  assert (Hlen3 : "/" :: "/" :: k <> "/" :: k).
  { intros E%(f_equal length). cbn in E. lia. }
  apply elem_of_cons in Ht as [Ht|Ht];
    [|apply elem_of_cons in Ht as [Ht|Ht];
      [|apply elem_of_cons in Ht as [Ht|Ht];
        [|by apply not_elem_of_nil in Ht]]].
  - rewrite (spelling_step_hit url size o k) by done.
    by rewrite !Hafter.
  - rewrite (spelling_step_other url size o k) by congruence.
    rewrite (spelling_step_hit url size o ("/" :: k)) by done.
    by rewrite Hafter.
  - rewrite (spelling_step_other url size o k) by congruence.
    rewrite (spelling_step_other url size o ("/" :: k)) by congruence.
    by rewrite (spelling_step_hit url size o ("/" :: "/" :: k)).
Qed.

Lemma rewritten_other url_mapping o :
  (forall e, e ∈ url_mapping -> target o ∉ spellings (fst e)) ->
  rewritten url_mapping o = o.
Proof.
  unfold rewritten. induction url_mapping as [|e m IH]; intros H; [done|].
  cbn [foldl]. rewrite entry_step_other by (apply H; by left).
  apply IH. intros e' He'. apply H. by right.
Qed.

(** With fresh URLs an occurrence is rewritten once, by the first entry
    a spelling of whose key is its target. *)
Lemma rewritten_first url_mapping o :
  fresh_urls url_mapping ->
  rewritten url_mapping o =
    match entry_for url_mapping o with
    | Some (_, (url, size)) =>
        if image o then with_target o url else with_label o url size
    | None => o
    end.
Proof.
  unfold rewritten, entry_for.
  induction url_mapping as [|e m IH]; intros Hfresh; [done|].
  cbn [foldl List.find].
  assert (Hm : fresh_urls m).
  { intros e1 e2 H1 H2. apply Hfresh; by right. }
  destruct (bool_decide_reflect (target o ∈ spellings (fst e))) as [Hin|Hout].
  - destruct e as [k [url size]]. cbn [fst] in Hin.
    rewrite entry_step_hit; [|done|].
    2:{ apply (Hfresh (k, (url, size)) (k, (url, size))); by left. }
    apply (rewritten_other m). intros e' He'.
    replace (target (if image o then with_target o url else with_label o url size))
      with url by (by destruct (image o)).
    apply (Hfresh (k, (url, size)) e'); [by left|by right].
  - rewrite entry_step_other by done. by apply IH.
Qed.


(** *** Every body *)

Lemma spelling_run {R} sp post g (k : str -> caps -> option R) :
  run no_flags (Cat [Str sp; Atom (Lit ")")]) (sp ++ ")" :: post) g k = k post g.
Proof.
  cbn [Cat]. rewrite run_Seq, run_Str, after_literal_plain, run_Seq, run_Atom.
  cbn [atom_matches no_flags IGNORECASE]. by rewrite ceq_refl.
Qed.

Lemma bracketed_exact {R} sp text post g (k : str -> caps -> option R) :
  ~ has "]" text ->
  run no_flags
      (Cat [Group 1 (Star (NotLit "]")); Atom (Lit "]"); Atom (Lit "(");
            Str sp; Atom (Lit ")")])
      (text ++ "]" :: "(" :: sp ++ ")" :: post) g k =
    k post ((1, text) :: g).
Proof.
  intros Htext.
  change (Cat [Group 1 (Star (NotLit "]")); Atom (Lit "]"); Atom (Lit "(");
               Str sp; Atom (Lit ")")])
    with (Seq (Group 1 (Star (NotLit "]")))
              (Seq (Atom (Lit "]"))
                   (Seq (Atom (Lit "(")) (Cat [Str sp; Atom (Lit ")")])))).
  rewrite run_Seq, run_Group, run_Star_commit.
  2:{ intros c t Hc _. rewrite run_Seq, run_Atom. cbn in Hc |- *.
      apply negb_true_iff in Hc. by rewrite Hc. }
  rewrite lstrip_by_app by by apply not_has_Forall.
  rewrite lstrip_by_stop by reflexivity.
  rewrite run_Seq, run_Atom. cbn [atom_matches no_flags IGNORECASE]. rewrite ceq_refl.
  rewrite run_Seq, run_Atom. cbn [atom_matches no_flags IGNORECASE]. rewrite ceq_refl.
  rewrite spelling_run. by rewrite (take_all_but text).
Qed.

(** The image pattern at an image whose target is the spelling. *)
Lemma image_match_exact sp alt post :
  ~ has "]" alt ->
  match_at (image_pattern sp) false
    ("!" :: "[" :: alt ++ "]" :: "(" :: sp ++ ")" :: post) =
    Some {| m_text := "!" :: "[" :: alt ++ "]" :: "(" :: sp ++ [")"];
            m_groups := [(1, alt)]; m_rest := post |}.
Proof.
  intros Halt. unfold match_at, image_pattern. cbn [pat_re pat_flags].
  set (s := "!" :: "[" :: alt ++ "]" :: "(" :: sp ++ ")" :: post).
  change (Cat (Atom (Lit "!") :: Atom (Lit "[") :: ?l))
    with (Seq (Atom (Lit "!")) (Seq (Atom (Lit "[")) (Cat l))).
  unfold s at 1.
  rewrite run_Seq, run_Atom. cbn [atom_matches no_flags IGNORECASE]. rewrite ceq_refl.
  rewrite run_Seq, run_Atom. cbn [atom_matches no_flags IGNORECASE]. rewrite ceq_refl.
  rewrite bracketed_exact by done. cbn [andb]. do 2 f_equal.
  assert (Hs : s = ("!" :: "[" :: alt ++ "]" :: "(" :: sp ++ [")"]) ++ post).
  { unfold s. by flatten. }
  by rewrite Hs, take_all_but.
Qed.

Lemma link_match_exact sp link_text post :
  ~ has "]" link_text ->
  match_at (link_pattern sp) false
    ("[" :: link_text ++ "]" :: "(" :: sp ++ ")" :: post) =
    Some {| m_text := "[" :: link_text ++ "]" :: "(" :: sp ++ [")"];
            m_groups := [(1, link_text)]; m_rest := post |}.
Proof.
  intros Htext. unfold match_at, link_pattern. cbn [pat_re pat_flags].
  set (s := "[" :: link_text ++ "]" :: "(" :: sp ++ ")" :: post).
  change (Cat (Atom (Lit "[") :: ?l)) with (Seq (Atom (Lit "[")) (Cat l)).
  unfold s at 1.
  rewrite run_Seq, run_Atom. cbn [atom_matches no_flags IGNORECASE]. rewrite ceq_refl.
  rewrite bracketed_exact by done. cbn [andb]. do 2 f_equal.
  assert (Hs : s = ("[" :: link_text ++ "]" :: "(" :: sp ++ [")"]) ++ post).
  { unfold s. by flatten. }
  by rewrite Hs, take_all_but.
Qed.

Lemma matches_Lit x w g g' :
  matches no_flags (Atom (Lit x)) w g g' -> w = [x] /\ g' = g.
Proof.
  cbn [matches]. intros ((c & -> & Hc) & ->). cbn in Hc.
  by apply ceq_eq in Hc as ->.
Qed.

(** What the part the two patterns share matches. *)
Lemma matches_bracketed sp w g g' :
  matches no_flags
    (Cat [Group 1 (Star (NotLit "]")); Atom (Lit "]"); Atom (Lit "(");
          Str sp; Atom (Lit ")")]) w g g' ->
  exists text, ~ has "]" text /\ w = text ++ "]" :: "(" :: sp ++ [")"].
Proof.
  cbn [Cat matches].
  intros (text & ? & ? & -> & (? & (Htext & ->) & ->) & Hm).
  destruct Hm as (? & ? & ? & -> & [-> ->]%matches_Lit & Hm).
  destruct Hm as (? & ? & ? & -> & [-> ->]%matches_Lit & Hm).
  destruct Hm as (? & ? & ? & -> & [-> ->]%matches_Str_plain & Hm).
  destruct Hm as (? & ? & ? & -> & [-> ->]%matches_Lit & [-> ->]).
  exists text. split; [by apply Forall_not_has in Htext|]. by flatten.
Qed.

Lemma image_match_inv sp s m :
  match_at (image_pattern sp) false s = Some m ->
  exists alt post,
    ~ has "]" alt /\ s = "!" :: "[" :: alt ++ "]" :: "(" :: sp ++ ")" :: post.
Proof.
  unfold match_at. intros (w & post & g' & -> & Hm & _)%run_sound.
  cbn [image_pattern pat_re pat_flags] in Hm.
  change (Cat (Atom (Lit "!") :: Atom (Lit "[") :: ?l))
    with (Seq (Atom (Lit "!")) (Seq (Atom (Lit "[")) (Cat l))) in Hm.
  cbn [matches] in Hm.
  destruct Hm as (? & ? & ? & -> & ((? & -> & H1) & ->) & Hm).
  destruct Hm as (? & ? & ? & -> & ((? & -> & H2) & ->) & Hm).
  apply matches_bracketed in Hm as (alt & Halt & ->).
  cbn in H1, H2. apply ceq_eq in H1 as ->, H2 as ->.
  exists alt, post. split; [done|]. by flatten.
Qed.

Lemma link_match_inv sp s m :
  match_at (link_pattern sp) false s = Some m ->
  exists link_text post,
    ~ has "]" link_text /\
    s = "[" :: link_text ++ "]" :: "(" :: sp ++ ")" :: post.
Proof.
  unfold match_at. intros (w & post & g' & -> & Hm & _)%run_sound.
  cbn [link_pattern pat_re pat_flags] in Hm.
  change (Cat (Atom (Lit "[") :: ?l))
    with (Seq (Atom (Lit "[")) (Cat l)) in Hm.
  cbn [matches] in Hm.
  destruct Hm as (? & ? & ? & -> & ((? & -> & H1) & ->) & Hm).
  apply matches_bracketed in Hm as (text & Htext & ->).
  cbn in H1. apply ceq_eq in H1 as ->.
  exists text, post. split; [done|]. by flatten.
Qed.

(** The image substitution reads every text as [images_rewritten]
    says. *)
Lemma image_pass_every sp url f s :
  (forall m, f m = "!" :: "[" :: group_text m 1 ++ "]" :: "(" :: url ++ [")"]) ->
  images_rewritten sp url s (sub_fn (image_pattern sp) f s).
Proof.
  intros Hf. apply (sub_fn_scan _ (image_minlen sp)).
  - constructor.
  - intros c t out Hnone Hrest. apply images_skip; [|done].
    intros alt post Halt E. rewrite E, image_match_exact in Hnone; done.
  - intros t m out Hsome Hrest.
    destruct (image_match_inv sp t m Hsome) as (alt & post & Halt & ->).
    rewrite image_match_exact in Hsome by done. injection Hsome as <-.
    rewrite Hf. cbn [m_rest] in Hrest.
    change (group_text _ 1) with alt.
    replace (("!" :: "[" :: alt ++ "]" :: "(" :: url ++ [")"]) ++ out)
      with ("!" :: "[" :: alt ++ "]" :: "(" :: url ++ ")" :: out) by (by flatten).
    by apply images_hit.
Qed.

Lemma link_pass_every sp url size s :
  links_rewritten sp url size s
    (sub_fn (link_pattern sp) (replace_link url size) s).
Proof.
  apply (sub_fn_scan _ (link_minlen sp)).
  - constructor.
  - intros c t out Hnone Hrest. apply links_skip; [|done].
    intros text post Htext E. rewrite E, link_match_exact in Hnone; done.
  - intros t m out Hsome Hrest.
    destruct (link_match_inv sp t m Hsome) as (text & post & Htext & ->).
    rewrite link_match_exact in Hsome by done. injection Hsome as <-.
    rewrite replace_link_label. cbn [m_rest] in Hrest.
    replace (("[" :: label text size ++ "]" :: "(" :: url ++ [")"]) ++ out)
      with ("[" :: label text size ++ "]" :: "(" :: url ++ ")" :: out)
      by (by flatten).
    by apply links_hit.
Qed.

(** The relations determine the rewritten text. *)
Lemma images_functional sp url s out1 out2 :
  images_rewritten sp url s out1 -> images_rewritten sp url s out2 ->
  out1 = out2.
Proof.
  intros H1. revert out2.
  induction H1 as [|c s out Hno _ IH|alt post out Halt _ IH]; intros out2 H2.
  - by inversion H2.
  - inversion H2 as [|c' s' out' Hno' Hrest'|alt' post' out' Halt' Hrest' E];
      subst.
    + f_equal. by apply IH.
    + by destruct (Hno alt' post').
  - inversion H2 as [|c' s' out' Hno' Hrest' [E1 E2]|alt' post' out' Halt' Hrest' E];
      subst.
    + by destruct (Hno' alt post).
    + pose proof (image_match_exact sp alt post Halt) as Hm.
      rewrite <- E, (image_match_exact sp alt' post' Halt') in Hm.
      injection Hm as _ -> ->. by rewrite (IH out').
Qed.

Lemma links_functional sp url size s out1 out2 :
  links_rewritten sp url size s out1 -> links_rewritten sp url size s out2 ->
  out1 = out2.
Proof.
  intros H1. revert out2.
  induction H1 as [|c s out Hno _ IH|text post out Htext _ IH]; intros out2 H2.
  - by inversion H2.
  - inversion H2 as [|c' s' out' Hno' Hrest'|text' post' out' Htext' Hrest' E];
      subst.
    + f_equal. by apply IH.
    + by destruct (Hno text' post').
  - inversion H2 as [|c' s' out' Hno' Hrest' [E1 E2]|text' post' out' Htext' Hrest' E];
      subst.
    + by destruct (Hno' text post).
    + pose proof (link_match_exact sp text post Htext) as Hm.
      rewrite <- E, (link_match_exact sp text' post' Htext') in Hm.
      injection Hm as _ -> ->. by rewrite (IH out').
Qed.

Lemma spellings_functional url size sps s out1 out2 :
  spellings_rewritten url size sps s out1 ->
  spellings_rewritten url size sps s out2 -> out1 = out2.
Proof.
  revert s. induction sps as [|sp sps IH]; intros s; cbn [spellings_rewritten].
  - congruence.
  - intros (a1 & b1 & Hi1 & Hl1 & H1) (a2 & b2 & Hi2 & Hl2 & H2).
    rewrite (images_functional _ _ _ _ _ Hi1 Hi2) in Hl1.
    rewrite (links_functional _ _ _ _ _ _ Hl1 Hl2) in H1.
    by apply (IH b2).
Qed.

Lemma mapping_functional url_mapping s out1 out2 :
  mapping_rewritten url_mapping s out1 ->
  mapping_rewritten url_mapping s out2 -> out1 = out2.
Proof.
  revert s. induction url_mapping as [|[k [url size]] rest IH]; intros s;
    cbn [mapping_rewritten].
  - congruence.
  - intros (a1 & Hs1 & H1) (a2 & Hs2 & H2).
    rewrite (spellings_functional _ _ _ _ _ _ Hs1 Hs2) in H1.
    by apply (IH a2).
Qed.

(** [replace_attachment_urls] rewrites every body as
    [mapping_rewritten] says. *)
Lemma replace_spelling_every url size sp s :
  ~ has "\" url ->
  exists s1 s2,
    replace_spelling url size sp s = Some s2 /\
    images_rewritten sp url s s1 /\ links_rewritten sp url size s1 s2.
Proof.
  intros Hurl. unfold replace_spelling, sub_template.
  rewrite image_template_compiled by done. cbn [mbind option_bind].
  eexists _, _. split; [reflexivity|]. split.
  - apply image_pass_every. intros m. apply expand_image.
  - apply link_pass_every.
Qed.

Lemma replace_spellings_every url size sps s :
  ~ has "\" url ->
  exists out,
    foldl (fun acc pattern => r ← acc; replace_spelling url size pattern r)
          (Some s) sps = Some out /\
    spellings_rewritten url size sps s out.
Proof.
  intros Hurl. revert s. induction sps as [|sp sps IH]; intros s.
  - by exists s.
  - cbn [foldl mbind option_bind spellings_rewritten].
    destruct (replace_spelling_every url size sp s Hurl)
      as (s1 & s2 & -> & Hi & Hl).
    destruct (IH s2) as (out & -> & Hout).
    exists out. split; [done|]. by exists s1, s2.
Qed.

Lemma replace_every url_mapping body :
  Forall (fun entry => ~ has "\" (fst (snd entry))) url_mapping ->
  exists out,
    replace_attachment_urls body url_mapping = Some out /\
    mapping_rewritten url_mapping body out.
Proof.
  unfold replace_attachment_urls. intros Hm. revert body.
  induction Hm as [|[k [url size]] rest Hurl _ IH]; intros body.
  - by exists body.
  - cbn [foldl mbind option_bind mapping_rewritten].
    destruct (replace_spellings_every url size (spellings k) body Hurl)
      as (s1 & Hs & Hs1).
    change (replace_entry (k, (url, size)) body = Some s1) in Hs. rewrite Hs.
    destruct (IH s1) as (out & -> & Hout).
    exists out. split; [done|]. by exists s1.
Qed.

(** C5 (amended).  For every body and every mapping whose URLs hold no
    backslash, [replace_attachment_urls] returns the body rewritten as
    [mapping_rewritten] says, and nothing else fits that description:
    for the entries in turn and for the three spellings of each key in
    turn (bare, one leading slash, two leading slashes), first every
    image whose target is the spelling gets the URL as target and keeps
    its text verbatim, then every link whose target is the spelling gets
    the URL as target and as text the [label]: its text without
    surrounding white space, reduced to its final path component when a
    slash is left in it, a space and the byte count.  On a body made of
    plain images and links the result is the body with every occurrence
    rewritten by [rewritten]; when no URL is a spelling of a key, an
    occurrence whose target is a spelling of a key is rewritten once, by
    the first such entry, and every other occurrence stays as it is.
    The two examples of the specification hold. *)
Theorem C5_url_rewrite :
  (forall body url_mapping,
     Forall (fun entry => ~ has "\" (fst (snd entry))) url_mapping ->
     exists out,
       replace_attachment_urls body url_mapping = Some out /\
       mapping_rewritten url_mapping body out) /\
  (forall url_mapping body out1 out2,
     mapping_rewritten url_mapping body out1 ->
     mapping_rewritten url_mapping body out2 -> out1 = out2) /\
  (forall os trailer url_mapping,
     Forall plain_occurrence os -> ~ has "[" trailer ->
     Forall clean_entry url_mapping ->
     replace_attachment_urls (body_of os trailer) url_mapping =
       Some (body_of (map (rewritten url_mapping) os) trailer)) /\
  (forall url_mapping o,
     fresh_urls url_mapping ->
     rewritten url_mapping o =
       match entry_for url_mapping o with
       | Some (_, (url, size)) =>
           if image o then with_target o url else with_label o url size
       | None => o
       end) /\
  replace_attachment_urls (txt "[b.png](files/a/b.png)") example_mapping =
    Some (txt "[b.png 2048](https://x/u1)") /\
  replace_attachment_urls (txt "![alt](files/a/b.png)") example_mapping =
    Some (txt "![alt](https://x/u1)").
Proof.
  split; [|split; [|split; [|split; [|split]]]].
  - intros body url_mapping. apply replace_every.
  - apply mapping_functional.
  - intros os trailer url_mapping Hos Htr Hm. by apply replace_body.
  - intros url_mapping o. apply rewritten_first.
  - by vm_compute.
  - by vm_compute.
Qed.

Lemma not_has_decide x s : bool_decide (x ∈ s) = false -> ~ has x s.
Proof. apply bool_decide_eq_false. Qed.

(** The general part of C5 at a body with a gap, a link under a path as
    text, an image and a trailer. *)
Lemma C5_url_rewrite_witness :
  replace_attachment_urls
    (txt "see [ docs/b.png ](/files/a/b.png) and ![alt](//files/a/b.png)!")
    example_mapping =
    Some (txt "see [b.png 2048](https://x/u1) and ![alt](https://x/u1)!").
Proof.
  apply (proj1 (proj2 (proj2 C5_url_rewrite))
           [ {| gap := txt "see "; image := false; text := txt " docs/b.png ";
                target := txt "/files/a/b.png" |};
             {| gap := txt " and "; image := true; text := txt "alt";
                target := txt "//files/a/b.png" |} ]
           (txt "!") example_mapping).
  - repeat constructor; try (apply not_has_decide; reflexivity).
  - apply not_has_decide. reflexivity.
  - repeat constructor; try (apply not_has_decide; reflexivity).
Defined.

(** C5, as worded, fails: the text of a link is not kept unchanged when
    it holds no separator, white space around it is dropped; and a
    backslash in a URL is read as an escape of the replacement template,
    so the URL does not arrive as it is. *)
Lemma C5_link_text_not_verbatim :
  ~ (forall o url size,
       plain_occurrence o -> image o = false ->
       replace_attachment_urls (written o) [(target o, (url, size))] =
         Some (written (described_link o url size))) /\
  replace_attachment_urls (txt "![alt](files/a/b.png)")
    [(txt "files/a/b.png", (txt "https://x/\1", 2048%N))] =
    Some (txt "![alt](https://x/alt)").
Proof.
  split; [|by vm_compute].
  intros H.
  specialize (H {| gap := []; image := false; text := txt " b.png ";
                   target := txt "files/a/b.png" |}
                (txt "https://x/u1") 2048%N).
  assert (Hplain : plain_occurrence
            {| gap := []; image := false; text := txt " b.png ";
               target := txt "files/a/b.png" |}).
  { repeat split; try (apply not_has_decide; reflexivity). }
  specialize (H Hplain eq_refl). vm_compute in H. discriminate H.
Qed.

End RewriteFacts.

(** ** The callout rewrite *)

Section CalloutFacts.
Import Re MarkdownTransformer.

Lemma lower_angle c : ceq (lower c) (lower "<") = ceq c "<".
Proof. by destruct c as [[] [] [] [] [] [] [] []]. Qed.

Lemma space_not_angle c : isspace c = true -> ceq (lower c) (lower "<") = false.
Proof.
  intros H. rewrite lower_angle. destruct (ceq c "<") eqn:E; [|done].
  apply ceq_eq in E as ->. done.
Qed.

Lemma after_literal_ci lit tag rest :
  same_ignoring_case tag lit ->
  after_literal ci lit (tag ++ rest) = Some rest.
Proof.
  unfold same_ignoring_case. revert tag.
  induction lit as [|x lit IH]; intros [|c tag] H; try done.
  injection H as Hc H. cbn [app after_literal atom_matches ci IGNORECASE].
  rewrite Hc, ceq_refl. by apply IH.
Qed.

Lemma same_length a b : same_ignoring_case a b -> length a = length b.
Proof. intros H%(f_equal length). by rewrite !length_map in H. Qed.

(** A literal that does not match a text as long as itself does not
    match when more text follows. *)
Lemma after_literal_more fl lit u w :
  after_literal fl lit u = None -> length lit <= length u ->
  after_literal fl lit (u ++ w) = None.
Proof.
  revert u. induction lit as [|x lit IH]; intros [|c u] H Hlen;
    cbn [after_literal app length] in *; try done; try lia.
  destruct (atom_matches fl (Lit x) c); [|done].
  apply IH; [done|lia].
Qed.

Lemma starts_nowhere_at lit t next i :
  starts_nowhere lit t next = true -> i < length t ->
  after_literal ci lit (drop i t ++ next) = None.
Proof.
  unfold starts_nowhere. rewrite forallb_forall. intros H Hi.
  specialize (H i). rewrite in_seq in H. specialize (H ltac:(lia)).
  by destruct (after_literal _ _ _).
Qed.

Lemma starts_nowhere_more lit t tag rest i :
  starts_nowhere lit t tag = true -> length lit <= length tag ->
  i < length t ->
  after_literal ci lit (drop i t ++ tag ++ rest) = None.
Proof.
  intros H Hlen Hi. rewrite app_assoc. apply after_literal_more.
  - by apply starts_nowhere_at.
  - rewrite length_app. lia.
Qed.

(** A greedy star keeps the longest run when the rest of the pattern
    matches after it. *)
Lemma star_greedy_longest {R} p s (k : str -> option R) r :
  k (lstrip_by p s) = Some r -> star_greedy p s k = Some r.
Proof.
  induction s as [|c s IH]; [done|]. cbn. destruct (p c); [|done].
  intros H. by rewrite (IH H).
Qed.

Lemma lstrip_by_before p a c b :
  p c = false -> lstrip_by p (a ++ c :: b) = lstrip_by p a ++ c :: b.
Proof.
  intros Hc. induction a as [|x a IH]; cbn.
  - by rewrite Hc.
  - by destruct (p x).
Qed.

Lemma drop_lstrip_by p s :
  exists n, lstrip_by p s = drop n s /\ n <= length s.
Proof.
  induction s as [|c s (n & Hn & Hle)]; [by exists 0|]. cbn.
  destruct (p c).
  - exists (S n). cbn. split; [done|lia].
  - exists 0. split; [done|lia].
Qed.

Lemma details_minlen : 0 < minlen (pat_re details_pattern).
Proof. cbn. lia. Qed.


(** A tag that is an opening angle bracket and more, up to case, starts
    with that bracket. *)
Lemma tag_head tag lit :
  same_ignoring_case tag ("<" :: lit) -> exists tag', tag = "<" :: tag'.
Proof.
  unfold same_ignoring_case. destruct tag as [|c tag]; [done|].
  intros [= Hc _]. exists tag. f_equal.
  apply ceq_eq. rewrite <- lower_angle. apply ceq_eq. exact Hc.
Qed.

Lemma lstrip_by_tag p tag lit rest :
  same_ignoring_case tag ("<" :: lit) -> p "<" = false ->
  lstrip_by p (tag ++ rest) = tag ++ rest.
Proof. intros (tag' & ->)%tag_head Hp. cbn. by rewrite Hp. Qed.

Lemma lstrip_by_before_tag p a tag lit rest :
  same_ignoring_case tag ("<" :: lit) -> p "<" = false ->
  lstrip_by p (a ++ tag ++ rest) = lstrip_by p a ++ tag ++ rest.
Proof. intros (tag' & ->)%tag_head Hp. by apply lstrip_by_before. Qed.

Lemma star_lazy_now {R} p s (k : str -> option R) r :
  k s = Some r -> star_lazy p s k = Some r.
Proof. intros H. destruct s; cbn; by rewrite H. Qed.

(** The pattern at the start of a block. *)
Lemma details_match b rest :
  well_shaped b ->
  match_at details_pattern false (block_text b ++ rest) =
    Some {| m_text := block_text b;
            m_groups := [(2, lstrip_by isspace (inner b)); (1, title b)];
            m_rest := rest |}.
Proof.
  intros (Ho & Hsp & Hs & Ht & Htl & Hse & Hc & Hin).
  destruct (tag_head _ _ Hs) as (stag & Hstag).
  destruct (tag_head _ _ Hse) as (setag & Hsetag).
  destruct (tag_head _ _ Hc) as (ctag & Hctag).
  unfold match_at, details_pattern. cbn [pat_re pat_flags Cat]. fold ci.
  set (s := block_text b ++ rest).
  set (kfin := fun (s' : str) (g : caps) => _).
  assert (Hs0 : s = open_tag b ++ space b ++ summary_tag b ++ title b
                  ++ summary_end b ++ inner b ++ close_tag b ++ rest).
  { unfold s, block_text. by flatten. }
  rewrite Hs0 at 1.
  (* the opening tag and the white space *)
  rewrite run_Seq, run_Str, after_literal_ci by done.
  rewrite run_Seq, run_Star_commit.
  2:{ intros c t Hcsp _. rewrite run_Seq, run_Str.
      cbn [txt list_ascii_of_string after_literal atom_matches ci IGNORECASE].
      by rewrite space_not_angle. }
  rewrite lstrip_by_app by done.
  rewrite (lstrip_by_tag _ _ _ _ Hs) by done.
  rewrite run_Seq, run_Str, after_literal_ci by done.
  (* the title *)
  destruct (title b) as [|c0 title'] eqn:Htitle; [done|].
  apply has_cons_not in Htl as [Hc0 Htl].
  assert (Hnot : forall c, c <> "<" -> atom_matches ci (NotLit "<") c = true).
  { intros c Hne. cbn [atom_matches ci IGNORECASE]. rewrite lower_angle.
    apply negb_true_iff. by apply ceq_neq. }
  rewrite run_Seq, run_Group, run_Plus_commit.
  2:{ intros c t Hcn _. rewrite run_Seq, run_Str.
      cbn [txt list_ascii_of_string after_literal].
      cbn [atom_matches ci IGNORECASE] in Hcn |- *.
      apply negb_true_iff in Hcn. by rewrite Hcn. }
  cbn [app]. rewrite (Hnot c0 Hc0).
  rewrite lstrip_by_app.
  2:{ apply Forall_forall. intros c Hcin. apply Hnot. intros ->. by apply Htl. }
  rewrite (lstrip_by_tag _ _ _ _ Hse) by done.
  rewrite run_Seq, run_Str, after_literal_ci by done.
  (* the white space and the inner text *)
  rewrite run_Seq. cbn [run]. change (atom_matches ci Space) with isspace.
  apply star_greedy_longest.
  rewrite (lstrip_by_before_tag _ _ _ _ _ Hc) by done.
  destruct (drop_lstrip_by isspace (inner b)) as (n & Hn & Hle).
  rewrite star_lazy_first.
  2:{ apply Forall_forall. by intros c _. }
  2:{ intros i Hi. rewrite run_Str. rewrite Hn, drop_drop.
      rewrite starts_nowhere_more; [done|done| |].
      - by rewrite (same_length _ _ Hc).
      - rewrite Hn, length_drop in Hi. lia. }
  apply star_lazy_now. rewrite run_Str, after_literal_ci by done.
  cbn [run]. unfold kfin. cbn [andb]. f_equal.
  rewrite (take_all_but (lstrip_by isspace (inner b)) (close_tag b ++ rest)).
  pose proof (take_all_but (c0 :: title')
                (summary_end b ++ inner b ++ close_tag b ++ rest)) as Htake.
  cbn [app] in Htake. rewrite Htake.
  unfold s. by rewrite take_all_but.
Qed.


Lemma replace_details_heading whole title inner rest :
  replace_details
    {| m_text := whole;
       m_groups := [(2, lstrip_by isspace inner); (1, title)];
       m_rest := rest |} =
    txt "### " ++ strip title ++ [LF; LF] ++ strip inner.
Proof.
  unfold replace_details.
  change (group_text _ 1) with title.
  change (group_text _ 2) with (lstrip_by isspace inner).
  unfold strip at 2. by rewrite lstrip_by_idem.
Qed.

(** Text in which no block opens is passed over. *)
Lemma details_skip t tag rest i :
  starts_nowhere (txt "<details>") t tag = true ->
  tag = [] /\ rest = [] \/ same_ignoring_case tag (txt "<details>") ->
  i < length t ->
  match_at details_pattern false (drop i t ++ tag ++ rest) = None.
Proof.
  intros Ht Htag Hi. unfold match_at, details_pattern.
  cbn [pat_re pat_flags Cat]. fold ci. rewrite run_Seq, run_Str.
  destruct Htag as [[-> ->]|Htag].
  - cbn [app]. by rewrite (starts_nowhere_at _ _ _ _ Ht Hi).
  - rewrite starts_nowhere_more; [done|done| |done].
    by rewrite (same_length _ _ Htag).
Qed.

(** The substitution on one block followed by more text. *)
Lemma details_block b rest :
  shaped b ->
  convert_details_to_headings (written_block b ++ rest) =
    heading b ++ convert_details_to_headings rest.
Proof.
  intros [Hb Hbefore]. unfold convert_details_to_headings, written_block, heading.
  pose proof (details_match b rest Hb) as Hm.
  destruct Hb as (Ho & _).
  replace ((before b ++ open_tag b ++ space b ++ summary_tag b ++ title b
              ++ summary_end b ++ inner b ++ close_tag b) ++ rest)
    with (before b ++ open_tag b
            ++ (space b ++ summary_tag b ++ title b ++ summary_end b
                  ++ inner b ++ close_tag b ++ rest))
    by (by flatten).
  rewrite (sub_fn_skip _ details_minlen).
  2:{ intros i Hi. apply details_skip; [done|by right|done]. }
  replace (open_tag b ++ space b ++ summary_tag b ++ title b ++ summary_end b
             ++ inner b ++ close_tag b ++ rest)
    with (block_text b ++ rest) by (unfold block_text; by flatten).
  rewrite (sub_fn_hit _ details_minlen _ _ _ Hm), replace_details_heading.
  cbn [m_rest]. by flatten.
Qed.

Lemma details_trailer t :
  starts_nowhere (txt "<details>") t [] = true ->
  convert_details_to_headings t = t.
Proof.
  intros Ht. unfold convert_details_to_headings.
  rewrite <- (app_nil_r t) at 1. rewrite (sub_fn_skip _ details_minlen).
  - by rewrite (sub_fn_nil _ details_minlen), app_nil_r.
  - intros i Hi. apply (details_skip t [] [] i); [done|by left|done].
Qed.

Lemma details_body bs trailer :
  Forall shaped bs -> starts_nowhere (txt "<details>") trailer [] = true ->
  convert_details_to_headings (blocks_body bs trailer) =
    concat (map heading bs) ++ trailer.
Proof.
  intros Hbs Htr. unfold blocks_body.
  induction Hbs as [|b bs Hb _ IH]; cbn [map concat app].
  - by apply details_trailer.
  - rewrite <- !app_assoc, details_block by done. by rewrite IH.
Qed.


(** *** Every body *)

Lemma matches_Str_ci lit w g g' :
  matches ci (Str lit) w g g' -> same_ignoring_case w lit /\ g' = g.
Proof.
  unfold same_ignoring_case. revert w g.
  induction lit as [|x lit IH]; intros w g; cbn [Str matches].
  - by intros [-> ->].
  - intros (w1 & w2 & g1 & -> & ((c & -> & Hc) & ->) & H2).
    apply IH in H2 as [H2 ->]. cbn in Hc. apply ceq_eq in Hc.
    cbn [app map]. by rewrite Hc, H2.
Qed.

Lemma after_literal_ci_inv lit s rest :
  after_literal ci lit s = Some rest ->
  exists tag, s = tag ++ rest /\ same_ignoring_case tag lit.
Proof.
  unfold same_ignoring_case. revert s.
  induction lit as [|x lit IH]; intros s; cbn [after_literal].
  - intros [= ->]. by exists [].
  - destruct s as [|c s]; [done|].
    cbn [atom_matches ci IGNORECASE]. destruct (ceq _ _) eqn:Hc; [|done].
    intros (tag & -> & Htag)%IH. apply ceq_eq in Hc.
    exists (c :: tag). split; [done|]. cbn [map]. by rewrite Hc, Htag.
Qed.

(** A literal that does not match a text does not match a shorter
    one. *)
Lemma after_literal_shorter fl lit u w :
  after_literal fl lit (u ++ w) = None -> after_literal fl lit u = None.
Proof.
  revert u. induction lit as [|x lit IH]; intros [|c u];
    cbn [after_literal app]; try done.
  destruct (atom_matches fl (Lit x) c); [apply IH|done].
Qed.

Lemma starts_nowhere_intro lit t next :
  (forall j, j < length t -> after_literal ci lit (drop j t ++ next) = None) ->
  starts_nowhere lit t next = true.
Proof.
  intros H. unfold starts_nowhere. apply forallb_forall. intros j Hj.
  apply in_seq in Hj. rewrite H by lia. done.
Qed.

(** The least number with a decidable property below one that has it. *)
Lemma least_true (P : nat -> bool) n :
  P n = true ->
  exists i, i <= n /\ P i = true /\ forall j, j < i -> P j = false.
Proof.
  revert P. induction n as [|n IH]; intros P Hn.
  - exists 0. split; [done|]. split; [done|]. intros j Hj. lia.
  - destruct (P 0) eqn:H0.
    + exists 0. split; [lia|]. split; [done|]. intros j Hj. lia.
    + destruct (IH (fun k => P (S k)) Hn) as (i & Hi & HP & Hleast).
      exists (S i). split; [lia|]. split; [done|].
      intros [|j] Hj; [done|]. apply Hleast. lia.
Qed.

(** A block of the shape, where the pattern matches. *)
Lemma details_match_inv s m :
  match_at details_pattern false s = Some m ->
  exists b post, well_shaped b /\ s = block_text b ++ post.
Proof.
  unfold match_at. intros (w & post & g' & -> & Hm & _)%run_sound.
  cbn [details_pattern pat_re pat_flags Cat matches] in Hm. fold ci in Hm.
  destruct Hm as (T1 & ? & ? & -> & [HT1 ->]%matches_Str_ci & Hm).
  destruct Hm as (ws & ? & ? & -> & (Hws & ->) & Hm).
  destruct Hm as (T2 & ? & ? & -> & [HT2 ->]%matches_Str_ci & Hm).
  destruct Hm as (ttl & ? & ? & -> & (? & (Hne & Httl & ->) & ->) & Hm).
  destruct Hm as (T3 & ? & ? & -> & [HT3 ->]%matches_Str_ci & Hm).
  destruct Hm as (ws2 & ? & ? & -> & (Hws2 & ->) & Hm).
  destruct Hm as (body2 & ? & ? & -> & (? & (_ & ->) & ->) & Hm).
  destruct Hm as (T4 & ? & ? & -> & [HT4 ->]%matches_Str_ci & [-> ->]).
  (* the first closing tag after the title *)
  set (x := (ws2 ++ body2) ++ T4 ++ post).
  set (found := fun i => match after_literal ci (txt "</details>") (drop i x) with
                         | Some _ => true
                         | None => false
                         end).
  assert (H0 : found (length (ws2 ++ body2)) = true).
  { unfold found, x. by rewrite drop_app_length, after_literal_ci. }
  destruct (least_true found _ H0) as (i & Hi & Hfound & Hleast).
  unfold found in Hfound.
  destruct (after_literal ci (txt "</details>") (drop i x)) as [rest|] eqn:Hat;
    [|done].
  apply after_literal_ci_inv in Hat as (tag & Hdrop & Htag).
  assert (Hx : x = take i x ++ tag ++ rest) by (by rewrite <- Hdrop, take_drop).
  assert (Hlen : length (take i x) = i).
  { apply length_take_le. unfold x. rewrite length_app. lia. }
  exists {| before := []; open_tag := T1; space := ws; summary_tag := T2;
            title := ttl; summary_end := T3; inner := take i x;
            close_tag := tag |}, rest.
  split.
  - repeat split; cbn [open_tag space summary_tag title summary_end inner
                       close_tag]; try done.
    + unfold has. intros Hin. rewrite Forall_forall in Httl.
      specialize (Httl _ Hin). done.
    + apply starts_nowhere_intro. intros j Hj. rewrite Hlen in Hj.
      specialize (Hleast j Hj). unfold found in Hleast.
      destruct (after_literal ci (txt "</details>") (drop j x)) eqn:E; [done|].
      rewrite Hx in E.
      rewrite drop_app_le, app_assoc in E by lia.
      by apply after_literal_shorter in E.
  - unfold block_text. cbn [open_tag space summary_tag title summary_end inner
                            close_tag].
    transitivity (T1 ++ ws ++ T2 ++ ttl ++ T3 ++ x); [unfold x; by flatten|].
    rewrite Hx at 1. by flatten.
Qed.

(** [convert_details_to_headings] reads every body as
    [callouts_rewritten] says. *)
Lemma details_every body :
  callouts_rewritten body (convert_details_to_headings body).
Proof.
  unfold convert_details_to_headings.
  apply (sub_fn_scan _ details_minlen).
  - constructor.
  - intros c t out Hnone Hrest. apply callouts_skip; [|done].
    intros b post Hb E. rewrite E, details_match in Hnone; done.
  - intros t m out Hsome Hrest.
    destruct (details_match_inv t m Hsome) as (b & post & Hb & ->).
    rewrite details_match in Hsome by done. injection Hsome as <-.
    rewrite replace_details_heading. cbn [m_rest] in Hrest.
    by apply callouts_hit.
Qed.

Lemma callouts_functional s out1 out2 :
  callouts_rewritten s out1 -> callouts_rewritten s out2 -> out1 = out2.
Proof.
  intros H1. revert out2.
  induction H1 as [|c s out Hno _ IH|b post out Hb _ IH]; intros out2 H2.
  - inversion H2 as [| |b' post' out' Hb' Hrest' E]; subst; [done|].
    pose proof (details_match b' post' Hb') as Hm. rewrite E in Hm.
    apply (match_at_shorter _ details_minlen) in Hm. cbn in Hm. lia.
  - inversion H2 as [|c' s' out' Hno' Hrest'|b' post' out' Hb' Hrest' E]; subst.
    + f_equal. by apply IH.
    + by destruct (Hno b' post').
  - inversion H2 as [|c' s' out' Hno' Hrest' E|b' post' out' Hb' Hrest' E]; subst.
    + pose proof (details_match b post Hb) as Hm. rewrite <- H in Hm.
      apply (match_at_shorter _ details_minlen) in Hm. cbn in Hm. lia.
    + by destruct (Hno' b post).
    + pose proof (details_match b post Hb) as Hm.
      rewrite <- E, (details_match b' post' Hb') in Hm.
      injection Hm as _ Hinner Htitle ->.
      rewrite (IH out') by done. f_equal. unfold heading_text.
      rewrite Htitle. do 3 f_equal.
      unfold strip. rewrite <- (lstrip_by_idem isspace (inner b')), Hinner.
      by rewrite lstrip_by_idem.
Qed.

(** C9 (amended).  For every body, [convert_details_to_headings]
    returns the body rewritten as [callouts_rewritten] says, and nothing
    else fits that description: reading from left to right, every block
    of the shape the pattern asks for (the four tags compared without
    regard to case, white space allowed between the first two, a title
    that is not empty and holds no opening angle bracket, an inner text
    that runs to the first closing tag and may hold line feeds) becomes
    the heading marker, the title without surrounding white space, a
    blank line and the inner text without surrounding white space; all
    other text is copied as it is.  On a body made of such blocks with
    text around them in which no block opens, the result is the headings
    with that text around them.  The example of the specification holds;
    a block without summary, with an empty title, with markup in its
    title or without closing tag is left as it is. *)
Theorem C9_callout_rewrite :
  (forall body, callouts_rewritten body (convert_details_to_headings body)) /\
  (forall body out1 out2,
     callouts_rewritten body out1 -> callouts_rewritten body out2 ->
     out1 = out2) /\
  (forall bs trailer,
     Forall shaped bs -> starts_nowhere (txt "<details>") trailer [] = true ->
     convert_details_to_headings (blocks_body bs trailer) =
       concat (map heading bs) ++ trailer) /\
  convert_details_to_headings
    (txt "<details><summary>Notes</summary>" ++ [LF] ++ txt "hello" ++ [LF]
       ++ txt "</details>") =
    txt "### Notes" ++ [LF; LF] ++ txt "hello" /\
  Forall (fun t => convert_details_to_headings t = t)
    [txt "<details>no summary</details>";
     txt "<details><summary></summary>x</details>";
     txt "<details><summary>a<b>c</b></summary>x</details>";
     txt "<details><summary>A</summary>x"].
Proof.
  split; [exact details_every|]. split; [exact callouts_functional|].
  split; [|split].
  - intros bs trailer. apply details_body.
  - by vm_compute.
  - repeat constructor; by vm_compute.
Qed.

(** The general part of C9 at a body with text around a block whose tags
    are in mixed case and whose inner text spans lines. *)
Lemma C9_callout_rewrite_witness :
  convert_details_to_headings
    (txt "intro <DETAILS>" ++ [LF] ++ txt "<Summary> Title </summary>" ++ [LF]
       ++ txt " body" ++ [LF] ++ txt "more " ++ [LF] ++ txt "</Details> end") =
    txt "intro ### Title" ++ [LF; LF] ++ txt "body" ++ [LF] ++ txt "more end".
Proof.
  apply (proj1 (proj2 (proj2 C9_callout_rewrite))
           [ {| before := txt "intro "; open_tag := txt "<DETAILS>";
                space := [LF]; summary_tag := txt "<Summary>";
                title := txt " Title "; summary_end := txt "</summary>";
                inner := [LF] ++ txt " body" ++ [LF] ++ txt "more " ++ [LF];
                close_tag := txt "</Details>" |} ]
           (txt " end")).
  - constructor; [|constructor].
    repeat split; try reflexivity.
    + repeat constructor.
    + discriminate.
    + apply not_has_decide. reflexivity.
  - reflexivity.
Defined.

(** C9, as worded, fails: the title of a block is not copied as it
    stands; white space around it is dropped. *)
Lemma C9_title_not_verbatim :
  ~ (forall b, shaped b -> before b = [] ->
       convert_details_to_headings (written_block b) = described_heading b).
Proof.
  intros H.
  specialize (H {| before := []; open_tag := txt "<details>"; space := [];
                   summary_tag := txt "<summary>"; title := txt " A ";
                   summary_end := txt "</summary>"; inner := txt "b";
                   close_tag := txt "</details>" |}).
  assert (Hshaped : shaped
            {| before := []; open_tag := txt "<details>"; space := [];
               summary_tag := txt "<summary>"; title := txt " A ";
               summary_end := txt "</summary>"; inner := txt "b";
               close_tag := txt "</details>" |}).
  { repeat split; try reflexivity.
    - constructor.
    - discriminate.
    - apply not_has_decide. reflexivity. }
  specialize (H Hshaped eq_refl). vm_compute in H. discriminate H.
Qed.

End CalloutFacts.

(** ** The scenario *)

Section ScenarioFacts.
Import OutlineClient AttachmentHandler DocmostParser Validators Orchestrator MarkdownTransformer.

(** C1, as worded, fails: a page whose body holds the same reference
    twice has the file delivered twice in its attachment step. *)
Lemma C1_same_reference_uploaded_twice :
  ~ (forall float dir page stats0 w,
       NoDup (uploaded_files
                (new_events w
                   (snd (process_attachments float (Some dir) page stats0 w))))).
Proof.
  intros H.
  specialize (H decimal_float space_root twice_page no_stats unpacked).
  vm_compute in H. apply NoDup_cons in H as [Hnin _]. apply Hnin. by left.
Qed.


(** C1 at the page that shows one attachment twice. *)
Lemma C1_witness :
  exists mapping stats1 w',
    process_attachments decimal_float (Some space_root) twice_page no_stats
                        unpacked = (Ok (mapping, stats1), w') /\
    let refs := extract_attachment_references (content twice_page) in
    Forall2 (fun ref file =>
               resolve_reference (fs unpacked) space_root (lstrip_slash ref)
                 = Some file)
            refs (uploaded_files (new_events unpacked w')) /\
    (forall k, k ∈ map fst mapping <-> k ∈ refs) /\
    NoDup (map fst mapping) /\
    Forall (fun k => lstrip_slash k = k) (map fst mapping) /\
    attachments_uploaded stats1
      = (attachments_uploaded no_stats + N.of_nat (length refs))%N.
Proof.
  destruct (process_attachments decimal_float (Some space_root) twice_page
              no_stats unpacked) as [[[mapping stats1]|x] w'] eqn:H.
  - exists mapping, stats1, w'. split; [reflexivity|].
    exact (C1_one_upload_per_extracted_reference decimal_float space_root
             twice_page no_stats unpacked mapping stats1 w' H).
  - vm_compute in H. discriminate H.
Defined.

(** C8 at the export of the scenario. *)
Lemma C8_witness :
  exists e w',
    parse zip_path world = (Ok e, w') /\
    let root := fst (detect_root (fs w') (temp_dir e) zip_path) in
    (forall md, md ∈ rglob (fs w') root glob_md -> in_files_dir md = false ->
       exists i page, page_store e !! i = Some page /\ file_path page = md) /\
    (forall i page, page_store e !! i = Some page ->
       exists dirs file, file_path page = root ++ dirs ++ [file] /\
         level page = Z.of_nat (length dirs)) /\
    (forall i page dirs file, page_store e !! i = Some page ->
       file_path page = root ++ dirs ++ [file] ->
       level page = Z.of_nat (length dirs)).
Proof.
  destruct (parse zip_path world) as [[e|x] w'] eqn:H.
  - exists e, w'. split; [reflexivity|].
    exact (C8_nesting_level zip_path world e w' H).
  - vm_compute in H. discriminate H.
Defined.


(** The linking at the child page of the export of the scenario. *)
Lemma child_linking_scenario :
  exists e w' page,
    parse zip_path world = (Ok e, w') /\
    page_store e !! 1 = Some page /\ (0 < level page)%Z /\
    exists parent_md,
      with_suffix (parent (file_path page)) (txt ".md") = Some parent_md /\
      parent_md = parent (parent (file_path page))
                    ++ [stem (parent (file_path page)) ++ txt ".md"] /\
      stem parent_md = stem (parent (file_path page)) /\
      ((exists j pj, page_store e !! j = Some pj /\ 1 ∈ children pj) <->
       (exists j pj, page_store e !! j = Some pj /\ file_path pj = parent_md)) /\
      (forall j pj, page_store e !! j = Some pj -> 1 ∈ children pj ->
         file_path pj = parent_md) /\
      (1 ∉ root_pages e) /\
      (1 ∈ all_pages e).
Proof.
  destruct (parse zip_path world) as [[e|x] w'] eqn:H.
  - assert (Hpage : exists page,
              page_store e !! 1 = Some page /\ (0 < level page)%Z).
    { pose proof H as H0. vm_compute in H0. injection H0 as He _.
      rewrite <- He. eexists. split; reflexivity. }
    destruct Hpage as (page & Hlookup & Hlevel).
    exists e, w', page. split; [reflexivity|]. split; [exact Hlookup|].
    split; [exact Hlevel|].
    exact (child_linking zip_path world e w' H 1 page Hlookup Hlevel).
  - vm_compute in H. discriminate H.
Defined.

(** C10 at the export of the scenario. *)
Lemma C10_witness :
  exists e w' root,
    parse zip_path world = (Ok e, w') /\
    attachments_dir e = Some root /\
    root = fst (detect_root (fs w') (temp_dir e) zip_path) /\
    forall page stats0,
      process_attachments decimal_float (attachments_dir e) page stats0 =
        match extract_attachment_references (content page) with
        | [] => mret ([], stats0)
        | (_ :: _) as attachment_refs =>
            url_mapping ←
              upload_attachments_for_references decimal_float attachment_refs
                                                root;
            mret (url_mapping,
                  {| documents_created := documents_created stats0;
                     attachments_uploaded :=
                       (attachments_uploaded stats0
                        + N.of_nat (length attachment_refs))%N;
                     total_attachment_size := total_attachment_size stats0 |})
        end.
Proof.
  destruct (parse zip_path world) as [[e|x] w'] eqn:H.
  - destruct (C10_attachments_dir_always_set decimal_float zip_path world e w' H)
      as (root & Hroot).
    exists e, w', root. split; [reflexivity|]. exact Hroot.
  - vm_compute in H. discriminate H.
Defined.

(** C4 at the export of the scenario, with a limit below the size of its
    image. *)
Lemma C4_witness :
  exists e w1,
    exists_ (fs world) zip_path = true /\
    parse zip_path world = (Ok e, w1) /\
    (forall x, fst (validate 100 e w1) = Raise x ->
       exists w2, migrate decimal_float 100 zip_path None world = (Raise x, w2) /\
                  requests (new_events world w2) = [] /\ sent w2 = sent world) /\
    (forall files,
       find_attachments e w1 = (Ok files, w1) ->
       (exists p size text, p ∈ files /\ stat (fs w1) p = Some (File size text) /\
                            (100 < size)%N) ->
       exists p size text w2,
         p ∈ files /\ stat (fs w1) p = Some (File size text) /\
         (100 < size)%N /\
         migrate decimal_float 100 zip_path None world
           = (Raise (ValidationError
                       (ExceedsMaximumUploadSize (name p) size 100)), w2) /\
         requests (new_events world w2) = [] /\ sent w2 = sent world).
Proof.
  destruct (parse zip_path world) as [[e|x] w1] eqn:H.
  - exists e, w1. split; [reflexivity|]. split; [reflexivity|].
    exact (C4_validation_precedes_container decimal_float 100 zip_path None
             world e w1 eq_refl H).
  - vm_compute in H. discriminate H.
Defined.

(** C7 at the scenario. *)
Lemma C7_witness :
  Forall plain (tmp_names world) /\
  exists evs,
    trace (snd (migrate decimal_float 100 zip_path None world))
      = trace world ++ evs /\
    temp_events evs = [EvMkdtemp tmp; EvRmtree tmp] /\
    gone (fs (snd (migrate decimal_float 100 zip_path None world))) tmp.
Proof.
  assert (Hplain : Forall plain (tmp_names world)).
  { constructor; [|constructor]. unfold plain.
    apply (bool_decide_eq_false_1 (txt ".." ∈ tmp)). reflexivity. }
  split; [exact Hplain|].
  exact (proj1 (proj2 (C7_extraction_root_released decimal_float 100 zip_path
                         None world Hplain))
           tmp [] eq_refl eq_refl).
Defined.


(** C2 at a server that answers 429 without [Retry-After] once: the
    call waits 60 seconds and the second answer settles it. *)
Lemma C2_witness :
  let payload :=
    documents_create (txt "T") (txt "x") (txt "col-1") None true in
  create_document decimal_float (txt "T") (txt "x") (txt "col-1") None true
                  limited_world =
    (Ok {| doc_id := txt "doc-T"; doc_title := txt "T";
           doc_collectionId := txt "col-1"; doc_parentDocumentId := None;
           doc_url := txt "/doc/T" |},
     extend limited_world
       [EvRequest payload; EvSleep (inject_Z 60); EvRequest payload]).
Proof.
  intros payload.
  exact (proj1 (proj2 (proj2
           (proj1 (C2_retry_policy decimal_float)
                  (txt "T") (txt "x") (txt "col-1") None true)))
           limited_world
           {| status_code := 429; retry_after := None; json := JOther |}
           (inject_Z 60)
           {| status_code := 200; retry_after := None;
              json := JDocument (txt "doc-T") (txt "T") (txt "col-1") None
                                (txt "/doc/T") |}
           eq_refl (conj eq_refl (conj eq_refl eq_refl)) eq_refl
           ltac:(discriminate)).
Defined.

(** C6 at a body with a link, an image under two slashes and a link to
    another site. *)
Lemma C6_witness :
  extract_attachment_references
    (txt "see [a](files/u/one.pdf), ![b](//files/u/two.png) or [c](https://x/y)!")
    = [txt "files/u/one.pdf"; txt "files/u/two.png"].
Proof.
  apply (proj1 (proj2 (proj2 C6_extract_references))
           [ {| gap := txt "see "; image := false; text := txt "a";
                target := txt "files/u/one.pdf" |};
             {| gap := txt ", "; image := true; text := txt "b";
                target := txt "//files/u/two.png" |};
             {| gap := txt " or "; image := false; text := txt "c";
                target := txt "https://x/y" |} ]
           (txt "!")).
  - repeat constructor; try (apply not_has_decide; reflexivity).
  - apply not_has_decide. reflexivity.
Defined.

End ScenarioFacts.

(** ** A directory with a dot in its name *)

Section DottedFacts.
Import OutlineClient DocmostParser.

(** C3.  The export of a page [v1.2] with a child page, beside an
    unrelated page [v1].  [parse] accepts it.  The page
    [v1.2/page.md] has level 1, and among the parsed pages is
    [v1.2.md]: a markdown file at the location of the page's containing
    directory whose stem is the name of that directory.  Yet the page
    is no child of it: [with_suffix] cuts the name of the directory at
    its last dot, so the page is looked up under [v1.md] and made a
    child of that page, whose stem is not the name of the directory,
    and of no other. *)
Theorem C3_dotted_directory :
  exists e w' page named other,
    parse zip_path dotted_world = (Ok e, w') /\
    page_store e !! 2 = Some page /\
    file_path page = tmp ++ [txt "Space"; txt "v1.2"; txt "page.md"] /\
    level page = 1%Z /\
    with_suffix (parent (file_path page)) (txt ".md")
      = Some (tmp ++ [txt "Space"; txt "v1.md"]) /\
    page_store e !! 1 = Some named /\
    file_path named = parent (parent (file_path page))
                        ++ [name (parent (file_path page)) ++ txt ".md"] /\
    stem (file_path named) = name (parent (file_path page)) /\
    2 ∉ children named /\
    page_store e !! 0 = Some other /\
    file_path other = tmp ++ [txt "Space"; txt "v1.md"] /\
    stem (file_path other) <> name (parent (file_path page)) /\
    2 ∈ children other /\
    (forall j pj, page_store e !! j = Some pj -> 2 ∈ children pj -> j = 0) /\
    2 ∉ root_pages e.
Proof.
  destruct (parse zip_path dotted_world) as [[e|x] w'] eqn:H;
    [|vm_compute in H; discriminate H].
  pose proof H as H0. vm_compute in H0. injection H0 as He _.
  exists e, w'. rewrite <- He. do 3 eexists.
  split; [reflexivity|]. split; [reflexivity|]. cbn [file_path level children].
  split; [reflexivity|]. split; [reflexivity|]. split; [reflexivity|].
  split; [reflexivity|]. split; [reflexivity|]. split; [reflexivity|].
  split; [by intros ?%elem_of_nil|].
  split; [reflexivity|]. split; [reflexivity|].
  split; [by vm_compute|]. split; [by apply list_elem_of_singleton|].
  split.
  - intros [|[|[|j]]] pj; cbn; intros [= <-]; cbn [children]; try done;
      by intros ?%elem_of_nil.
  - cbn [root_pages]. intros [?|[?|?%elem_of_nil]%elem_of_cons]%elem_of_cons; done.
Qed.

End DottedFacts.

(** ** Validation of attachments *)

Section ValidationFacts.
Import Validators.

Lemma st_size_size_at p w :
  st_size p w =
    (match size_at w p with
     | Some size => Ok size
     | None => Raise (FileNotFoundError (path_str p))
     end, w).
Proof. unfold st_size, size_at. by destruct (stat (fs w) p) as [[|]|]. Qed.

Lemma exists_size_at p w :
  exists_ (fs w) p = match size_at w p with Some _ => true | None => false end.
Proof. unfold exists_, size_at. by destruct (stat (fs w) p) as [[|]|]. Qed.

(** One iteration of the loop of [validate_all_attachments]. *)
Lemma validation_step path max_size total files w :
  (fs0 ← get_fs;
   if negb (exists_ fs0 path)
   then raise (ValidationError (AttachmentFileNotFound path))
   else
     validate_file_size path max_size;;
     size ← st_size path;
     mret ((total + size)%N, (files + 1)%N)) w =
    (match size_at w path with
     | None => Raise (ValidationError (AttachmentFileNotFound path))
     | Some size =>
         if (max_size <? size)%N
         then Raise (ValidationError
                       (ExceedsMaximumUploadSize (name path) size max_size))
         else Ok ((total + size)%N, (files + 1)%N)
     end, w).
Proof.
  unfold mbind, M_bind, bind, get_fs. rewrite exists_size_at.
  destruct (size_at w path) as [size|] eqn:E; [|done]. cbn [negb].
  unfold validate_file_size, mbind, M_bind, bind. rewrite st_size_size_at, E.
  destruct (max_size <? size)%N; [done|].
  unfold mret, M_ret, ret. by rewrite st_size_size_at, E.
Qed.

Lemma validation_loop paths max_size total files w :
  let loop :=
    for_each paths
      (fun path '(total_size, total_files) =>
         fs0 ← get_fs;
         if negb (exists_ fs0 path)
         then raise (ValidationError (AttachmentFileNotFound path))
         else
           validate_file_size path max_size;;
           size ← st_size path;
           mret ((total_size + size)%N, (total_files + 1)%N))
      (total, files) in
  snd (loop w) = w /\
  (Forall (within w max_size) paths ->
   fst (loop w) = Ok ((total + total_size w paths)%N,
                      (files + N.of_nat (length paths))%N)) /\
  (forall good bad rest, paths = good ++ bad :: rest ->
     Forall (within w max_size) good ->
     (size_at w bad = None ->
      fst (loop w) = Raise (ValidationError (AttachmentFileNotFound bad))) /\
     (forall size, size_at w bad = Some size -> (max_size < size)%N ->
      fst (loop w) = Raise (ValidationError
                              (ExceedsMaximumUploadSize (name bad) size max_size)))).
Proof.
  revert total files. induction paths as [|p paths IH]; intros total files loop.
  - split; [done|]. split.
    + intros _. unfold loop. cbn. by rewrite !N.add_0_r.
    + intros [|? ?] ? ? ?; done.
  - assert (Hrun : loop w =
              match size_at w p with
              | None => (Raise (ValidationError (AttachmentFileNotFound p)), w)
              | Some size =>
                  if (max_size <? size)%N
                  then (Raise (ValidationError
                                 (ExceedsMaximumUploadSize (name p) size max_size)),
                        w)
                  else
                    for_each paths
                      (fun path '(total_size, total_files) =>
                         fs0 ← get_fs;
                         if negb (exists_ fs0 path)
                         then raise (ValidationError (AttachmentFileNotFound path))
                         else
                           validate_file_size path max_size;;
                           size ← st_size path;
                           mret ((total_size + size)%N, (total_files + 1)%N))
                      ((total + size)%N, (files + 1)%N) w
              end).
    { unfold loop. cbn [for_each]. unfold bind at 1. rewrite validation_step.
      destruct (size_at w p) as [size|]; [|done].
      by destruct (max_size <? size)%N. }
    clearbody loop. rewrite Hrun. clear Hrun loop.
    destruct (size_at w p) as [size|] eqn:E.
    2:{ split; [done|]. split.
        - inversion 1 as [|? ? (s & Hs & _)]; subst. congruence.
        - intros [|g good] bad rest [= <- ->] Hgood.
          + split; [done|]. congruence.
          + inversion Hgood as [|? ? (s & Hs & _)]; subst. congruence. }
    destruct (N.ltb_spec max_size size) as [Hlt|Hle].
    + split; [done|]. split.
      * inversion 1 as [|? ? (s & Hs & Hle')]; subst.
        assert (s = size) by congruence. lia.
      * intros [|g good] bad rest [= <- ->] Hgood.
        -- split; [congruence|]. intros s Hs _. cbn. congruence.
        -- inversion Hgood as [|? ? (s & Hs & Hle')]; subst.
           assert (s = size) by congruence. lia.
    + destruct (IH (total + size)%N (files + 1)%N) as (Hw & Hok & Hbad).
      split; [done|]. split.
      * intros Hall. inversion Hall; subst. rewrite Hok by done.
        change (total_size w (p :: paths))
          with (default 0 (size_at w p) + total_size w paths)%N.
        cbn [length]. rewrite E, Nat2N.inj_succ. unfold default, id.
        f_equal. f_equal; lia.
      * intros [|g good] bad rest [= <- ->] Hgood.
        -- split; [congruence|]. intros s Hs Hs'.
           assert (s = size) by congruence. lia.
        -- inversion Hgood; subst. by apply (Hbad good bad rest).
Qed.


(** The paths up to the first one that is missing or too large. *)
Lemma first_offender w max_size paths :
  Forall (within w max_size) paths \/
  exists good bad rest,
    paths = good ++ bad :: rest /\ Forall (within w max_size) good /\
    (size_at w bad = None \/
     exists size, size_at w bad = Some size /\ (max_size < size)%N).
Proof.
  induction paths as [|p paths IH]; [by left|].
  destruct (size_at w p) as [size|] eqn:E.
  - destruct (N.ltb_spec max_size size) as [Hlt|Hle].
    + right. exists [], p, paths. split; [done|]. split; [done|].
      right. by exists size.
    + destruct IH as [IH|(good & bad & rest & -> & Hgood & Hbad)].
      * left. constructor; [by exists size|done].
      * right. exists (p :: good), bad, rest. split; [done|].
        split; [|done]. constructor; [by exists size|done].
  - right. exists [], p, paths. split; [done|]. split; [done|]. by left.
Qed.

(** X1.  [validate_all_attachments] leaves the world as it is.  It
    succeeds exactly when every path exists and is no larger than the
    limit (a file of exactly the limit passes), and then returns the
    number of paths and the sum of their sizes.  Otherwise it raises for
    the first path that is missing or too large, whatever comes after
    it: the error of a missing file for a path that does not exist, the
    error of an oversized file, with its name, its size and the limit,
    for one that is too large. *)
Theorem X1_validate_all_attachments paths max_size w :
  snd (validate_all_attachments paths max_size w) = w /\
  (Forall (within w max_size) paths <->
   fst (validate_all_attachments paths max_size w)
     = Ok (N.of_nat (length paths), total_size w paths)) /\
  (forall good bad rest,
     paths = good ++ bad :: rest -> Forall (within w max_size) good ->
     (size_at w bad = None ->
      fst (validate_all_attachments paths max_size w)
        = Raise (ValidationError (AttachmentFileNotFound bad))) /\
     (forall size, size_at w bad = Some size -> (max_size < size)%N ->
      fst (validate_all_attachments paths max_size w)
        = Raise (ValidationError
                   (ExceedsMaximumUploadSize (name bad) size max_size)))).
Proof.
  destruct (validation_loop paths max_size 0%N 0%N w) as (Hw & Hok & Hbad).
  cbv zeta in Hw, Hok, Hbad.
  unfold validate_all_attachments, mbind, M_bind, bind.
  destruct (for_each paths _ (0%N, 0%N) w) as [[[total files]|x] w'] eqn:Hloop;
    cbn [fst snd] in *; subst w'.
  - split; [done|]. split.
    + split.
      * intros Hall. specialize (Hok Hall). injection Hok as Ht Hf.
        rewrite N.add_0_l in Ht, Hf. by subst.
      * intros _. destruct (first_offender w max_size paths)
          as [Hall|(good & bad & rest & E & Hgood & [Hnone|(size & Hs & Hlt)])].
        -- done.
        -- by pose proof (proj1 (Hbad good bad rest E Hgood) Hnone).
        -- by pose proof (proj2 (Hbad good bad rest E Hgood) size Hs Hlt).
    + intros good bad rest E Hgood. split.
      * intros Hnone. by pose proof (proj1 (Hbad good bad rest E Hgood) Hnone).
      * intros size Hs Hlt.
        by pose proof (proj2 (Hbad good bad rest E Hgood) size Hs Hlt).
  - split; [done|]. split.
    + split; [|done]. intros Hall. by specialize (Hok Hall).
    + intros good bad rest E Hgood. split.
      * intros Hnone. by rewrite <- (proj1 (Hbad good bad rest E Hgood) Hnone).
      * intros size Hs Hlt.
        by rewrite <- (proj2 (Hbad good bad rest E Hgood) size Hs Hlt).
Qed.

(** X1 at the image of the scenario, once with a limit of its very size
    and once with a limit one byte below. *)
Lemma X1_witness :
  fst (validate_all_attachments
         [space_root ++ [txt "files"; txt "u1"; txt "img.png"]] 2048 unpacked)
    = Ok (1%N, 2048%N) /\
  fst (validate_all_attachments
         [space_root ++ [txt "files"; txt "u1"; txt "img.png"]] 2047 unpacked)
    = Raise (ValidationError
               (ExceedsMaximumUploadSize (txt "img.png") 2048 2047)).
Proof.
  split.
  - apply (proj1 (proj2 (X1_validate_all_attachments
             [space_root ++ [txt "files"; txt "u1"; txt "img.png"]] 2048
             unpacked))).
    constructor; [|constructor]. exists 2048%N. split; [reflexivity|]. lia.
  - apply (proj2 (proj2 (proj2 (X1_validate_all_attachments
             [space_root ++ [txt "files"; txt "u1"; txt "img.png"]] 2047
             unpacked))
             [] (space_root ++ [txt "files"; txt "u1"; txt "img.png"]) []
             eq_refl (Forall_nil_2 _)) 2048%N); [reflexivity|lia].
Defined.

End ValidationFacts.

(** ** The collection step *)

Section ContainerFacts.
Import OutlineClient AttachmentHandler DocmostParser Validators Orchestrator MarkdownTransformer.
Variable float : str -> option pyfloat.
Variable max_file_size : N.

Lemma setup_collection_run export collection_id w :
  setup_collection export collection_id w =
    match server w (sent w) (collection_request export collection_id) with
    | NoReply =>
        (Raise TransportError,
         extend w [EvRequest (collection_request export collection_id)])
    | Replied resp =>
        if is_success resp then
          match json resp with
          | JCollection id name =>
              (Ok (chosen_id collection_id
                     {| col_id := id; col_name := name;
                        col_description := None; col_color := None |},
                   {| col_id := id; col_name := name;
                      col_description := None; col_color := None |}),
               extend w [EvRequest (collection_request export collection_id)])
          | _ =>
              (Raise DecodeError,
               extend w [EvRequest (collection_request export collection_id)])
          end
        else
          (Raise (HTTPStatusError (status_code resp)),
           extend w [EvRequest (collection_request export collection_id)])
    end.
Proof.
  assert (Hext : forall r,
            {| fs := fs w; archive := archive w; tmp_names := tmp_names w;
               mime_type := mime_type w; dir_size := dir_size w;
               server := server w; sent := S (sent w);
               trace := trace w ++ [EvRequest r] |} = extend w [EvRequest r]).
  { intros r. unfold extend. cbn. f_equal. lia. }
  unfold setup_collection, collection_request, chosen_id.
  destruct collection_id as [[|c id]|]; cbn [truthy default];
    unfold get_collection, create_collection, mbind, M_bind, bind, http;
    cbn [if_truthy truthy];
    (destruct (server w (sent w) _) as [|resp]; [by rewrite Hext|]);
    unfold raise_for_status, is_success; rewrite Hext;
    (destruct (_ && _); [|done]);
    cbn [ret]; destruct (json resp); done.
Qed.


Lemma validate_silent export w : snd (validate max_file_size export w) = w.
Proof. apply silent_unchanged, io_validate, _. Qed.

Lemma requests_app a b : requests (a ++ b) = requests a ++ requests b.
Proof. unfold requests. apply omap_app. Qed.

(** X2.  The collection step of [migrate] makes exactly one call and
    never repeats it: the lookup of the collection asked for, or, when
    none or an empty id is asked for, the creation of a collection named
    after the space.  An answer outside 200..299 (a 429 as well) raises
    the status error at once; on success the documents go under the id
    asked for, whatever id the answer carries, or under the id of the
    collection created.  When the call is refused after a validation
    that passed, [migrate] ends with that status error and has made no
    other call. *)
Theorem X2_collection_step :
  (forall export collection_id w,
     snd (setup_collection export collection_id w)
       = extend w [EvRequest (collection_request export collection_id)]) /\
  (forall export collection_id w resp,
     server w (sent w) (collection_request export collection_id) = Replied resp ->
     is_success resp = false ->
     fst (setup_collection export collection_id w)
       = Raise (HTTPStatusError (status_code resp))) /\
  (forall export collection_id w resp id name,
     server w (sent w) (collection_request export collection_id) = Replied resp ->
     is_success resp = true -> json resp = JCollection id name ->
     exists collection,
       fst (setup_collection export collection_id w)
         = Ok (chosen_id collection_id collection, collection) /\
       col_id collection = id /\ col_name collection = name) /\
  (forall zip collection_id w export w1 resp,
     exists_ (fs w) zip = true ->
     parse zip w = (Ok export, w1) ->
     fst (validate max_file_size export w1) = Ok tt ->
     server w (sent w) (collection_request export collection_id) = Replied resp ->
     is_success resp = false ->
     exists w2,
       migrate float max_file_size zip collection_id w
         = (Raise (HTTPStatusError (status_code resp)), w2) /\
       requests (new_events w w2)
         = [collection_request export collection_id]).
Proof.
  split; [|split; [|split]].
  - intros export collection_id w. rewrite setup_collection_run.
    destruct (server w (sent w) _) as [|resp]; [done|].
    destruct (is_success resp); [|done]. by destruct (json resp).
  - intros export collection_id w resp Hs Hno. rewrite setup_collection_run, Hs, Hno.
    done.
  - intros export collection_id w resp id name Hs Hyes Hj.
    rewrite setup_collection_run, Hs, Hyes, Hj. by eexists.
  - intros zip collection_id w export w1 resp Hzip Hparse Hval Hs Hno.
    rewrite (migrate_unfold float max_file_size), Hzip, Hparse.
    destruct (parse_ok _ _ _ _ Hparse)
      as (rest & entries & root & sname & pages & pbp & Htmp & _ & Hw1 & _).
    assert (Hserver : server w1 (sent w1) (collection_request export collection_id)
                      = Replied resp).
    { rewrite Hw1. exact Hs. }
    assert (Htrace : trace w1 = trace w ++ [EvMkdtemp (temp_dir export)]).
    { by rewrite Hw1. }
    unfold try_finally.
    unfold mbind at 1, M_bind at 1, bind at 1.
    pose proof (validate_silent export w1) as Hsil.
    destruct (validate max_file_size export w1) as [[[]|x] w1'];
      cbn [fst snd] in Hval, Hsil; [subst w1'|done].
    unfold mbind at 1, M_bind at 1, bind at 1.
    rewrite setup_collection_run, Hserver, Hno, cleanup_spec.
    eexists. split; [reflexivity|].
    unfold new_events.
    destruct (exists_ (fs (extend w1 _)) (temp_dir export));
      cbn [trace removed extend]; rewrite Htrace;
      rewrite <- !app_assoc, drop_app_length; reflexivity.
Qed.

End ContainerFacts.

Section ContainerWitness.
Import OutlineClient DocmostParser Orchestrator.

(** X2 at the scenario, with a server that refuses the first call with
    a 429: the migration ends there. *)
Lemma X2_witness :
  exists w2,
    migrate decimal_float (25 * 1024 * 1024) zip_path None
            (refusing_world 429)
      = (Raise (HTTPStatusError 429), w2) /\
    requests (new_events (refusing_world 429) w2)
      = [collections_create (txt "Space")
           (Some (txt "Migrated from Docmost export")) (Some (txt "#4E5C6E"))].
Proof.
  destruct (parse zip_path (refusing_world 429)) as [[e|x] w1] eqn:H.
  - assert (He : space_name e = txt "Space").
    { pose proof H as H0. vm_compute in H0. injection H0 as <- _. reflexivity. }
    assert (Hv : fst (Orchestrator.validate (25 * 1024 * 1024) e w1) = Ok tt).
    { pose proof H as H0. vm_compute in H0. injection H0 as <- <-.
      vm_compute. reflexivity. }
    destruct (proj2 (proj2 (proj2 (X2_collection_step decimal_float
                (25 * 1024 * 1024))))
                zip_path None (refusing_world 429) e w1
                {| status_code := 429; retry_after := None; json := JOther |}
                eq_refl H Hv eq_refl eq_refl) as (w2 & Hrun & Hreq).
    exists w2. split; [exact Hrun|].
    rewrite Hreq. unfold collection_request. cbn [truthy]. by rewrite He.
  - vm_compute in H. discriminate H.
Defined.

End ContainerWitness.

(** ** The upload of one attachment *)

Section DeliveryFacts.
Import OutlineClient AttachmentHandler DocmostParser Validators Orchestrator MarkdownTransformer.
Variable float : str -> option pyfloat.

#[local] Instance only_request_closed r : Closed (only_request r).
Proof.
  split.
  - constructor.
  - intros a b Ha Hb. unfold only_request in *. rewrite requests_app.
    by apply Forall_app.
Qed.

Lemma Forall_eq_repeat {A} (x : A) l :
  Forall (fun y => y = x) l -> l = repeat x (length l).
Proof. induction 1 as [|y l -> _ IH]; [done|]. cbn. by rewrite <- IH. Qed.

Lemma sent_extend w evs : sent (extend w evs) = sent w + length (requests evs).
Proof. reflexivity. Qed.

(** A call under the retry loop sends its request one to three times,
    and nothing else. *)
Lemma retrying_requests {A} payload (decode : Json -> M A) w :
  (forall j, io_only (fun evs => evs = []) (decode j)) ->
  exists evs k,
    snd (retrying float payload decode w) = extend w evs /\
    requests evs = repeat payload k /\ 1 <= k <= 3.
Proof.
  intros Hdec.
  assert (Hquiet : forall j, io_only (fun evs => requests evs = []) (decode j)).
  { intros j. eapply io_weaken; [|apply Hdec]. by intros evs ->. }
  assert (Honly : forall j, io_only (only_request payload) (decode j)).
  { intros j. eapply io_weaken; [|apply Hdec]. intros evs ->. constructor. }
  destruct (io_retrying float (only_request payload) payload decode
              ltac:(by repeat constructor) ltac:(intros q; constructor) Honly w)
    as (evs & Hw & Hall).
  pose proof (retrying_sent float payload decode 3 0 w
                (raise (Exception_ (txt "Max retries exceeded"))) Hquiet
                (fun _ => eq_refl)) as Hsent.
  change (for_range 3 0 (attempt float payload decode) _)
    with (retrying float payload decode) in Hsent.
  rewrite Hw, sent_extend in Hsent. cbv beta iota in Hsent.
  exists evs, (length (requests evs)). split; [done|].
  split; [by apply Forall_eq_repeat|lia].
Qed.

Lemma decode_attachment_silent j :
  io_only (fun evs => evs = []) (decode_attachment j).
Proof. apply io_decode_attachment, _. Qed.


Lemma upload_name_eq p nm :
  match nm with
  | Some ((_ :: _) as n) => n
  | _ => name p
  end = upload_name p nm.
Proof. by destruct nm as [[|]|]. Qed.

(** [upload_attachment], step by step. *)
Lemma upload_attachment_run p nm w :
  upload_attachment float p nm w =
    match size_at w p with
    | None => (Raise (FileNotFoundError (path_str p)), w)
    | Some size =>
        match create_attachment float (upload_name p nm) (mime_type w p)
                                size None w with
        | (Raise x, w1) => (Raise x, w1)
        | (Ok (upload_url, form_data, info), w1) =>
            match stat (fs w1) p with
            | None => (Raise (FileNotFoundError (path_str p)), w1)
            | Some Dir => (Raise IsADirectoryError, w1)
            | Some (File _ _) =>
                let r := storage_upload upload_url form_data p (mime_type w p) in
                match server w1 (sent w1) r with
                | NoReply => (Raise TransportError, extend w1 [EvRequest r])
                | Replied resp =>
                    if is_success resp
                    then (Ok (att_url info, size), extend w1 [EvRequest r])
                    else (Raise (HTTPStatusError (status_code resp)),
                          extend w1 [EvRequest r])
                end
            end
        end
    end.
Proof.
  unfold upload_attachment. rewrite upload_name_eq.
  unfold mbind at 1, M_bind at 1, bind at 1.
  unfold mbind at 1, M_bind at 1, bind at 1. rewrite st_size_size_at.
  destruct (size_at w p) as [size|]; [|done].
  unfold mbind at 1, M_bind at 1, bind at 1.
  destruct (create_attachment float _ _ size None w)
    as [[[[upload_url form_data] info]|x] w1]; [|done].
  unfold mbind at 1, M_bind at 1, bind at 1, upload_file_to_storage.
  unfold mbind at 1, M_bind at 1, bind at 1.
  unfold read_bytes, mbind at 1, M_bind at 1, bind at 1, get_fs.
  destruct (stat (fs w1) p) as [[|sz tx]|]; [done| |done].
  unfold mret, M_ret, ret. unfold mbind at 1, M_bind at 1, bind at 1.
  pose proof (http_extend w1 (storage_upload upload_url form_data p (mime_type w p)))
    as Hh.
  unfold http in Hh |- *.
  destruct (server w1 (sent w1) _) as [|resp]; cbn [snd] in Hh; rewrite Hh;
    [done|].
  unfold raise_for_status, is_success. by destruct (_ && _).
Qed.

(** X3.  [upload_attachment] first asks for the size of the file: when
    the file does not exist it raises at once and nothing is sent.  When
    it succeeds, the file is a regular file, the size returned is its
    size, and the calls made are the record of the attachment (under
    the intended name when one is given and not empty, under the name
    of the file otherwise, with the MIME type and the size of the
    file), sent one to three times, and then the file itself, sent
    once.  A directory is never delivered, yet the call that records it
    has been sent by the time the failure shows. *)
Theorem X3_upload_attachment :
  (forall p nm w,
     size_at w p = None ->
     upload_attachment float p nm w
       = (Raise (FileNotFoundError (path_str p)), w)) /\
  (forall p nm w url size w',
     upload_attachment float p nm w = (Ok (url, size), w') ->
     size_at w p = Some size /\ is_file (fs w) p = true /\ fs w' = fs w /\
     exists k upload_url form_data,
       1 <= k <= 3 /\
       requests (new_events w w')
         = repeat (record_request w p nm size) k
             ++ [storage_upload upload_url form_data p (mime_type w p)]) /\
  (forall p nm w,
     is_dir (fs w) p = true ->
     exists x k,
       fst (upload_attachment float p nm w) = Raise x /\
       1 <= k <= 3 /\
       requests (new_events w (snd (upload_attachment float p nm w)))
         = repeat (record_request w p nm (dir_size w p)) k).
Proof.
  assert (Hcreate : forall p nm w size,
    exists evs k,
      snd (create_attachment float (upload_name p nm) (mime_type w p) size None w)
        = extend w evs /\
      requests evs = repeat (record_request w p nm size) k /\ 1 <= k <= 3).
  { intros p nm w size.
    apply (retrying_requests
             (attachments_create (upload_name p nm) (mime_type w p) size None)
             decode_attachment w), decode_attachment_silent. }
  split; [|split].
  - intros p nm w Hnone. by rewrite upload_attachment_run, Hnone.
  - intros p nm w url size w'. rewrite upload_attachment_run.
    destruct (size_at w p) as [size0|] eqn:Hsize; [|done].
    destruct (Hcreate p nm w size0) as (evs & k & Hw1 & Hreq & Hk).
    destruct (create_attachment float _ _ size0 None w)
      as [[[[upload_url form_data] info]|x] w1]; [|done].
    cbn [snd] in Hw1. subst w1. cbn [fs extend].
    unfold is_file. destruct (stat (fs w) p) as [[|sz tx]|] eqn:Hstat; try done.
    cbv zeta. destruct (server _ _ _) as [|resp]; [done|].
    destruct (is_success resp); [|done].
    intros [= _ <- <-]. split; [done|]. split; [done|]. split; [done|].
    exists k, upload_url, form_data. split; [done|].
    rewrite extend_extend, new_events_extend, requests_app, Hreq. done.
  - intros p nm w Hdir. rewrite upload_attachment_run.
    unfold is_dir in Hdir. unfold size_at.
    destruct (stat (fs w) p) as [[|sz tx]|] eqn:Hstat; try done.
    destruct (Hcreate p nm w (dir_size w p)) as (evs & k & Hw1 & Hreq & Hk).
    destruct (create_attachment float _ _ (dir_size w p) None w)
      as [[[[upload_url form_data] info]|x] w1]; cbn [snd] in Hw1; subst w1.
    + cbn [fs extend]. rewrite Hstat. exists IsADirectoryError, k.
      split; [done|]. split; [done|]. cbn [snd]. by rewrite new_events_extend.
    + exists x, k. split; [done|]. split; [done|]. cbn [snd].
      by rewrite new_events_extend.
Qed.

End DeliveryFacts.

Section DeliveryWitness.
Import OutlineClient AttachmentHandler.

(** X3 at the image of the scenario, delivered under another name. *)
Lemma X3_witness :
  exists url w',
    upload_attachment decimal_float
      (space_root ++ [txt "files"; txt "u1"; txt "img.png"])
      (Some (txt "photo.png")) unpacked = (Ok (url, 2048%N), w') /\
    exists k upload_url form_data,
      1 <= k <= 3 /\
      requests (new_events unpacked w')
        = repeat (attachments_create (txt "photo.png") (txt "image/png") 2048 None) k
            ++ [storage_upload upload_url form_data
                  (space_root ++ [txt "files"; txt "u1"; txt "img.png"])
                  (txt "image/png")].
Proof.
  destruct (upload_attachment decimal_float
              (space_root ++ [txt "files"; txt "u1"; txt "img.png"])
              (Some (txt "photo.png")) unpacked) as [[[url size]|x] w'] eqn:H.
  - destruct (proj1 (proj2 (X3_upload_attachment decimal_float)) _ _ _ _ _ _ H)
      as (Hsize & _ & _ & Hreq).
    assert (size = 2048%N) as -> by (vm_compute in Hsize; congruence).
    exists url, w'. split; [reflexivity|]. exact Hreq.
  - vm_compute in H. discriminate H.
Defined.

End DeliveryWitness.

(** ** The search for attachment files *)

Section AttachmentFacts.
Import DocmostParser.

Lemma name_files rel :
  rel <> [] -> glob_files (name rel) = true -> exists pre, rel = pre ++ [txt "files"].
Proof.
  intros Hne H. unfold glob_files in H. apply str_eqb_eq in H.
  destruct (exists_last Hne) as (pre & x & ->). exists pre.
  unfold name in H. rewrite last_last in H. by subst x.
Qed.

Lemma name_app_files (pre : Path) : name (pre ++ [txt "files"]) = txt "files".
Proof. unfold name. apply last_last. Qed.

(** What [rglob] lists: the entries properly below the place the
    directory leads to whose name passes, named through the directory. *)
Lemma rglob_elem fs0 p pat md :
  md ∈ rglob fs0 p pat <->
  exists q rel nd, resolve fs0 [] p = Some q /\ (q ++ rel, nd) ∈ fs0 /\
                   rel <> [] /\ pat (name (q ++ rel)) = true /\ md = p ++ rel.
Proof.
  unfold rglob. destruct (resolve fs0 [] p) as [q|]; cycle 1.
  { split; [by intros ?%elem_of_nil|]. by intros (? & ? & ? & ? & _). }
  rewrite list_elem_of_omap. split.
  - intros ([x nd] & Hin & Hx). cbn [fst] in Hx.
    destruct (is_under q x && pat (name x)) eqn:E; [|done].
    apply andb_true_iff in E as [E Hpat]. unfold is_under in E.
    destruct (relative_to x q) as [rel|] eqn:Hrel; [|done].
    apply relative_to_Some in Hrel. subst x.
    cbn in Hx. injection Hx as <-. exists q, rel, nd.
    repeat split; try done. by destruct rel.
  - intros (q' & rel & nd & [= <-] & Hin & Hne & Hpat & ->).
    exists (q ++ rel, nd). split; [done|]. cbn [fst].
    assert (Hrel : relative_to (q ++ rel) q = Some rel) by by apply relative_to_Some.
    unfold is_under. rewrite Hrel, Hpat. by destruct rel.
Qed.

Lemma stat_plain fs0 p : plain p -> stat fs0 p = fs_node fs0 p.
Proof. intros Hp. unfold stat. by rewrite (resolve_plain _ _ _ Hp). Qed.

Lemma fs_node_entry fs0 p nd :
  fs_node fs0 p = Some nd -> p <> [] -> (p, nd) ∈ fs0.
Proof.
  intros H Hne. destruct p as [|c p]; [done|]. cbn in H.
  destruct (List.find _ fs0) as [[x nd']|] eqn:E; [|done].
  apply find_some in E as [Hin Heq]. cbn in Heq, H. injection H as ->.
  unfold path_eqb in Heq. apply bool_decide_eq_true_1 in Heq. subst x.
  by apply list_elem_of_In.
Qed.

Lemma is_dir_entry fs0 p :
  is_dir fs0 p = true -> plain p -> p <> [] -> (p, Dir) ∈ fs0.
Proof.
  intros H Hp Hne. unfold is_dir in H. rewrite (stat_plain _ _ Hp) in H.
  destruct (fs_node fs0 p) as [[|]|] eqn:E; try done. by apply fs_node_entry.
Qed.

Lemma is_file_entry fs0 p :
  is_file fs0 p = true -> plain p -> p <> [] -> exists size text, (p, File size text) ∈ fs0.
Proof.
  intros H Hp Hne. unfold is_file in H. rewrite (stat_plain _ _ Hp) in H.
  destruct (fs_node fs0 p) as [[|size text]|] eqn:E; try done.
  exists size, text. by apply fs_node_entry.
Qed.

Lemma plain_app p q : plain (p ++ q) <-> plain p /\ plain q.
Proof. unfold plain. rewrite elem_of_app. tauto. Qed.

Lemma find_attachments_run e w :
  find_attachments e w =
  (Ok match attachments_dir e with
      | None => []
      | Some dir =>
          if negb (exists_ (fs w) dir) then []
          else concat
                 (map (fun files_dir =>
                         if is_dir (fs w) files_dir
                         then List.filter (is_file (fs w))
                                          (rglob (fs w) files_dir glob_any)
                         else [])
                      (rglob (fs w) dir glob_files))
      end, w).
Proof.
  unfold find_attachments, mbind, M_bind, bind, get_fs.
  destruct (attachments_dir e) as [dir|]; [|done]. by destruct (negb _).
Qed.

(** X4. [find_attachments] reads the file system without changing
    anything and always returns a list.  Every path of the list is a
    regular file below a directory named [files] under the attachments
    directory, which exists; without an attachments directory, or when
    it does not exist, the list is empty.  When the directory and a path
    hold no double-dot component, every such file is in the list. *)
Theorem X4_find_attachments e w :
  exists files,
    find_attachments e w = (Ok files, w) /\
    (forall p, p ∈ files ->
       exists root, attachments_dir e = Some root /\
                    exists_ (fs w) root = true /\
                    below_files (fs w) root p) /\
    (forall root p,
       attachments_dir e = Some root -> exists_ (fs w) root = true ->
       plain p -> below_files (fs w) root p -> p ∈ files).
Proof.
  eexists. split; [apply find_attachments_run|]. split.
  - intros p Hp. destruct (attachments_dir e) as [root|]; [|by apply elem_of_nil in Hp].
    destruct (exists_ (fs w) root) eqn:Hex; cbn [negb] in Hp; [|by apply elem_of_nil in Hp].
    exists root. do 2 (split; [done|]).
    apply list_elem_of_In, in_concat in Hp as (l & Hl & Hp).
    apply in_map_iff in Hl as (files_dir & <- & Hfd).
    apply list_elem_of_In in Hfd.
    destruct (is_dir (fs w) files_dir) eqn:Hd; [|done].
    apply filter_In in Hp as [Hp Hfile]. apply list_elem_of_In in Hp.
    apply rglob_elem in Hfd as (q & rel & nd & _ & _ & Hne & Hpat & ->).
    apply rglob_under in Hp as (post & -> & Hpost).
    assert (Hrel : glob_files (name rel) = true).
    { revert Hpat. unfold name.
      destruct (exists_last Hne) as (pre & x & ->).
      by rewrite app_assoc, !last_last. }
    destruct (name_files _ Hne Hrel) as [pre ->].
    exists pre, post. rewrite <- !app_assoc in *. cbn [app] in *.
    repeat split; try done.
  - intros root p -> Hex Hp (pre & post & -> & Hpost & Hd & Hfile).
    rewrite Hex. cbn [negb].
    apply plain_app in Hp as Hp'. destruct Hp' as [Hroot Hp'].
    apply plain_app in Hp' as [Hpre Hp'].
    apply plain_app in Hp' as [Hf Hpost'].
    assert (Hdp : plain (root ++ pre ++ [txt "files"])).
    { apply plain_app. split; [done|]. by apply plain_app. }
    apply list_elem_of_In, in_concat.
    exists (List.filter (is_file (fs w))
              (rglob (fs w) (root ++ pre ++ [txt "files"]) glob_any)).
    split.
    + apply in_map_iff. exists (root ++ pre ++ [txt "files"]).
      rewrite Hd. split; [done|]. apply list_elem_of_In, rglob_elem.
      exists root, (pre ++ [txt "files"]), Dir.
      rewrite (resolve_plain _ _ _ Hroot). cbn [app].
      repeat split; try done.
      * apply is_dir_entry; [done..|]. by destruct root, pre.
      * by destruct pre.
      * by rewrite app_assoc, name_app_files.
    + apply filter_In. split; [|done]. apply list_elem_of_In, rglob_elem.
      destruct (is_file_entry _ _ Hfile Hp) as (size & text & Hin).
      { by destruct root, pre. }
      exists (root ++ pre ++ [txt "files"]), post, (File size text).
      rewrite (resolve_plain _ _ _ Hdp). cbn [app].
      rewrite <- !app_assoc. cbn [app]. repeat split; try done.
Qed.

(** X4 at the unpacked scenario: the image of the pool is found. *)
Lemma X4_witness :
  let e := {| space_name := txt "Space"; root_pages := []; all_pages := [];
              attachments_dir := Some space_root; temp_dir := tmp;
              page_store := [] |} in
  exists files,
    find_attachments e unpacked = (Ok files, unpacked) /\
    (space_root ++ [txt "files"; txt "u1"; txt "img.png"]) ∈ files.
Proof.
  intros e. destruct (X4_find_attachments e unpacked) as (files & Hrun & _ & Hall).
  exists files. split; [exact Hrun|].
  apply (Hall space_root); [reflexivity| reflexivity | |].
  - unfold plain. apply (bool_decide_eq_false_1 (txt ".." ∈ _)). vm_compute. reflexivity.
  - exists [], [txt "u1"; txt "img.png"]. repeat split; [done|reflexivity..].
Defined.

End AttachmentFacts.

(** ** From a reference to a file *)

Section ResolutionFacts.
Import AttachmentHandler.

Lemma iterdir_elem fs0 d p : p ∈ iterdir fs0 d -> exists x, p = d ++ [x].
Proof.
  unfold iterdir. destruct (resolve fs0 [] d) as [q|]; [|by intros ?%elem_of_nil].
  intros ([x nd] & Hin & Hx)%list_elem_of_omap. cbn [fst] in Hx.
  unfold is_child in Hx.
  destruct (relative_to x q) as [[|r [|]]|]; try done.
  cbn in Hx. injection Hx as <-. by exists r.
Qed.

Lemma head_elem {A} (l : list A) x : List.head l = Some x -> x ∈ l.
Proof. destruct l; [done|]. intros [= ->]. by left. Qed.

Lemma head_omap_Some {A B} (f : A -> option B) l y :
  List.head (omap f l) = Some y -> exists x, x ∈ l /\ f x = Some y.
Proof. intros H%head_elem. by apply list_elem_of_omap in H. Qed.

(** The second strategy looks at the second component only. *)
Lemma search_candidate_second fs0 dir clean :
  search_candidate fs0 dir clean =
    match parts_of clean !! 1 with
    | Some ((_ :: _) as uuid) =>
        List.head
          (omap (fun files_dir =>
                   let uuid_dir := files_dir ++ [uuid] in
                   if exists_ fs0 uuid_dir && is_dir fs0 uuid_dir
                   then List.head (iterdir fs0 uuid_dir) else None)
                (rglob fs0 dir glob_files))
    | _ => None
    end.
Proof.
  unfold search_candidate. destruct (parts_of clean) as [|a [|uuid rest]]; try done.
Qed.

(** X5.  How a reference is resolved below the attachments directory.
    When the reference joined to the directory exists, that path is the
    answer.  Otherwise an answer is an entry of a directory that is
    named after the second component of the reference and lies in a
    directory named [files] below the attachments directory: neither
    the first component nor the file name of the reference is looked
    at, so two references that agree on the second component get the
    same answer, and a reference of fewer than two components gets
    none. *)
Theorem X5_resolve_reference fs0 dir :
  (forall clean,
     exists_ fs0 (dir ++ parts_of clean) = true ->
     resolve_reference fs0 dir clean = Some (dir ++ parts_of clean)) /\
  (forall clean p,
     exists_ fs0 (dir ++ parts_of clean) = false ->
     resolve_reference fs0 dir clean = Some p ->
     exists first uuid rest pre file_name,
       parts_of clean = first :: uuid :: rest /\
       p = dir ++ pre ++ [txt "files"; uuid; file_name] /\
       is_dir fs0 (dir ++ pre ++ [txt "files"; uuid]) = true) /\
  (forall clean clean',
     exists_ fs0 (dir ++ parts_of clean) = false ->
     exists_ fs0 (dir ++ parts_of clean') = false ->
     parts_of clean !! 1 = parts_of clean' !! 1 ->
     resolve_reference fs0 dir clean = resolve_reference fs0 dir clean') /\
  (forall clean,
     exists_ fs0 (dir ++ parts_of clean) = false ->
     length (parts_of clean) < 2 ->
     resolve_reference fs0 dir clean = None).
Proof.
  repeat split.
  - intros clean H. unfold resolve_reference, direct_candidate. by rewrite H.
  - intros clean p H. unfold resolve_reference, direct_candidate. rewrite H.
    unfold search_candidate.
    destruct (parts_of clean) as [|first [|uuid rest]]; try done.
    destruct uuid as [|c uuid]; [done|].
    intros (files_dir & Hfd & Hp)%head_omap_Some. cbn zeta in Hp.
    destruct (exists_ fs0 _ && is_dir fs0 _) eqn:E; [|done].
    apply andb_true_iff in E as [_ Hd].
    apply head_elem, iterdir_elem in Hp as [file_name ->].
    apply rglob_elem in Hfd as (q & rel & nd & _ & _ & Hne & Hpat & ->).
    assert (Hrel : glob_files (name rel) = true).
    { revert Hpat. unfold name.
      destruct (exists_last Hne) as (pre & x & ->).
      by rewrite app_assoc, !last_last. }
    destruct (name_files _ Hne Hrel) as [pre ->].
    exists first, (c :: uuid), rest, pre, file_name.
    rewrite <- !app_assoc in *. cbn [app] in *. done.
  - intros clean clean' H H' Hsecond.
    unfold resolve_reference, direct_candidate. rewrite H, H'.
    by rewrite !search_candidate_second, Hsecond.
  - intros clean H Hlen. unfold resolve_reference, direct_candidate. rewrite H.
    rewrite search_candidate_second.
    destruct (parts_of clean) as [|a [|b rest]]; cbn in Hlen |- *; try done. lia.
Qed.

(** X5 at the unpacked scenario: a reference to a file that is not
    there is answered by the image that shares its directory, whatever
    its first component says. *)
Lemma X5_witness :
  resolve_reference (fs unpacked) space_root (txt "files/u1/img.png")
    = Some (space_root ++ [txt "files"; txt "u1"; txt "img.png"]) /\
  resolve_reference (fs unpacked) space_root (txt "images/u1/other.pdf")
    = resolve_reference (fs unpacked) space_root (txt "files/u1/missing.png") /\
  resolve_reference (fs unpacked) space_root (txt "files/u1/missing.png")
    = Some (space_root ++ [txt "files"; txt "u1"; txt "img.png"]) /\
  resolve_reference (fs unpacked) space_root (txt "img.png") = None.
Proof.
  destruct (X5_resolve_reference (fs unpacked) space_root)
    as (Hdirect & Hshape & Hsame & Hshort).
  split; [by apply (Hdirect (txt "files/u1/img.png"))|].
  split; [by apply Hsame|].
  split.
  - destruct (resolve_reference (fs unpacked) space_root
                (txt "files/u1/missing.png")) as [p|] eqn:E;
      [|vm_compute in E; discriminate E].
    destruct (Hshape (txt "files/u1/missing.png") p eq_refl E)
      as (first & uuid & rest & pre & file_name & _ & _ & _).
    vm_compute in E. injection E as <-. reflexivity.
  - apply Hshort; [reflexivity|]. vm_compute. lia.
Defined.

End ResolutionFacts.

(** ** The local files after a migration *)

Section LocalFilesFacts.
Import OutlineClient AttachmentHandler DocmostParser Validators Orchestrator MarkdownTransformer.
Variable float : str -> option pyfloat.
Variable max_file_size : N.

#[local] Instance no_temp_closed : Closed (fun evs => temp_events evs = []).
Proof.
  split; [done|]. intros a b Ha Hb. by rewrite temp_events_app, Ha, Hb.
Qed.

(** Removing a directory that was not there, with everything written
    into it since, gives back the file system of before. *)
Lemma remove_tree_added fs0 tmp (added : FS) :
  gone fs0 tmp ->
  remove_tree ((fs0 ++ [(tmp, Dir)])
                 ++ map (fun e => (tmp ++ fst e, snd e)) added) tmp = fs0.
Proof.
  intros Hg. unfold remove_tree. rewrite !List.filter_app.
  assert (H1 : List.filter
                 (fun e : Path * Node => negb (path_eqb (fst e) tmp || is_under tmp (fst e)))
                 fs0 = fs0).
  { apply forallb_filter_id, forallb_forall. intros [q nd] Hin%list_elem_of_In.
    destruct (Hg q nd Hin) as [Hne Hu]. cbn [fst]. rewrite Hu.
    unfold path_eqb. by rewrite bool_decide_eq_false_2. }
  assert (H2 : List.filter
                 (fun e : Path * Node => negb (path_eqb (fst e) tmp || is_under tmp (fst e)))
                 (map (fun e => (tmp ++ fst e, snd e)) added) = []).
  { induction added as [|[x nd] added IH]; [done|]. cbn [map List.filter fst snd].
    rewrite IH.
    assert (Hrel : relative_to (tmp ++ x) tmp = Some x) by by apply relative_to_Some.
    unfold is_under. rewrite Hrel. destruct x as [|c x].
    - rewrite app_nil_r. unfold path_eqb. by rewrite bool_decide_eq_true_2.
    - by rewrite orb_true_r. }
  rewrite H1, H2. cbn [List.filter fst]. unfold path_eqb.
  rewrite bool_decide_eq_true_2 by done. cbn. by rewrite !app_nil_r.
Qed.

(** The file system a failed [parse] leaves: what was written into the
    temporary directory is removed with it. *)
Lemma parse_raise_fs zip w e w' :
  parse zip w = (Raise e, w') ->
  (tmp_names w = [] /\ w' = w) \/
  (exists tmp rest added, tmp_names w = tmp :: rest /\
     fs w' = remove_tree ((fs w ++ [(tmp, Dir)])
                            ++ map (fun e => (tmp ++ fst e, snd e)) added) tmp).
Proof.
  unfold parse, mbind, M_bind. unfold bind at 1. unfold mkdtemp at 1.
  destruct (tmp_names w) as [|tmp rest] eqn:Htmp; [intros [= _ <-]; by left|].
  intros Hrun. right. exists tmp, rest.
  unfold try_except_reraise in Hrun.
  match type of Hrun with context [ bind ?m ?f ?x ] => set (w0 := x) in * end.
  assert (Hbody : forall (body : M DocmostExport) w1 r added,
            body w0 = (r, w1) ->
            fs w1 = (fs w ++ [(tmp, Dir)])
                      ++ map (fun e => (tmp ++ fst e, snd e)) added ->
            match body w0 with
            | (Ok a, w'0) => (Ok a, w'0)
            | (Raise e0, w'0) =>
                match rmtree tmp w'0 with
                | (Ok _, w'') => (Raise e0, w'')
                | (Raise e', w'') => (Raise e', w'')
                end
            end = (Raise e, w') ->
            exists added, 
            fs w' = remove_tree ((fs w ++ [(tmp, Dir)])
                            ++ map (fun e => (tmp ++ fst e, snd e)) added) tmp).
  { intros body w1 r added Hb Hfs. rewrite Hb. destruct r as [a|e0]; [done|].
    rewrite rmtree_removed. intros [= _ <-]. cbn. rewrite Hfs. by exists added. }
  assert (Hnone : fs w0 = (fs w ++ [(tmp, Dir)])
                    ++ map (fun e : Path * Node => (tmp ++ fst e, snd e)) []).
  { cbn. by rewrite app_nil_r. }
  match type of Hrun with context [ match ?b w0 with _ => _ end ] =>
    destruct (b w0) as [r w1] eqn:Hb;
    assert (exists added, fs w1 = (fs w ++ [(tmp, Dir)])
                      ++ map (fun e => (tmp ++ fst e, snd e)) added) as [added Hfs];
    [|destruct (Hbody b w1 r added Hb Hfs) as [added' H'];
      [by rewrite Hb|by exists added']] end.
  clear Hrun Hbody. unfold bind at 1 in Hb. unfold extractall in Hb.
  destruct (stat (fs w0) zip) as [[|sz tx]|];
    try (injection Hb as _ <-; by exists []).
  destruct (archive w0 zip) as [entries|]; [|injection Hb as _ <-; by exists []].
  unfold set_fs at 1 in Hb.
  match type of Hb with context [ bind get_fs ?f ?x ] => set (w2 := x) in * end.
  assert (Hw2 : fs w2 = (fs w ++ [(tmp, Dir)])
                    ++ map (fun e : Path * Node => (tmp ++ fst e, snd e)) entries)
    by done.
  unfold bind at 1, get_fs at 1 in Hb.
  destruct (detect_root (fs w2) tmp zip) as [root sname].
  unfold bind at 1 in Hb.
  pose proof (build_pages_unchanged root (rglob (fs w2) root glob_md) w2) as Hbu.
  destruct (build_pages root _ w2) as [[[pages pbp]|?] w3]; cbn in Hbu; subst w3;
    [|injection Hb as _ <-; by exists entries].
  unfold bind at 1 in Hb.
  pose proof (link_pages_unchanged pbp pages w2) as Hl.
  destruct (link_pages pbp pages w2) as [[[roots store]|?] w3]; cbn in Hl; subst w3;
    injection Hb as _ <-; by exists entries.
Qed.

(** X6.  When the name [mkdtemp] hands out is a fresh one (nothing is
    there, and the name holds no double-dot component), [migrate] leaves
    the local file system exactly as it found it, whatever way it ends:
    the archive is not touched and nothing of the extraction stays. *)
Theorem X6_local_files_restored zip coll w :
  (forall tmp rest, tmp_names w = tmp :: rest -> plain tmp /\ gone (fs w) tmp) ->
  fs (snd (migrate float max_file_size zip coll w)) = fs w.
Proof.
  intros Hfresh. rewrite (migrate_unfold float max_file_size).
  destruct (exists_ (fs w) zip); [|done].
  destruct (parse zip w) as [[e|x] w1] eqn:Hparse.
  - pose proof Hparse as (rest & entries & _ & _ & _ & _ & Htmp & _ & Hw1 & _)%parse_ok.
    destruct (Hfresh _ _ Htmp) as [Hpl Hg].
    destruct (guarded_then_cleanup
                (validate max_file_size e;;
                 chosen ← setup_collection e coll;
                 let '(collection_id, collection) := chosen in
                 final ← migrate_documents float e collection_id;
                 mret (collection_id, stats final))
                zip w e w1 Hparse Hpl) as (evs & -> & _).
    { apply (io_migrate_body float max_file_size
               (fun evs => temp_events evs = []) e coll); done. }
    cbn [snd removed fs extend]. rewrite Hw1. cbn [fs extracted].
    by apply remove_tree_added.
  - cbn [snd].
    apply parse_raise_fs in Hparse as [[_ ->]|(tmp & rest & added & Htmp & ->)];
      [done|].
    destruct (Hfresh _ _ Htmp) as [_ Hg]. by apply remove_tree_added.
Qed.

End LocalFilesFacts.

Section LocalFilesWitness.
Import Orchestrator.

(** X6 at the scenario. *)
Lemma X6_witness :
  fs (snd (migrate decimal_float (25 * 1024 * 1024) zip_path None world))
    = fs world.
Proof.
  apply X6_local_files_restored. intros tmp0 rest [= <- <-]. split.
  - unfold plain. apply (bool_decide_eq_false_1 (txt ".." ∈ tmp)).
    vm_compute. reflexivity.
  - intros q nd Hin. cbn in Hin.
    apply elem_of_cons in Hin as [[= -> ->]|Hin]; [by split|].
    apply list_elem_of_singleton in Hin as [= -> ->]. by split.
Defined.

End LocalFilesWitness.

(** ** The order of the pages *)

Section OrderingFacts.
Import DocmostParser.

Lemma str_leb_refl a : str_leb a a = true.
Proof.
  induction a as [|x a IH]; [done|]. cbn.
  by rewrite N.ltb_irrefl.
Qed.

Lemma str_leb_total a b : str_leb a b = false -> str_leb b a = true.
Proof.
  revert b. induction a as [|x a IH]; intros [|y b]; cbn; try done.
  destruct (N.ltb_spec (ord x) (ord y)); [done|].
  destruct (N.ltb_spec (ord y) (ord x)); [done|]. apply IH.
Qed.

Lemma str_leb_trans a b c :
  str_leb a b = true -> str_leb b c = true -> str_leb a c = true.
Proof.
  revert b c. induction a as [|x a IH]; intros [|y b] [|z c]; cbn; try done.
  destruct (N.ltb_spec (ord x) (ord y)), (N.ltb_spec (ord y) (ord z)),
    (N.ltb_spec (ord x) (ord z)); try done; try lia;
    destruct (N.ltb_spec (ord y) (ord x)); try done; try lia;
    destruct (N.ltb_spec (ord z) (ord y)); try done; try lia;
    destruct (N.ltb_spec (ord z) (ord x)); try done; try lia.
  apply IH.
Qed.

Lemma key_leb_spec a b :
  key_leb a b = true <->
  (fst a < fst b)%Z \/ (fst a = fst b /\ str_leb (snd a) (snd b) = true).
Proof.
  unfold key_leb. rewrite orb_true_iff, andb_true_iff, Z.ltb_lt, Z.eqb_eq. tauto.
Qed.

Lemma key_leb_total a b : key_leb a b = false -> key_leb b a = true.
Proof.
  intros H. apply key_leb_spec.
  destruct (Z.lt_trichotomy (fst a) (fst b)) as [Hlt|[Heq|Hgt]].
  - assert (key_leb a b = true) by (apply key_leb_spec; by left). congruence.
  - right. split; [done|]. apply str_leb_total.
    destruct (str_leb (snd a) (snd b)) eqn:E; [|done].
    assert (key_leb a b = true) by (apply key_leb_spec; by right). congruence.
  - by left.
Qed.

Lemma key_leb_trans a b c :
  key_leb a b = true -> key_leb b c = true -> key_leb a c = true.
Proof.
  rewrite !key_leb_spec. intros [H1|[H1 S1]] [H2|[H2 S2]].
  - left. lia.
  - left. lia.
  - left. lia.
  - right. split; [lia|]. by eapply str_leb_trans.
Qed.

Section Sorting.
Variable leb : nat -> nat -> bool.
Hypothesis leb_total : forall i j, leb i j = false -> leb j i = true.
Hypothesis leb_trans :
  forall i j k, leb i j = true -> leb j k = true -> leb i k = true.

Lemma insert_sorted_before x l :
  StronglySorted (before_ leb) l -> Forall (fun y => x < y) l ->
  StronglySorted (before_ leb) (insert_sorted leb x l).
Proof.
  induction 1 as [|y l Hl IH Hy]; intros Hx; cbn.
  - repeat constructor.
  - apply Forall_cons in Hx as [Hxy Hx]. destruct (leb x y) eqn:E.
    + constructor; [by constructor|]. constructor.
      * split; [done|]. intros _. done.
      * apply Forall_forall. intros z Hz. split.
        -- apply (leb_trans _ y); [done|].
           rewrite Forall_forall in Hy. by destruct (Hy z Hz).
        -- intros _. rewrite Forall_forall in Hx. by apply Hx.
    + constructor; [by apply IH|].
      apply Forall_forall. intros z Hz.
      rewrite insert_sorted_perm in Hz. apply elem_of_cons in Hz as [->|Hz].
      * split; [by apply leb_total|]. congruence.
      * rewrite Forall_forall in Hy. by apply Hy.
Qed.

Lemma stable_sort_seq a n :
  StronglySorted (before_ leb) (stable_sort leb (seq a n)).
Proof.
  revert a. induction n as [|n IH]; intros a; cbn; [constructor|].
  apply insert_sorted_before; [apply IH|].
  apply Forall_forall. intros y Hy. fold (stable_sort leb (seq (S a) n)) in Hy.
  rewrite stable_sort_perm in Hy. apply list_elem_of_In, in_seq in Hy. lia.
Qed.

End Sorting.

Lemma StronglySorted_lookup {A} (R : A -> A -> Prop) l m n x y :
  StronglySorted R l -> m < n -> l !! m = Some x -> l !! n = Some y -> R x y.
Proof.
  intros Hl. revert m n. induction Hl as [|z l Hl IH Hz]; intros m n Hmn Hm Hn.
  - done.
  - destruct n as [|n]; [lia|]. destruct m as [|m].
    + cbn in Hm, Hn. injection Hm as ->. rewrite Forall_forall in Hz.
      apply Hz. by eapply list_elem_of_lookup_2.
    + cbn in Hm, Hn. apply (IH m n); [lia|done..].
Qed.

(** X7.  The list of all pages a successful [parse] returns holds every
    page exactly once, ordered by level and, within a level, by title
    (code point order); pages with the same level and title stay in the
    order in which their files were found.  So a page of a smaller
    level always comes before a page of a larger one: the documents are
    processed breadth first. *)
Theorem X7_page_order zip w e w' :
  parse zip w = (Ok e, w') ->
  all_pages e ≡ₚ seq 0 (length (page_store e)) /\
  (forall m n i j,
     m < n -> position e i m -> position e j n ->
     exists pi pj,
       page_store e !! i = Some pi /\ page_store e !! j = Some pj /\
       ((level pi < level pj)%Z \/
        (level pi = level pj /\ str_leb (title pi) (title pj) = true /\
         (title pi = title pj -> i < j)))) /\
  (forall i j pi pj,
     page_store e !! i = Some pi -> page_store e !! j = Some pj ->
     (level pi < level pj)%Z ->
     exists m n, m < n /\ position e i m /\ position e j n).
Proof.
  intros (rest & entries & root & sname & pages & pbp & _ & _ & _ & _ & _ & _ & _
          & Hall & _)%parse_ok.
  assert (Hperm : all_pages e ≡ₚ seq 0 (length (page_store e))).
  { rewrite Hall. apply stable_sort_perm. }
  assert (Hsorted : StronglySorted (before_ (page_order (page_store e)))
                                   (all_pages e)).
  { rewrite Hall. apply stable_sort_seq.
    - intros i j. apply key_leb_total.
    - intros i j k. apply key_leb_trans. }
  assert (Hin : forall i m, position e i m ->
            exists pi, page_store e !! i = Some pi).
  { intros i m Hm. apply list_elem_of_lookup_2 in Hm. rewrite Hperm in Hm.
    apply list_elem_of_In, in_seq in Hm. apply lookup_lt_is_Some_2. lia. }
  assert (Hpos : forall i pi, page_store e !! i = Some pi ->
            exists m, position e i m).
  { intros i pi Hi. apply list_elem_of_lookup_1. rewrite Hperm.
    apply list_elem_of_In, in_seq. apply lookup_lt_Some in Hi. lia. }
  assert (Hkeys : forall m n i j pi pj,
            m < n -> position e i m -> position e j n ->
            page_store e !! i = Some pi -> page_store e !! j = Some pj ->
            (level pi < level pj)%Z \/
            (level pi = level pj /\ str_leb (title pi) (title pj) = true /\
             (title pi = title pj -> i < j))).
  { intros m n i j pi pj Hmn Hm Hn Hi Hj.
    destruct (StronglySorted_lookup _ _ m n i j Hsorted Hmn Hm Hn) as [Hle Hst].
    unfold page_order, sort_key in Hle, Hst. rewrite Hi, Hj in Hle, Hst.
    apply key_leb_spec in Hle as [Hlt|[Heq Hs]]; cbn [fst snd] in *; [by left|].
    right. split; [done|]. split; [done|]. intros Ht. apply Hst.
    apply key_leb_spec. right. cbn [fst snd]. split; [done|].
    rewrite Ht. apply str_leb_refl. }
  split; [done|]. split.
  - intros m n i j Hmn Hm Hn.
    destruct (Hin i m Hm) as [pi Hi]. destruct (Hin j n Hn) as [pj Hj].
    exists pi, pj. do 2 (split; [done|]). by eapply Hkeys.
  - intros i j pi pj Hi Hj Hlt.
    destruct (Hpos i pi Hi) as [m Hm]. destruct (Hpos j pj Hj) as [n Hn].
    exists m, n. split; [|done].
    destruct (Nat.lt_trichotomy m n) as [?|[->|Hgt]]; [done| |].
    + unfold position in *. assert (i = j) by congruence. subst j.
      assert (pi = pj) by congruence. subst pj. lia.
    + destruct (Hkeys n m j i pj pi Hgt Hn Hm Hj Hi) as [?|[? _]]; lia.
Qed.

(** X7 at the export of the scenario. *)
Lemma X7_witness :
  exists e w',
    parse zip_path world = (Ok e, w') /\
    all_pages e ≡ₚ seq 0 (length (page_store e)) /\
    exists m n, m < n /\ position e 0 m /\ position e 2 n.
Proof.
  destruct (parse zip_path world) as [[e|x] w'] eqn:H.
  - exists e, w'. split; [reflexivity|].
    destruct (X7_page_order zip_path world e w' H) as (Hperm & _ & Hlevels).
    split; [exact Hperm|].
    assert (He : e = match fst (parse zip_path world) with
                     | Ok e => e | Raise _ => e end) by by rewrite H.
    destruct (page_store e !! 0) as [p0|] eqn:H0;
      [|rewrite He in H0; vm_compute in H0; discriminate H0].
    destruct (page_store e !! 2) as [p2|] eqn:H2;
      [|rewrite He in H2; vm_compute in H2; discriminate H2].
    apply (Hlevels 0 2 p0 p2 H0 H2).
    rewrite He in H0, H2. vm_compute in H0, H2.
    injection H0 as <-. injection H2 as <-. reflexivity.
  - vm_compute in H. discriminate H.
Defined.

End OrderingFacts.

(** ** The fields of a page *)

Section FieldFacts.
Import DocmostParser.

(** Induction over a loop whose body leaves the world alone. *)
Lemma for_each_quiet_ind {X S} (Inv : list X -> S -> Prop)
    (body : X -> S -> M S) xs st w st' w' :
  (forall x s, snd (body x s w) = w) ->
  for_each xs body st w = (Ok st', w') ->
  Inv [] st ->
  (forall done x s s1,
     Inv done s -> body x s w = (Ok s1, w) -> Inv (done ++ [x]) s1) ->
  w' = w /\ Inv xs st'.
Proof.
  intros Hq Hrun H0 Hstep.
  assert (G : forall done st, Inv done st ->
            for_each xs body st w = (Ok st', w') ->
            w' = w /\ Inv (done ++ xs) st').
  { clear Hrun H0 st. induction xs as [|x xs IH]; intros done st Hd Hrun;
      cbn in Hrun.
    - unfold ret in Hrun. rewrite app_nil_r. injection Hrun as <- <-. done.
    - unfold bind in Hrun. pose proof (Hq x st) as Hw.
      destruct (body x st w) as [[s1|e] w1] eqn:Hb; [|done].
      cbn in Hw. subst w1.
      replace (done ++ x :: xs) with ((done ++ [x]) ++ xs)
        by by rewrite <- app_assoc.
      eapply IH; [|exact Hrun]. eapply Hstep; eauto. }
  exact (G [] st H0 Hrun).
Qed.

(** The fields the first loop of [parse] gives its pages. *)
Lemma build_pages_fields root mds w pages pbp w' :
  build_pages root mds w = (Ok (pages, pbp), w') ->
  Forall (read_from (fs w) root) pages.
Proof.
  intros Hrun. unfold build_pages in Hrun.
  apply (for_each_quiet_ind
           (fun _ (st : list DocmostPage * gmap Path nat) =>
              Forall (read_from (fs w) root) (fst st))) in Hrun as [_ H];
    [exact H| | |].
  - intros md [pages0 pbp0]. apply silent_unchanged.
    destruct (existsb _ _); [by apply (io_ret _)|].
    apply (io_bind _); [by apply (io_read_text _)|]. intros ?.
    apply (io_bind _); [by apply (io_or_raise _)|]. intros ?.
    by apply (io_ret _).
  - constructor.
  - clear. intros _ md [pages pbp] [pages1 pbp1] Inv Hb. cbn [fst] in *.
    fold (in_files_dir md) in Hb.
    destruct (in_files_dir md) eqn:Hskip; [by injection Hb as <- <-|].
    unfold mbind, M_bind, bind in Hb.
    unfold read_text, bind, get_fs in Hb.
    destruct (stat (fs w) md) as [[|size [text|]]|] eqn:Hstat; try done.
    cbn [ret] in Hb.
    destruct (relative_to md root) as [rel|] eqn:Hrel; cbn in Hb; [|done].
    injection Hb as <- <-. apply Forall_app. split; [done|].
    constructor; [|constructor]. unfold read_from. cbn [title file_path content parent_path outline_id].
    split; [done|]. split; [by exists size|]. split; [|done].
    change (removelast md) with (parent md).
    by destruct (path_eqb (parent md) root).
Qed.

Lemma same_but_children_read_from fs0 root p q :
  same_but_children p q -> read_from fs0 root p -> read_from fs0 root q.
Proof.
  intros (H1 & H2 & H3 & H4 & H5 & H6). unfold read_from.
  by rewrite <- H1, <- H2, <- H3, <- H4, <- H6.
Qed.

(** A page lies directly in the root exactly when its level is 0. *)
Lemma level_zero_parent (root rel : Path) :
  rel <> [] ->
  path_eqb (parent (root ++ rel)) root = (Z.of_nat (length rel) - 1 =? 0)%Z.
Proof.
  intros Hne. unfold parent. rewrite removelast_app by done.
  unfold path_eqb. destruct rel as [|x [|y rel]]; [done| |].
  - cbn. rewrite app_nil_r. by rewrite bool_decide_eq_true_2.
  - rewrite bool_decide_eq_false_2.
    + symmetry. apply Z.eqb_neq. cbn [length]. lia.
    + intros H. apply (f_equal length) in H. rewrite length_app in H.
      cbn in H. lia.
Qed.

(** The pages of a parsed export, with what the two loops of [parse]
    established. *)
Lemma parsed_layout zip w e w' :
  parse zip w = (Ok e, w') ->
  exists root pages pbp,
    built root (rglob (fs w') root glob_md) (pages, pbp) /\
    linked pbp pages (seq 0 (length pages)) (root_pages e, page_store e) /\
    forall i page, page_store e !! i = Some page ->
      exists rel,
        file_path page = root ++ rel /\ rel <> [] /\
        level page = (Z.of_nat (length rel) - 1)%Z /\
        read_from (fs w') root page /\
        glob_md (name (file_path page)) = true.
Proof.
  intros Hparse.
  pose proof Hparse as (rest & entries & root & sname & pages & pbp & _ & _ & _
                        & Hroot & Hb & Hl & _ & _ & _)%parse_ok.
  pose proof (build_pages_built _ _ _ _ _ _ Hb) as HB.
  pose proof (build_pages_fields _ _ _ _ _ _ Hb) as Hf.
  apply link_pages_linked in Hl.
  exists root, pages, pbp. split; [done|]. split; [done|].
  intros i page Hi. destruct HB as (B1 & _).
  destruct (parsed_page_original e pages pbp i page Hl Hi)
    as (page0 & Hp0 & Hsame & _).
  destruct (B1 i page0 Hp0) as (rel & Hfp & Hlev & _ & Hmd).
  rewrite Forall_forall in Hf.
  pose proof (Hf page0 (list_elem_of_lookup_2 _ _ _ Hp0)) as Hr.
  apply (same_but_children_read_from _ _ _ _ Hsame) in Hr.
  destruct Hsame as (_ & Hfp' & _ & _ & Hlev' & _).
  rewrite <- Hfp', Hfp in *. rewrite <- Hlev', Hlev.
  apply rglob_elem in Hmd as (q & rel' & nd & _ & _ & Hne & Hpat & Heq).
  apply app_inv_head in Heq. subst rel'.
  exists rel. repeat split; try done; try apply Hr.
  revert Hpat. unfold name. destruct (exists_last Hne) as (pre & x & ->).
  by rewrite !app_assoc, !last_last.
Qed.

(** X8.  Every page of the export a successful [parse] returns is read
    from a markdown file that lies below the logical root and in no
    directory named [files]: its title is the name of the file without
    the suffix, its content is the text of the file, it has no remote id
    yet, and its parent path is the directory that holds the file,
    unless the file lies directly in the root (level 0), where there is
    none. *)
Theorem X8_page_fields zip w e w' :
  parse zip w = (Ok e, w') ->
  forall i page, page_store e !! i = Some page ->
    glob_md (name (file_path page)) = true /\
    in_files_dir (file_path page) = false /\
    title page = stem (file_path page) /\
    (exists size,
       stat (fs w') (file_path page) = Some (File size (Some (content page)))) /\
    outline_id page = None /\
    parent_path page =
      (if (level page =? 0)%Z then None else Some (parent (file_path page))).
Proof.
  intros (root & pages & pbp & _ & _ & Hpages)%parsed_layout i page Hi.
  destruct (Hpages i page Hi)
    as (rel & Hfp & Hne & Hlev & (Ht & Hc & Hpp & Hid & Hfd) & Hmd).
  repeat split; try done.
  rewrite Hpp, Hfp, Hlev. by rewrite level_zero_parent.
Qed.

(** X8 at the export of the scenario. *)
Lemma X8_witness :
  exists e w' page,
    parse zip_path world = (Ok e, w') /\
    page_store e !! 1 = Some page /\
    title page = txt "child" /\
    parent_path page = Some (space_root ++ [txt "root"]).
Proof.
  destruct (parse zip_path world) as [[e|x] w'] eqn:H;
    [|vm_compute in H; discriminate H].
  assert (He : e = match fst (parse zip_path world) with
                   | Ok e => e | Raise _ => e end) by by rewrite H.
  destruct (page_store e !! 1) as [page|] eqn:H1;
    [|rewrite He in H1; vm_compute in H1; discriminate H1].
  exists e, w', page. split; [reflexivity|]. split; [exact H1|].
  destruct (X8_page_fields zip_path world e w' H 1 page H1)
    as (_ & _ & Ht & _ & _ & Hpp).
  rewrite Ht, Hpp. rewrite He in H1. vm_compute in H1. injection H1 as <-.
  split; reflexivity.
Defined.

End FieldFacts.

(** ** The document loop *)

Section DocumentFacts.
Import OutlineClient AttachmentHandler DocmostParser Validators Orchestrator MarkdownTransformer.
Variable float : str -> option pyfloat.

Lemma document_requests_app a b :
  document_requests (a ++ b) = document_requests a ++ document_requests b.
Proof. unfold document_requests. by rewrite requests_app, List.filter_app. Qed.

#[local] Instance no_document_closed :
  Closed (fun evs => document_requests evs = []).
Proof.
  split; [done|]. intros a b Ha Hb. by rewrite document_requests_app, Ha, Hb.
Qed.

Lemma io_upload_attachment_other (P : list Event -> Prop) `{!Closed P} p nm :
  (forall r, is_document r = false -> P [EvRequest r]) ->
  (forall q, P [EvSleep q]) ->
  io_only P (upload_attachment float p nm).
Proof.
  intros Hr Hs. unfold upload_attachment.
  apply (io_bind P); [by apply io_mime|]. intros ct.
  apply (io_bind P); [by apply io_st_size|]. intros size.
  apply (io_bind P); [apply io_create_attachment; [done|by apply Hr|done]|].
  intros [[url form] att].
  apply (io_bind P).
  - unfold upload_file_to_storage.
    apply (io_bind P); [by apply io_read_bytes|]. intros _.
    apply (io_bind P); [apply io_http; by apply Hr|]. intros resp.
    by apply io_raise_for_status.
  - intros _. by apply (io_ret P).
Qed.

Lemma io_uploads_other (P : list Event -> Prop) `{!Closed P} refs dir :
  (forall r, is_document r = false -> P [EvRequest r]) ->
  (forall q, P [EvSleep q]) ->
  io_only P (upload_attachments_for_references float refs dir).
Proof.
  intros Hr Hs. unfold upload_attachments_for_references.
  apply (io_for_each P). intros ref m.
  apply (io_bind P); [by apply io_get_fs|]. intros fs0.
  apply (io_bind P); [by apply io_or_raise|]. intros full.
  apply (io_bind P); [by apply io_upload_attachment_other|]. intros up.
  by apply (io_ret P).
Qed.

(** The attachment step of a page asks for no document, however it
    ends. *)
Lemma process_attachments_quiet e page stats0 w :
  exists evs,
    snd (process_attachments float (attachments_dir e) page stats0 w)
      = extend w evs /\ document_requests evs = [].
Proof.
  unfold process_attachments.
  destruct (attachments_dir e) as [dir|]; [|exists []; by rewrite extend_nil].
  destruct (extract_attachment_references (content page)) as [|ref refs];
    [exists []; by rewrite extend_nil|].
  unfold mbind, M_bind, bind.
  pose proof (io_uploads_other (fun evs => document_requests evs = [])
                (ref :: refs) dir ltac:(by intros [] H) ltac:(done) w)
    as (evs & Hw & Hevs).
  destruct (upload_attachments_for_references float (ref :: refs) dir w)
    as [[m|y] w2]; cbn [snd] in Hw |- *; by exists evs.
Qed.

(** The attachment step of a page that ends normally: no document is
    asked for, the mapping is for the references of the page, and the
    uploads are counted. *)
Lemma process_attachments_ok e page stats0 w mapping stats1 w' :
  process_attachments float (attachments_dir e) page stats0 w
    = (Ok (mapping, stats1), w') ->
  (exists evs, w' = extend w evs /\ document_requests evs = []) /\
  (forall k, k ∈ map fst mapping <->
             is_Some (attachments_dir e) /\
             k ∈ extract_attachment_references (content page)) /\
  stats1 = {| documents_created := documents_created stats0;
              attachments_uploaded :=
                (attachments_uploaded stats0 + uploads e page)%N;
              total_attachment_size := total_attachment_size stats0 |}.
Proof.
  unfold process_attachments, uploads.
  destruct (attachments_dir e) as [dir|].
  2:{ intros [= <- <- <-]. split; [exists []; by rewrite extend_nil|].
      split; [|destruct stats0; cbn; f_equal; lia].
      intros k. split; [by intros ?%elem_of_nil|]. by intros [[? [=]] _]. }
  destruct (extract_attachment_references (content page)) as [|ref refs] eqn:Hrefs.
  { intros [= <- <- <-]. split; [exists []; by rewrite extend_nil|].
    split; [|destruct stats0; cbn; f_equal; lia].
    intros k. split; [by intros ?%elem_of_nil|]. by intros [_ ?%elem_of_nil]. }
  unfold mbind, M_bind, bind.
  pose proof (io_uploads_other (fun evs => document_requests evs = [])
                (ref :: refs) dir ltac:(by intros [] H) ltac:(done) w)
    as (evs & Hw & Hevs).
  destruct (upload_attachments_for_references float (ref :: refs) dir w)
    as [[m|x] w1] eqn:Hup; [|done].
  cbn [snd] in Hw. subst w1. intros [= <- <- <-].
  split; [by exists evs|]. split; [|done].
  unfold upload_attachments_for_references in Hup.
  apply uploads_loop in Hup as (evs' & _ & _ & Hkeys & _).
  intros k. rewrite Hkeys. cbn [map]. split.
  - intros [?%elem_of_nil|?]; [done|]. split; [by eexists|done].
  - intros [_ ?]. by right.
Qed.

Lemma filter_repeat_document r k :
  is_document r = true -> List.filter is_document (repeat r k) = repeat r k.
Proof. intros H. induction k as [|k IH]; [done|]. cbn. by rewrite H, IH. Qed.

Lemma decode_document_silent j :
  io_only (fun evs => evs = []) (decode_document j).
Proof. apply io_decode_document, _. Qed.

(** One round of the loop that ends normally. *)
Lemma process_page_ok e cid i st w st1 w1 :
  process_page float e cid i st w = (Ok st1, w1) ->
  exists page parent text id k evs,
    store st !! i = Some page /\
    parent_found (parent_id_map st) page parent /\
    transformed e page text /\
    1 <= k <= 3 /\
    st1 = after_page e i page id st /\
    w1 = extend w evs /\
    document_requests evs
      = repeat (documents_create (title page) text cid (if_truthy parent) true) k.
Proof.
  unfold process_page. unfold mbind at 1, M_bind at 1, bind at 1.
  destruct (store st !! i) as [page|] eqn:Hi; cbn [or_raise ret raise]; [|done].
  unfold mbind at 1, M_bind at 1, bind at 1.
  assert (Hparent : exists parent,
    (match parent_path page with
     | Some dir =>
         parent_md ← or_raise (with_suffix dir (txt ".md")) ValueError;
         mret (parent_id_map st !! path_str parent_md)
     | None => mret None
     end) w = (Ok parent, w) /\ parent_found (parent_id_map st) page parent \/
    (exists x, (match parent_path page with
     | Some dir =>
         parent_md ← or_raise (with_suffix dir (txt ".md")) ValueError;
         mret (parent_id_map st !! path_str parent_md)
     | None => mret None
     end) w = (@Raise (option str) x, w))).
  { unfold parent_found. destruct (parent_path page) as [dir|].
    - unfold mbind, M_bind, bind.
      destruct (with_suffix dir (txt ".md")) as [md|]; cbn [or_raise ret raise].
      + eexists. left. split; [done|]. by exists md.
      + exists None. right. by eexists.
    - exists None. by left. }
  destruct Hparent as (parent & [[-> Hfound]|[x ->]]); [|done].
  unfold mbind at 1, M_bind at 1, bind at 1.
  destruct (process_attachments float (attachments_dir e) page (stats st) w)
    as [[[mapping stats1]|x] wa] eqn:Hatt; [|done].
  apply process_attachments_ok in Hatt as ((evsa & -> & Hevsa) & Hkeys & ->).
  unfold mbind at 1, M_bind at 1, bind at 1.
  destruct (transform_content (content page) mapping) as [text|] eqn:Htext;
    cbn [or_raise ret raise]; [|done].
  unfold mbind at 1, M_bind at 1, bind at 1.
  destruct (retrying_requests float
              (documents_create (title page) text cid (if_truthy parent) true)
              decode_document (extend w evsa) decode_document_silent)
    as (evsd & k & Hwd & Hreq & Hk).
  change (retrying float
            (documents_create (title page) text cid (if_truthy parent) true)
            decode_document)
    with (create_document float (title page) text cid parent true) in Hwd.
  destruct (create_document float (title page) text cid parent true _)
    as [[document|x] wd]; [|done].
  cbn [snd] in Hwd. subst wd. cbn [mret M_ret ret]. intros [= <- <-].
  exists page, parent, text, (doc_id document), k, (evsa ++ evsd).
  split; [done|]. split; [done|]. split; [by exists mapping|]. split; [done|].
  split; [done|]. split; [by rewrite extend_extend|].
  rewrite document_requests_app, Hevsa. cbn [app]. unfold document_requests.
  rewrite Hreq. by apply filter_repeat_document.
Qed.

(** The loop from any state. *)
Lemma documents_loop e cid pages st w final w' :
  for_each pages (process_page float e cid) st w = (Ok final, w') ->
  exists log evs,
    documents_made e cid st pages log final /\
    w' = extend w evs /\ document_requests evs = sent_out log.
Proof.
  revert st w. induction pages as [|i pages IH]; intros st w; cbn [for_each].
  - intros [= <- <-]. exists [], []. split; [constructor|].
    by rewrite extend_nil.
  - unfold bind at 1.
    destruct (process_page float e cid i st w) as [[st1|x] w1] eqn:Hstep; [|done].
    apply process_page_ok in Hstep
      as (page & parent & text & id & k & evs1 & Hi & Hfound & Htext & Hk
          & -> & -> & Hreq).
    intros (log & evs2 & Hmade & -> & Hreq2)%IH.
    eexists (_ :: log), (evs1 ++ evs2). split; [by econstructor|].
    split; [by rewrite extend_extend|].
    rewrite document_requests_app, Hreq, Hreq2. reflexivity.
Qed.

Lemma same_but_id_refl p : same_but_id p p.
Proof. by repeat split. Qed.

Lemma same_but_id_set id p : same_but_id p (set_outline_id id p).
Proof. by repeat split. Qed.

Lemma same_but_id_trans p q r :
  same_but_id p q -> same_but_id q r -> same_but_id p r.
Proof. unfold same_but_id. intuition congruence. Qed.

Lemma Forall2_same_refl (l : list DocmostPage) : Forall2 same_but_id l l.
Proof. induction l; constructor; [apply same_but_id_refl|done]. Qed.

Lemma Forall2_same_alter id i (l : list DocmostPage) :
  Forall2 same_but_id l (alter (set_outline_id id) i l).
Proof.
  revert i. induction l as [|p l IH]; intros [|i]; cbn.
  - constructor.
  - constructor.
  - constructor; [apply same_but_id_set|apply Forall2_same_refl].
  - constructor; [apply same_but_id_refl|apply IH].
Qed.

Lemma Forall2_same_trans (a b c : list DocmostPage) :
  Forall2 same_but_id a b -> Forall2 same_but_id b c -> Forall2 same_but_id a c.
Proof.
  intros Hab. revert c. induction Hab as [|p q a b Hpq Hab IH]; intros c Hbc.
  - by inversion Hbc.
  - inversion Hbc as [|? r ? c' Hqr Hbc']; subst. constructor; [|by apply IH].
    by eapply same_but_id_trans.
Qed.

(** What the loop leaves behind. *)
Lemma documents_made_end e cid st pages log final :
  documents_made e cid st pages log final ->
  length log = length pages /\
  documents_created (stats final)
    = (documents_created (stats st) + N.of_nat (length pages))%N /\
  total_attachment_size (stats final) = total_attachment_size (stats st) /\
  Forall2 same_but_id (store st) (store final) /\
  (forall i, i ∈ pages ->
     exists page, store final !! i = Some page /\ is_Some (outline_id page)).
Proof.
  induction 1 as [st|st i pages page parent text id k log final Hi Hf Ht Hk Hm IH].
  - split; [done|]. split; [cbn; lia|]. split; [done|].
    split; [apply Forall2_same_refl|by intros i ?%elem_of_nil].
  - destruct IH as (Hlen & Hdocs & Hsize & Hsame & Hids).
    split; [cbn; by rewrite Hlen|]. split.
    { rewrite Hdocs. cbn [after_page stats documents_created length].
      rewrite Nat2N.inj_succ. lia. }
    split; [by rewrite Hsize|]. split.
    { eapply Forall2_same_trans; [|exact Hsame]. apply Forall2_same_alter. }
    intros j [->|Hj]%elem_of_cons; [|by apply Hids].
    destruct (decide (i ∈ pages)) as [Hin|Hnin]; [by apply Hids|].
    assert (Hkeep : forall st0 pages0 log0 final0,
              documents_made e cid st0 pages0 log0 final0 -> i ∉ pages0 ->
              store final0 !! i = store st0 !! i).
    { clear. induction 1 as [|st0 i0 pages0 page0 ? ? id0 ? ? ? ? ? ? ? ? IH0];
        intros Hn; [done|].
      rewrite IH0 by set_solver. cbn [after_page store].
      apply list_lookup_alter_ne. set_solver. }
    rewrite (Hkeep _ _ _ _ Hm Hnin). cbn [after_page store].
    rewrite list_lookup_alter, Hi. exists (set_outline_id id page).
    rewrite decide_True by done. split; [done|]. by exists id.
Qed.

(** X9.  A document loop that ends normally has asked for one document
    per page of the list of all pages, in the order of the list, each
    request sent one to three times: with the title of the page, its
    content transformed under a mapping for exactly its attachment
    references, the collection, the id recorded for the parent path of
    the page read as a markdown path (none for a page without parent
    path, and none when the id recorded is empty), and the publish flag
    set.  The counter of documents is the number of pages, every page of
    the list has its remote id set, nothing else of a page has changed,
    and the local files are as before. *)
Theorem X9_document_loop e cid w final w' :
  migrate_documents float e cid w = (Ok final, w') ->
  exists log,
    documents_made e cid (start e) (all_pages e) log final /\
    document_requests (new_events w w') = sent_out log /\
    length log = length (all_pages e) /\
    documents_created (stats final) = N.of_nat (length (all_pages e)) /\
    total_attachment_size (stats final) = 0%N /\
    Forall2 same_but_id (page_store e) (store final) /\
    (forall i, i ∈ all_pages e ->
       exists page, store final !! i = Some page /\ is_Some (outline_id page)) /\
    fs w' = fs w.
Proof.
  unfold migrate_documents. fold (start e).
  intros (log & evs & Hmade & -> & Hreq)%documents_loop.
  destruct (documents_made_end _ _ _ _ _ _ Hmade)
    as (Hlen & Hdocs & Hsize & Hsame & Hids).
  exists log. rewrite new_events_extend. repeat split; try done.
Qed.

End DocumentFacts.

Section DocumentWitness.
Import OutlineClient DocmostParser Orchestrator.

(** X9 at the scenario: three pages, three documents. *)
Lemma X9_witness :
  exists e final w' log,
    fst (parse zip_path world) = Ok e /\
    migrate_documents decimal_float e (txt "col-1") unpacked = (Ok final, w') /\
    document_requests (new_events unpacked w') = sent_out log /\
    length log = 3 /\
    documents_created (stats final) = 3%N.
Proof.
  destruct (fst (parse zip_path world)) as [e|x] eqn:H;
    [|vm_compute in H; discriminate H].
  assert (He : e = match fst (parse zip_path world) with
                   | Ok e => e | Raise _ => e end) by by rewrite H.
  destruct (migrate_documents decimal_float e (txt "col-1") unpacked)
    as [[final|x] w'] eqn:Hm;
    [|rewrite He in Hm; vm_compute in Hm; discriminate Hm].
  destruct (X9_document_loop decimal_float e (txt "col-1") unpacked final w' Hm)
    as (log & _ & Hreq & Hlen & Hdocs & _).
  exists e, final, w', log. split; [reflexivity|]. split; [exact Hm|].
  split; [exact Hreq|].
  assert (Hall : length (all_pages e) = 3)
    by (rewrite He; vm_compute; reflexivity).
  rewrite Hlen, Hdocs, Hall. split; reflexivity.
Defined.

End DocumentWitness.

(** ** The hierarchy of the documents *)

Section PathFacts.

Lemma app_separator_inj (a b X Y : str) :
  "/" ∉ a -> "/" ∉ b -> a ++ "/" :: X = b ++ "/" :: Y -> a = b /\ X = Y.
Proof.
  revert b. induction a as [|c a IH]; intros [|d b] Ha Hb; cbn.
  - by intros [= ->].
  - intros [= <- _]. exfalso. apply Hb. by left.
  - intros [= -> _]. exfalso. apply Ha. by left.
  - intros [= -> H]. apply IH in H as [-> ->]; [done| |].
    + intros ?. apply Ha. by right.
    + intros ?. apply Hb. by right.
Qed.

Lemma join_cons2 (a b : str) (p : Path) :
  join ["/"] (a :: b :: p) = a ++ "/" :: join ["/"] (b :: p).
Proof. reflexivity. Qed.

Lemma join_inj (p q : Path) :
  separator_free p -> separator_free q -> p <> [] -> q <> [] ->
  join ["/"] p = join ["/"] q -> p = q.
Proof.
  unfold separator_free. revert q.
  induction p as [|a p IH]; intros [|b q] Hp Hq Hpn Hqn; try done.
  apply Forall_cons in Hp as [Ha Hp]. apply Forall_cons in Hq as [Hb Hq].
  destruct p as [|a' p], q as [|b' q].
  - cbn. by intros ->.
  - rewrite join_cons2. cbn [join]. intros ->. exfalso. apply Ha.
    apply elem_of_app. right. by left.
  - rewrite join_cons2. cbn [join]. intros <-. exfalso. apply Hb.
    apply elem_of_app. right. by left.
  - rewrite !join_cons2. intros [-> H]%app_separator_inj; [|done..].
    f_equal. by apply IH.
Qed.

Lemma path_str_inj (p q : Path) :
  separator_free p -> separator_free q -> p <> [] -> q <> [] ->
  path_str p = path_str q -> p = q.
Proof.
  intros Hp Hq Hpn Hqn. destruct p as [|a p], q as [|b q]; try done.
  cbn [path_str]. intros [= H]. by apply join_inj.
Qed.

Lemma separator_free_parent p : separator_free p -> separator_free (parent p).
Proof.
  unfold separator_free, parent. rewrite removelast_firstn_len.
  apply Forall_take.
Qed.

Lemma separator_free_stem p : separator_free p -> "/" ∉ stem p.
Proof.
  intros Hp. unfold stem. intros Hin. apply elem_of_take in Hin as (k & Hk & _).
  apply list_elem_of_lookup_2 in Hk. unfold name in Hk.
  destruct p as [|a p] using rev_ind; [by apply elem_of_nil in Hk|].
  rewrite last_last in Hk. apply Forall_app in Hp as [_ Hp].
  apply Forall_cons in Hp as [Hp _]. done.
Qed.

Lemma length_parent (p : Path) : length (parent p) = length p - 1.
Proof.
  unfold parent. rewrite removelast_firstn_len, length_take. lia.
Qed.

End PathFacts.

Section TreeFacts.
Import OutlineClient AttachmentHandler DocmostParser Validators Orchestrator MarkdownTransformer.
Variable e : DocmostExport.
Variable cid : str.

Hypothesis all_once : NoDup (all_pages e).

Hypothesis by_level :
  forall done i pages j pi pj,
    all_pages e = done ++ i :: pages ->
    page_store e !! i = Some pi -> page_store e !! j = Some pj ->
    (level pj < level pi)%Z -> j ∈ done.

Hypothesis paths_differ :
  forall i j pi pj,
    page_store e !! i = Some pi -> page_store e !! j = Some pj ->
    path_str (file_path pi) = path_str (file_path pj) -> i = j.

Hypothesis top_level :
  forall i pi, page_store e !! i = Some pi -> parent_path pi = None ->
  forall j pj, page_store e !! j = Some pj -> i ∉ children pj.

Hypothesis below :
  forall i pi dir md,
    page_store e !! i = Some pi -> parent_path pi = Some dir ->
    with_suffix dir (txt ".md") = Some md ->
    forall j pj, page_store e !! j = Some pj ->
      (i ∈ children pj <-> path_str (file_path pj) = path_str md) /\
      (path_str (file_path pj) = path_str md -> (level pj < level pi)%Z).

Lemma documents_made_keep st pages log final i :
  documents_made e cid st pages log final -> i ∉ pages ->
  store final !! i = store st !! i.
Proof.
  induction 1 as [|st0 i0 pages0 page0 ? ? id0 ? ? ? ? ? ? ? ? IH0];
    intros Hn; [done|].
  rewrite IH0 by set_solver. cbn [after_page store].
  apply list_lookup_alter_ne. set_solver.
Qed.

Lemma tree_loop st pages log final :
  documents_made e cid st pages log final ->
  forall done, all_pages e = done ++ pages -> recorded e done st ->
  Forall2 (placed e cid final) pages log.
Proof.
  induction 1 as [st|st i pages page parent text id k log final Hi Hf Ht Hk Hm IH];
    intros done Hall (Hsame & Hdone & Honly); [constructor|].
  assert (Hnd : NoDup (done ++ i :: pages)) by by rewrite <- Hall.
  apply NoDup_app in Hnd as (_ & Hdisj & Hnd').
  apply NoDup_cons in Hnd' as [Hi_pages _].
  destruct (Forall2_lookup_r _ _ _ _ _ Hsame Hi) as (page0 & Hi0 & Hsp).
  pose proof Hsp as (Htitle & Hfp & Hcontent & Hpp & _ & _).
  assert (Hrec : recorded e (done ++ [i]) (after_page e i page id st)).
  { split; [|split].
    - eapply Forall2_same_trans; [exact Hsame|]. apply Forall2_same_alter.
    - intros j [Hj|Hj%list_elem_of_singleton]%elem_of_app; [|subst j].
      + assert (j <> i) by (intros ->; apply (Hdisj i Hj); by left).
        destruct (Hdone j Hj) as (pj & idj & Hsj & Hoj & Hmj).
        exists pj, idj. cbn [after_page store parent_id_map].
        rewrite list_lookup_alter_ne by done. split; [done|]. split; [done|].
        rewrite lookup_insert_ne; [done|]. intros Heq.
        destruct (Forall2_lookup_r _ _ _ _ _ Hsame Hsj) as (pj0 & Hj0 & Hsj0).
        destruct Hsj0 as (_ & Hfpj & _).
        apply (paths_differ i j page0 pj0) in Hi0; [done|done|].
        by rewrite Hfp, Hfpj.
      + exists (set_outline_id id page), id. cbn [after_page store parent_id_map].
        rewrite list_lookup_alter, Hi. rewrite decide_True by done.
        split; [done|]. split; [done|]. cbn. by rewrite lookup_insert_eq.
    - intros s. cbn [after_page parent_id_map].
      destruct (decide (path_str (file_path page) = s)) as [<-|Hne].
      + intros _. exists i, page0. split; [set_solver|]. split; [done|].
        by rewrite Hfp.
      + rewrite lookup_insert_ne by done. intros (j & pj & Hj & ?)%Honly.
        exists j, pj. split; [set_solver|done]. }
  constructor.
  - exists page0, text, parent. split; [done|]. split.
    { destruct Ht as (mapping & Hm1 & Hm2). exists mapping.
      by rewrite Hcontent. }
    split; [|split; [by rewrite Htitle|done]].
    unfold parent_found in Hf. rewrite <- Hpp in Hf.
    destruct (parent_path page0) as [dir|] eqn:Hdir.
    + destruct Hf as (md & Hmd & ->).
      pose proof (below i page0 dir md Hi0 Hdir Hmd) as Hbelow. split.
      * intros j pj Hj Hchild. destruct (Hbelow j pj Hj) as [Hiff Hlev].
        apply Hiff in Hchild. specialize (Hlev Hchild).
        assert (Hjd : j ∈ done) by by eapply by_level.
        destruct (Hdone j Hjd) as (pj' & idj & Hsj & Hoj & Hmj).
        destruct (Forall2_lookup_r _ _ _ _ _ Hsame Hsj) as (pj0 & Hj0 & Hsj0).
        assert (pj0 = pj) as -> by congruence.
        destruct Hsj0 as (_ & Hfpj & _).
        rewrite <- Hchild, Hfpj, Hmj. split; [by eexists|].
        exists pj'. split; [|done].
        assert (Hji : j <> i) by (intros ->; apply (Hdisj i Hjd); by left).
        rewrite (documents_made_keep _ _ _ _ j Hm).
        -- cbn [after_page store]. by rewrite list_lookup_alter_ne.
        -- intros Hjp. apply (Hdisj j Hjd). by right.
      * intros Hnone.
        destruct (parent_id_map st !! path_str md) as [x|] eqn:Hx; [|done].
        destruct (Honly (path_str md)) as (j & pj & Hj & Hpj & Hs);
          [by rewrite Hx|].
        destruct (Hbelow j pj Hpj) as [Hiff _].
        destruct (Hnone j pj Hpj). by apply Hiff.
    + subst parent. split; [|done].
      intros j pj Hj Hchild. by destruct (top_level i page0 Hi0 Hdir j pj Hj).
  - apply (IH (done ++ [i])); [by rewrite <- app_assoc|done].
Qed.

End TreeFacts.

Section HierarchyFacts.
Import OutlineClient AttachmentHandler DocmostParser Validators Orchestrator MarkdownTransformer.
Variable float : str -> option pyfloat.

(** X10.  The documents keep the hierarchy of the pages.  For the
    export of a successful [parse] in which no two pages have the same
    file path and no component of a file path holds a separator, a
    document loop that ends normally has asked, for each page of the
    list of all pages in turn, for a document under the document of its
    parent page: the parent id sent is the remote id of the page that
    has the page among its children, and none for a page no page has
    among its children, so root pages and pages without a parent page
    arrive at the top of the collection. *)
Theorem X10_hierarchy zip w0 e w1 cid w final w' :
  parse zip w0 = (Ok e, w1) ->
  (forall i page, page_store e !! i = Some page ->
     separator_free (file_path page)) ->
  NoDup (map file_path (page_store e)) ->
  migrate_documents float e cid w = (Ok final, w') ->
  exists log,
    document_requests (new_events w w') = sent_out log /\
    Forall2 (placed e cid final) (all_pages e) log.
Proof.
  intros Hparse Hfree Hpaths Hrun.
  pose proof Hparse as (root & pages & pbp & HB & HL & Hpages)%parsed_layout.
  pose proof Hparse as (_ & _ & _ & _ & _ & _ & _ & _ & _ & _ & _ & _ & _
                        & Hall & _)%parse_ok.
  destruct HB as (B1 & B2 & B3 & _). pose proof HL as (L1 & L2 & L3 & _ & _).
  assert (Hperm : all_pages e ≡ₚ seq 0 (length (page_store e))).
  { rewrite Hall. apply stable_sort_perm. }
  assert (Hsorted : StronglySorted (before_ (page_order (page_store e)))
                                   (all_pages e)).
  { rewrite Hall. apply stable_sort_seq.
    - intros i j. apply key_leb_total.
    - intros i j k. apply key_leb_trans. }
  assert (Hsame_path : forall i j pi pj,
            page_store e !! i = Some pi -> page_store e !! j = Some pj ->
            file_path pi = file_path pj -> i = j).
  { intros i j pi pj Hi Hj Heq.
    apply (NoDup_lookup _ i j (file_path pi) Hpaths).
    - by rewrite list_lookup_fmap, Hi.
    - by rewrite list_lookup_fmap, Hj, Heq. }
  assert (Hne : forall i pi, page_store e !! i = Some pi -> file_path pi <> []).
  { intros i pi Hi. destruct (Hpages i pi Hi) as (rel & -> & Hrel & _).
    by destruct root, rel. }
  assert (Hpp : forall i pi, page_store e !! i = Some pi ->
            parent_path pi =
              if (level pi =? 0)%Z then None else Some (parent (file_path pi))).
  { intros i pi Hi.
    destruct (Hpages i pi Hi) as (rel & Hfp & Hrel & Hlev & (_ & _ & H & _) & _).
    rewrite H, Hfp, Hlev. by rewrite level_zero_parent. }
  assert (Hchildren : forall i j pj,
            page_store e !! j = Some pj ->
            i ∈ children pj <->
            exists pi md, page_store e !! i = Some pi /\ level pi <> 0%Z /\
              parent_md_of pi = Some md /\ file_path pj = md).
  { intros i j pj Hj.
    destruct (parsed_page_original e pages pbp j pj HL Hj)
      as (pj0 & Hj0 & Hsj & _).
    destruct (B1 j pj0 Hj0) as (_ & _ & _ & Hch0 & _).
    destruct Hsj as (_ & Hfpj & _).
    rewrite (L3 j pj0 pj i Hj0 Hj), Hch0. split.
    - intros [?%elem_of_nil|(Hin & page & pm & Hp & Hlev & Hpm & Hpbp)]; [done|].
      destruct (L2 i page Hp) as (pi & Hi & (_ & Hfpi & _ & _ & Hli & _)).
      exists pi, pm. split; [done|]. split; [by rewrite <- Hli|].
      split; [unfold parent_md_of in *; by rewrite <- Hfpi|].
      destruct (B2 pm j Hpbp) as (page' & Hj' & <-).
      assert (page' = pj0) as -> by congruence. done.
    - intros (pi & md & Hi & Hlev & Hmd & Hfp). right.
      destruct (parsed_page_original e pages pbp i pi HL Hi)
        as (pi0 & Hi0 & (_ & Hfpi & _ & _ & Hli & _) & Hin).
      split; [done|]. exists pi0, md. split; [done|].
      split; [by rewrite Hli|].
      split; [unfold parent_md_of in *; by rewrite Hfpi|].
      destruct (B3 j pj0 Hj0) as [j' Hj'].
      destruct (B2 _ j' Hj') as (page' & Hp' & Hfp').
      destruct (L2 j' page' Hp') as (pj' & Hsj' & (_ & Hfpj' & _)).
      assert (j = j') as <-.
      { apply (Hsame_path j j' pj pj' Hj Hsj'). congruence. }
      by rewrite <- Hfp, <- Hfpj. }
  assert (Hmd_free : forall i pi md,
            page_store e !! i = Some pi ->
            with_suffix (parent (file_path pi)) (txt ".md") = Some md ->
            separator_free md /\ md <> [] /\
            length md = length (file_path pi) - 1).
  { intros i pi md Hi Hmd.
    assert (Hlen : 1 <= length (parent (file_path pi))).
    { unfold with_suffix, name in Hmd.
      destruct (parent (file_path pi)); [done|cbn; lia]. }
    apply with_suffix_md in Hmd as (-> & _ & _).
    pose proof (Hfree i pi Hi) as Hf.
    split; [|split].
    - apply Forall_app. split; [by do 2 apply separator_free_parent|].
      constructor; [|constructor]. intros [Hin|Hin]%elem_of_app.
      + by apply (separator_free_stem (parent (file_path pi)));
          [apply separator_free_parent|].
      + cbn in Hin. set_solver.
    - by destruct (parent (parent (file_path pi))).
    - rewrite length_parent in Hlen.
      rewrite length_app, !length_parent. cbn [length]. lia. }
  unfold migrate_documents in Hrun. fold (start e) in Hrun.
  apply documents_loop in Hrun as (log & evs & Hmade & -> & Hreq).
  exists log. split; [by rewrite new_events_extend|].
  apply (tree_loop e cid) with (st := start e) (done := []); try done.
  - rewrite Hperm. apply NoDup_seq.
  - intros done i pages' j pi pj Hsplit Hi Hj Hlt.
    assert (Hin : j ∈ all_pages e).
    { rewrite Hperm. apply elem_of_seq. apply lookup_lt_Some in Hj. lia. }
    rewrite Hsplit in Hin.
    apply elem_of_app in Hin as [Hin|Hin]; [done|].
    apply elem_of_cons in Hin as [->|Hin].
    { assert (pi = pj) by congruence. subst. lia. }
    apply list_elem_of_lookup_1 in Hin as [k Hk].
    assert (H1 : all_pages e !! length done = Some i).
    { rewrite Hsplit. by rewrite list_lookup_middle. }
    assert (H2 : all_pages e !! (length done + S k) = Some j).
    { rewrite Hsplit. rewrite lookup_app_r by lia.
      replace (length done + S k - length done) with (S k) by lia. done. }
    destruct (StronglySorted_lookup _ _ (length done) (length done + S k) i j
                Hsorted ltac:(lia) H1 H2)
      as [Hle _].
    unfold page_order, sort_key in Hle. rewrite Hi, Hj in Hle.
    apply key_leb_spec in Hle. cbn [fst snd] in Hle. lia.
  - intros i j pi pj Hi Hj Hstr. apply (Hsame_path i j pi pj Hi Hj).
    apply path_str_inj; eauto.
  - intros i pi Hi Hnone j pj Hj Hchild.
    apply (Hchildren i j pj Hj) in Hchild as (pi' & md & Hi' & Hlev & _).
    assert (pi' = pi) as -> by congruence.
    rewrite (Hpp i pi Hi) in Hnone.
    apply Z.eqb_neq in Hlev. by rewrite Hlev in Hnone.
  - intros i pi dir md Hi Hdir Hmd j pj Hj.
    rewrite (Hpp i pi Hi) in Hdir.
    destruct (level pi =? 0)%Z eqn:Hlev; [done|]. injection Hdir as <-.
    apply Z.eqb_neq in Hlev.
    destruct (Hmd_free i pi md Hi Hmd) as (Hmf & Hmn & Hml).
    assert (Hinj : path_str (file_path pj) = path_str md <-> file_path pj = md).
    { split; [|by intros ->]. apply path_str_inj; eauto. }
    rewrite Hinj. split.
    + rewrite (Hchildren i j pj Hj). split.
      * intros (pi' & md' & Hi' & _ & Hmd' & Hfp).
        assert (pi' = pi) as -> by congruence.
        unfold parent_md_of in Hmd'. congruence.
      * intros Hfp. by exists pi, md.
    + intros Hfp.
      destruct (Hpages i pi Hi) as (reli & Hfi & Hni & Hli & _).
      destruct (Hpages j pj Hj) as (relj & Hfj & Hnj & Hlj & _).
      rewrite <- Hfp, Hfi, Hfj, !length_app in Hml.
      destruct reli, relj; try done. cbn [length] in *. lia.
  - split; [apply Forall2_same_refl|]. split.
    + by intros j ?%elem_of_nil.
    + intros s [x Hx]. cbn in Hx. by rewrite lookup_empty in Hx.
Qed.

End HierarchyFacts.

Section HierarchyWitness.
Import OutlineClient DocmostParser Orchestrator.

(** X10 at the scenario. *)
Lemma X10_witness :
  exists e final w' log,
    fst (parse zip_path world) = Ok e /\
    migrate_documents decimal_float e (txt "col-1") unpacked = (Ok final, w') /\
    document_requests (new_events unpacked w') = sent_out log /\
    Forall2 (placed e (txt "col-1") final) (all_pages e) log.
Proof.
  destruct (parse zip_path world) as [[e|x] w1] eqn:H;
    [|vm_compute in H; discriminate H].
  assert (He : e = match fst (parse zip_path world) with
                   | Ok e => e | Raise _ => e end) by by rewrite H.
  destruct (migrate_documents decimal_float e (txt "col-1") unpacked)
    as [[final|x] w'] eqn:Hm;
    [|rewrite He in Hm; vm_compute in Hm; discriminate Hm].
  destruct (X10_hierarchy decimal_float zip_path world e w1 (txt "col-1")
              unpacked final w' H) as (log & Hreq & Hplaced).
  - apply Forall_lookup. unfold separator_free. rewrite He.
    apply (bool_decide_unpack _). vm_compute. exact I.
  - rewrite He. apply (bool_decide_unpack _). vm_compute. exact I.
  - exact Hm.
  - exists e, final, w', log. split; [reflexivity|]. split; [exact Hm|].
    split; [exact Hreq|exact Hplaced].
Defined.

End HierarchyWitness.

(** ** A migration that ends normally *)

Section SuccessFacts.
Import OutlineClient AttachmentHandler DocmostParser Validators Orchestrator MarkdownTransformer.
Variable float : str -> option pyfloat.
Variable max_file_size : N.

(** A validation that passes has found every file within the limit. *)
Lemma validate_all_ok paths max_size w r :
  fst (validate_all_attachments paths max_size w) = Ok r ->
  Forall (within w max_size) paths.
Proof.
  intros Hok.
  destruct (validation_loop paths max_size 0%N 0%N w) as (Hw & _ & Hbad).
  cbv zeta in Hw, Hbad.
  unfold validate_all_attachments, mbind, M_bind, bind in Hok.
  destruct (for_each paths _ (0%N, 0%N) w) as [[[total files]|x] w'] eqn:Hloop;
    cbn [fst snd] in *; [|done].
  destruct (first_offender w max_size paths)
    as [Hall|(good & bad & rest & E & Hgood & [Hnone|(size & Hs & Hlt)])].
  - done.
  - by pose proof (proj1 (Hbad good bad rest E Hgood) Hnone).
  - by pose proof (proj2 (Hbad good bad rest E Hgood) size Hs Hlt).
Qed.

Lemma validate_ok e w :
  fst (validate max_file_size e w) = Ok tt ->
  exists files,
    find_attachments e w = (Ok files, w) /\
    Forall (within w max_file_size) files.
Proof.
  unfold validate. unfold mbind at 1, M_bind at 1, bind at 1.
  rewrite find_attachments_run.
  match goal with |- context [ (Ok ?l, w) ] => generalize l end.
  intros [|p files]; [by exists []|].
  unfold mbind, M_bind, bind.
  destruct (validate_all_attachments (p :: files) max_file_size w)
    as [[r|x] w1] eqn:Hv; [|done].
  intros _. exists (p :: files). split; [done|].
  apply (validate_all_ok _ _ _ r). by rewrite Hv.
Qed.

(** X11.  A [migrate] that returns normally has parsed the export and
    found every file of the attachment pool within the limit; the first
    call it made is the one call of the collection step, and all calls
    after it are those of the document loop over the list of all pages,
    every document asked for under the id it returns: the id asked for,
    or the id of the collection created.  The statistics it returns
    count one document per page, and a total attachment size of 0. *)
Theorem X11_migrate_success zip coll w cid stats w' :
  migrate float max_file_size zip coll w = (Ok (cid, stats), w') ->
  exists e w1 collection final log evs,
    parse zip w = (Ok e, w1) /\
    (exists files, find_attachments e w1 = (Ok files, w1) /\
                   Forall (within w1 max_file_size) files) /\
    cid = chosen_id coll collection /\
    requests (new_events w w') = collection_request e coll :: requests evs /\
    document_requests evs = sent_out log /\
    documents_made e cid (start e) (all_pages e) log final /\
    stats = Orchestrator.stats final /\
    documents_created stats = N.of_nat (length (all_pages e)) /\
    total_attachment_size stats = 0%N.
Proof.
  rewrite (migrate_unfold float max_file_size).
  destruct (exists_ (fs w) zip); [|done].
  destruct (parse zip w) as [[e|x] w1] eqn:Hparse; [|done].
  pose proof Hparse as (rest & entries & _ & _ & _ & _ & _ & _ & Hw1 & _)%parse_ok.
  unfold try_finally.
  match goal with |- context [ match ?b w1 with _ => _ end ] =>
    destruct (b w1) as [r w2] eqn:Hbody end.
  rewrite cleanup_spec. intros [= -> <-].
  unfold mbind at 1, M_bind at 1, bind at 1 in Hbody.
  pose proof (validate_silent max_file_size e w1) as Hvw.
  destruct (validate max_file_size e w1) as [[[]|x] wv] eqn:Hv; [|done].
  cbn [snd] in Hvw. subst wv.
  assert (Hfiles : fst (validate max_file_size e w1) = Ok tt) by by rewrite Hv.
  apply validate_ok in Hfiles.
  unfold mbind at 1, M_bind at 1, bind at 1 in Hbody.
  rewrite setup_collection_run in Hbody.
  destruct (server w1 (sent w1) _) as [|resp]; [done|].
  destruct (is_success resp); [|done].
  destruct (json resp) as [id name| | |]; try done.
  unfold mbind at 1, M_bind at 1, bind at 1 in Hbody.
  destruct (migrate_documents float e _ _) as [[final|x] w3] eqn:Hdocs; [|done].
  cbn [mret M_ret ret] in Hbody. injection Hbody as <- <- <-.
  unfold migrate_documents in Hdocs. fold (start e) in Hdocs.
  apply documents_loop in Hdocs as (log & evs & Hmade & -> & Hreq).
  destruct (documents_made_end _ _ _ _ _ _ Hmade) as (_ & Hcount & Hsize & _).
  eexists e, w1, _, final, log, evs. split; [done|]. split; [done|].
  split; [reflexivity|]. split; [|done].
  rewrite extend_extend.
  assert (Htrace : forall w4, trace w4 = trace w1 ++ EvRequest (collection_request e coll) :: evs ->
            requests (new_events w
               (if exists_ (fs w4) (temp_dir e) then removed w4 (temp_dir e) else w4))
            = collection_request e coll :: requests evs).
  { intros w4 Ht.
    assert (Hreqs : forall tail,
              requests ([EvMkdtemp (temp_dir e)]
                          ++ (EvRequest (collection_request e coll) :: evs) ++ tail)
              = collection_request e coll :: requests (evs ++ tail)) by done.
    destruct (exists_ (fs w4) (temp_dir e)).
    - rewrite (new_events_trace w _
                 ([EvMkdtemp (temp_dir e)]
                    ++ (EvRequest (collection_request e coll) :: evs)
                    ++ [EvRmtree (temp_dir e)])).
      + rewrite Hreqs, requests_app. cbn. by rewrite app_nil_r.
      + cbn [removed trace]. rewrite Ht, Hw1. cbn [extracted trace].
        by rewrite <- !app_assoc.
    - rewrite (new_events_trace w _
                 ([EvMkdtemp (temp_dir e)]
                    ++ (EvRequest (collection_request e coll) :: evs) ++ [])).
      + rewrite Hreqs. by rewrite app_nil_r.
      + rewrite Ht, Hw1. cbn [extracted trace].
        by rewrite app_nil_r, <- !app_assoc. }
  apply Htrace. reflexivity.
Qed.

End SuccessFacts.

Section SuccessWitness.
Import OutlineClient DocmostParser Orchestrator.

(** X11 at the scenario: the collection is created and the three
    documents go into it. *)
Lemma X11_witness :
  exists stats w' e log evs,
    migrate decimal_float (25 * 1024 * 1024) zip_path None world
      = (Ok (txt "col-1", stats), w') /\
    fst (parse zip_path world) = Ok e /\
    requests (new_events world w')
      = collection_request e None :: requests evs /\
    document_requests evs = sent_out log /\
    documents_created stats = 3%N.
Proof.
  destruct (migrate decimal_float (25 * 1024 * 1024) zip_path None world)
    as [[[cid stats]|x] w'] eqn:Hm; [|vm_compute in Hm; discriminate Hm].
  assert (cid = txt "col-1") as ->.
  { assert (Hc : fst (migrate decimal_float (25 * 1024 * 1024) zip_path None world)
                 = Ok (cid, stats)) by by rewrite Hm.
    vm_compute in Hc. injection Hc as <- _. reflexivity. }
  destruct (X11_migrate_success decimal_float (25 * 1024 * 1024) zip_path None
              world (txt "col-1") stats w' Hm)
    as (e & w1 & collection & final & log & evs & Hparse & _ & _ & Hreq & Hlog
        & _ & _ & Hcount & _).
  exists stats, w', e, log, evs. split; [reflexivity|].
  split; [by rewrite Hparse|]. split; [exact Hreq|]. split; [exact Hlog|].
  rewrite Hcount.
  assert (He : e = match fst (parse zip_path world) with
                   | Ok e => e | Raise _ => e end) by by rewrite Hparse.
  rewrite He. vm_compute. reflexivity.
Defined.

End SuccessWitness.

(** ** The transformation of a body *)

Section TransformationFacts.
Import MarkdownTransformer.

Lemma plain_rewritten url_mapping o :
  Forall clean_entry url_mapping -> plain_occurrence o ->
  plain_occurrence (rewritten url_mapping o).
Proof.
  unfold rewritten. intros Hm. revert o.
  induction Hm as [|e m He _ IH]; intros o Ho; [done|].
  cbn [foldl]. by apply IH, plain_entry_step.
Qed.

(** A target that stands for a reference is one of its spellings. *)
Lemma pool_reference_spelling target r :
  pool_reference target = Some r -> target ∈ spellings r.
Proof.
  intros (n & tail & Hn & _ & -> & ->)%pool_reference_inv. unfold spellings.
  destruct n as [|[|[|n]]]; [| | |lia]; cbn [repeat app]; set_solver.
Qed.

(** Every spelling of a reference is a path into the pool. *)
Lemma spelling_pool_reference target r u :
  pool_reference target = Some r -> u ∈ spellings r ->
  is_Some (pool_reference u).
Proof.
  intros (n & tail & _ & Htail & _ & ->)%pool_reference_inv Hu.
  unfold spellings in Hu.
  assert (exists k, k <= 2 /\ u = repeat "/" k ++ txt "files/" ++ tail)
    as (k & Hk & ->).
  { apply elem_of_cons in Hu as [->|Hu]; [exists 0; split; [lia|done]|].
    apply elem_of_cons in Hu as [->|Hu]; [exists 1; split; [lia|done]|].
    apply list_elem_of_singleton in Hu as ->. exists 2. split; [lia|done]. }
  rewrite pool_reference_slashes by done. by eexists.
Qed.

Lemma omap_none {A B} (f : A -> option B) l :
  (forall x, x ∈ l -> f x = None) -> omap f l = [].
Proof.
  induction l as [|x l IH]; intros H; [done|]. cbn.
  rewrite (H x) by by left. apply IH. intros y Hy. apply H. by right.
Qed.

(** X12.  No reference into the attachment pool is left in a
    transformed body.  For a body made of plain images and links in
    which no callout block opens, and a mapping whose keys are the
    references of the body and whose URLs are no paths into the pool
    (and hold no bracket, closing parenthesis or backslash),
    [transform_content] succeeds and the extraction finds nothing in
    its result. *)
Theorem X12_no_reference_left os trailer url_mapping :
  Forall plain_occurrence os -> ~ has "[" trailer ->
  starts_nowhere (txt "<details>") (body_of os trailer) [] = true ->
  Forall clean_entry url_mapping ->
  mapping_for (body_of os trailer) url_mapping ->
  exists out,
    transform_content (body_of os trailer) url_mapping = Some out /\
    out = body_of (map (rewritten url_mapping) os) trailer /\
    extract_attachment_references out = [].
Proof.
  intros Hos Htr Hdetails Hclean [Hkeys Hurls].
  rewrite extract_body in Hkeys by done.
  unfold transform_content. rewrite details_trailer by done.
  rewrite replace_body by done. eexists. split; [done|]. split; [done|].
  rewrite extract_body; [| |done].
  2:{ apply Forall_map. apply (Forall_impl _ _ _ Hos). intros o Ho.
      by apply plain_rewritten. }
  assert (Hfresh : fresh_urls url_mapping).
  { intros e e' He He' Hin.
    assert (Hk : fst e' ∈ map fst url_mapping).
    { apply list_elem_of_fmap. by exists e'. }
    apply Hkeys, list_elem_of_omap in Hk as (o & _ & Ho).
    destruct (spelling_pool_reference _ _ _ Ho Hin) as [r Hr].
    by rewrite (Hurls e He) in Hr. }
  apply omap_none. intros o' (o & -> & Ho)%list_elem_of_fmap.
  rewrite rewritten_first by done. unfold entry_for.
  destruct (List.find _ url_mapping) as [[k [url size]]|] eqn:E.
  - apply find_some in E as [Hin _]. apply list_elem_of_In in Hin.
    specialize (Hurls _ Hin). cbn [fst snd] in Hurls. by destruct (image o).
  - destruct (pool_reference (target o)) as [r|] eqn:Hr; [|done]. exfalso.
    assert (Hk : r ∈ map fst url_mapping).
    { apply Hkeys, list_elem_of_omap. by exists o. }
    apply list_elem_of_fmap in Hk as (e & -> & He).
    apply list_elem_of_In in He. apply (find_none _ _ E) in He.
    apply bool_decide_eq_false_1 in He. apply He.
    by apply pool_reference_spelling.
Qed.

(** X12 at a body with an image, a link to the pool and a link to
    another site. *)
Lemma X12_witness :
  transform_content
    (txt "see ![a](/files/u/one.png), [b](files/u/two.pdf) or [c](https://x/y)!")
    [(txt "files/u/one.png", (txt "/api/a?id=1", 10%N));
     (txt "files/u/two.pdf", (txt "/api/a?id=2", 20%N))]
    = Some (txt "see ![a](/api/a?id=1), [b 20](/api/a?id=2) or [c](https://x/y)!") /\
  extract_attachment_references
    (txt "see ![a](/api/a?id=1), [b 20](/api/a?id=2) or [c](https://x/y)!") = [].
Proof.
  pose (os := [ {| gap := txt "see "; image := true; text := txt "a";
                   target := txt "/files/u/one.png" |};
                {| gap := txt ", "; image := false; text := txt "b";
                   target := txt "files/u/two.pdf" |};
                {| gap := txt " or "; image := false; text := txt "c";
                   target := txt "https://x/y" |} ]).
  destruct (X12_no_reference_left os (txt "!")
              [(txt "files/u/one.png", (txt "/api/a?id=1", 10%N));
               (txt "files/u/two.pdf", (txt "/api/a?id=2", 20%N))])
    as (out & Hout & Heq & Hnone).
  - repeat constructor; try (apply not_has_decide; vm_compute; reflexivity);
      cbn; try done.
  - apply not_has_decide. vm_compute. reflexivity.
  - vm_compute. reflexivity.
  - repeat constructor; apply not_has_decide; vm_compute; reflexivity.
  - split.
    + intros r. change (extract_attachment_references (body_of os (txt "!")))
        with (extract_attachment_references
                (txt "see ![a](/files/u/one.png), [b](files/u/two.pdf) or [c](https://x/y)!")).
      assert (Hrefs : extract_attachment_references
                (txt "see ![a](/files/u/one.png), [b](files/u/two.pdf) or [c](https://x/y)!")
              = [txt "files/u/one.png"; txt "files/u/two.pdf"])
        by (vm_compute; reflexivity).
      rewrite Hrefs. reflexivity.
    + intros e He. apply elem_of_cons in He as [->|He]; [reflexivity|].
      apply list_elem_of_singleton in He as ->. reflexivity.
  - split.
    + rewrite Heq in Hout. exact Hout.
    + rewrite Heq in Hnone. exact Hnone.
Defined.

End TransformationFacts.

(** ** A document loop that fails *)

Section FailureFacts.
Import OutlineClient AttachmentHandler DocmostParser Validators Orchestrator MarkdownTransformer.
Variable float : str -> option pyfloat.

(** One round of the loop that raises: no document has been asked for
    but that of the page at hand, at most three times. *)
Lemma process_page_raise e cid i st w x w1 :
  process_page float e cid i st w = (Raise x, w1) ->
  exists evs r k,
    w1 = extend w evs /\ k <= 3 /\ document_requests evs = repeat r k /\
    (0 < k -> request_for cid st i r).
Proof.
  assert (Hnone : forall evs,
            document_requests evs = [] ->
            exists (r : Request) k,
              k <= 3 /\ document_requests evs = repeat r k /\
              (0 < k -> request_for cid st i r)).
  { intros evs ->. exists (collections_info []), 0.
    split; [lia|]. split; [done|]. lia. }
  unfold process_page. unfold mbind at 1, M_bind at 1, bind at 1.
  destruct (store st !! i) as [page|] eqn:Hi; cbn [or_raise ret raise].
  2:{ intros [= _ <-]. exists []. rewrite extend_nil.
      destruct (Hnone [] eq_refl) as (r & k & ?). by exists r, k. }
  unfold mbind at 1, M_bind at 1, bind at 1.
  assert (Hparent : exists res,
    (match parent_path page with
     | Some dir =>
         parent_md ← or_raise (with_suffix dir (txt ".md")) ValueError;
         mret (parent_id_map st !! path_str parent_md)
     | None => mret None
     end) w = (res, w)).
  { destruct (parent_path page) as [dir|]; [|by eexists].
    unfold mbind, M_bind, bind.
    destruct (with_suffix dir (txt ".md")); by eexists. }
  destruct Hparent as [[parent|y] ->].
  2:{ intros [= _ <-]. exists []. rewrite extend_nil.
      destruct (Hnone [] eq_refl) as (r & k & ?). by exists r, k. }
  unfold mbind at 1, M_bind at 1, bind at 1.
  pose proof (process_attachments_quiet float e page (stats st) w) as Hatt.
  destruct Hatt as (evsa & Hwa & Hevsa).
  destruct (process_attachments float (attachments_dir e) page (stats st) w)
    as [[[mapping stats1]|y] wa]; cbn [snd] in Hwa; subst wa.
  2:{ intros [= _ <-]. exists evsa.
      destruct (Hnone evsa Hevsa) as (r & k & ?). by exists r, k. }
  unfold mbind at 1, M_bind at 1, bind at 1.
  destruct (transform_content (content page) mapping) as [text|];
    cbn [or_raise ret raise].
  2:{ intros [= _ <-]. exists evsa.
      destruct (Hnone evsa Hevsa) as (r & k & ?). by exists r, k. }
  unfold mbind at 1, M_bind at 1, bind at 1.
  destruct (retrying_requests float
              (documents_create (title page) text cid (if_truthy parent) true)
              decode_document (extend w evsa) decode_document_silent)
    as (evsd & k & Hwd & Hreq & Hk).
  change (retrying float
            (documents_create (title page) text cid (if_truthy parent) true)
            decode_document)
    with (create_document float (title page) text cid parent true) in Hwd.
  destruct (create_document float (title page) text cid parent true _)
    as [[document|y] wd]; [done|].
  cbn [snd] in Hwd. subst wd. intros [= _ <-].
  exists (evsa ++ evsd),
    (documents_create (title page) text cid (if_truthy parent) true), k.
  split; [by rewrite extend_extend|]. split; [lia|]. split.
  - rewrite document_requests_app, Hevsa. cbn [app]. unfold document_requests.
    rewrite Hreq. by apply filter_repeat_document.
  - intros _. by exists page, text, (if_truthy parent).
Qed.

(** The loop that raises, from any state: the rounds of the pages
    before the one that fails, as a loop over them alone, then the round
    that raises, and nothing after it. *)
Lemma documents_loop_raise e cid pages st w x w' :
  for_each pages (process_page float e cid) st w = (Raise x, w') ->
  exists done i rest st1 log evsa evsb r k,
    pages = done ++ i :: rest /\
    documents_made e cid st done log st1 /\
    for_each done (process_page float e cid) st w = (Ok st1, extend w evsa) /\
    process_page float e cid i st1 (extend w evsa) = (Raise x, w') /\
    w' = extend (extend w evsa) evsb /\ k <= 3 /\
    document_requests evsa = sent_out log /\
    document_requests evsb = repeat r k /\
    (0 < k -> request_for cid st1 i r).
Proof.
  revert st w. induction pages as [|i pages IH]; intros st w; cbn [for_each];
    [done|].
  unfold bind at 1.
  destruct (process_page float e cid i st w) as [[st1|y] w1] eqn:Hstep.
  - pose proof Hstep as Hrun.
    apply process_page_ok in Hstep
      as (page & parent & text & id & k1 & evs1 & Hi & Hfound & Htext & Hk1
          & -> & -> & Hreq).
    intros (done & j & rest & st2 & log & evsa & evsb & r & k & -> & Hmade
            & Hdone & Hfail & -> & Hk & Hreqa & Hreqb & Hfor)%IH.
    rewrite extend_extend in Hdone.
    rewrite !extend_extend, <- ?app_assoc in Hfail.
    exists (i :: done), j, rest, st2; eexists (_ :: log), (evs1 ++ evsa), evsb, r, k.
    split; [done|]. split; [by econstructor|].
    split; [cbn [for_each]; unfold bind at 1; by rewrite Hrun|].
    split; [by rewrite !extend_extend, <- ?app_assoc|].
    split; [by rewrite !extend_extend, <- ?app_assoc|]. split; [done|].
    split; [|done].
    rewrite document_requests_app, Hreq, Hreqa. by unfold sent_out.
  - intros [= <- <-]. pose proof Hstep as Hrun.
    apply process_page_raise in Hstep as (evs & r & k & -> & Hk & Hreq & Hfor).
    exists [], i, pages, st, [], [], evs, r, k. rewrite !extend_nil.
    split; [done|]. split; [constructor|]. done.
Qed.

(** X13.  A document loop that raises stops at the first page that
    fails and undoes nothing.  It has run the rounds of the pages
    before that page in the list of all pages, exactly as a loop over
    those pages alone, which ends normally, and then the round of the
    page that fails, which raises the error of the loop; no round of a
    later page is started, so nothing is sent for the pages after it.
    The documents asked for are those of the pages before, in order, as
    in a loop that ends normally; in the round that fails the document
    requests are at most three sendings of one request, for the
    document of that page (none when the round fails before, as in the
    uploads of its attachments, whose requests that round may have
    sent).  The local files are as before. *)
Theorem X13_partial_migration e cid w x w' :
  migrate_documents float e cid w = (Raise x, w') ->
  exists done i rest st w1 log r k,
    all_pages e = done ++ i :: rest /\
    for_each done (process_page float e cid) (start e) w = (Ok st, w1) /\
    process_page float e cid i st w1 = (Raise x, w') /\
    documents_made e cid (start e) done log st /\
    length log = length done /\
    document_requests (new_events w w1) = sent_out log /\
    document_requests (new_events w1 w') = repeat r k /\
    document_requests (new_events w w') = sent_out log ++ repeat r k /\
    k <= 3 /\ (0 < k -> request_for cid st i r) /\
    fs w' = fs w.
Proof.
  unfold migrate_documents. fold (start e).
  intros (done & i & rest & st & log & evsa & evsb & r & k & Hall & Hmade
          & Hdone & Hfail & -> & Hk & Hreqa & Hreqb & Hfor)%documents_loop_raise.
  destruct (documents_made_end _ _ _ _ _ _ Hmade) as (Hlen & _).
  exists done, i, rest, st, (extend w evsa), log, r, k.
  do 5 (split; [done|]). rewrite !new_events_extend.
  do 2 (split; [done|]).
  rewrite extend_extend, new_events_extend, document_requests_app, Hreqa, Hreqb.
  done.
Qed.

End FailureFacts.

Section FailureWitness.
Import OutlineClient DocmostParser Orchestrator.

(** X13 at the scenario with a server that refuses every call after
    the first: the loop stops at a page of the list, after the rounds
    of the pages before it. *)
Lemma X13_witness :
  exists e x w' done i rest st w1 log r k,
    fst (parse zip_path world) = Ok e /\
    migrate_documents decimal_float e (txt "col-1") tiring_world
      = (Raise x, w') /\
    all_pages e = done ++ i :: rest /\
    for_each done (process_page decimal_float e (txt "col-1")) (start e)
             tiring_world = (Ok st, w1) /\
    process_page decimal_float e (txt "col-1") i st w1 = (Raise x, w') /\
    length log = length done /\
    document_requests (new_events tiring_world w')
      = sent_out log ++ repeat r k /\
    k <= 3.
Proof.
  destruct (fst (parse zip_path world)) as [e|x] eqn:H;
    [|vm_compute in H; discriminate H].
  assert (He : e = match fst (parse zip_path world) with
                   | Ok e => e | Raise _ => e end) by by rewrite H.
  destruct (migrate_documents decimal_float e (txt "col-1") tiring_world)
    as [[final|x] w'] eqn:Hm;
    [rewrite He in Hm; vm_compute in Hm; discriminate Hm|].
  destruct (X13_partial_migration decimal_float e (txt "col-1") tiring_world
              x w' Hm)
    as (done & i & rest & st & w1 & log & r & k & Hall & Hdone & Hfail & _
        & Hlen & _ & _ & Hreq & Hk & _).
  exists e, x, w', done, i, rest, st, w1, log, r, k. done.
Defined.

End FailureWitness.

(** ** A missing attachment *)

Section MissingFacts.
Import OutlineClient AttachmentHandler DocmostParser Validators Orchestrator MarkdownTransformer.
Variable float : str -> option pyfloat.

(** The upload loop raises when one of its references resolves to no
    file: at that reference, unless an upload before it has failed. *)
Lemma uploads_loop_missing dir refs ref m0 w :
  ref ∈ refs ->
  resolve_reference (fs w) dir (lstrip_slash ref) = None ->
  exists x,
    fst (for_each refs
           (fun ref_path url_mapping =>
              let clean_path := lstrip_slash ref_path in
              let intended_name := name (parts_of clean_path) in
              fs0 ← get_fs;
              full_path ← or_raise (resolve_reference fs0 dir clean_path)
                                   (FileNotFoundError ref_path);
              uploaded ← upload_attachment float full_path (Some intended_name);
              mret (dict_set ref_path uploaded url_mapping))
           m0 w) = Raise x.
Proof.
  intros Hin Hnone. revert m0 w Hnone.
  induction refs as [|r refs IH]; intros m0 w Hnone; [by apply elem_of_nil in Hin|].
  cbn [for_each]. unfold bind at 1. cbn zeta.
  unfold mbind at 1, M_bind at 1, bind at 1, get_fs at 1.
  unfold mbind at 1, M_bind at 1, bind at 1.
  destruct (resolve_reference (fs w) dir (lstrip_slash r)) as [full|] eqn:Hres;
    cbn [or_raise ret raise]; [|by eexists].
  unfold mbind at 1, M_bind at 1, bind at 1.
  destruct (upload_attachment float full _ w) as [[up|y] w1] eqn:Hup;
    [|by eexists].
  apply upload_attachment_ok in Hup as (evs1 & -> & _).
  cbn [mret M_ret ret].
  apply elem_of_cons in Hin as [->|Hin]; [congruence|].
  by apply IH.
Qed.

(** X14.  A page that refers to an attachment that cannot be found
    gets no document: when one of the references extracted from its
    body resolves to no file, the round of the loop for the page
    raises, no document has been asked for by then, and the local files
    are as before.  When it is the first extracted reference that
    resolves to no file, and the parent path of the page, if it has
    one, has a last component, the error is the file-not-found error
    with that reference as the extraction returns it, that is without
    the leading slashes the body may spell it with, and nothing at all
    has been sent. *)
Theorem X14_missing_attachment e cid i st w page dir ref :
  store st !! i = Some page ->
  attachments_dir e = Some dir ->
  ref ∈ extract_attachment_references (content page) ->
  resolve_reference (fs w) dir (lstrip_slash ref) = None ->
  (exists x w1,
     process_page float e cid i st w = (Raise x, w1) /\
     document_requests (new_events w w1) = [] /\ fs w1 = fs w) /\
  (forall refs,
     extract_attachment_references (content page) = ref :: refs ->
     (forall pdir, parent_path page = Some pdir ->
                   with_suffix pdir (txt ".md") <> None) ->
     process_page float e cid i st w = (Raise (FileNotFoundError ref), w)).
Proof.
  intros Hi Hdir Hin Hnone.
  assert (Hatt : exists x,
            fst (process_attachments float (attachments_dir e) page (stats st) w)
              = Raise x).
  { unfold process_attachments. rewrite Hdir.
    destruct (extract_attachment_references (content page)) as [|r refs] eqn:Hrefs;
      [by apply elem_of_nil in Hin|].
    unfold mbind, M_bind, bind, upload_attachments_for_references.
    destruct (uploads_loop_missing dir (r :: refs) ref [] w Hin Hnone) as [x Hx].
    destruct (for_each (r :: refs) _ [] w) as [[m|y] w1]; [done|]. by exists y. }
  split.
  - assert (Hrun : exists x w1 evs,
              process_page float e cid i st w = (Raise x, w1) /\
              w1 = extend w evs /\ document_requests evs = []).
    { destruct Hatt as [y Hy].
      pose proof (process_attachments_quiet float e page (stats st) w)
        as (evsa & Hwa & Hevsa).
      unfold process_page. unfold mbind at 1, M_bind at 1, bind at 1.
      rewrite Hi. cbn [or_raise ret].
      unfold mbind at 1, M_bind at 1, bind at 1.
      destruct (parent_path page) as [pdir|].
      - unfold mbind at 1, M_bind at 1, bind at 1.
        destruct (with_suffix pdir (txt ".md")); cbn [or_raise ret raise].
        + cbn [mret M_ret ret]. unfold mbind at 1, M_bind at 1, bind at 1.
          destruct (process_attachments float _ page (stats st) w)
            as [[?|z] wa]; [done|]. cbn [snd] in Hwa.
          by exists z, wa, evsa.
        + exists ValueError, w, []. by rewrite extend_nil.
      - cbn [mret M_ret ret]. unfold mbind at 1, M_bind at 1, bind at 1.
        destruct (process_attachments float _ page (stats st) w)
          as [[?|z] wa]; [done|]. cbn [snd] in Hwa.
        by exists z, wa, evsa. }
    destruct Hrun as (x & w1 & evs & Hrun & -> & Hevs).
    exists x, (extend w evs). split; [done|].
    by rewrite new_events_extend.
  - intros refs Hrefs Hparent. unfold process_page.
    unfold mbind at 1, M_bind at 1, bind at 1. rewrite Hi.
    cbn [or_raise ret]. unfold mbind at 1, M_bind at 1, bind at 1.
    assert (Hp : exists parent,
      (match parent_path page with
       | Some dir =>
           parent_md ← or_raise (with_suffix dir (txt ".md")) ValueError;
           mret (parent_id_map st !! path_str parent_md)
       | None => mret None
       end) w = (Ok parent, w)).
    { destruct (parent_path page) as [pdir|]; [|by eexists].
      unfold mbind, M_bind, bind.
      destruct (with_suffix pdir (txt ".md")) eqn:Hs; [by eexists|].
      by destruct (Hparent pdir eq_refl). }
    destruct Hp as [parent ->].
    unfold mbind at 1, M_bind at 1, bind at 1.
    unfold process_attachments. rewrite Hdir, Hrefs.
    unfold mbind at 1, M_bind at 1, bind at 1.
    unfold upload_attachments_for_references. cbn [for_each].
    unfold bind at 1. cbn zeta.
    unfold mbind at 1, M_bind at 1, bind at 1, get_fs at 1.
    unfold mbind at 1, M_bind at 1, bind at 1. by rewrite Hnone.
Qed.

End MissingFacts.

Section MissingWitness.
Import OutlineClient AttachmentHandler DocmostParser Validators Orchestrator MarkdownTransformer.

(** X14 at the unpacked scenario: a page that shows first an image of
    no pool makes its round raise with the reference, without the
    leading slash of the body, nothing sent. *)
Lemma X14_witness :
  let e := {| space_name := txt "Space"; root_pages := [0]; all_pages := [0];
              attachments_dir := Some space_root; temp_dir := tmp;
              page_store := [orphan_page] |} in
  process_page decimal_float e (txt "col-1") 0 (start e) unpacked
    = (Raise (FileNotFoundError (txt "files/u9/gone.png")), unpacked).
Proof.
  intros e.
  destruct (X14_missing_attachment decimal_float e (txt "col-1") 0 (start e)
              unpacked orphan_page space_root (txt "files/u9/gone.png"))
    as [_ Hfirst].
  - reflexivity.
  - reflexivity.
  - apply (bool_decide_unpack _). vm_compute. exact I.
  - vm_compute. reflexivity.
  - apply (Hfirst [txt "files/u1/img.png"]).
    + vm_compute. reflexivity.
    + intros pdir Hp. discriminate Hp.
Defined.

End MissingWitness.

(** ** The embedding on concrete inputs *)

Section Examples.
Import Re MarkdownTransformer OutlineClient DocmostParser Orchestrator.

Example strip_both_ends : strip (txt "  a b  ") = txt "a b".
Proof. reflexivity. Qed.

Example lstrip_slash_all : lstrip_slash (txt "//files/x") = txt "files/x".
Proof. reflexivity. Qed.

Example split_on_empty_part :
  split_on "/" (txt "a//b") = [txt "a"; []; txt "b"].
Proof. reflexivity. Qed.

Example str_of_N_decimal : str_of_N 2048 = txt "2048" /\ str_of_N 0 = txt "0".
Proof. split; reflexivity. Qed.

Example parts_of_normalises :
  parts_of (txt "a/./b//c/") = [txt "a"; txt "b"; txt "c"].
Proof. reflexivity. Qed.

Example suffix_last_dot :
  suffix_of_name (txt "archive.tar.gz") = txt ".gz" /\
  suffix_of_name (txt ".bashrc") = [] /\
  suffix_of_name (txt "file.") = [].
Proof. repeat split; reflexivity. Qed.

Example with_suffix_replaces :
  with_suffix [txt "a"; txt "v1.2"] (txt ".md") = Some [txt "a"; txt "v1.md"] /\
  with_suffix [] (txt ".md") = None.
Proof. split; reflexivity. Qed.

Example parents_nearest_first :
  parents [txt "a"; txt "b"; txt "c.md"] = [[txt "a"; txt "b"]; [txt "a"]; []].
Proof. reflexivity. Qed.

Example findall_two_slashes_at_most :
  findall reference_pattern
    (txt "![x](files/a) [y](/files/b) [z](http://q) [w](///files/c)")
    = [txt "files/a"; txt "/files/b"].
Proof. vm_compute. reflexivity. Qed.

Example template_bad_escape :
  compile_template (image_pattern (txt "x")) (txt "\q") = None.
Proof. reflexivity. Qed.

Example template_groups_and_escapes :
  sub_template (image_pattern (txt "p")) (txt "<\1|\g<1>|\\|\n>")
               (txt "a![alt](p)b")
    = Some (txt "a<alt|alt|\|" ++ [LF] ++ txt ">b").
Proof. vm_compute. reflexivity. Qed.

(** The scenario read by the parser: the child is linked under the root
    page, the page of the directory without markdown file beside it is
    in the flat list only. *)
Example scenario_parsed :
  match fst (parse zip_path world) with
  | Ok e =>
      map (fun p => (title p, level p, children p)) (page_store e)
        = [(txt "root", 0%Z, [1]); (txt "child", 1%Z, []);
           (txt "page", 1%Z, [])] /\
      all_pages e = [0; 1; 2] /\ root_pages e = [0] /\
      attachments_dir e = Some space_root
  | Raise _ => False
  end.
Proof. vm_compute. repeat split. Qed.

(** The scenario migrated: three documents, the image delivered once per
    reference, the child created under the document of the root page
    with both images pointing at the attachment delivered last, and the
    temporary directory made and removed. *)
Example scenario_migrated :
  let '(r, w) := migrate decimal_float (25 * 1024 * 1024) zip_path None world in
  (exists stats, r = Ok (txt "col-1", stats) /\
                 documents_created stats = 3%N /\
                 attachments_uploaded stats = 2%N) /\
  uploaded_files (trace w)
    = [space_root ++ [txt "files"; txt "u1"; txt "img.png"];
       space_root ++ [txt "files"; txt "u1"; txt "img.png"]] /\
  omap (fun e => match e with
                 | EvRequest (documents_create t x _ p _) => Some (t, x, p)
                 | _ => None
                 end) (trace w)
    = [(txt "root", txt "# Root", None);
       (txt "child",
        txt "![a](/api/attachments.redirect?id=4) and ![b](/api/attachments.redirect?id=4)",
        Some (txt "doc-root"));
       (txt "page", txt "text", None)] /\
  temp_events (trace w) = [EvMkdtemp tmp; EvRmtree tmp] /\
  map fst (fs w) = [[txt "home"]; zip_path].
Proof.
  vm_compute. split; [eexists; repeat split|]. repeat split.
Qed.

End Examples.
